(** * LSM-tree storage engine: memtable, write-ahead log and SSTable writer

    A shallow embedding of the C++ sources (util/, memtable/, db/, wal/,
    sstable/) and the properties proved about them.

    Conventions of the embedding:
    - a byte ([char], [uint8_t]) is a [Z] in [0, 256); a [std::string] or a
      [Slice] is a [list Z];
    - [uint16_t], [uint32_t], [uint64_t] and [size_t] values are [Z] with the
      wrap-around written out ([wrap16], [wrap32], [wrap64]);
    - small [int] counters that index arrays (skip-list levels, loop
      counters) are [nat];
    - a pointer into the arena is the index of the node, [nullptr] is [None];
    - a function that may read outside its buffer, or whose loop needs fuel,
      returns an [option]: [None] is "no result in the model". *)

From Stdlib Require Import ZArith List Lia Bool Floats Uint63 Permutation Sorted.
From stdpp Require Import base option list sorting.

Local Open Scope Z_scope.

(* ====================================================================== *)
(** * Part I: the embedding                                                *)
(* ====================================================================== *)

(** ** Machine integers *)

Definition wrap8  (z : Z) : Z := z mod 2 ^ 8.
Definition wrap16 (z : Z) : Z := z mod 2 ^ 16.
Definition wrap32 (z : Z) : Z := z mod 2 ^ 32.
Definition wrap64 (z : Z) : Z := z mod 2 ^ 64.

Notation "'bytes'" := (list Z) (only parsing).

(** [Z.of_nat (length s)]: what [std::string::size()] returns. *)
Definition size {A} (s : list A) : Z := Z.of_nat (length s).

(** ** util/types.h *)

Module Types.

Definition SequenceNumber := Z.
Definition kMaxSequenceNumber : Z := 2 ^ 64 - 1.

Inductive ValueType := kValue | kDeletion.

(** [static_cast<uint8_t>(type)] *)
Definition ValueType_tag (t : ValueType) : Z :=
  match t with kValue => 1 | kDeletion => 2 end.

Definition ValueType_eqb (a b : ValueType) : bool :=
  match a, b with
  | kValue, kValue | kDeletion, kDeletion => true
  | _, _ => false
  end.

Record InternalKey := mkInternalKey {
  user_key : bytes;
  sequence : SequenceNumber;
  type : ValueType
}.

Inductive LookupResult :=
| NotFound
| Found (value : bytes)
| Deleted.

(** [LookupResult::found] *)
Definition found (r : LookupResult) : bool :=
  match r with NotFound => false | _ => true end.

Inductive StatusCode :=
| kOk | kNotFound | kCorruption | kNotSupported
| kInvalidArgument | kIOError | kMemoryLimit.

(** A [Status] is its code; the message string plays no part in control
    flow. *)
Definition Status := StatusCode.
Definition OK : Status := kOk.
Definition Corruption : Status := kCorruption.
Definition IOError : Status := kIOError.

Definition ok (s : Status) : bool :=
  match s with kOk => true | _ => false end.
Definition IsCorruption (s : Status) : bool :=
  match s with kCorruption => true | _ => false end.

Record MemTableOptions := mkMemTableOptions {
  max_size : Z
}.
Definition default_MemTableOptions : MemTableOptions :=
  {| max_size := 4 * 1024 * 1024 |}.

(** [std::string::compare] / [std::string_view::compare]: bytes compared
    as unsigned chars, then the lengths.  Only the sign of the result is
    specified by the language; the embedding returns -1, 0 or 1. *)
Fixpoint compare (a b : bytes) : Z :=
  match a, b with
  | [], [] => 0
  | [], _ :: _ => -1
  | _ :: _, [] => 1
  | x :: a', y :: b' =>
      if x <? y then -1 else if y <? x then 1 else compare a' b'
  end.

(** [operator==] on strings. *)
Fixpoint bytes_eqb (a b : bytes) : bool :=
  match a, b with
  | [], [] => true
  | x :: a', y :: b' => (x =? y) && bytes_eqb a' b'
  | _, _ => false
  end.

End Types.
Import Types.

(** ** sstable/sstable_format.h *)

Module Format.

Definition kSSTableMagic : Z := 0x53535461626C6531.
Definition kFooterSize : Z := 64.
Definition kBlockTrailerSize : Z := 5.
Definition kDefaultBlockSize : Z := 4096.
Definition kDefaultRestartInterval : nat := 16.

Inductive BlockType := kData | kIndex.
Definition BlockType_tag (t : BlockType) : Z :=
  match t with kData => 0 | kIndex => 1 end.

(** *** class FixedEncode *)

(** [EncodeFixed32]: [buf[i] = (val >> 8i) & 0xff]. *)
Definition EncodeFixed32 (val : Z) : bytes :=
  [ Z.land val 255;
    Z.land (Z.shiftr val 8) 255;
    Z.land (Z.shiftr val 16) 255;
    Z.land (Z.shiftr val 24) 255 ].

(** [EncodeFixed64]: the loop [for i in 0..7: buf[i] = (val >> (i*8)) & 0xff]. *)
Definition EncodeFixed64 (val : Z) : bytes :=
  map (fun i : nat => Z.land (Z.shiftr val (Z.of_nat i * 8)) 255) (seq 0 8).

Definition PutFixed32 (dst : bytes) (val : Z) : bytes := dst ++ EncodeFixed32 val.
Definition PutFixed64 (dst : bytes) (val : Z) : bytes := dst ++ EncodeFixed64 val.

(** [DecodeFixed32(p)]: reads [p[0..3]]; [None] when fewer than four bytes
    are left in the buffer behind [p]. *)
Definition DecodeFixed32 (p : bytes) : option Z :=
  match p with
  | b0 :: b1 :: b2 :: b3 :: _ =>
      Some (wrap32 (Z.lor (Z.lor (Z.lor b0 (Z.shiftl b1 8)) (Z.shiftl b2 16))
                          (Z.shiftl b3 24)))
  | _ => None
  end.

(** [DecodeFixed64(p)]: [result |= uint64(p[i]) << (i*8)] for [i] in 0..7. *)
Definition DecodeFixed64 (p : bytes) : option Z :=
  if (length p <? 8)%nat then None
  else Some (fold_left
               (fun result (i : nat) =>
                  Z.lor result (wrap64 (Z.shiftl (nth i p 0) (Z.of_nat i * 8))))
               (seq 0 8) 0).

(** *** class Varint / BlockHandle's private varint helpers

    [PutVarint32] and [PutVarint64] have the same body; the loop
    [while (v >= 128)] runs at most nine times on a 64-bit value, so ten
    rounds of fuel cover every [uint64_t]. *)
Fixpoint PutVarint_loop (fuel : nat) (dst : bytes) (v : Z) : bytes :=
  match fuel with
  | O => dst ++ [wrap8 v]
  | S fuel' =>
      if 128 <=? v
      then PutVarint_loop fuel' (dst ++ [wrap8 (Z.lor v 128)]) (Z.shiftr v 7)
      else dst ++ [wrap8 v]
  end.

Definition PutVarint64 (dst : bytes) (v : Z) : bytes := PutVarint_loop 10 dst v.
Definition PutVarint32 (dst : bytes) (v : Z) : bytes := PutVarint_loop 10 dst v.

(** [GetVarint64(Slice* input, uint64_t* value)]: returns the flag, the
    value accumulated so far and what is left of the input.  The loop
    [for (shift = 0; shift <= 63 && !input->empty(); shift += 7)] makes at
    most ten rounds. *)
Fixpoint GetVarint64_loop (rounds : nat) (shift : Z) (input : bytes) (value : Z)
  : bool * Z * bytes :=
  match rounds with
  | O => (false, value, input)
  | S rounds' =>
      if negb (shift <=? 63) then (false, value, input) else
      match input with
      | [] => (false, value, input)
      | byte :: rest =>
          if negb (Z.land byte 128 =? 0)
          then GetVarint64_loop rounds' (shift + 7) rest
                 (Z.lor value (wrap64 (Z.shiftl (Z.land byte 127) shift)))
          else (true, Z.lor value (wrap64 (Z.shiftl byte shift)), rest)
      end
  end.

Definition GetVarint64 (input : bytes) : bool * Z * bytes :=
  GetVarint64_loop 10 0 input 0.

(** [Varint::VarintLength] *)
Fixpoint VarintLength_loop (fuel : nat) (v : Z) (len : Z) : Z :=
  match fuel with
  | O => len
  | S fuel' => if 128 <=? v then VarintLength_loop fuel' (Z.shiftr v 7) (len + 1) else len
  end.
Definition VarintLength (v : Z) : Z := VarintLength_loop 10 v 1.

(** *** struct BlockHandle *)

Record BlockHandle := mkBlockHandle { offset : Z; size_ : Z }.

Definition BlockHandle_default : BlockHandle := {| offset := 0; size_ := 0 |}.

Definition BlockHandle_Encode (h : BlockHandle) : bytes :=
  PutVarint64 (PutVarint64 [] (offset h)) (size_ h).

(** [BlockHandle::Decode(Slice* input)]:
    [GetVarint64(input, &offset) && GetVarint64(input, &size)]; the fields
    are overwritten as far as the decoding got. *)
Definition BlockHandle_Decode (self : BlockHandle) (input : bytes)
  : bool * BlockHandle * bytes :=
  match GetVarint64 input with
  | (false, v, rest) => (false, {| offset := v; size_ := size_ self |}, rest)
  | (true, v, rest) =>
      match GetVarint64 rest with
      | (b, w, rest') => (b, {| offset := v; size_ := w |}, rest')
      end
  end.

(** *** struct Footer *)

Record Footer := mkFooter {
  index_handle : BlockHandle;
  bloom_handle : BlockHandle;
  num_entries : Z;
  min_sequence : Z;
  max_sequence : Z;
  min_key : bytes;
  max_key : bytes
}.

Definition Footer_default : Footer :=
  {| index_handle := BlockHandle_default; bloom_handle := BlockHandle_default;
     num_entries := 0; min_sequence := 0; max_sequence := 0;
     min_key := []; max_key := [] |}.

(** [while (result.size() < kFooterSize - 8) result.push_back(0)] *)
Definition pad_to (n : Z) (result : bytes) : bytes :=
  result ++ repeat 0 (Z.to_nat (n - size result)).

Definition Footer_Encode (f : Footer) : bytes :=
  let result := [] in
  let handle_enc := BlockHandle_Encode (index_handle f) in
  let result := PutFixed32 result (wrap32 (size handle_enc)) in
  let result := result ++ handle_enc in
  let bloom_enc := BlockHandle_Encode (bloom_handle f) in
  let result := PutFixed32 result (wrap32 (size bloom_enc)) in
  let result := result ++ bloom_enc in
  let result := PutFixed64 result (num_entries f) in
  let result := PutFixed64 result (min_sequence f) in
  let result := PutFixed64 result (max_sequence f) in
  let result := PutFixed32 result (wrap32 (size (min_key f))) in
  let result := result ++ min_key f in
  let result := PutFixed32 result (wrap32 (size (max_key f))) in
  let result := result ++ max_key f in
  let result := pad_to (kFooterSize - 8) result in
  PutFixed64 result kSSTableMagic.

(** A [Slice(p, n)] over the buffer that starts at [p]; [None] when the
    slice would reach past the end of the buffer. *)
Definition slice (p : bytes) (n : Z) : option bytes :=
  if n <=? size p then Some (take (Z.to_nat n) p) else None.

(** [p += n] *)
Definition advance (p : bytes) (n : Z) : bytes := drop (Z.to_nat n) p.

(** [Footer::Decode(Slice input)]: the flag returned and the fields of
    [*this] afterwards. *)
Definition Footer_Decode (self : Footer) (input : bytes) : option (bool * Footer) :=
  if size input <? kFooterSize then Some (false, self) else
  magic ← DecodeFixed64 (advance input (size input - 8));
  if negb (magic =? kSSTableMagic) then Some (false, self) else
  let p := input in
  handle_len ← DecodeFixed32 p;
  let p := advance p 4 in
  handle_slice ← slice p handle_len;
  let '(okh, ih, _) := BlockHandle_Decode (index_handle self) handle_slice in
  let self := {| index_handle := ih; bloom_handle := bloom_handle self;
                 num_entries := num_entries self; min_sequence := min_sequence self;
                 max_sequence := max_sequence self;
                 min_key := min_key self; max_key := max_key self |} in
  if negb okh then Some (false, self) else
  let p := advance p handle_len in
  bloom_len ← DecodeFixed32 p;
  let p := advance p 4 in
  bloom_slice ← slice p bloom_len;
  let '(okb, bh, _) := BlockHandle_Decode (bloom_handle self) bloom_slice in
  let self := {| index_handle := ih; bloom_handle := bh;
                 num_entries := num_entries self; min_sequence := min_sequence self;
                 max_sequence := max_sequence self;
                 min_key := min_key self; max_key := max_key self |} in
  if negb okb then Some (false, self) else
  let p := advance p bloom_len in
  ne ← DecodeFixed64 p; let p := advance p 8 in
  mins ← DecodeFixed64 p; let p := advance p 8 in
  maxs ← DecodeFixed64 p; let p := advance p 8 in
  min_key_len ← DecodeFixed32 p; let p := advance p 4 in
  mink ← slice p min_key_len; let p := advance p min_key_len in
  max_key_len ← DecodeFixed32 p; let p := advance p 4 in
  maxk ← slice p max_key_len;
  Some (true, {| index_handle := ih; bloom_handle := bh;
                 num_entries := ne; min_sequence := mins; max_sequence := maxs;
                 min_key := mink; max_key := maxk |}).

End Format.

(** A fold whose step may have no result. *)
Fixpoint foldM {A B} (f : B -> A -> option B) (l : list A) (b : B) : option B :=
  match l with
  | [] => Some b
  | a :: l' => b' ← f b a; foldM f l' b'
  end.

(** ** util/bloom_filter.h *)

Module Bloom.

(** *** class MurmurHash *)

Definition m : Z := 0xc6a4a7935bd1e995.
Definition r : Z := 47.

(** One [uint64_t] read through [reinterpret_cast<const uint64_t*>]: the
    eight bytes in host order, taken little-endian (x86-64, AArch64). *)
Definition load64 (p : bytes) : Z :=
  fold_right (fun b acc => wrap8 b + 256 * acc) 0 (take 8 p).

(** The block loop of [Hash64]: [blocks] is the data still to be read. *)
Fixpoint Hash64_blocks (nblocks : nat) (blocks : bytes) (h : Z) : Z :=
  match nblocks with
  | O => h
  | S n =>
      let k := load64 blocks in
      let k := wrap64 (k * m) in
      let k := Z.lxor k (Z.shiftr k r) in
      let k := wrap64 (k * m) in
      let h := Z.lxor h k in
      let h := wrap64 (h * m) in
      Hash64_blocks n (drop 8 blocks) h
  end.

(** The fall-through [switch (len & 7)]: case [c] xors in [tail[c-1]] and
    falls to case [c-1]; case 1 also multiplies and folds [k] into [h]. *)
Fixpoint Hash64_tail (c : nat) (tail : bytes) (k : Z) (h : Z) : Z :=
  match c with
  | O => h
  | S c' =>
      let k := Z.lxor k (wrap64 (Z.shiftl (wrap8 (nth c' tail 0)) (8 * Z.of_nat c'))) in
      match c' with
      | O => let k := wrap64 (k * m) in Z.lxor h k
      | S _ => Hash64_tail c' tail k h
      end
  end.

Definition Hash64 (data : bytes) (seed : Z) : Z :=
  let len := size data in
  let h := Z.lxor seed (wrap64 (len * m)) in
  let nblocks := Z.to_nat (len / 8) in
  let h := Hash64_blocks nblocks data h in
  let tail := drop (nblocks * 8) data in
  let h := Hash64_tail (Z.to_nat (Z.land len 7)) tail 0 h in
  let h := Z.lxor h (Z.shiftr h r) in
  let h := wrap64 (h * m) in
  let h := Z.lxor h (Z.shiftr h r) in
  h.

Definition Hash128 (data : bytes) : Z * Z :=
  let h1 := Hash64 data 0 in
  let h2 := Hash64 data h1 in
  (h1, h2).

(** *** struct BloomFilterPolicy *)

Record BloomFilterPolicy := mkPolicy { bits_per_key : Z }.
Definition default_policy : BloomFilterPolicy := {| bits_per_key := 10 |}.

(** [int] to [double]: exact, an [int] has at most 31 significant bits. *)
Definition double_of_int (z : Z) : float :=
  if z <? 0 then PrimFloat.opp (PrimFloat.of_uint63 (Uint63.of_Z (- z)))
  else PrimFloat.of_uint63 (Uint63.of_Z z).

(** [static_cast<int>(double)]: truncation toward zero (the products that
    occur are far inside the range of [int]). *)
Definition int_of_double (f : float) : Z :=
  match Prim2SF f with
  | S754_finite s mant e =>
      let mag := if 0 <=? e then Z.pos mant * 2 ^ e else Z.pos mant / 2 ^ (- e) in
      if s then - mag else mag
  | _ => 0
  end.

(** The literal [0.69314718056] is read as the nearest binary64 number,
    as the C++ compiler does. *)
#[warnings="-inexact-float"]
Definition ln2_literal : float := 0.69314718056%float.

Definition OptimalNumHashes (p : BloomFilterPolicy) : Z :=
  let k := int_of_double (PrimFloat.mul (double_of_int (bits_per_key p)) ln2_literal) in
  let k := if k <? 1 then 1 else k in
  let k := if 30 <? k then 30 else k in
  k.

(** *** class BloomFilterBuilder *)

Record BloomFilterBuilder := mkBuilder {
  policy_ : BloomFilterPolicy;
  hashes_ : list (Z * Z);
  num_keys_ : Z
}.

Definition new_builder (policy : BloomFilterPolicy) : BloomFilterBuilder :=
  {| policy_ := policy; hashes_ := []; num_keys_ := 0 |}.

Definition AddKey (b : BloomFilterBuilder) (key : bytes) : BloomFilterBuilder :=
  {| policy_ := policy_ b;
     hashes_ := hashes_ b ++ [Hash128 key];
     num_keys_ := wrap64 (num_keys_ b + 1) |}.

Definition NumKeys (b : BloomFilterBuilder) : Z := num_keys_ b.

(** [bit_pos = (h1 + i * h2) % num_bits] in [uint64_t] arithmetic. *)
Definition bit_pos (h1 h2 : Z) (i : nat) (num_bits : Z) : Z :=
  wrap64 (h1 + wrap64 (Z.of_nat i * h2)) mod num_bits.

(** [data[bit_pos / 8] |= (1 << (bit_pos % 8))] *)
Definition set_bit (data : bytes) (pos : Z) : bytes :=
  let idx := Z.to_nat (pos / 8) in
  <[ idx := Z.lor (nth idx data 0) (Z.shiftl 1 (pos mod 8)) ]> data.

(** The two nested loops of [CreateFilter]; the remainder by [num_bits]
    has no result when [num_bits] is zero. *)
Definition set_key_bits (num_hashes : Z) (num_bits : Z) (data : bytes) (h : Z * Z)
  : option bytes :=
  foldM (fun data i =>
           if num_bits =? 0 then None
           else Some (set_bit data (bit_pos (fst h) (snd h) i num_bits)))
        (seq 0 (Z.to_nat num_hashes)) data.

Definition CreateFilter (b : BloomFilterBuilder) (num_bits : Z) : option bytes :=
  let num_bytes := num_bits / 8 in
  let num_hashes := OptimalNumHashes (policy_ b) in
  let result := repeat 0 (Z.to_nat (num_bytes + 1)) in
  data ← foldM (set_key_bits num_hashes num_bits) (hashes_ b) result;
  Some (<[ Z.to_nat num_bytes := wrap8 num_hashes ]> data).

Definition Finish (b : BloomFilterBuilder) : option bytes :=
  if num_keys_ b =? 0 then CreateFilter b 0 else
  let bits := wrap64 (num_keys_ b * wrap64 (bits_per_key (policy_ b))) in
  let bits := wrap64 (wrap64 (bits + 7) / 8 * 8) in
  let bits := if bits <? 64 then 64 else bits in
  CreateFilter b bits.

(** *** class BloomFilterReader *)

Record BloomFilterReader := mkReader {
  data_ : bytes;
  num_bits_ : Z;
  num_hashes_ : Z
}.

Definition new_reader : BloomFilterReader :=
  {| data_ := []; num_bits_ := 0; num_hashes_ := 0 |}.

Definition Init (rd : BloomFilterReader) (filter_data : bytes)
  : bool * BloomFilterReader :=
  if size filter_data <? 1 then (false, rd) else
  let nh := wrap8 (nth (Z.to_nat (size filter_data - 1)) filter_data 0) in
  if (nh =? 0) || (30 <? nh)
  then (false, {| data_ := data_ rd; num_bits_ := num_bits_ rd; num_hashes_ := nh |})
  else (true, {| data_ := filter_data;
                 num_bits_ := wrap64 ((size filter_data - 1) * 8);
                 num_hashes_ := nh |}).

(** The probe loop of [MayContain], from [i] on. *)
Fixpoint probe (rd : BloomFilterReader) (h1 h2 : Z) (rounds : nat) (i : nat) : bool :=
  match rounds with
  | O => true
  | S rounds' =>
      let pos := bit_pos h1 h2 i (num_bits_ rd) in
      if Z.land (nth (Z.to_nat (pos / 8)) (data_ rd) 0) (Z.shiftl 1 (pos mod 8)) =? 0
      then false
      else probe rd h1 h2 rounds' (S i)
  end.

Definition MayContain (rd : BloomFilterReader) (key : bytes) : bool :=
  if num_bits_ rd =? 0 then true else
  let '(h1, h2) := Hash128 key in
  probe rd h1 h2 (Z.to_nat (num_hashes_ rd)) 0.

End Bloom.

(** ** util/arena.h

    A [char*] is the address it holds, [nullptr] is 0; [size_t] and
    [uintptr_t] have 64 bits, a pointer has 8 bytes.  The arrays that
    [new char[n]] has returned and that are not yet deleted are kept in a
    heap beside the arena, each with its length, which the arena itself
    does not record. *)

Module Arena.

Definition kBlockSize : Z := 4096.
Definition sizeof_ptr : Z := 8.
Definition kAlignMask : Z := sizeof_ptr - 1.

Record Heap := mkHeap {
  live : list (Z * Z);   (* the arrays in use: first byte and length *)
  news : nat             (* the calls of [new char[]] so far *)
}.

Definition empty_heap : Heap := {| live := []; news := 0 |}.

Record Arena := mkArena {
  alloc_ptr_ : Z;
  alloc_remaining_ : Z;
  blocks_ : list Z;
  memory_usage_ : Z
}.

Definition new : Arena :=
  {| alloc_ptr_ := 0; alloc_remaining_ := 0; blocks_ := []; memory_usage_ := 0 |}.

Definition MemoryUsage (a : Arena) : Z := memory_usage_ a.

Section WithAllocator.

(** The address that the [n]-th call of [new char[]] returns (the calls
    are taken to succeed). *)
Variable operator_new : nat -> Z.

Definition new_array (h : Heap) (n : Z) : Z * Heap :=
  let p := operator_new (news h) in
  (p, {| live := live h ++ [(p, n)]; news := S (news h) |}).

Definition delete_array (h : Heap) (p : Z) : Heap :=
  {| live := List.filter (fun bs => negb (fst bs =? p)) (live h); news := news h |}.

Definition AllocateNewBlock (st : Arena * Heap) (block_bytes : Z) : Z * (Arena * Heap) :=
  let '(a, h) := st in
  let '(result, h) := new_array h block_bytes in
  (result,
   ({| alloc_ptr_ := alloc_ptr_ a; alloc_remaining_ := alloc_remaining_ a;
       blocks_ := blocks_ a ++ [result];
       memory_usage_ := wrap64 (memory_usage_ a + wrap64 (block_bytes + sizeof_ptr)) |},
    h)).

Definition AllocateFallback (st : Arena * Heap) (nbytes : Z) : Z * (Arena * Heap) :=
  if kBlockSize / 4 <? nbytes then AllocateNewBlock st nbytes else
  let '(p, (a, h)) := AllocateNewBlock st kBlockSize in
  (p,
   ({| alloc_ptr_ := p + nbytes; alloc_remaining_ := wrap64 (kBlockSize - nbytes);
       blocks_ := blocks_ a; memory_usage_ := memory_usage_ a |},
    h)).

(** [assert(bytes > 0)] *)
Definition Allocate_asserts (nbytes : Z) : bool := 0 <? nbytes.

Definition Allocate (st : Arena * Heap) (nbytes : Z) : Z * (Arena * Heap) :=
  let '(a, h) := st in
  if nbytes <=? alloc_remaining_ a
  then (alloc_ptr_ a,
        ({| alloc_ptr_ := alloc_ptr_ a + nbytes;
            alloc_remaining_ := wrap64 (alloc_remaining_ a - nbytes);
            blocks_ := blocks_ a; memory_usage_ := memory_usage_ a |},
         h))
  else AllocateFallback st nbytes.

(** [assert((alignment & (alignment - 1)) == 0)] *)
Definition AllocateAligned_asserts (alignment : Z) : bool :=
  Z.land alignment (wrap64 (alignment - 1)) =? 0.

Definition AllocateAligned (st : Arena * Heap) (nbytes alignment : Z)
  : Z * (Arena * Heap) :=
  let '(a, h) := st in
  let current := alloc_ptr_ a in
  let mask := wrap64 (alignment - 1) in
  let padding := Z.land (wrap64 (alignment - Z.land current mask)) mask in
  let needed := wrap64 (nbytes + padding) in
  if needed <=? alloc_remaining_ a
  then (alloc_ptr_ a + padding,
        ({| alloc_ptr_ := alloc_ptr_ a + needed;
            alloc_remaining_ := wrap64 (alloc_remaining_ a - needed);
            blocks_ := blocks_ a; memory_usage_ := memory_usage_ a |},
         h))
  else AllocateFallback st nbytes.

(** The [assert] on the result at the end of [AllocateAligned]. *)
Definition AllocateAligned_result_assert (result alignment : Z) : bool :=
  Z.land result (wrap64 (alignment - 1)) =? 0.

Definition Reset (st : Arena * Heap) : Arena * Heap :=
  let '(a, h) := st in
  match blocks_ a with
  | [] => (a, h)
  | front :: rest =>
      ({| alloc_ptr_ := front; alloc_remaining_ := kBlockSize;
          blocks_ := [front]; memory_usage_ := kBlockSize |},
       fold_left delete_array rest h)
  end.

End WithAllocator.

End Arena.

(** ** memtable/skiplist.h *)

Module SkipList.

Definition kMaxHeight : nat := 12.

(** The generator [rng_]: the stream of the values it is going to return. *)
Definition Rng := nat -> Z.
Definition rng_draw (g : Rng) : Z * Rng := (g O, fun n => g (S n)).

Section WithKey.
Context {Key : Type}.
(** The template parameters: the comparator object and [Key()], the key
    stored in the head node. *)
Variable compare_ : Key -> Key -> Z.
Variable Key_default : Key.

(** A node: its key and the array [next_] of its successors, one per
    level.  A [Node*] is the index of the node in the arena; [nullptr]
    is [None]. *)
Record Node := mkNode { key : Key; next_ : list (option nat) }.

Record SkipList := mkSkipList {
  arena_ : list Node;
  max_height_ : nat;
  rng_ : Rng
}.

Definition head_ : nat := O.

(** [NewNode(key, height)]: a node with [height] successor slots at the
    end of the arena. *)
Definition NewNode (sl : SkipList) (k : Key) (height : nat) : nat * SkipList :=
  (length (arena_ sl),
   {| arena_ := arena_ sl ++ [mkNode k (repeat None height)];
      max_height_ := max_height_ sl; rng_ := rng_ sl |}).

(** The constructor: the head of height [kMaxHeight], every successor
    null, [max_height_ = 1]. *)
Definition new (g : Rng) : SkipList :=
  {| arena_ := [mkNode Key_default (repeat None kMaxHeight)];
     max_height_ := 1; rng_ := g |}.

(** [x->Next(level)] (and [NoBarrier_Next]); no result when [x] is not a
    node or has no slot [level]. *)
Definition Next (sl : SkipList) (x : nat) (level : nat) : option (option nat) :=
  n ← arena_ sl !! x; next_ n !! level.

(** [x->SetNext(level, y)] (and [NoBarrier_SetNext]). *)
Definition SetNext (sl : SkipList) (x : nat) (level : nat) (y : option nat)
  : option SkipList :=
  n ← arena_ sl !! x;
  if (level <? length (next_ n))%nat
  then Some {| arena_ := <[ x := mkNode (key n) (<[ level := y ]> (next_ n)) ]> (arena_ sl);
               max_height_ := max_height_ sl; rng_ := rng_ sl |}
  else None.

Definition GetMaxHeight (sl : SkipList) : nat := max_height_ sl.

(** [while (height < kMaxHeight && (rng_() % kBranching) == 0) height++] *)
Fixpoint RandomHeight_loop (rounds : nat) (height : nat) (g : Rng) : nat * Rng :=
  match rounds with
  | O => (height, g)
  | S rounds' =>
      if (height <? kMaxHeight)%nat then
        let '(v, g') := rng_draw g in
        if v mod 4 =? 0 then RandomHeight_loop rounds' (S height) g'
        else (height, g')
      else (height, g)
  end.

Definition RandomHeight (sl : SkipList) : nat * SkipList :=
  let '(h, g) := RandomHeight_loop kMaxHeight 1 (rng_ sl) in
  (h, {| arena_ := arena_ sl; max_height_ := max_height_ sl; rng_ := g |}).

Definition Equal (a b : Key) : bool := compare_ a b =? 0.

(** [KeyIsAfterNode(key, n)]: [n != nullptr && compare_(n->key, key) < 0] *)
Definition KeyIsAfterNode (sl : SkipList) (k : Key) (n : option nat) : option bool :=
  match n with
  | None => Some false
  | Some i => nd ← arena_ sl !! i; Some (compare_ (key nd) k <? 0)
  end.

(** The array [Node* prev[kMaxHeight]] of [Insert]: a slot not yet
    written holds [None]. *)
Definition PrevArray := list (option nat).

(** The loop of [FindGreaterOrEqual(key, prev)], from node [x] at
    [level]; [prev] is [None] for a null [prev] argument. *)
Fixpoint FindGreaterOrEqual_loop (fuel : nat) (sl : SkipList) (k : Key)
    (x : nat) (level : nat) (prev : option PrevArray)
  : option (option nat * option PrevArray) :=
  match fuel with
  | O => None
  | S fuel' =>
      next ← Next sl x level;
      after ← KeyIsAfterNode sl k next;
      if (after : bool) then
        match next with
        | Some n => FindGreaterOrEqual_loop fuel' sl k n level prev
        | None => None
        end
      else
        let prev := (fun a : PrevArray => <[ level := Some x ]> a) <$> prev in
        match level with
        | O => Some (next, prev)
        | S level' => FindGreaterOrEqual_loop fuel' sl k x level' prev
        end
  end.

(** Every round of the loop moves to a later node or one level down, so
    the number of nodes plus the number of levels bounds its length. *)
Definition FindGreaterOrEqual (sl : SkipList) (k : Key) (prev : option PrevArray)
  : option (option nat * option PrevArray) :=
  FindGreaterOrEqual_loop (length (arena_ sl) + kMaxHeight) sl k
    head_ (GetMaxHeight sl - 1) prev.

(** The condition of the [assert] in [Insert]:
    [x == nullptr || !Equal(key, x->key)]. *)
Definition Insert_assert (sl : SkipList) (k : Key) : option bool :=
  '(x, _) ← FindGreaterOrEqual sl k None;
  match x with
  | None => Some true
  | Some i => nd ← arena_ sl !! i; Some (negb (Equal k (key nd)))
  end.

(** [for (int i = GetMaxHeight(); i < height; i++) prev[i] = head_;] *)
Definition fill_head (prev : PrevArray) (from height : nat) : PrevArray :=
  fold_left (fun a i => <[ i := Some head_ ]> a) (seq from (height - from)) prev.

(** One round of the linking loop of [Insert]:
    [x->NoBarrier_SetNext(i, prev[i]->NoBarrier_Next(i)); prev[i]->SetNext(i, x);] *)
Definition link_level (prev : PrevArray) (x : nat) (sl : SkipList) (i : nat)
  : option SkipList :=
  p ← prev !! i;
  p ← p;
  nx ← Next sl p i;
  sl ← SetNext sl x i nx;
  SetNext sl p i (Some x).

Definition Insert (sl : SkipList) (k : Key) : option SkipList :=
  '(_, prev) ← FindGreaterOrEqual sl k (Some (repeat None kMaxHeight));
  prev ← prev;
  let '(height, sl) := RandomHeight sl in
  let '(prev, sl) :=
    if (GetMaxHeight sl <? height)%nat
    then (fill_head prev (GetMaxHeight sl) height,
          {| arena_ := arena_ sl; max_height_ := height; rng_ := rng_ sl |})
    else (prev, sl) in
  let '(x, sl) := NewNode sl k height in
  foldM (link_level prev x) (seq 0 height) sl.

(** [Insert] in a build with assertions: the call does not return when the
    assertion fails. *)
Definition Insert_checked (sl : SkipList) (k : Key) : option SkipList :=
  holds ← Insert_assert sl k;
  if (holds : bool) then Insert sl k else None.

Definition Contains (sl : SkipList) (k : Key) : option bool :=
  '(x, _) ← FindGreaterOrEqual sl k None;
  match x with
  | None => Some false
  | Some i => nd ← arena_ sl !! i; Some (Equal k (key nd))
  end.

(** *** class Iterator: the list it walks and [node_] *)

Definition Iterator := option nat.

Definition Valid (it : Iterator) : bool :=
  match it with Some _ => true | None => false end.

Definition iter_key (sl : SkipList) (it : Iterator) : option Key :=
  i ← it; nd ← arena_ sl !! i; Some (key nd).

Definition iter_Next (sl : SkipList) (it : Iterator) : option Iterator :=
  i ← it; Next sl i 0.

Definition Seek (sl : SkipList) (target : Key) : option Iterator :=
  '(x, _) ← FindGreaterOrEqual sl target None; Some x.

Definition SeekToFirst (sl : SkipList) : option Iterator := Next sl head_ 0.

(** The keys met by [for (it.SeekToFirst(); it.Valid(); it.Next())]. *)
Fixpoint iterate (fuel : nat) (sl : SkipList) (it : Iterator) : option (list Key) :=
  match it with
  | None => Some []
  | Some i =>
      match fuel with
      | O => None
      | S fuel' =>
          k ← iter_key sl it;
          it' ← iter_Next sl it;
          ks ← iterate fuel' sl it';
          Some (k :: ks)
      end
  end.

Definition contents (sl : SkipList) : option (list Key) :=
  it ← SeekToFirst sl; iterate (length (arena_ sl)) sl it.

End WithKey.

Arguments Node : clear implicits.
Arguments SkipList : clear implicits.

End SkipList.

(** ** db/memtable.h *)

(** What the target platform fixes: [sizeof(MemTableEntry)] (80 with
    libstdc++ on x86-64, 64 with libc++). *)
Class Platform := { sizeof_MemTableEntry : Z }.

Module MemTable.

Record MemTableEntry := mkEntry {
  internal_key : InternalKey;
  value : bytes
}.

(** [MemTableKeyComparator::operator()] *)
Definition MemTableKeyComparator (a b : MemTableEntry) : Z :=
  let r := compare (user_key (internal_key a)) (user_key (internal_key b)) in
  if negb (r =? 0) then r
  else if sequence (internal_key a) >? sequence (internal_key b) then -1
  else if sequence (internal_key a) <? sequence (internal_key b) then 1
  else 0.

(** [MemTableEntry()]: an [InternalKey()] and an empty value. *)
Definition MemTableEntry_default : MemTableEntry :=
  {| internal_key := mkInternalKey [] 0 kValue; value := [] |}.

Notation Table := (SkipList.SkipList MemTableEntry).

Record MemTable := mkMemTable {
  options_ : MemTableOptions;
  table_ : Table;
  refs_ : Z;
  approximate_memory_usage_ : Z;
  entry_count_ : Z;
  min_sequence_ : Z;
  max_sequence_ : Z
}.

Definition new (options : MemTableOptions) (g : SkipList.Rng) : MemTable :=
  {| options_ := options;
     table_ := SkipList.new MemTableEntry_default g;
     refs_ := 0;
     approximate_memory_usage_ := 0;
     entry_count_ := 0;
     min_sequence_ := kMaxSequenceNumber;
     max_sequence_ := 0 |}.

Definition Ref (mt : MemTable) : MemTable :=
  {| options_ := options_ mt; table_ := table_ mt; refs_ := refs_ mt + 1;
     approximate_memory_usage_ := approximate_memory_usage_ mt;
     entry_count_ := entry_count_ mt;
     min_sequence_ := min_sequence_ mt; max_sequence_ := max_sequence_ mt |}.

(** [Unref()]: one reference less; nothing is left of the memtable when
    that was the last one ([delete this]). *)
Definition Unref (mt : MemTable) : option MemTable :=
  let refs := refs_ mt - 1 in
  if refs =? 0 then None
  else Some {| options_ := options_ mt; table_ := table_ mt; refs_ := refs;
               approximate_memory_usage_ := approximate_memory_usage_ mt;
               entry_count_ := entry_count_ mt;
               min_sequence_ := min_sequence_ mt; max_sequence_ := max_sequence_ mt |}.

(** The assertion that [Add] reaches: that of [table_.Insert(entry)]. *)
Definition Add_assert (mt : MemTable) (seq : Z) (t : ValueType) (k v : bytes)
  : option bool :=
  SkipList.Insert_assert MemTableKeyComparator (table_ mt)
    (mkEntry (mkInternalKey k seq t) v).

Section WithPlatform.
Context {P : Platform}.

(** [sizeof(SequenceNumber)] and [sizeof(ValueType)] *)
Definition sizeof_SequenceNumber : Z := 8.
Definition sizeof_ValueType : Z := 1.

Definition Add (mt : MemTable) (seq : Z) (t : ValueType) (k v : bytes)
  : option MemTable :=
  let entry := mkEntry (mkInternalKey k seq t) v in
  tbl ← SkipList.Insert MemTableKeyComparator (table_ mt) entry;
  let entry_size := wrap64 (size k + size v + sizeof_SequenceNumber
                            + sizeof_ValueType + sizeof_MemTableEntry) in
  Some {| options_ := options_ mt;
          table_ := tbl;
          refs_ := refs_ mt;
          approximate_memory_usage_ := wrap64 (approximate_memory_usage_ mt + entry_size);
          entry_count_ := wrap64 (entry_count_ mt + 1);
          min_sequence_ := if seq <? min_sequence_ mt then seq else min_sequence_ mt;
          max_sequence_ := if seq >? max_sequence_ mt then seq else max_sequence_ mt |}.

Definition Put (mt : MemTable) (seq : Z) (k v : bytes) : option MemTable :=
  Add mt seq kValue k v.

Definition Delete (mt : MemTable) (seq : Z) (k : bytes) : option MemTable :=
  Add mt seq kDeletion k [].

End WithPlatform.

Definition Get (mt : MemTable) (k : bytes) (snapshot_seq : Z) : option LookupResult :=
  let lookup_key := mkEntry (mkInternalKey k snapshot_seq kValue) [] in
  iter ← SkipList.Seek MemTableKeyComparator (table_ mt) lookup_key;
  if SkipList.Valid iter then
    entry ← SkipList.iter_key (table_ mt) iter;
    if bytes_eqb (user_key (internal_key entry)) k then
      if ValueType_eqb (type (internal_key entry)) kDeletion
      then Some Deleted
      else Some (Found (value entry))
    else Some NotFound
  else Some NotFound.

Definition ApproximateMemoryUsage (mt : MemTable) : Z := approximate_memory_usage_ mt.
Definition ShouldFlush (mt : MemTable) : bool :=
  max_size (options_ mt) <=? ApproximateMemoryUsage mt.
Definition EntryCount (mt : MemTable) : Z := entry_count_ mt.
Definition MinSequence (mt : MemTable) : Z := min_sequence_ mt.
Definition MaxSequence (mt : MemTable) : Z := max_sequence_ mt.

(** The entries met by [MemTable::Iterator] from [SeekToFirst] on. *)
Definition entries (mt : MemTable) : option (list MemTableEntry) :=
  SkipList.contents (table_ mt).

End MemTable.

(** ** db/memtable_manager.h *)

Module Manager.

Record MemTableManager := mkManager {
  options_ : MemTableOptions;
  active_ : MemTable.MemTable;
  (** [std::deque<MemTable*>]: the front (oldest) first *)
  immutables_ : list MemTable.MemTable;
  current_sequence_ : Z;
  total_memory_usage_ : Z;
  immutable_count_ : Z;
  (** whether a flush callback is installed, and the memtables it has been
      called with so far (the callback itself is the caller's code) *)
  flush_callback_ : bool;
  flush_calls : list MemTable.MemTable;
  (** [std::random_device]: the generators of the skip lists still to be
      created *)
  random_device : nat -> SkipList.Rng
}.

Definition new (options : MemTableOptions) (rd : nat -> SkipList.Rng) : MemTableManager :=
  {| options_ := options;
     active_ := MemTable.Ref (MemTable.new options (rd O));
     immutables_ := [];
     current_sequence_ := 0;
     total_memory_usage_ := 0;
     immutable_count_ := 0;
     flush_callback_ := false;
     flush_calls := [];
     random_device := fun n => rd (S n) |}.

Definition SetFlushCallback (m : MemTableManager) : MemTableManager :=
  {| options_ := options_ m; active_ := active_ m; immutables_ := immutables_ m;
     current_sequence_ := current_sequence_ m;
     total_memory_usage_ := total_memory_usage_ m;
     immutable_count_ := immutable_count_ m;
     flush_callback_ := true; flush_calls := flush_calls m;
     random_device := random_device m |}.

Definition CurrentSequence (m : MemTableManager) : Z := current_sequence_ m.

Definition TotalMemoryUsage (m : MemTableManager) : Z := total_memory_usage_ m.
Definition ImmutableCount (m : MemTableManager) : Z := immutable_count_ m.
Definition ActiveMemoryUsage (m : MemTableManager) : Z :=
  MemTable.ApproximateMemoryUsage (active_ m).

Definition RotateLocked (m : MemTableManager) : Status * MemTableManager :=
  let imm := active_ m in
  (OK,
   {| options_ := options_ m;
      active_ := MemTable.Ref (MemTable.new (options_ m) (random_device m O));
      immutables_ := immutables_ m ++ [imm];
      current_sequence_ := current_sequence_ m;
      total_memory_usage_ := total_memory_usage_ m;
      immutable_count_ := wrap64 (immutable_count_ m + 1);
      flush_callback_ := flush_callback_ m;
      flush_calls := if flush_callback_ m then flush_calls m ++ [imm] else flush_calls m;
      random_device := fun n => random_device m (S n) |}).

Definition ForceRotation (m : MemTableManager) : Status * MemTableManager :=
  RotateLocked m.

(** [RemoveFlushedMemTable()]: the oldest immutable memtable leaves the
    manager; [oldest->Unref()] acts on that memtable alone. *)
Definition RemoveFlushedMemTable (m : MemTableManager) : MemTableManager :=
  match immutables_ m with
  | [] => m
  | oldest :: rest =>
      let mem := MemTable.ApproximateMemoryUsage oldest in
      {| options_ := options_ m; active_ := active_ m; immutables_ := rest;
         current_sequence_ := current_sequence_ m;
         total_memory_usage_ := wrap64 (total_memory_usage_ m - mem);
         immutable_count_ := wrap64 (immutable_count_ m - 1);
         flush_callback_ := flush_callback_ m; flush_calls := flush_calls m;
         random_device := random_device m |}
  end.

Section WithPlatform.
Context {P : Platform}.

(** [Write(type, key, value, rotated)]: the status, the flag written
    through [rotated] and the manager afterwards. *)
Definition Write (m : MemTableManager) (t : ValueType) (k v : bytes)
  : option (Status * bool * MemTableManager) :=
  let rotated := false in
  let '(s, rotated, m) :=
    if MemTable.ShouldFlush (active_ m)
    then let '(s, m') := RotateLocked m in (s, true, m')
    else (OK, rotated, m) in
  if negb (ok s) then Some (s, false, m) else
  let seq := current_sequence_ m in
  let cur := wrap64 (current_sequence_ m + 1) in
  act ← match t with
        | kValue => MemTable.Put (active_ m) seq k v
        | kDeletion => MemTable.Delete (active_ m) seq k
        end;
  let entry_size := wrap64 (size k + size v + 32) in
  Some (OK, rotated,
        {| options_ := options_ m; active_ := act; immutables_ := immutables_ m;
           current_sequence_ := cur;
           total_memory_usage_ := wrap64 (total_memory_usage_ m + entry_size);
           immutable_count_ := immutable_count_ m;
           flush_callback_ := flush_callback_ m; flush_calls := flush_calls m;
           random_device := random_device m |}).

Definition Put (m : MemTableManager) (k v : bytes) :=
  Write m kValue k v.

Definition Delete (m : MemTableManager) (k : bytes) :=
  Write m kDeletion k [].

End WithPlatform.

(** The loop over [immutables_.rbegin() .. rend()] of [Get]. *)
Fixpoint Get_immutables (rev_imms : list MemTable.MemTable) (k : bytes) (snapshot : Z)
  : option LookupResult :=
  match rev_imms with
  | [] => Some NotFound
  | imm :: rest =>
      result ← MemTable.Get imm k snapshot;
      if found result then Some result else Get_immutables rest k snapshot
  end.

(** [Get(key, snapshot)] *)
Definition Get_at (m : MemTableManager) (k : bytes) (snapshot : Z) : option LookupResult :=
  result ← MemTable.Get (active_ m) k snapshot;
  if found result then Some result
  else Get_immutables (rev (immutables_ m)) k snapshot.

(** [Get(key)] *)
Definition Get (m : MemTableManager) (k : bytes) : option LookupResult :=
  let snapshot := current_sequence_ m in
  Get_at m k snapshot.

End Manager.

(** ** The operating system, as far as the writers see it *)

Module OS.

(** What the next system call does: it succeeds in full, it is a [write]
    that takes only [n] bytes, or it fails with [errno]. *)
Inductive outcome := Done | Short (n : Z) | Fail (errno : Z).

Definition EINTR : Z := 4.

(** The file behind the descriptor and the outcomes of the calls to come. *)
Record World := mkWorld { file : bytes; script : list outcome }.

(** [::open(path, flags)]: the descriptor or -1; [trunc] is [O_TRUNC]. *)
Definition open (w : World) (trunc : bool) : option (Z * World) :=
  match script w with
  | [] => None
  | Fail _ :: sc => Some (-1, {| file := file w; script := sc |})
  | _ :: sc => Some (3, {| file := if trunc then [] else file w; script := sc |})
  end.

(** [::write(fd, buf, count)]: the value returned, [errno], the world. *)
Definition write (w : World) (buf : bytes) : option (Z * Z * World) :=
  match script w with
  | [] => None
  | Done :: sc => Some (size buf, 0, {| file := file w ++ buf; script := sc |})
  | Short n :: sc =>
      let n := Z.max 0 (Z.min n (size buf)) in
      Some (n, 0, {| file := file w ++ take (Z.to_nat n) buf; script := sc |})
  | Fail e :: sc => Some (-1, e, {| file := file w; script := sc |})
  end.

(** [::fsync(fd)] and [::close(fd)]: 0 or -1. *)
Definition fsync (w : World) : option (Z * World) :=
  match script w with
  | [] => None
  | Fail _ :: sc => Some (-1, {| file := file w; script := sc |})
  | _ :: sc => Some (0, {| file := file w; script := sc |})
  end.

Definition close (w : World) : option (Z * World) := fsync w.

End OS.

(** ** wal/wal_format.h *)

Module WalFormat.

(** Modelled from the spec: wal/wal_format.h is not among the sources.
    The record header is 7 bytes: CRC-32 (4), payload length (2, LE),
    record type (1). *)
Definition kHeaderSize : Z := 7.

(** Modelled from the spec: record type [Full] is 1, the only one emitted. *)
Definition kFull : Z := 1.

(** Modelled from the spec: CRC-32 with the IEEE 802.3 polynomial
    0xEDB88320, the standard software table, final XOR 0xFFFFFFFF.
    [table_entry i] is entry [i] of that table. *)
Definition table_entry (i : Z) : Z :=
  fold_left (fun c (_ : nat) =>
               if Z.odd c then Z.lxor 0xEDB88320 (Z.shiftr c 1) else Z.shiftr c 1)
            (seq 0 8) i.

(** Modelled from the spec: [CRC32::Update(crc, data, len)], the table
    step over every byte, without the initial and final XOR (as the test
    crc32_incremental uses it). *)
Definition Update (crc : Z) (data : bytes) : Z :=
  fold_left (fun crc b =>
               Z.lxor (table_entry (Z.land (Z.lxor crc b) 255)) (Z.shiftr crc 8))
            data crc.

(** Modelled from the spec: [CRC32::Compute(data, len)]. *)
Definition Compute (data : bytes) : Z :=
  Z.lxor (Update 0xFFFFFFFF data) 0xFFFFFFFF.

Inductive WALEntryType := kPut | kDelete.

Record WALEntry := mkWALEntry {
  type : WALEntryType;
  sequence : Z;
  key : bytes;
  value : bytes
}.

Definition WALEntryType_tag (t : WALEntryType) : Z :=
  match t with kPut => 1 | kDelete => 2 end.

(** Modelled from the spec: the entry payload
    [type(1) ‖ seq(8 LE) ‖ key_len(varint) ‖ key ‖ value_len(varint) ‖ value]. *)
Definition EncodeWALEntry (e : WALEntry) : bytes :=
  let buf := [WALEntryType_tag (type e)] in
  let buf := Format.PutFixed64 buf (sequence e) in
  let buf := Format.PutVarint32 buf (wrap32 (size (key e))) in
  let buf := buf ++ key e in
  let buf := Format.PutVarint32 buf (wrap32 (size (value e))) in
  buf ++ value e.

(** Modelled from the spec: a varint32 read, five rounds at most. *)
Fixpoint GetVarint32_loop (rounds : nat) (shift : Z) (input : bytes) (value : Z)
  : option (Z * bytes) :=
  match rounds with
  | O => None
  | S rounds' =>
      match input with
      | [] => None
      | byte :: rest =>
          if negb (Z.land byte 128 =? 0)
          then GetVarint32_loop rounds' (shift + 7) rest
                 (Z.lor value (wrap32 (Z.shiftl (Z.land byte 127) shift)))
          else Some (Z.lor value (wrap32 (Z.shiftl byte shift)), rest)
      end
  end.

(** Modelled from the spec: [DecodeWALEntry]; it fails ([None]) on
    truncation, on a reserved type and on a length that overflows. *)
Definition DecodeWALEntry (data : bytes) : option WALEntry :=
  match data with
  | [] => None
  | t :: rest =>
      ty ← (if t =? 1 then Some kPut else if t =? 2 then Some kDelete else None);
      sq ← Format.DecodeFixed64 rest;
      let rest := drop 8 rest in
      '(klen, rest) ← GetVarint32_loop 5 0 rest 0;
      k ← Format.slice rest klen;
      let rest := Format.advance rest klen in
      '(vlen, rest) ← GetVarint32_loop 5 0 rest 0;
      v ← Format.slice rest vlen;
      Some {| type := ty; sequence := sq; key := k; value := v |}
  end.

End WalFormat.

(** ** wal/wal_writer.h *)

Module WalWriter.
Import WalFormat.

Inductive SyncPolicy := kSyncPerWrite | kSyncBatched | kSyncPeriodic | kNoSync.

Record WALOptions := mkWALOptions {
  sync_policy : SyncPolicy;
  sync_batch_size : Z;
  max_file_size : Z
}.

Definition default_WALOptions : WALOptions :=
  {| sync_policy := kSyncPerWrite;
     sync_batch_size := 1024 * 1024;
     max_file_size := 64 * 1024 * 1024 |}.

Record WALWriter := mkWALWriter {
  options_ : WALOptions;
  fd_ : Z;
  file_size_ : Z;
  bytes_since_sync_ : Z;
  closed_ : bool;
  sync_requested_ : bool
}.

Definition new (options : WALOptions) : WALWriter :=
  {| options_ := options; fd_ := -1; file_size_ := 0; bytes_since_sync_ := 0;
     closed_ := false; sync_requested_ := false |}.

Definition set_sync (wr : WALWriter) (bss : Z) (req : bool) : WALWriter :=
  {| options_ := options_ wr; fd_ := fd_ wr; file_size_ := file_size_ wr;
     bytes_since_sync_ := bss; closed_ := closed_ wr; sync_requested_ := req |}.

(** [Open]: [O_WRONLY | O_CREAT | O_APPEND]; the file size comes from
    [fstat]. *)
Definition Open (wr : WALWriter) (w : OS.World) : option (Status * WALWriter * OS.World) :=
  '(fd, w) ← OS.open w false;
  if fd <? 0
  then Some (IOError,
             {| options_ := options_ wr; fd_ := fd; file_size_ := file_size_ wr;
                bytes_since_sync_ := bytes_since_sync_ wr; closed_ := closed_ wr;
                sync_requested_ := sync_requested_ wr |}, w)
  else Some (OK,
             {| options_ := options_ wr; fd_ := fd; file_size_ := size (OS.file w);
                bytes_since_sync_ := bytes_since_sync_ wr; closed_ := closed_ wr;
                sync_requested_ := sync_requested_ wr |}, w).

Definition SyncLocked (wr : WALWriter) (w : OS.World) : option (Status * WALWriter * OS.World) :=
  if (0 <=? fd_ wr) && (0 <? bytes_since_sync_ wr) then
    '(r, w) ← OS.fsync w;
    if negb (r =? 0) then Some (IOError, wr, w)
    else Some (OK, set_sync wr 0 (sync_requested_ wr), w)
  else Some (OK, wr, w).

Definition HandleSync (wr : WALWriter) (w : OS.World) : option (Status * WALWriter * OS.World) :=
  match sync_policy (options_ wr) with
  | kSyncPerWrite => SyncLocked wr w
  | kSyncBatched =>
      if sync_batch_size (options_ wr) <=? bytes_since_sync_ wr
      then SyncLocked wr w
      else Some (OK, wr, w)
  | kSyncPeriodic => Some (OK, set_sync wr (bytes_since_sync_ wr) true, w)
  | kNoSync => Some (OK, wr, w)
  end.

(** The record that [AppendRecord] builds: CRC32 | Length | Type | Payload. *)
Definition build_record (payload : bytes) : bytes :=
  let record := repeat 0 4 in
  let len := wrap16 (size payload) in
  let record := record ++ [Z.land len 255] in
  let record := record ++ [Z.land (Z.shiftr len 8) 255] in
  let record := record ++ [kFull] in
  let record := record ++ payload in
  let crc := Compute (drop 6 record) in
  let crc := Z.lxor (Update (Z.lxor crc 0xFFFFFFFF) (take 2 (drop 4 record))) 0xFFFFFFFF in
  [ Z.land crc 255; Z.land (Z.shiftr crc 8) 255;
    Z.land (Z.shiftr crc 16) 255; Z.land (Z.shiftr crc 24) 255 ] ++ drop 4 record.

Definition AppendRecord (wr : WALWriter) (w : OS.World) (payload : bytes)
  : option (Status * WALWriter * OS.World) :=
  if fd_ wr <? 0 then Some (IOError, wr, w) else
  let record := build_record payload in
  '(written, _, w) ← OS.write w record;
  if negb (written =? size record) then Some (IOError, wr, w) else
  let wr := {| options_ := options_ wr; fd_ := fd_ wr;
               file_size_ := wrap64 (file_size_ wr + size record);
               bytes_since_sync_ := wrap64 (bytes_since_sync_ wr + size record);
               closed_ := closed_ wr; sync_requested_ := sync_requested_ wr |} in
  HandleSync wr w.

Definition Append (wr : WALWriter) (w : OS.World) (entry : WALEntry) :=
  AppendRecord wr w (EncodeWALEntry entry).

Definition AppendPut (wr : WALWriter) (w : OS.World) (seq : Z) (k v : bytes) :=
  Append wr w {| type := kPut; sequence := seq; key := k; value := v |}.

Definition AppendDelete (wr : WALWriter) (w : OS.World) (seq : Z) (k : bytes) :=
  Append wr w {| type := kDelete; sequence := seq; key := k; value := [] |}.

Definition FileSize (wr : WALWriter) : Z := file_size_ wr.
Definition ShouldRotate (wr : WALWriter) : bool :=
  max_file_size (options_ wr) <=? FileSize wr.

End WalWriter.

(** ** wal/wal_reader.h *)

Module WalReader.
Import WalFormat.

Record ReadResult := mkReadResult {
  status : Status;
  eof : bool;
  payload : bytes
}.

Definition ReadResult_OK (data : bytes) : ReadResult :=
  {| status := OK; eof := false; payload := data |}.
Definition ReadResult_Eof : ReadResult :=
  {| status := OK; eof := true; payload := [] |}.
Definition ReadResult_Error (s : Status) : ReadResult :=
  {| status := s; eof := false; payload := [] |}.

(** A log file as [Open] finds it: it cannot be opened, stat'ed or mapped,
    or it has these contents. *)
Inductive File := Unreadable | Content (data : bytes).

(** [data_] is the mapping ([None] for [nullptr]). *)
Record WALReader := mkWALReader {
  data_ : option bytes;
  size_ : Z;
  pos_ : Z
}.

Definition new : WALReader := {| data_ := None; size_ := 0; pos_ := 0 |}.

Definition Open (f : File) : Status * WALReader :=
  match f with
  | Unreadable => (IOError, new)
  | Content d =>
      if size d =? 0 then (OK, {| data_ := None; size_ := 0; pos_ := 0 |})
      else (OK, {| data_ := Some d; size_ := size d; pos_ := 0 |})
  end.

Definition Size (rd : WALReader) : Z := size_ rd.

Definition ReadRecord (rd : WALReader) : ReadResult * WALReader :=
  match data_ rd with
  | None => (ReadResult_Eof, rd)
  | Some data =>
      if size_ rd <=? pos_ rd then (ReadResult_Eof, rd) else
      if size_ rd <? pos_ rd + kHeaderSize
      then (ReadResult_Error Corruption, rd) else
      let header := drop (Z.to_nat (pos_ rd)) data in
      let stored_crc :=
        wrap32 (Z.lor (Z.lor (Z.lor (wrap8 (nth 0 header 0))
                                    (Z.shiftl (wrap8 (nth 1 header 0)) 8))
                             (Z.shiftl (wrap8 (nth 2 header 0)) 16))
                      (Z.shiftl (wrap8 (nth 3 header 0)) 24)) in
      let length := wrap16 (Z.lor (wrap8 (nth 4 header 0))
                                  (Z.shiftl (wrap8 (nth 5 header 0)) 8)) in
      let type := wrap8 (nth 6 header 0) in
      if size_ rd <? pos_ rd + kHeaderSize + length
      then (ReadResult_Error Corruption, rd) else
      let computed_crc := Compute (take (Z.to_nat (1 + length)) (drop 6 header)) in
      let computed_crc :=
        Z.lxor (Update (Z.lxor computed_crc 0xFFFFFFFF) (take 2 (drop 4 header)))
               0xFFFFFFFF in
      if negb (stored_crc =? computed_crc)
      then (ReadResult_Error Corruption, rd) else
      if negb (type =? kFull)
      then (ReadResult_Error Corruption, rd) else
      let payload := take (Z.to_nat length) (drop (Z.to_nat kHeaderSize) header) in
      (ReadResult_OK payload,
       {| data_ := data_ rd; size_ := size_ rd;
          pos_ := pos_ rd + kHeaderSize + length |})
  end.

(** [ReadEntry(entry, status)]: the flag returned, the entry decoded (when
    the flag is true), the status stored, the reader. *)
Definition ReadEntry (rd : WALReader) : bool * option WALEntry * Status * WALReader :=
  let '(result, rd) := ReadRecord rd in
  if eof result then (false, None, OK, rd) else
  if negb (ok (status result)) then (false, None, status result, rd) else
  match DecodeWALEntry (payload result) with
  | None => (false, None, Corruption, rd)
  | Some e => (true, Some e, OK, rd)
  end.

Record RecoveryStats := mkStats {
  records_read : Z;
  bytes_read : Z;
  puts_recovered : Z;
  deletes_recovered : Z;
  max_sequence : Z
}.

Definition RecoveryStats_default : RecoveryStats :=
  {| records_read := 0; bytes_read := 0; puts_recovered := 0;
     deletes_recovered := 0; max_sequence := 0 |}.

End WalReader.

(** ** wal/wal_manager.h *)

Module WalManager.
Import WalFormat WalReader.

(** The WAL directory as [opendir]/[readdir] find it: it cannot be opened,
    it does not exist ([ENOENT]), or it holds these log files, each under
    the number in its name [log.NNNNNN]. *)
Inductive Dir :=
| DirFails
| DirAbsent
| DirEntries (files : list (Z * File)).

(** [std::sort(numbers->begin(), numbers->end())] *)
Fixpoint insert_sorted (n : Z) (l : list Z) : list Z :=
  match l with
  | [] => [n]
  | m :: l' => if n <=? m then n :: l else m :: insert_sorted n l'
  end.
Definition sort (l : list Z) : list Z := fold_right insert_sorted [] l.

Definition ListLogFiles (d : Dir) : Status * list Z :=
  match d with
  | DirFails => (IOError, [])
  | DirAbsent => (OK, [])
  | DirEntries files => (OK, sort (map fst files))
  end.

(** The file that [LogPath(number)] names. *)
Fixpoint file_at (files : list (Z * File)) (number : Z) : File :=
  match files with
  | [] => Unreadable
  | (n, f) :: rest => if n =? number then f else file_at rest number
  end.

Definition open_log (d : Dir) (number : Z) : File :=
  match d with
  | DirEntries files => file_at files number
  | _ => Unreadable
  end.

Section WithPlatform.
Context {P : Platform}.

(** The body of [while (reader.ReadEntry(&entry, &read_status))]. *)
Definition apply_entry (entry : WALEntry) (mt : MemTable.MemTable)
    (st : RecoveryStats) : option (MemTable.MemTable * RecoveryStats) :=
  let rr := wrap64 (records_read st + 1) in
  '(mt, pr, dr) ←
    match type entry with
    | kPut =>
        mt ← MemTable.Put mt (sequence entry) (key entry) (value entry);
        Some (mt, wrap64 (puts_recovered st + 1), deletes_recovered st)
    | kDelete =>
        mt ← MemTable.Delete mt (sequence entry) (key entry);
        Some (mt, puts_recovered st, wrap64 (deletes_recovered st + 1))
    end;
  let ms := if sequence entry >? max_sequence st
            then sequence entry else max_sequence st in
  Some (mt, {| records_read := rr; bytes_read := bytes_read st;
               puts_recovered := pr; deletes_recovered := dr;
               max_sequence := ms |}).

(** The replay loop over one reader; it ends with [read_status]. *)
Fixpoint replay (fuel : nat) (rd : WALReader) (mt : MemTable.MemTable)
    (st : RecoveryStats)
  : option (Status * WALReader * MemTable.MemTable * RecoveryStats) :=
  match fuel with
  | O => None
  | S fuel' =>
      match ReadEntry rd with
      | (true, Some entry, _, rd) =>
          '(mt, st) ← apply_entry entry mt st;
          replay fuel' rd mt st
      | (true, None, _, _) => None
      | (false, _, read_status, rd) => Some (read_status, rd, mt, st)
      end
  end.

(** The loop [for (uint64_t log_num : log_numbers)] of [Recover]; [inl]
    is the early [return read_status]. *)
Fixpoint replay_logs (d : Dir) (log_numbers : list Z) (mt : MemTable.MemTable)
    (st : RecoveryStats)
  : option (Status * MemTable.MemTable + MemTable.MemTable * RecoveryStats) :=
  match log_numbers with
  | [] => Some (inr (mt, st))
  | log_num :: rest =>
      let '(s, reader) := Open (open_log d log_num) in
      if negb (ok s) then replay_logs d rest mt st else
      '(read_status, reader, mt, st) ←
         replay (S (Z.to_nat (Size reader))) reader mt st;
      let st := {| records_read := records_read st;
                   bytes_read := wrap64 (bytes_read st + Size reader);
                   puts_recovered := puts_recovered st;
                   deletes_recovered := deletes_recovered st;
                   max_sequence := max_sequence st |} in
      if negb (ok read_status) && negb (IsCorruption read_status)
      then Some (inl (read_status, mt))
      else replay_logs d rest mt st
  end.

(** [Recover(memtable, stats)]: the status, the memtable afterwards and
    what is stored through [stats] (nothing on an early return). *)
Definition Recover (d : Dir) (mt : MemTable.MemTable)
  : option (Status * MemTable.MemTable * option RecoveryStats) :=
  let '(s, log_numbers) := ListLogFiles d in
  if negb (ok s) then Some (s, mt, None) else
  r ← replay_logs d log_numbers mt RecoveryStats_default;
  match r with
  | inl (read_status, mt) => Some (read_status, mt, None)
  | inr (mt, st) => Some (OK, mt, Some st)
  end.

End WithPlatform.

End WalManager.

(** ** sstable/block_builder.h *)

Module Block.
Import Format.

Record BlockBuilder := mkBlockBuilder {
  buffer_ : bytes;
  restarts_ : list Z;
  last_key_ : bytes;
  restart_interval_ : Z;
  counter_ : Z;
  finished_ : bool
}.

Definition new (restart_interval : Z) : BlockBuilder :=
  {| buffer_ := []; restarts_ := [0]; last_key_ := [];
     restart_interval_ := restart_interval; counter_ := 0; finished_ := false |}.

(** The [assert] of the constructor: [restart_interval >= 1]. *)
Definition new_asserts (restart_interval : Z) : bool := 1 <=? restart_interval.

Definition Reset (b : BlockBuilder) : BlockBuilder :=
  {| buffer_ := []; restarts_ := [0]; last_key_ := [];
     restart_interval_ := restart_interval_ b; counter_ := 0; finished_ := false |}.

Definition Empty (b : BlockBuilder) : bool :=
  match buffer_ b with [] => true | _ => false end.

(** The three [assert]s at the head of [Add]. *)
Definition Add_asserts (b : BlockBuilder) (k : bytes) : bool :=
  negb (finished_ b)
  && (counter_ b <=? restart_interval_ b)
  && (Empty b || (0 <? compare k (last_key_ b))).

(** [while (shared < min_len && last_key_[shared] == key[shared]) shared++] *)
Fixpoint shared_prefix (last_key k : bytes) : nat :=
  match last_key, k with
  | x :: last_key', y :: k' => if x =? y then S (shared_prefix last_key' k') else O
  | _, _ => O
  end.

Definition Add (b : BlockBuilder) (k v : bytes) : BlockBuilder :=
  let restart := negb (counter_ b <? restart_interval_ b) in
  let shared := if restart then O else shared_prefix (last_key_ b) k in
  let restarts := if restart then restarts_ b ++ [wrap32 (size (buffer_ b))]
                  else restarts_ b in
  let counter := if restart then 0 else counter_ b in
  let non_shared := size k - Z.of_nat shared in
  let buffer := PutVarint32 (buffer_ b) (wrap32 (Z.of_nat shared)) in
  let buffer := PutVarint32 buffer (wrap32 non_shared) in
  let buffer := PutVarint32 buffer (wrap32 (size v)) in
  let buffer := buffer ++ drop shared k in
  let buffer := buffer ++ v in
  {| buffer_ := buffer; restarts_ := restarts; last_key_ := k;
     restart_interval_ := restart_interval_ b;
     counter_ := counter + 1; finished_ := finished_ b |}.

(** [Finish]: the builder afterwards and the slice over its buffer. *)
Definition Finish (b : BlockBuilder) : BlockBuilder * bytes :=
  let buffer := fold_left PutFixed32 (restarts_ b) (buffer_ b) in
  let buffer := PutFixed32 buffer (wrap32 (size (restarts_ b))) in
  ({| buffer_ := buffer; restarts_ := restarts_ b; last_key_ := last_key_ b;
      restart_interval_ := restart_interval_ b; counter_ := counter_ b;
      finished_ := true |}, buffer).

Definition CurrentSizeEstimate (b : BlockBuilder) : Z :=
  size (buffer_ b) + size (restarts_ b) * 4 + 4.

Definition LastKey (b : BlockBuilder) : bytes := last_key_ b.

(** *** class IndexBlockBuilder *)

Record IndexBlockBuilder := mkIndexBlockBuilder {
  block_builder_ : BlockBuilder;
  entry_count_ : Z
}.

Definition IndexBlockBuilder_new : IndexBlockBuilder :=
  {| block_builder_ := new 1; entry_count_ := 0 |}.

Definition AddEntry (ib : IndexBlockBuilder) (last_key : bytes) (handle : BlockHandle)
  : IndexBlockBuilder :=
  let handle_encoding := BlockHandle_Encode handle in
  {| block_builder_ := Add (block_builder_ ib) last_key handle_encoding;
     entry_count_ := wrap64 (entry_count_ ib + 1) |}.

Definition IndexBlockBuilder_Finish (ib : IndexBlockBuilder) : IndexBlockBuilder * bytes :=
  let '(bb, contents) := Finish (block_builder_ ib) in
  ({| block_builder_ := bb; entry_count_ := entry_count_ ib |}, contents).

(** *** class BlockTrailer *)

Definition AddTrailer (block_contents : bytes) (t : BlockType) : bytes :=
  let result := block_contents ++ [BlockType_tag t] in
  let crc := WalFormat.Compute result in
  PutFixed32 result crc.

(** [VerifyTrailer]: the type byte is read through [static_cast<BlockType>],
    an enum over [uint8_t].  The four bytes of the checksum are always there
    once the size test has passed. *)
Definition VerifyTrailer (block_with_trailer : bytes) (expected_type : BlockType) : bool :=
  if size block_with_trailer <? kBlockTrailerSize then false else
  let contents_size := size block_with_trailer - kBlockTrailerSize in
  let trailer := advance block_with_trailer contents_size in
  let type := wrap8 (nth 0 trailer 0) in
  if negb (type =? BlockType_tag expected_type) then false else
  match DecodeFixed32 (advance trailer 1) with
  | Some stored_crc =>
      let computed_crc :=
        WalFormat.Compute (take (Z.to_nat (contents_size + 1)) block_with_trailer) in
      stored_crc =? computed_crc
  | None => false
  end.

End Block.

(** ** sstable/sstable_writer.h *)

Module SSTableWriter.
Import Format Block.

Record SSTableOptions := mkSSTableOptions {
  block_size : Z;
  restart_interval : Z;
  verify_checksums : bool;
  use_bloom_filter : bool;
  bloom_policy : Bloom.BloomFilterPolicy
}.

Definition default_SSTableOptions : SSTableOptions :=
  {| block_size := kDefaultBlockSize;
     restart_interval := Z.of_nat kDefaultRestartInterval;
     verify_checksums := true;
     use_bloom_filter := true;
     bloom_policy := Bloom.default_policy |}.

Record SSTableWriteStats := mkWriteStats {
  data_size : Z;
  index_size : Z;
  bloom_size : Z;
  st_num_entries : Z;
  num_data_blocks : Z;
  raw_key_size : Z;
  raw_value_size : Z;
  min_seq : Z;
  max_seq : Z
}.

Definition SSTableWriteStats_default : SSTableWriteStats :=
  {| data_size := 0; index_size := 0; bloom_size := 0; st_num_entries := 0;
     num_data_blocks := 0; raw_key_size := 0; raw_value_size := 0;
     min_seq := kMaxSequenceNumber; max_seq := 0 |}.

Record SSTableWriter := mkWriter {
  options_ : SSTableOptions;
  fd_ : Z;
  offset_ : Z;
  data_block_ : BlockBuilder;
  index_builder_ : IndexBlockBuilder;
  bloom_builder_ : Bloom.BloomFilterBuilder;
  closed_ : bool;
  num_entries_ : Z;
  first_key_ : bytes;
  last_key_ : bytes;
  min_sequence_ : Z;
  max_sequence_ : Z;
  stats_ : SSTableWriteStats
}.

Definition new (options : SSTableOptions) : SSTableWriter :=
  {| options_ := options; fd_ := -1; offset_ := 0;
     data_block_ := Block.new (restart_interval options);
     index_builder_ := IndexBlockBuilder_new;
     bloom_builder_ := Bloom.new_builder (bloom_policy options);
     closed_ := false; num_entries_ := 0;
     first_key_ := []; last_key_ := [];
     min_sequence_ := kMaxSequenceNumber; max_sequence_ := 0;
     stats_ := SSTableWriteStats_default |}.

(** The [assert] that the constructor reaches: that of the constructor of
    [data_block_]. *)
Definition new_asserts (options : SSTableOptions) : bool :=
  Block.new_asserts (restart_interval options).

Definition set_fd (wr : SSTableWriter) (fd : Z) (closed : bool) : SSTableWriter :=
  {| options_ := options_ wr; fd_ := fd; offset_ := offset_ wr;
     data_block_ := data_block_ wr; index_builder_ := index_builder_ wr;
     bloom_builder_ := bloom_builder_ wr; closed_ := closed;
     num_entries_ := num_entries_ wr;
     first_key_ := first_key_ wr; last_key_ := last_key_ wr;
     min_sequence_ := min_sequence_ wr; max_sequence_ := max_sequence_ wr;
     stats_ := stats_ wr |}.

Definition set_offset (wr : SSTableWriter) (off : Z) : SSTableWriter :=
  {| options_ := options_ wr; fd_ := fd_ wr; offset_ := off;
     data_block_ := data_block_ wr; index_builder_ := index_builder_ wr;
     bloom_builder_ := bloom_builder_ wr; closed_ := closed_ wr;
     num_entries_ := num_entries_ wr;
     first_key_ := first_key_ wr; last_key_ := last_key_ wr;
     min_sequence_ := min_sequence_ wr; max_sequence_ := max_sequence_ wr;
     stats_ := stats_ wr |}.

Definition set_stats (wr : SSTableWriter) (st : SSTableWriteStats) : SSTableWriter :=
  {| options_ := options_ wr; fd_ := fd_ wr; offset_ := offset_ wr;
     data_block_ := data_block_ wr; index_builder_ := index_builder_ wr;
     bloom_builder_ := bloom_builder_ wr; closed_ := closed_ wr;
     num_entries_ := num_entries_ wr;
     first_key_ := first_key_ wr; last_key_ := last_key_ wr;
     min_sequence_ := min_sequence_ wr; max_sequence_ := max_sequence_ wr;
     stats_ := st |}.

Definition set_blocks (wr : SSTableWriter) (db : BlockBuilder) (ib : IndexBlockBuilder)
  : SSTableWriter :=
  {| options_ := options_ wr; fd_ := fd_ wr; offset_ := offset_ wr;
     data_block_ := db; index_builder_ := ib;
     bloom_builder_ := bloom_builder_ wr; closed_ := closed_ wr;
     num_entries_ := num_entries_ wr;
     first_key_ := first_key_ wr; last_key_ := last_key_ wr;
     min_sequence_ := min_sequence_ wr; max_sequence_ := max_sequence_ wr;
     stats_ := stats_ wr |}.

Definition Open (wr : SSTableWriter) (w : OS.World) : option (Status * SSTableWriter * OS.World) :=
  '(fd, w) ← OS.open w true;
  if fd <? 0 then Some (IOError, set_fd wr fd (closed_ wr), w)
  else Some (OK, set_fd wr fd (closed_ wr), w).

(** [EncodeInternalKey(user_key, seq, type)]:
    [user_key ‖ fixed64-LE((seq << 8) | type)]. *)
Definition EncodeInternalKey (user_key : bytes) (seq : Z) (t : ValueType) : bytes :=
  let result := user_key in
  let packed := Z.lor (wrap64 (Z.shiftl seq 8)) (ValueType_tag t) in
  result ++ EncodeFixed64 packed.

Definition ExtractUserKey (internal_key : bytes) : bytes :=
  if size internal_key <? 8 then internal_key
  else take (Z.to_nat (size internal_key - 8)) internal_key.

(** The loop of [WriteRaw]: [ptr] is what is left to write. *)
Fixpoint WriteRaw_loop (fuel : nat) (wr : SSTableWriter) (w : OS.World) (ptr : bytes)
  : option (Status * SSTableWriter * OS.World) :=
  if size ptr <=? 0 then Some (OK, wr, w) else
  match fuel with
  | O => None
  | S fuel' =>
      '(written, errno, w) ← OS.write w ptr;
      if written <? 0 then
        if errno =? OS.EINTR then WriteRaw_loop fuel' wr w ptr
        else Some (IOError, wr, w)
      else
        WriteRaw_loop fuel' (set_offset wr (wrap64 (offset_ wr + written))) w
                      (drop (Z.to_nat written) ptr)
  end.

(** Every round takes one outcome from the script of the world. *)
Definition WriteRaw (wr : SSTableWriter) (w : OS.World) (data : bytes) :=
  WriteRaw_loop (length (OS.script w)) wr w data.

Definition FlushDataBlock (wr : SSTableWriter) (w : OS.World)
  : option (Status * SSTableWriter * OS.World) :=
  if Empty (data_block_ wr) then Some (OK, wr, w) else
  let '(db, block_contents) := Finish (data_block_ wr) in
  let wr := set_blocks wr db (index_builder_ wr) in
  let block_with_trailer := AddTrailer block_contents kData in
  let handle := {| offset := offset_ wr; size_ := size block_with_trailer |} in
  '(s, wr, w) ← WriteRaw wr w block_with_trailer;
  if negb (ok s) then Some (s, wr, w) else
  let ib := AddEntry (index_builder_ wr) (LastKey (data_block_ wr)) handle in
  let st := stats_ wr in
  let st := {| data_size := wrap64 (data_size st + size block_with_trailer);
               index_size := index_size st; bloom_size := bloom_size st;
               st_num_entries := st_num_entries st;
               num_data_blocks := wrap64 (num_data_blocks st + 1);
               raw_key_size := raw_key_size st; raw_value_size := raw_value_size st;
               min_seq := min_seq st; max_seq := max_seq st |} in
  let wr := set_stats (set_blocks wr (Reset (data_block_ wr)) ib) st in
  Some (OK, wr, w).

(** [Add(key, value, seq, type)] *)
Definition Add (wr : SSTableWriter) (w : OS.World) (k v : bytes) (seq : Z) (t : ValueType)
  : option (Status * SSTableWriter * OS.World) :=
  if fd_ wr <? 0 then Some (IOError, wr, w) else
  let internal_key := EncodeInternalKey k seq t in
  let first := num_entries_ wr =? 0 in
  let st := stats_ wr in
  let st := {| data_size := data_size st; index_size := index_size st;
               bloom_size := bloom_size st; st_num_entries := st_num_entries st;
               num_data_blocks := num_data_blocks st;
               raw_key_size := wrap64 (raw_key_size st + size k);
               raw_value_size := wrap64 (raw_value_size st + size v);
               min_seq := if first then seq else min_seq st;
               max_seq := max_seq st |} in
  let wr :=
    {| options_ := options_ wr; fd_ := fd_ wr; offset_ := offset_ wr;
       data_block_ := Block.Add (data_block_ wr) internal_key v;
       index_builder_ := index_builder_ wr;
       bloom_builder_ := if use_bloom_filter (options_ wr)
                         then Bloom.AddKey (bloom_builder_ wr) k
                         else bloom_builder_ wr;
       closed_ := closed_ wr;
       num_entries_ := wrap64 (num_entries_ wr + 1);
       first_key_ := if first then internal_key else first_key_ wr;
       last_key_ := internal_key;
       min_sequence_ := if seq <? min_sequence_ wr then seq else min_sequence_ wr;
       max_sequence_ := if seq >? max_sequence_ wr then seq else max_sequence_ wr;
       stats_ := st |} in
  if block_size (options_ wr) <=? CurrentSizeEstimate (data_block_ wr)
  then '(s, wr, w) ← FlushDataBlock wr w; Some (s, wr, w)
  else Some (OK, wr, w).

(** The [assert]s of [BlockBuilder::Add] at the call inside [Add]. *)
Definition Add_asserts (wr : SSTableWriter) (k : bytes) (seq : Z) (t : ValueType) : bool :=
  Block.Add_asserts (data_block_ wr) (EncodeInternalKey k seq t).

(** [WriteIndexBlock(&handle)] *)
Definition WriteIndexBlock (wr : SSTableWriter) (w : OS.World)
  : option (Status * BlockHandle * SSTableWriter * OS.World) :=
  let '(ib, index_contents) := IndexBlockBuilder_Finish (index_builder_ wr) in
  let wr := set_blocks wr (data_block_ wr) ib in
  let block_with_trailer := AddTrailer index_contents kIndex in
  let handle := {| offset := offset_ wr; size_ := size block_with_trailer |} in
  let st := stats_ wr in
  let wr := set_stats wr
    {| data_size := data_size st; index_size := size block_with_trailer;
       bloom_size := bloom_size st; st_num_entries := st_num_entries st;
       num_data_blocks := num_data_blocks st;
       raw_key_size := raw_key_size st; raw_value_size := raw_value_size st;
       min_seq := min_seq st; max_seq := max_seq st |} in
  '(s, wr, w) ← WriteRaw wr w block_with_trailer;
  Some (s, handle, wr, w).

(** [WriteBloomFilter(&handle)] *)
Definition WriteBloomFilter (wr : SSTableWriter) (w : OS.World)
  : option (Status * BlockHandle * SSTableWriter * OS.World) :=
  if negb (use_bloom_filter (options_ wr)) || (Bloom.NumKeys (bloom_builder_ wr) =? 0)
  then Some (OK, {| offset := 0; size_ := 0 |}, wr, w) else
  bloom_data ← Bloom.Finish (bloom_builder_ wr);
  let handle := {| offset := offset_ wr; size_ := size bloom_data |} in
  let st := stats_ wr in
  let wr := set_stats wr
    {| data_size := data_size st; index_size := index_size st;
       bloom_size := size bloom_data; st_num_entries := st_num_entries st;
       num_data_blocks := num_data_blocks st;
       raw_key_size := raw_key_size st; raw_value_size := raw_value_size st;
       min_seq := min_seq st; max_seq := max_seq st |} in
  '(s, wr, w) ← WriteRaw wr w bloom_data;
  Some (s, handle, wr, w).

(** The [Footer] that [WriteFooter] fills in. *)
Definition make_footer (wr : SSTableWriter) (index_handle bloom_handle : BlockHandle)
  : Footer :=
  {| Format.index_handle := index_handle;
     Format.bloom_handle := bloom_handle;
     num_entries := num_entries_ wr;
     min_sequence := min_sequence_ wr;
     max_sequence := max_sequence_ wr;
     min_key := match first_key_ wr with
                | [] => []
                | _ => ExtractUserKey (first_key_ wr)
                end;
     max_key := match last_key_ wr with
                | [] => []
                | _ => ExtractUserKey (last_key_ wr)
                end |}.

Definition WriteFooter (wr : SSTableWriter) (w : OS.World)
    (index_handle bloom_handle : BlockHandle) :=
  let footer_data := Footer_Encode (make_footer wr index_handle bloom_handle) in
  WriteRaw wr w footer_data.

(** [Finish(stats)]: the status, what is stored through [stats], the
    writer and the world. *)
Definition Finish (wr : SSTableWriter) (w : OS.World)
  : option (Status * option SSTableWriteStats * SSTableWriter * OS.World) :=
  if fd_ wr <? 0 then Some (IOError, None, wr, w) else
  '(s, wr, w) ← (if negb (Empty (data_block_ wr)) then FlushDataBlock wr w
                 else Some (OK, wr, w));
  if negb (ok s) then Some (s, None, wr, w) else
  '(s, index_handle, wr, w) ← WriteIndexBlock wr w;
  if negb (ok s) then Some (s, None, wr, w) else
  '(s, bloom_handle, wr, w) ← WriteBloomFilter wr w;
  if negb (ok s) then Some (s, None, wr, w) else
  '(s, wr, w) ← WriteFooter wr w index_handle bloom_handle;
  if negb (ok s) then Some (s, None, wr, w) else
  '(r, w) ← OS.fsync w;
  if negb (r =? 0) then Some (IOError, None, wr, w) else
  '(r, w) ← OS.close w;
  if negb (r =? 0) then Some (IOError, None, wr, w) else
  let wr := set_fd wr (-1) true in
  let st := stats_ wr in
  let st := {| data_size := data_size st; index_size := index_size st;
               bloom_size := bloom_size st; st_num_entries := num_entries_ wr;
               num_data_blocks := num_data_blocks st;
               raw_key_size := raw_key_size st; raw_value_size := raw_value_size st;
               min_seq := min_sequence_ wr; max_seq := max_sequence_ wr |} in
  Some (OK, Some st, wr, w).

(** [Abandon]: close the descriptor and unlink the file. *)
Definition Abandon (wr : SSTableWriter) (w : OS.World) : option (SSTableWriter * OS.World) :=
  if 0 <=? fd_ wr then
    '(_, w) ← OS.close w;
    Some (set_fd wr (-1) true, {| OS.file := []; OS.script := OS.script w |})
  else Some (set_fd wr (fd_ wr) true, w).

(** The loop of [FlushMemTable] over the entries of the memtable. *)
Fixpoint add_all (wr : SSTableWriter) (w : OS.World) (es : list MemTable.MemTableEntry)
  : option (Status * SSTableWriter * OS.World) :=
  match es with
  | [] => Some (OK, wr, w)
  | e :: rest =>
      let ik := MemTable.internal_key e in
      '(s, wr, w) ← Add wr w (user_key ik) (MemTable.value e) (sequence ik) (type ik);
      if negb (ok s) then '(wr, w) ← Abandon wr w; Some (s, wr, w)
      else add_all wr w rest
  end.

Definition FlushMemTable (mt : MemTable.MemTable) (options : SSTableOptions) (w : OS.World)
  : option (Status * option SSTableWriteStats * OS.World) :=
  let writer := new options in
  '(s, writer, w) ← Open writer w;
  if negb (ok s) then Some (s, None, w) else
  es ← MemTable.entries mt;
  '(s, writer, w) ← add_all writer w es;
  if negb (ok s) then Some (s, None, w) else
  '(s, st, writer, w) ← Finish writer w;
  if ok s then Some (s, st, w)
  else '(_, w) ← Abandon writer w; Some (s, st, w).

End SSTableWriter.

(* ====================================================================== *)
(** * Part II: properties                                                  *)
(* ====================================================================== *)

(** ** Strings *)

Lemma compare_app_same (k a b : list Z) :
  compare (k ++ a) (k ++ b) = compare a b.
Proof.
  induction k as [|x k IH]; simpl; [reflexivity|].
  rewrite Z.ltb_irrefl. exact IH.
Qed.

(** ** SSTable internal keys (sstable/sstable_writer.h) *)

Module SSTableKeyFacts.
Import Format Block SSTableWriter.

(** For one user key and one type, the encoded key of sequence 2 is
    greater than the encoded key of sequence 1: the low byte of the
    sequence comes first in the little-endian image. *)
Lemma EncodeInternalKey_2_after_1 (k : list Z) (t : ValueType) :
  compare (EncodeInternalKey k 2 t) (EncodeInternalKey k 1 t) = 1.
Proof.
  unfold EncodeInternalKey. rewrite compare_app_same.
  destruct t; reflexivity.
Qed.

(** The writer of [FlushMemTable] once it is open, with the default
    options. *)
Definition open_writer : SSTableWriter :=
  set_fd (SSTableWriter.new default_SSTableOptions) 3 false.

(** C2 (the code at the failing input).  The user key "k" written at
    sequence 2 and then at sequence 1, the order in which the memtable
    hands them to [FlushMemTable]: the encoded key of the newer entry is
    greater, not less, than that of the older one, the first [Add] goes
    through, and at the second [Add] the strictly-increasing-key assertion
    of [BlockBuilder::Add] is false. *)
Theorem EncodeInternalKey_newest_first_fails :
  compare (EncodeInternalKey [107] 2 kValue) (EncodeInternalKey [107] 1 kValue) = 1
  /\ (forall w,
        exists wr,
          SSTableWriter.Add open_writer w [107] [98] 2 kValue = Some (OK, wr, w)
          /\ SSTableWriter.Add_asserts open_writer [107] 2 kValue = true
          /\ SSTableWriter.Add_asserts wr [107] 1 kValue = false).
Proof.
  split; [apply EncodeInternalKey_2_after_1|].
  intros w. eexists. split; [|split]; vm_compute; reflexivity.
Qed.

End SSTableKeyFacts.

(** ** Bloom filter (util/bloom_filter.h) *)

Module BloomFacts.
Import Bloom.

Lemma OptimalNumHashes_range (p : BloomFilterPolicy) :
  1 <= OptimalNumHashes p <= 30.
Proof.
  unfold OptimalNumHashes.
  destruct (int_of_double _ <? 1) eqn:E1.
  - simpl. lia.
  - apply Z.ltb_ge in E1.
    destruct (30 <? int_of_double _) eqn:E2.
    + lia.
    + apply Z.ltb_ge in E2. lia.
Qed.

(** The product of the source, with the decimal constant taken exactly and
    the quotient rounded toward zero. *)
Definition truncated_product (b : Z) : Z :=
  Z.quot (b * 69314718056) 100000000000.

(** The integers [start], [start + 1], ..., [n] of them. *)
Fixpoint zrange (n : nat) (start : Z) : list Z :=
  match n with
  | O => []
  | S n' => start :: zrange n' (start + 1)
  end.

Lemma in_zrange (n : nat) (start b : Z) :
  start <= b < start + Z.of_nat n -> In b (zrange n start).
Proof.
  revert start. induction n as [|n IH]; intros start H; simpl; [lia|].
  destruct (Z.eq_dec start b) as [->|Hne]; [left; reflexivity|].
  right. apply IH. lia.
Qed.

Definition checked_range : list Z := zrange (Z.to_nat 2049) (-1024).

Lemma OptimalNumHashes_checked :
  forallb (fun b => OptimalNumHashes (mkPolicy b)
                    =? Z.max 1 (Z.min 30 (truncated_product b)))
          checked_range = true.
Proof. vm_compute. reflexivity. Qed.

(** C6, the claim as stated fails: with the default [bits_per_key = 10]
    the function returns 6, not round(6.93) = 7. *)
Lemma OptimalNumHashes_default_is_not_7 :
  OptimalNumHashes default_policy = 6 /\ OptimalNumHashes default_policy <> 7.
Proof. split; [vm_compute; reflexivity | vm_compute; discriminate]. Qed.

(** C6, amended.  [OptimalNumHashes] returns the [double] product
    [bits_per_key * 0.69314718056] converted to [int], which truncates
    toward zero instead of rounding, clamped to [1, 30]; for every
    [bits_per_key] between -1024 and 1024 this is the exact decimal
    product truncated and clamped; for the default 10 it is 6. *)
Theorem OptimalNumHashes_truncates (p : BloomFilterPolicy) :
  OptimalNumHashes p
    = Z.max 1 (Z.min 30 (int_of_double
                           (PrimFloat.mul (double_of_int (bits_per_key p)) ln2_literal)))
  /\ 1 <= OptimalNumHashes p <= 30
  /\ (-1024 <= bits_per_key p <= 1024 ->
      OptimalNumHashes p = Z.max 1 (Z.min 30 (truncated_product (bits_per_key p))))
  /\ OptimalNumHashes default_policy = 6.
Proof.
  split; [|split; [apply OptimalNumHashes_range|split]].
  - unfold OptimalNumHashes.
    destruct (int_of_double _ <? 1) eqn:E1.
    + apply Z.ltb_lt in E1. simpl. lia.
    + apply Z.ltb_ge in E1.
      destruct (30 <? int_of_double _) eqn:E2.
      * apply Z.ltb_lt in E2. lia.
      * apply Z.ltb_ge in E2. lia.
  - intros Hb. destruct p as [b]. simpl in *.
    pose proof OptimalNumHashes_checked as H.
    rewrite forallb_forall in H.
    apply Z.eqb_eq, H. unfold checked_range.
    apply in_zrange. lia.
  - vm_compute. reflexivity.
Qed.

Lemma OptimalNumHashes_truncates_witness :
  OptimalNumHashes (mkPolicy 11) = 7.
Proof.
  destruct (OptimalNumHashes_truncates (mkPolicy 11)) as (_ & _ & H & _).
  rewrite H; [reflexivity | simpl; lia].
Defined.

(** *** No false negatives *)

Lemma foldM_Some {A B} (f : B -> A -> B) (l : list A) (b : B) :
  foldM (fun b a => Some (f b a)) l b = Some (fold_left f l b).
Proof. revert b. induction l as [|a l IH]; intros b; simpl; [reflexivity | apply IH]. Qed.

Lemma foldM_ext {A B} (f g : B -> A -> option B) (l : list A) (b : B) :
  (forall b a, f b a = g b a) -> foldM f l b = foldM g l b.
Proof.
  intros E. revert b. induction l as [|a l IH]; intros b; simpl; [reflexivity|].
  rewrite E. destruct (g b a); simpl; [apply IH | reflexivity].
Qed.

(** Bit [pos] of the filter [data]. *)
Definition bit_is_set (data : list Z) (pos : Z) : Prop :=
  Z.testbit (nth (Z.to_nat (pos / 8)) data 0) (pos mod 8) = true.

Lemma land_shiftl_1_eqb (x b : Z) :
  0 <= b -> (Z.land x (Z.shiftl 1 b) =? 0) = negb (Z.testbit x b).
Proof.
  intros Hb. rewrite Z.shiftl_1_l.
  destruct (Z.testbit x b) eqn:E; simpl.
  - apply Z.eqb_neq. intros H0.
    assert (Ht : Z.testbit (Z.land x (2 ^ b)) b = true).
    { rewrite Z.land_spec, E, Z.pow2_bits_true by lia. reflexivity. }
    rewrite H0, Z.bits_0 in Ht. discriminate.
  - apply Z.eqb_eq. apply Z.bits_inj'. intros n Hn.
    rewrite Z.land_spec, Z.bits_0.
    destruct (Z.eq_dec n b) as [->|Hne].
    + rewrite E. reflexivity.
    + rewrite Z.pow2_bits_false by lia. apply andb_false_r.
Qed.

Lemma nth_insert_eq (l : list Z) (i : nat) (v : Z) :
  (i < length l)%nat -> nth i (<[ i := v ]> l) 0 = v.
Proof.
  intros H. rewrite nth_lookup, list_lookup_insert_eq by exact H. reflexivity.
Qed.

Lemma nth_insert_ne (l : list Z) (i j : nat) (v : Z) :
  i <> j -> nth j (<[ i := v ]> l) 0 = nth j l 0.
Proof.
  intros H. rewrite !nth_lookup, list_lookup_insert_ne by exact H. reflexivity.
Qed.

Lemma set_bit_length (data : list Z) (pos : Z) :
  length (set_bit data pos) = length data.
Proof. unfold set_bit. apply length_insert. Qed.

Lemma set_bit_sets (data : list Z) (pos : Z) :
  (Z.to_nat (pos / 8) < length data)%nat -> bit_is_set (set_bit data pos) pos.
Proof.
  intros H. unfold bit_is_set, set_bit.
  rewrite nth_insert_eq by exact H.
  assert (0 <= pos mod 8 < 8) by (apply Z.mod_pos_bound; lia).
  rewrite Z.lor_spec, Z.shiftl_1_l, Z.pow2_bits_true by lia.
  apply orb_true_r.
Qed.

Lemma set_bit_keeps (data : list Z) (pos q : Z) :
  bit_is_set data q -> bit_is_set (set_bit data pos) q.
Proof.
  unfold bit_is_set, set_bit. intros H.
  destruct (Nat.eq_dec (Z.to_nat (pos / 8)) (Z.to_nat (q / 8))) as [E|E].
  - destruct (Nat.lt_ge_cases (Z.to_nat (pos / 8)) (length data)) as [L|L].
    + rewrite <- E, nth_insert_eq by exact L.
      rewrite Z.lor_spec, E, H. reflexivity.
    + rewrite list_insert_ge by exact L. exact H.
  - rewrite nth_insert_ne by exact E. exact H.
Qed.

(** The inner loop of [CreateFilter] for one key, as a plain fold. *)
Definition key_bits (num_bits : Z) (h : Z * Z) (data : list Z) (rounds : list nat) : list Z :=
  fold_left (fun data i => set_bit data (bit_pos (fst h) (snd h) i num_bits)) rounds data.

Lemma set_key_bits_Some (nh nb : Z) (data : list Z) (h : Z * Z) :
  nb <> 0 ->
  set_key_bits nh nb data h = Some (key_bits nb h data (seq 0 (Z.to_nat nh))).
Proof.
  intros Hnb. unfold set_key_bits, key_bits.
  rewrite <- foldM_Some. apply foldM_ext. intros b a.
  apply Z.eqb_neq in Hnb. rewrite Hnb. reflexivity.
Qed.

Lemma key_bits_length nb h rounds data :
  length (key_bits nb h data rounds) = length data.
Proof.
  revert data. induction rounds as [|i rounds IH]; intros data; simpl; [reflexivity|].
  unfold key_bits in *. simpl. rewrite IH. apply set_bit_length.
Qed.

Lemma key_bits_keeps nb h rounds data q :
  bit_is_set data q -> bit_is_set (key_bits nb h data rounds) q.
Proof.
  revert data. induction rounds as [|i rounds IH]; intros data H; [exact H|].
  unfold key_bits in *. simpl. apply IH, set_bit_keeps, H.
Qed.

Lemma bit_pos_range h1 h2 i nb : 0 < nb -> 0 <= bit_pos h1 h2 i nb < nb.
Proof. intros H. unfold bit_pos. apply Z.mod_pos_bound. exact H. Qed.

Lemma key_bits_sets nb h rounds data i :
  0 < nb -> (Z.to_nat (nb / 8) <= length data)%nat -> nb mod 8 = 0 ->
  In i rounds ->
  bit_is_set (key_bits nb h data rounds) (bit_pos (fst h) (snd h) i nb).
Proof.
  intros Hnb Hlen Hm8. revert data Hlen.
  induction rounds as [|j rounds IH]; intros data Hlen Hin; [destruct Hin|].
  unfold key_bits in *. simpl.
  destruct Hin as [->|Hin].
  - apply (key_bits_keeps nb h rounds). apply set_bit_sets.
    pose proof (bit_pos_range (fst h) (snd h) i nb Hnb) as Hr.
    assert (bit_pos (fst h) (snd h) i nb / 8 < nb / 8).
    { apply Z.div_lt_upper_bound; [lia|].
      rewrite <- Z.div_exact in Hm8 by lia. lia. }
    assert (0 <= bit_pos (fst h) (snd h) i nb / 8) by (apply Z.div_pos; lia).
    lia.
  - apply IH; [|exact Hin]. rewrite set_bit_length. exact Hlen.
Qed.

(** The outer loop of [CreateFilter], as a plain fold. *)
Definition all_key_bits (nh nb : Z) (hs : list (Z * Z)) (data : list Z) : list Z :=
  fold_left (fun data h => key_bits nb h data (seq 0 (Z.to_nat nh))) hs data.

Lemma all_key_bits_Some nh nb hs data :
  nb <> 0 ->
  foldM (set_key_bits nh nb) hs data = Some (all_key_bits nh nb hs data).
Proof.
  intros Hnb. unfold all_key_bits. rewrite <- foldM_Some.
  apply foldM_ext. intros b a. apply set_key_bits_Some, Hnb.
Qed.

Lemma all_key_bits_length nh nb hs data :
  length (all_key_bits nh nb hs data) = length data.
Proof.
  revert data. induction hs as [|h hs IH]; intros data; [reflexivity|].
  unfold all_key_bits in *. simpl. rewrite IH. apply key_bits_length.
Qed.

Lemma all_key_bits_keeps nh nb hs data q :
  bit_is_set data q -> bit_is_set (all_key_bits nh nb hs data) q.
Proof.
  revert data. induction hs as [|h hs IH]; intros data H; [exact H|].
  unfold all_key_bits in *. simpl. apply IH, key_bits_keeps, H.
Qed.

Lemma all_key_bits_sets nh nb hs data h i :
  0 < nb -> (Z.to_nat (nb / 8) <= length data)%nat -> nb mod 8 = 0 ->
  In h hs -> (i < Z.to_nat nh)%nat ->
  bit_is_set (all_key_bits nh nb hs data) (bit_pos (fst h) (snd h) i nb).
Proof.
  intros Hnb Hlen Hm8 Hin Hi. revert data Hlen.
  induction hs as [|h' hs IH]; intros data Hlen; [destruct Hin|].
  unfold all_key_bits in *. simpl.
  destruct Hin as [->|Hin].
  - apply (all_key_bits_keeps nh nb hs).
    apply key_bits_sets; try assumption. apply in_seq. lia.
  - apply IH; [exact Hin|]. rewrite key_bits_length. exact Hlen.
Qed.

(** The builder after [AddKey] on every key of a list. *)
Lemma AddKey_all (keys : list (list Z)) (b : BloomFilterBuilder) :
  let b' := fold_left AddKey keys b in
  policy_ b' = policy_ b
  /\ hashes_ b' = hashes_ b ++ map Hash128 keys
  /\ num_keys_ b' = (if keys is [] then num_keys_ b
                     else wrap64 (num_keys_ b + size keys)).
Proof.
  revert b. induction keys as [|k keys IH]; intros b; simpl.
  - rewrite app_nil_r. auto.
  - destruct (IH (AddKey b k)) as (Hp & Hh & Hn). simpl in *.
    rewrite Hp, Hh, Hn, <- app_assoc. split; [reflexivity|split; [reflexivity|]].
    destruct keys as [|k' keys'].
    + unfold size. simpl. reflexivity.
    + unfold wrap64, size. rewrite Z.add_mod_idemp_l by lia.
      f_equal. simpl length. lia.
Qed.

Lemma probe_true rd h1 h2 rounds i :
  0 < num_bits_ rd ->
  (forall j, (i <= j < i + rounds)%nat ->
     bit_is_set (data_ rd) (bit_pos h1 h2 j (num_bits_ rd))) ->
  probe rd h1 h2 rounds i = true.
Proof.
  intros Hnb. revert i. induction rounds as [|rounds IH]; intros i H; [reflexivity|].
  simpl. rewrite land_shiftl_1_eqb
    by (apply Z.mod_pos_bound; lia).
  rewrite (H i) by lia. simpl. apply IH. intros j Hj. apply H. lia.
Qed.

(** The size of the filter that [Finish] asks for when there are keys. *)
Definition filter_bits (num_keys bits_per_key : Z) : Z :=
  let bits := wrap64 (num_keys * wrap64 bits_per_key) in
  let bits := wrap64 (wrap64 (bits + 7) / 8 * 8) in
  if bits <? 64 then 64 else bits.

Lemma filter_bits_spec n b :
  64 <= filter_bits n b < 2 ^ 64 /\ filter_bits n b mod 8 = 0.
Proof.
  unfold filter_bits, wrap64.
  set (x := ((n * (b mod 2 ^ 64)) mod 2 ^ 64 + 7) mod 2 ^ 64).
  assert (Hx : 0 <= x < 2 ^ 64) by (apply Z.mod_pos_bound; lia).
  assert (Hq : 0 <= x / 8 * 8 <= x).
  { pose proof (Z.mul_div_le x 8 ltac:(lia)).
    pose proof (Z.div_pos x 8 ltac:(lia) ltac:(lia)). lia. }
  rewrite (Z.mod_small (x / 8 * 8)) by lia.
  destruct (x / 8 * 8 <? 64) eqn:E.
  - split; [lia | reflexivity].
  - apply Z.ltb_ge in E. split; [lia|]. apply Z.mod_mul. lia.
Qed.

(** C5.  Every key added to a builder is reported by the reader of the
    filter that [Finish] serializes, whatever [bits_per_key] is: [Finish]
    returns a filter, [Init] accepts it and [MayContain] is true. *)
Theorem bloom_no_false_negatives (policy : BloomFilterPolicy)
    (keys : list (list Z)) (k : list Z) :
  In k keys ->
  size keys < 2 ^ 64 ->
  exists filter rd,
    Finish (fold_left AddKey keys (new_builder policy)) = Some filter
    /\ Init new_reader filter = (true, rd)
    /\ MayContain rd k = true.
Proof.
  intros Hin Hlen.
  destruct (AddKey_all keys (new_builder policy)) as (Hp & Hh & Hn).
  set (b := fold_left AddKey keys (new_builder policy)) in *.
  simpl in Hp, Hh, Hn.
  assert (Hne : keys <> []) by (intros ->; destruct Hin).
  assert (Hnk : num_keys_ b = size keys).
  { rewrite Hn. destruct keys; [congruence|].
    unfold wrap64. apply Z.mod_small. unfold size in *. lia. }
  assert (Hnz : num_keys_ b <> 0).
  { rewrite Hnk. unfold size. destruct keys; [congruence|]. simpl length. lia. }
  pose proof (filter_bits_spec (num_keys_ b) (bits_per_key (policy_ b))) as [Hfb Hm8].
  set (nb := filter_bits (num_keys_ b) (bits_per_key (policy_ b))) in *.
  pose proof (OptimalNumHashes_range (policy_ b)) as Hk.
  set (nh := OptimalNumHashes (policy_ b)) in *.
  set (data := all_key_bits nh nb (hashes_ b) (repeat 0 (Z.to_nat (nb / 8 + 1)))).
  assert (Hdl : length data = Z.to_nat (nb / 8 + 1)).
  { unfold data. rewrite all_key_bits_length, repeat_length. reflexivity. }
  assert (Hdiv : 8 <= nb / 8) by (apply Z.div_le_lower_bound; lia).
  assert (Hfin : Finish b = Some (<[ Z.to_nat (nb / 8) := wrap8 nh ]> data)).
  { unfold Finish. apply Z.eqb_neq in Hnz. rewrite Hnz.
    fold (filter_bits (num_keys_ b) (bits_per_key (policy_ b))). fold nb.
    unfold CreateFilter. fold nh.
    rewrite all_key_bits_Some by lia. reflexivity. }
  set (flt := <[ Z.to_nat (nb / 8) := wrap8 nh ]> data) in *.
  assert (Hfl : size flt = nb / 8 + 1).
  { unfold size, flt. rewrite length_insert, Hdl. lia. }
  assert (Hlast : nth (Z.to_nat (size flt - 1)) flt 0 = nh).
  { rewrite Hfl. replace (nb / 8 + 1 - 1) with (nb / 8) by lia.
    unfold flt. rewrite nth_insert_eq by lia.
    unfold wrap8. apply Z.mod_small. lia. }
  assert (Hbits : wrap64 ((size flt - 1) * 8) = nb).
  { rewrite Hfl. replace (nb / 8 + 1 - 1) with (nb / 8) by lia.
    rewrite <- Z.div_exact in Hm8 by lia.
    unfold wrap64. rewrite Z.mod_small; lia. }
  exists flt, {| data_ := flt; num_bits_ := nb; num_hashes_ := nh |}.
  split; [exact Hfin|]. split.
  - unfold Init. rewrite Hlast, Hbits.
    replace (size flt <? 1) with false by (symmetry; apply Z.ltb_ge; lia).
    replace (wrap8 nh) with nh by (unfold wrap8; rewrite Z.mod_small; lia).
    replace (nh =? 0) with false by (symmetry; apply Z.eqb_neq; lia).
    replace (30 <? nh) with false by (symmetry; apply Z.ltb_ge; lia).
    reflexivity.
  - unfold MayContain. cbn [num_bits_ num_hashes_].
    replace (nb =? 0) with false by (symmetry; apply Z.eqb_neq; lia).
    destruct (Hash128 k) as [h1 h2] eqn:Hk128.
    apply probe_true; cbn [num_bits_ data_]; [lia|].
    intros j Hj.
    assert (Hset : bit_is_set data (bit_pos h1 h2 j nb)).
    { change h1 with (fst (h1, h2)). change h2 with (snd (h1, h2)) at 2.
      apply all_key_bits_sets; try lia.
      - rewrite repeat_length. lia.
      - rewrite Hh, <- Hk128. simpl. apply in_map. exact Hin. }
    unfold bit_is_set, flt in *.
    rewrite nth_insert_ne; [exact Hset|].
    pose proof (bit_pos_range h1 h2 j nb ltac:(lia)) as Hr.
    assert (bit_pos h1 h2 j nb / 8 < nb / 8).
    { apply Z.div_lt_upper_bound; [lia|].
      rewrite <- Z.div_exact in Hm8 by lia. lia. }
    assert (0 <= bit_pos h1 h2 j nb / 8) by (apply Z.div_pos; lia).
    lia.
Qed.

Lemma bloom_no_false_negatives_witness :
  exists filter rd,
    Finish (fold_left AddKey [[107; 49]; [107; 50]] (new_builder default_policy))
      = Some filter
    /\ Init new_reader filter = (true, rd)
    /\ MayContain rd [107; 50] = true.
Proof.
  apply (bloom_no_false_negatives default_policy [[107; 49]; [107; 50]] [107; 50]).
  - simpl. auto.
  - vm_compute. reflexivity.
Defined.

End BloomFacts.

(** ** Bits and bytes *)

Lemma testbit_wrap (n a i : Z) :
  0 <= n -> Z.testbit (a mod 2 ^ n) i = (i <? n) && Z.testbit a i.
Proof.
  intros Hn. destruct (Z.ltb_spec i n).
  - destruct (Z.lt_ge_cases i 0).
    + rewrite !Z.testbit_neg_r by lia. reflexivity.
    + rewrite Z.mod_pow2_bits_low by lia. reflexivity.
  - rewrite Z.mod_pow2_bits_high by lia. reflexivity.
Qed.

Lemma land_255 (x : Z) : Z.land x 255 = x mod 2 ^ 8.
Proof. change 255 with (Z.ones 8). apply Z.land_ones. lia. Qed.

Lemma testbit_small (n a i : Z) :
  0 <= a < 2 ^ n -> n <= i -> Z.testbit a i = false.
Proof.
  intros Ha Hi.
  destruct (Z.lt_ge_cases n 0) as [Hn|Hn]; [rewrite Z.pow_neg_r in Ha by lia; lia|].
  rewrite <- (Z.mod_small a (2 ^ n)) by lia.
  apply Z.mod_pow2_bits_high. lia.
Qed.

Ltac bit_step :=
  match goal with
  | |- context [Z.testbit (?a mod 2 ^ ?n) ?i] => rewrite (testbit_wrap n a i) by lia
  | |- context [Z.testbit (Z.lor ?a ?b) ?i] => rewrite (Z.lor_spec a b i)
  | |- context [Z.testbit (Z.land ?a ?b) ?i] => rewrite (Z.land_spec a b i)
  | |- context [Z.testbit (Z.lxor ?a ?b) ?i] => rewrite (Z.lxor_spec a b i)
  | |- context [Z.testbit ?a ?i] => rewrite (Z.testbit_neg_r a i) by lia
  | |- context [Z.testbit (Z.shiftl ?a ?n) ?i] => rewrite (Z.shiftl_spec a n i) by lia
  | |- context [Z.testbit (Z.shiftr ?a ?n) ?i] => rewrite (Z.shiftr_spec a n i) by lia
  | |- context [?i - ?n + ?n] => rewrite (Z.sub_add n i)
  end.

Ltac ltb_cases :=
  repeat match goal with
         | |- context [?a <? ?b] =>
             destruct (Z.ltb_spec a b); try lia
         end.

Ltac bitwise :=
  unfold wrap8, wrap16, wrap32, wrap64;
  rewrite ?land_255;
  repeat bit_step;
  ltb_cases;
  cbn [andb orb];
  rewrite ?orb_false_r;
  try reflexivity.

Lemma le32_roundtrip (c : Z) :
  0 <= c < 2 ^ 32 ->
  wrap32 (Z.lor (Z.lor (Z.lor (wrap8 (Z.land c 255))
                              (Z.shiftl (wrap8 (Z.land (Z.shiftr c 8) 255)) 8))
                       (Z.shiftl (wrap8 (Z.land (Z.shiftr c 16) 255)) 16))
                (Z.shiftl (wrap8 (Z.land (Z.shiftr c 24) 255)) 24)) = c.
Proof.
  intros Hc. apply Z.bits_inj'; intros i Hi.
  assert (Hcases : i < 8 \/ 8 <= i < 16 \/ 16 <= i < 24 \/ 24 <= i < 32 \/ 32 <= i) by lia.
  destruct Hcases as [H|[H|[H|[H|H]]]]; bitwise.
  all: try (symmetry; apply (testbit_small 32); lia).
Qed.

Lemma le16_roundtrip (n : Z) :
  0 <= n < 2 ^ 16 ->
  wrap16 (Z.lor (wrap8 (Z.land n 255))
                (Z.shiftl (wrap8 (Z.land (Z.shiftr n 8) 255)) 8)) = n.
Proof.
  intros Hc. apply Z.bits_inj'; intros i Hi.
  assert (Hcases : i < 8 \/ 8 <= i < 16 \/ 16 <= i) by lia.
  destruct Hcases as [H|[H|H]]; bitwise.
  all: try (symmetry; apply (testbit_small 16); lia).
Qed.

Lemma lxor_range (n a b : Z) :
  0 <= n -> 0 <= a < 2 ^ n -> 0 <= b < 2 ^ n -> 0 <= Z.lxor a b < 2 ^ n.
Proof.
  intros Hn Ha Hb.
  assert (E : Z.lxor a b = Z.lxor a b mod 2 ^ n).
  { apply Z.bits_inj'; intros i Hi. rewrite testbit_wrap by lia.
    destruct (Z.ltb_spec i n); [reflexivity|].
    rewrite Z.lxor_spec, (testbit_small n a), (testbit_small n b) by lia.
    reflexivity. }
  rewrite E. apply Z.mod_pos_bound. lia.
Qed.

Lemma shiftr_range (n k a : Z) :
  0 <= k -> 0 <= a < 2 ^ n -> 0 <= Z.shiftr a k < 2 ^ n.
Proof.
  intros Hk Ha. rewrite Z.shiftr_div_pow2 by lia.
  assert (0 < 2 ^ k) by (apply Z.pow_pos_nonneg; lia).
  split; [apply Z.div_pos; lia|].
  apply Z.div_lt_upper_bound; [lia|]. nia.
Qed.

(** ** Write-ahead log (wal/) *)

Module WalFacts.
Import WalFormat WalWriter WalReader.

Definition crc_step (c : Z) : Z :=
  if Z.odd c then Z.lxor 0xEDB88320 (Z.shiftr c 1) else Z.shiftr c 1.

Lemma crc_step_range c : 0 <= c < 2 ^ 32 -> 0 <= crc_step c < 2 ^ 32.
Proof.
  intros Hc. unfold crc_step.
  pose proof (shiftr_range 32 1 c ltac:(lia) Hc).
  destruct (Z.odd c); [|assumption].
  apply lxor_range; lia.
Qed.

Lemma table_entry_range i : 0 <= i < 2 ^ 32 -> 0 <= table_entry i < 2 ^ 32.
Proof.
  intros Hi. unfold table_entry.
  change (0 <= crc_step (crc_step (crc_step (crc_step (crc_step (crc_step
            (crc_step (crc_step i))))))) < 2 ^ 32).
  repeat apply crc_step_range. exact Hi.
Qed.

Lemma Update_range (data : list Z) (crc : Z) :
  0 <= crc < 2 ^ 32 -> 0 <= Update crc data < 2 ^ 32.
Proof.
  revert crc. unfold Update.
  induction data as [|b data IH]; intros crc Hc; simpl; [exact Hc|].
  apply IH. apply lxor_range; [lia| |apply shiftr_range; lia].
  apply table_entry_range. rewrite land_255.
  pose proof (Z.mod_pos_bound (Z.lxor crc b) (2 ^ 8) ltac:(lia)). lia.
Qed.

Lemma Compute_range (data : list Z) : 0 <= Compute data < 2 ^ 32.
Proof.
  unfold Compute. apply lxor_range; [lia| |lia].
  apply Update_range. lia.
Qed.

(** The checksum of a record: the CRC of type and payload, with the two
    length bytes folded in afterwards. *)
Definition record_crc (len_bytes body : list Z) : Z :=
  Z.lxor (Update (Z.lxor (Compute body) 0xFFFFFFFF) len_bytes) 0xFFFFFFFF.

Lemma record_crc_range lb body : 0 <= record_crc lb body < 2 ^ 32.
Proof.
  unfold record_crc. apply lxor_range; [lia| |lia].
  apply Update_range. apply lxor_range; [lia| |lia]. apply Compute_range.
Qed.

Definition len_bytes (n : Z) : list Z := [Z.land n 255; Z.land (Z.shiftr n 8) 255].

Definition crc_bytes (crc : Z) : list Z :=
  [ Z.land crc 255; Z.land (Z.shiftr crc 8) 255;
    Z.land (Z.shiftr crc 16) 255; Z.land (Z.shiftr crc 24) 255 ].

Lemma build_record_eq (payload : list Z) :
  build_record payload
  = crc_bytes (record_crc (len_bytes (wrap16 (size payload))) (kFull :: payload))
    ++ len_bytes (wrap16 (size payload)) ++ kFull :: payload.
Proof.
  unfold build_record, record_crc, len_bytes, crc_bytes.
  cbn [repeat app drop take]. reflexivity.
Qed.

Lemma build_record_size (payload : list Z) :
  size (build_record payload) = kHeaderSize + size payload.
Proof.
  rewrite build_record_eq. unfold size, kHeaderSize. simpl length. lia.
Qed.

(** A reader whose file holds [record] behind [prior], positioned at the
    start of [record]. *)
Definition reader_at (prior record rest : list Z) (pos : Z) : WALReader :=
  {| data_ := Some (prior ++ record ++ rest);
     size_ := size (prior ++ record ++ rest);
     pos_ := pos |}.

Lemma size_app {A} (a b : list A) : size (a ++ b) = size a + size b.
Proof. unfold size. rewrite length_app. lia. Qed.

Lemma size_nonneg {A} (a : list A) : 0 <= size a.
Proof. unfold size. lia. Qed.

Lemma take_size {A} (a : list A) : take (Z.to_nat (size a)) a = a.
Proof. unfold size. rewrite Nat2Z.id. apply firstn_all. Qed.

Lemma wrap16_range (z : Z) : 0 <= wrap16 z < 2 ^ 16.
Proof. apply Z.mod_pos_bound. lia. Qed.

Lemma wrap16_le (z : Z) : 0 <= z -> wrap16 z <= z.
Proof. intros H. apply Z.mod_le; lia. Qed.


(** [ReadRecord] at a position where the file holds a header
    [c0 c1 c2 c3 l0 l1 ty] and then [body]. *)
Lemma ReadRecord_header (data : list Z) (pos c0 c1 c2 c3 l0 l1 ty : Z) (body : list Z) :
  0 <= pos ->
  drop (Z.to_nat pos) data = c0 :: c1 :: c2 :: c3 :: l0 :: l1 :: ty :: body ->
  let stored := wrap32 (Z.lor (Z.lor (Z.lor (wrap8 c0) (Z.shiftl (wrap8 c1) 8))
                                     (Z.shiftl (wrap8 c2) 16))
                              (Z.shiftl (wrap8 c3) 24)) in
  let len := wrap16 (Z.lor (wrap8 l0) (Z.shiftl (wrap8 l1) 8)) in
  let rd := {| data_ := Some data; size_ := size data; pos_ := pos |} in
  ReadRecord rd
  = if size data <? pos + kHeaderSize + len then (ReadResult_Error Corruption, rd)
    else if negb (stored =? record_crc [l0; l1] (ty :: take (Z.to_nat len) body))
    then (ReadResult_Error Corruption, rd)
    else if negb (wrap8 ty =? kFull) then (ReadResult_Error Corruption, rd)
    else (ReadResult_OK (take (Z.to_nat len) body),
          {| data_ := Some data; size_ := size data; pos_ := pos + kHeaderSize + len |}).
Proof.
  intros Hpos Hdrop stored len rd.
  assert (Hlen : size data = pos + 7 + size body).
  { apply (f_equal (@length Z)) in Hdrop. rewrite length_drop in Hdrop.
    simpl in Hdrop. unfold size. lia. }
  pose proof (size_nonneg body).
  pose proof (wrap16_range (Z.lor (wrap8 l0) (Z.shiftl (wrap8 l1) 8))) as Hl.
  fold len in Hl.
  unfold ReadRecord, rd. cbn [data_ size_ pos_]. unfold kHeaderSize.
  replace (size data <=? pos) with false by (symmetry; apply Z.leb_gt; lia).
  replace (size data <? pos + 7) with false by (symmetry; apply Z.ltb_ge; lia).
  rewrite Hdrop. cbn [nth]. fold stored. fold len.
  destruct (size data <? pos + 7 + len); [reflexivity|].
  change (drop 6 (c0 :: c1 :: c2 :: c3 :: l0 :: l1 :: ty :: body)) with (ty :: body).
  change (take 2 (drop 4 (c0 :: c1 :: c2 :: c3 :: l0 :: l1 :: ty :: body)))
    with [l0; l1].
  change (drop (Z.to_nat 7) (c0 :: c1 :: c2 :: c3 :: l0 :: l1 :: ty :: body))
    with body.
  replace (Z.to_nat (1 + len)) with (S (Z.to_nat len)) by lia.
  cbn [take]. unfold record_crc. reflexivity.
Qed.

(** What [ReadRecord] does with any record of [AppendRecord]: the length it
    reads is the payload size modulo 2^16; it accepts the record exactly
    when the checksum over that many payload bytes equals the checksum the
    writer took over the whole payload, and then returns that prefix. *)
Lemma ReadRecord_build_record (prior payload rest : list Z) :
  let n := wrap16 (size payload) in
  let record := build_record payload in
  ReadRecord (reader_at prior record rest (size prior))
  = if record_crc (len_bytes n) (kFull :: payload)
       =? record_crc (len_bytes n) (kFull :: take (Z.to_nat n) payload)
    then (ReadResult_OK (take (Z.to_nat n) payload),
          reader_at prior record rest (size prior + kHeaderSize + n))
    else (ReadResult_Error Corruption, reader_at prior record rest (size prior)).
Proof.
  intros n record.
  pose proof (wrap16_range (size payload)) as Hn.
  pose proof (wrap16_le (size payload) (size_nonneg _)) as Hle.
  fold n in Hn, Hle.
  pose proof (size_nonneg prior). pose proof (size_nonneg rest).
  assert (Hsz : size (prior ++ record ++ rest)
                = size prior + (kHeaderSize + size payload) + size rest).
  { rewrite !size_app. unfold record. rewrite build_record_size. lia. }
  set (crc := record_crc (len_bytes n) (kFull :: payload)).
  pose proof (record_crc_range (len_bytes n) (kFull :: payload)) as Hcrc.
  fold crc in Hcrc.
  unfold reader_at.
  rewrite (ReadRecord_header (prior ++ record ++ rest) (size prior)
             (Z.land crc 255) (Z.land (Z.shiftr crc 8) 255)
             (Z.land (Z.shiftr crc 16) 255) (Z.land (Z.shiftr crc 24) 255)
             (Z.land n 255) (Z.land (Z.shiftr n 8) 255) kFull (payload ++ rest)).
  2: lia.
  2:{ unfold size. rewrite Nat2Z.id, drop_app_length.
      unfold record. rewrite build_record_eq. reflexivity. }
  rewrite le32_roundtrip by exact Hcrc.
  rewrite le16_roundtrip by exact Hn.
  rewrite Hsz. unfold kHeaderSize.
  replace (size prior + (7 + size payload) + size rest <? size prior + 7 + n)
    with false by (symmetry; apply Z.ltb_ge; lia).
  rewrite take_app_le by (unfold size in *; lia).
  change (wrap8 kFull =? kFull) with true. cbn [negb].
  fold (len_bytes n). fold crc.
  destruct (crc =? record_crc (len_bytes n) (kFull :: take (Z.to_nat n) payload));
    reflexivity.
Qed.

Lemma SyncLocked_file wr w s wr' w' :
  SyncLocked wr w = Some (s, wr', w') -> OS.file w' = OS.file w.
Proof.
  unfold SyncLocked, OS.fsync. intros H.
  destruct ((0 <=? fd_ wr) && (0 <? bytes_since_sync_ wr)); [|congruence].
  destruct (OS.script w) as [|[| |] sc]; simpl in H; try discriminate;
    inversion H; reflexivity.
Qed.

Lemma HandleSync_file wr w s wr' w' :
  HandleSync wr w = Some (s, wr', w') -> OS.file w' = OS.file w.
Proof.
  unfold HandleSync. intros H.
  destruct (sync_policy (options_ wr)).
  - eapply SyncLocked_file, H.
  - destruct (sync_batch_size (options_ wr) <=? bytes_since_sync_ wr).
    + eapply SyncLocked_file, H.
    + congruence.
  - congruence.
  - congruence.
Qed.

(** A successful [AppendRecord] has put the whole record at the end of the
    file. *)
Lemma AppendRecord_OK_file wr w payload wr' w' :
  AppendRecord wr w payload = Some (OK, wr', w') ->
  OS.file w' = OS.file w ++ build_record payload.
Proof.
  unfold AppendRecord. intros H.
  destruct (fd_ wr <? 0); [discriminate|].
  remember (build_record payload) as record eqn:Erec.
  pose proof (size_nonneg record) as Hs.
  unfold OS.write in H.
  destruct (OS.script w) as [|[|n|e] sc]; cbn [mbind option_bind] in H;
    try discriminate.
  - rewrite Z.eqb_refl in H. cbn [negb] in H.
    apply HandleSync_file in H. exact H.
  - destruct (Z.max 0 (Z.min n (size record)) =? size record) eqn:E;
      cbn [negb] in H; [|discriminate].
    apply Z.eqb_eq in E. apply HandleSync_file in H. cbn [OS.file] in H.
    rewrite H, E. unfold size. rewrite Nat2Z.id, firstn_all. reflexivity.
  - replace (-1 =? size record) with false in H
      by (symmetry; apply Z.eqb_neq; lia).
    discriminate.
Qed.

(** C7 (the code at the failing input).  A [write] that fails with
    [EINTR] is not retried by [AppendRecord]: the one call is all it makes,
    it returns [IOError], and neither the writer (no sync-policy action,
    no counter) nor the file changes. *)
Theorem AppendRecord_EINTR_not_retried
    (options : WALOptions) (file_size bytes_since_sync : Z) (closed sync_requested : bool)
    (file payload : list Z) (rest : list OS.outcome) :
  let wr := {| options_ := options; fd_ := 3; file_size_ := file_size;
               bytes_since_sync_ := bytes_since_sync; closed_ := closed;
               sync_requested_ := sync_requested |} in
  AppendRecord wr {| OS.file := file; OS.script := OS.Fail OS.EINTR :: rest |} payload
  = Some (IOError, wr, {| OS.file := file; OS.script := rest |}).
Proof.
  intros wr. unfold AppendRecord, OS.write. cbn [fd_ OS.script OS.file].
  change (3 <? 0) with false. cbn [mbind option_bind].
  pose proof (size_nonneg (build_record payload)).
  replace (-1 =? size (build_record payload)) with false
    by (symmetry; apply Z.eqb_neq; lia).
  reflexivity.
Qed.

(** The entry whose record is accepted although its payload has 65536
    bytes: a Put of key "k" with a value of 65522 bytes, the last four
    chosen so that the CRC state after type and payload is the state after
    the type byte alone. *)
Definition colliding_entry : WALEntry :=
  {| type := kPut; sequence := 1; key := [107];
     value := repeat 97 (Z.to_nat 65518) ++ [79; 212; 36; 32] |}.

(** C8, the claim as stated fails: the payload of [colliding_entry] has
    65536 bytes, its record is written with length field 0, and
    [ReadRecord] on the file does not report a CRC mismatch: it returns OK
    with an empty payload and moves 7 bytes on. *)
Lemma oversized_record_passes_crc :
  let payload := EncodeWALEntry colliding_entry in
  let wr := {| options_ := {| sync_policy := kNoSync; sync_batch_size := 0;
                              max_file_size := 2 ^ 26 |};
               fd_ := 3; file_size_ := 0; bytes_since_sync_ := 0;
               closed_ := false; sync_requested_ := false |} in
  let w := {| OS.file := []; OS.script := [OS.Done] |} in
  size payload = 65536
  /\ match Append wr w colliding_entry with
     | Some (s, _, w') =>
         s = OK
         /\ fst (ReadRecord (snd (Open (Content (OS.file w'))))) = ReadResult_OK []
         /\ pos_ (snd (ReadRecord (snd (Open (Content (OS.file w')))))) = 7
     | None => False
     end.
Proof. vm_compute. repeat split. Qed.

(** C8, amended.  For a record that [AppendRecord] has written: the length
    field read back is the payload size modulo 2^16; a payload of at most
    65535 bytes comes back from [ReadRecord] unchanged; for a payload of
    65536 bytes or more [ReadRecord] checks the CRC over only the first
    (size mod 2^16) payload bytes, reports Corruption when it differs from
    the CRC the writer took over the whole payload, and otherwise returns
    that prefix as the payload. *)
Theorem AppendRecord_then_ReadRecord (wr : WALWriter) (w : OS.World) (payload : list Z)
    (wr' : WALWriter) (w' : OS.World) :
  AppendRecord wr w payload = Some (OK, wr', w') ->
  let n := wrap16 (size payload) in
  let pos := size (OS.file w) in
  let rd := {| data_ := Some (OS.file w'); size_ := size (OS.file w'); pos_ := pos |} in
  let rd_after := fun k =>
    {| data_ := Some (OS.file w'); size_ := size (OS.file w');
       pos_ := pos + kHeaderSize + k |} in
  wrap16 (Z.lor (wrap8 (nth (Z.to_nat (pos + 4)) (OS.file w') 0))
                (Z.shiftl (wrap8 (nth (Z.to_nat (pos + 5)) (OS.file w') 0)) 8)) = n
  /\ (size payload <= 65535 ->
      ReadRecord rd = (ReadResult_OK payload, rd_after (size payload)))
  /\ (65536 <= size payload ->
      ReadRecord rd
      = if record_crc (len_bytes n) (kFull :: payload)
           =? record_crc (len_bytes n) (kFull :: take (Z.to_nat n) payload)
        then (ReadResult_OK (take (Z.to_nat n) payload), rd_after n)
        else (ReadResult_Error Corruption, rd)).
Proof.
  intros Happ n pos rd rd_after.
  apply AppendRecord_OK_file in Happ.
  pose proof (ReadRecord_build_record (OS.file w) payload []) as Hrd.
  cbv zeta in Hrd. unfold reader_at in Hrd.
  rewrite app_nil_r, <- Happ in Hrd. fold n pos in Hrd.
  pose proof (wrap16_range (size payload)) as Hn. fold n in Hn.
  split; [|split].
  - rewrite Happ, build_record_eq.
    unfold pos, size. rewrite !Z2Nat.inj_add, !Nat2Z.id by lia.
    rewrite 2!(app_nth2 (OS.file w)) by lia.
    replace (length (OS.file w) + Z.to_nat 4 - length (OS.file w))%nat with 4%nat by lia.
    replace (length (OS.file w) + Z.to_nat 5 - length (OS.file w))%nat with 5%nat by lia.
    cbn [crc_bytes len_bytes app nth]. fold (size payload). fold n.
    apply le16_roundtrip. exact Hn.
  - intros Hsmall.
    assert (En : n = size payload).
    { unfold n, wrap16. apply Z.mod_small. pose proof (size_nonneg payload). lia. }
    unfold rd, rd_after. rewrite Hrd, En, take_size, Z.eqb_refl. reflexivity.
  - intros _. exact Hrd.
Qed.

Definition witness_writer : WALWriter :=
  {| options_ := default_WALOptions; fd_ := 3; file_size_ := 0;
     bytes_since_sync_ := 0; closed_ := false; sync_requested_ := false |}.

Definition witness_world : OS.World :=
  {| OS.file := []; OS.script := [OS.Done; OS.Done] |}.

Definition witness_writer' : WALWriter :=
  {| options_ := default_WALOptions; fd_ := 3; file_size_ := 10;
     bytes_since_sync_ := 0; closed_ := false; sync_requested_ := false |}.

Definition witness_world' : OS.World :=
  {| OS.file := build_record [1; 2; 3]; OS.script := [] |}.

Lemma AppendRecord_then_ReadRecord_witness :
  AppendRecord witness_writer witness_world [1; 2; 3]
  = Some (OK, witness_writer', witness_world')
  /\ ReadRecord {| data_ := Some (OS.file witness_world');
                   size_ := size (OS.file witness_world');
                   pos_ := size (OS.file witness_world) |}
     = (ReadResult_OK [1; 2; 3],
        {| data_ := Some (OS.file witness_world');
           size_ := size (OS.file witness_world');
           pos_ := size (OS.file witness_world) + kHeaderSize + size [1; 2; 3] |}).
Proof.
  assert (E : AppendRecord witness_writer witness_world [1; 2; 3]
              = Some (OK, witness_writer', witness_world'))
    by (vm_compute; reflexivity).
  split; [exact E|].
  destruct (AppendRecord_then_ReadRecord _ _ _ _ _ E) as (_ & T & _).
  apply T. vm_compute. discriminate.
Defined.

End WalFacts.

(** ** SSTable writer and footer (sstable/) *)

Module SSTableFacts.
Import Format Block SSTableWriter.

(** One round of the loop of [WriteRaw] on a [write] that fails with
    [EINTR]: the same bytes are tried again. *)
Lemma WriteRaw_loop_EINTR (fuel : nat) (wr : SSTableWriter) (file ptr : list Z)
    (sc : list OS.outcome) :
  0 < size ptr ->
  WriteRaw_loop (S fuel) wr {| OS.file := file; OS.script := OS.Fail OS.EINTR :: sc |} ptr
  = WriteRaw_loop fuel wr {| OS.file := file; OS.script := sc |} ptr.
Proof.
  intros Hp. cbn [WriteRaw_loop].
  replace (size ptr <=? 0) with false by (symmetry; apply Z.leb_gt; lia).
  reflexivity.
Qed.

(** One round on a [write] that takes everything: the loop is over. *)
Lemma WriteRaw_loop_Done (fuel : nat) (wr : SSTableWriter) (file ptr : list Z)
    (sc : list OS.outcome) :
  0 < size ptr ->
  WriteRaw_loop (S fuel) wr {| OS.file := file; OS.script := OS.Done :: sc |} ptr
  = Some (OK, set_offset wr (wrap64 (offset_ wr + size ptr)),
          {| OS.file := file ++ ptr; OS.script := sc |}).
Proof.
  intros Hp. cbn [WriteRaw_loop].
  replace (size ptr <=? 0) with false by (symmetry; apply Z.leb_gt; lia).
  unfold OS.write. cbn [OS.script OS.file mbind option_bind].
  replace (size ptr <? 0) with false by (symmetry; apply Z.ltb_ge; lia).
  unfold size at 2. rewrite Nat2Z.id, drop_all.
  destruct fuel; reflexivity.
Qed.

(** The sibling of [WALWriter::AppendRecord]: [WriteRaw] does retry a
    [write] that fails with [EINTR]. *)
Lemma WriteRaw_retries_EINTR (wr : SSTableWriter) (file data : list Z)
    (rest : list OS.outcome) :
  0 < size data ->
  WriteRaw wr {| OS.file := file; OS.script := OS.Fail OS.EINTR :: OS.Done :: rest |} data
  = Some (OK, set_offset wr (wrap64 (offset_ wr + size data)),
          {| OS.file := file ++ data; OS.script := rest |}).
Proof.
  intros Hd. unfold WriteRaw. cbn [OS.script length].
  rewrite WriteRaw_loop_EINTR by exact Hd.
  apply WriteRaw_loop_Done. exact Hd.
Qed.

(** The footer of the table of scenario E2E-5: 1000 entries under the keys
    key000000 .. key000999, one index block and a Bloom block. *)
Definition footer_e2e5 : Footer :=
  {| index_handle := {| offset := 40000; size_ := 600 |};
     bloom_handle := {| offset := 40600; size_ := 1251 |};
     num_entries := 1000;
     min_sequence := 1;
     max_sequence := 1000;
     min_key := [107; 101; 121; 48; 48; 48; 48; 48; 48];
     max_key := [107; 101; 121; 48; 48; 48; 57; 57; 57] |}.

(** C4 (the code at the failing input).  With two keys of nine bytes the
    fields alone take 68 bytes, the padding loop adds nothing and the
    encoded footer has 76 bytes, not [kFooterSize = 64]; decoding the
    encoding still gives the footer back, but the last 64 bytes of it (what
    lies at the fixed footer position of a file) do not. *)
Theorem Footer_Encode_overflows :
  size (Footer_Encode footer_e2e5) = 76
  /\ Footer_Decode Footer_default (Footer_Encode footer_e2e5) = Some (true, footer_e2e5)
  /\ Footer_Decode Footer_default (drop 12 (Footer_Encode footer_e2e5))
     <> Some (true, footer_e2e5).
Proof.
  split; [|split]; vm_compute; [reflexivity | reflexivity | discriminate].
Qed.

(** The footer of a table without entries. *)
Definition empty_table_footer : Footer :=
  {| index_handle := {| offset := 0; size_ := 13 |};
     bloom_handle := {| offset := 0; size_ := 0 |};
     num_entries := 0;
     min_sequence := 2 ^ 64 - 1;
     max_sequence := 0;
     min_key := [];
     max_key := [] |}.

(** The index block of a table without entries: no entry, the one restart
    point at offset 0, the number of restart points (1), and the trailer:
    the type byte of an index block and the CRC-32 of the nine bytes before
    it, little-endian. *)
Definition empty_index_block : list Z :=
  [0; 0; 0; 0; 1; 0; 0; 0; 1; 136; 13; 110; 172].

(** The footer of a table without entries, byte by byte: the two handles
    with their lengths, the three counters, the two empty keys, the padding
    and the magic number. *)
Definition empty_table_footer_bytes : list Z :=
  [2; 0; 0; 0; 0; 13; 2; 0; 0; 0; 0; 0;
   0; 0; 0; 0; 0; 0; 0; 0;
   255; 255; 255; 255; 255; 255; 255; 255;
   0; 0; 0; 0; 0; 0; 0; 0;
   0; 0; 0; 0; 0; 0; 0; 0;
   0; 0; 0; 0; 0; 0; 0; 0; 0; 0; 0; 0;
   49; 101; 108; 98; 97; 84; 83; 83].

(** C10.  [Finish] right after [Open], with no [Add] in between, on a
    writer whose options pass the assertion of the constructor, and every
    system call succeeding: it returns OK and the file is, byte by byte,
    the empty index block with its trailer (13 bytes: type byte 1 and the
    CRC-32 of the nine bytes before it, which [VerifyTrailer] accepts for
    an index block and not for a data block) followed by a footer of 64
    bytes that decodes to zero entries, [min_sequence = 2^64 - 1],
    [max_sequence = 0], empty keys and a Bloom handle of offset 0 and
    size 0. *)
Theorem Finish_without_Add (options : SSTableOptions) (file : list Z)
    (rest : list OS.outcome) :
  SSTableWriter.new_asserts options = true ->
  let w0 := {| OS.file := file;
               OS.script := OS.Done :: OS.Done :: OS.Done :: OS.Done :: OS.Done :: rest |} in
  exists wr1 w1 st wr2 w2,
    Open (SSTableWriter.new options) w0 = Some (OK, wr1, w1)
    /\ Finish wr1 w1 = Some (OK, Some st, wr2, w2)
    /\ OS.file w2 = empty_index_block ++ empty_table_footer_bytes
    /\ OS.script w2 = rest
    /\ empty_index_block
       = [0; 0; 0; 0; 1; 0; 0; 0] ++ [1]
         ++ EncodeFixed32 (WalFormat.Compute [0; 0; 0; 0; 1; 0; 0; 0; 1])
    /\ VerifyTrailer empty_index_block kIndex = true
    /\ VerifyTrailer empty_index_block kData = false
    /\ size empty_index_block = 13
    /\ size empty_table_footer_bytes = 64
    /\ Footer_Decode Footer_default empty_table_footer_bytes
       = Some (true, empty_table_footer)
    /\ index_handle empty_table_footer = {| offset := 0; size_ := 13 |}
    /\ st_num_entries st = 0.
Proof.
  intros _ w0.
  destruct options as [bs ri vc ubf bp].
  destruct ubf; do 5 eexists; repeat split; vm_compute; reflexivity.
Qed.

Lemma Finish_without_Add_witness :
  exists wr1 w1 st wr2 w2,
    Open (SSTableWriter.new default_SSTableOptions)
      {| OS.file := [7];
         OS.script := [OS.Done; OS.Done; OS.Done; OS.Done; OS.Done] |}
    = Some (OK, wr1, w1)
    /\ Finish wr1 w1 = Some (OK, Some st, wr2, w2)
    /\ OS.file w2 = empty_index_block ++ empty_table_footer_bytes
    /\ OS.script w2 = []
    /\ empty_index_block
       = [0; 0; 0; 0; 1; 0; 0; 0] ++ [1]
         ++ EncodeFixed32 (WalFormat.Compute [0; 0; 0; 0; 1; 0; 0; 0; 1])
    /\ VerifyTrailer empty_index_block kIndex = true
    /\ VerifyTrailer empty_index_block kData = false
    /\ size empty_index_block = 13
    /\ size empty_table_footer_bytes = 64
    /\ Footer_Decode Footer_default empty_table_footer_bytes
       = Some (true, empty_table_footer)
    /\ index_handle empty_table_footer = {| offset := 0; size_ := 13 |}
    /\ st_num_entries st = 0.
Proof.
  apply (Finish_without_Add default_SSTableOptions [7] []). reflexivity.
Defined.

End SSTableFacts.

(** ** Skip list (memtable/skiplist.h) *)

Module SkipListFacts.
Import SkipList.

Lemma lookup_repeat {A} (x : A) (n i : nat) :
  (i < n)%nat -> repeat x n !! i = Some x.
Proof.
  revert i. induction n as [|n IH]; intros i Hi; [lia|].
  destruct i as [|i]; simpl; [reflexivity|]. apply IH. lia.
Qed.

(** [RandomHeight] returns a height between 1 and [kMaxHeight]. *)
Lemma RandomHeight_loop_range (rounds height : nat) (g : Rng) :
  (1 <= height <= kMaxHeight)%nat ->
  (1 <= fst (RandomHeight_loop rounds height g) <= kMaxHeight)%nat.
Proof.
  revert height g. induction rounds as [|rounds IH]; intros height g Hh; simpl; [exact Hh|].
  destruct (height <? kMaxHeight)%nat eqn:E; [|exact Hh].
  apply Nat.ltb_lt in E.
  destruct (g O mod 4 =? 0); [|exact Hh].
  apply IH. lia.
Qed.

Section WithKey.
Context {Key : Type}.
Variable compare_ : Key -> Key -> Z.
Variable Key_default : Key.

(** What the proofs need of the comparator: it is transitive and the two
    ways round agree. *)
Hypothesis compare_trans :
  forall a b c, compare_ a b <= 0 -> compare_ b c < 0 -> compare_ a c < 0.
Hypothesis compare_flip :
  forall a b, 0 <= compare_ a b -> compare_ b a <= 0.

Notation SkipList := (SkipList.SkipList Key).
Notation Node := (SkipList.Node Key).

Implicit Types (sl : SkipList) (l pre suf : list nat) (x y i : nat) (L : nat).

Lemma RandomHeight_range sl :
  (1 <= fst (RandomHeight sl) <= kMaxHeight)%nat
  /\ arena_ (snd (RandomHeight sl)) = arena_ sl
  /\ max_height_ (snd (RandomHeight sl)) = max_height_ sl.
Proof.
  unfold RandomHeight.
  pose proof (RandomHeight_loop_range kMaxHeight 1 (rng_ sl)) as H.
  destruct (RandomHeight_loop kMaxHeight 1 (rng_ sl)) as [h g]. simpl in *.
  split; [apply H; unfold kMaxHeight; lia | auto].
Qed.

(** The height of node [i] (the length of its array of successors) and its
    key. *)
Definition node_height sl i : nat :=
  match arena_ sl !! i with Some n => length (next_ n) | None => O end.

Definition key_of sl i : Key :=
  match arena_ sl !! i with Some n => key n | None => Key_default end.

(** Following the successors at level [L] from node [x] one meets exactly
    the nodes [l] and then the pointer [tl]. *)
Fixpoint chain_to sl L x l (tl : option nat) : Prop :=
  match l with
  | [] => Next sl x L = Some tl
  | y :: l' => Next sl x L = Some (Some y) /\ chain_to sl L y l' tl
  end.

Definition hd_or l (tl : option nat) : option nat :=
  match l with [] => tl | y :: _ => Some y end.

Fixpoint last_or x l : nat :=
  match l with [] => x | y :: l' => last_or y l' end.

Lemma last_or_app x a b : last_or x (a ++ b) = last_or (last_or x a) b.
Proof. revert x. induction a as [|y a IH]; intros x; simpl; [reflexivity | apply IH]. Qed.

Lemma last_or_elem x a : last_or x a = x \/ last_or x a ∈ a.
Proof.
  revert x. induction a as [|y a IH]; intros x; simpl; [left; reflexivity|].
  right. destruct (IH y) as [->|H]; [left | right; exact H].
Qed.

(** The nodes of [l] that reach level [L]. *)
Definition level_list sl L l : list nat :=
  filter (fun i => (L < node_height sl i)%nat) l.

Definition key_lt sl (k : Key) i : Prop := compare_ (key_of sl i) k < 0.
Definition key_le sl i j : Prop := compare_ (key_of sl i) (key_of sl j) <= 0.

(** The invariant of the list: [l0] lists the nodes other than the head in
    the order of level 0; it is sorted, and at every level the chain from
    the head runs through the nodes of [l0] that reach the level. *)
Record Inv sl l0 : Prop := mkInv {
  inv_head : node_height sl head_ = kMaxHeight;
  inv_mh : (1 <= max_height_ sl <= kMaxHeight)%nat;
  inv_nodup : NoDup l0;
  inv_valid : forall i, i ∈ l0 ->
    (0 < i < length (arena_ sl))%nat /\ (1 <= node_height sl i <= max_height_ sl)%nat;
  inv_sorted : StronglySorted (key_le sl) l0;
  inv_chain : forall L, (L < kMaxHeight)%nat -> chain_to sl L head_ (level_list sl L l0) None
}.

Lemma chain_to_app sl L x a b tl :
  chain_to sl L x (a ++ b) tl
  <-> chain_to sl L x a (hd_or b tl)
      /\ match b with [] => True | y :: b' => chain_to sl L y b' tl end.
Proof.
  revert x. induction a as [|z a IH]; intros x; simpl.
  - destruct b as [|y b']; simpl; tauto.
  - rewrite IH. tauto.
Qed.

Lemma chain_to_last sl L x a tl :
  chain_to sl L x a tl -> Next sl (last_or x a) L = Some tl.
Proof.
  revert x. induction a as [|z a IH]; intros x; simpl; [auto|].
  intros [_ H]. apply IH, H.
Qed.

Lemma chain_to_ext sl sl' L x a tl :
  (forall y, y ∈ x :: a -> Next sl' y L = Next sl y L) ->
  chain_to sl L x a tl -> chain_to sl' L x a tl.
Proof.
  revert x. induction a as [|z a IH]; intros x Hext; simpl.
  - rewrite Hext by (left). auto.
  - intros [H1 H2]. split.
    + rewrite Hext by (left). exact H1.
    + apply IH; [|exact H2]. intros y Hy. apply Hext. right. exact Hy.
Qed.

(** Redirecting the last pointer of a chain. *)
Lemma chain_to_redirect sl sl' L x a tl tl' :
  NoDup (x :: a) ->
  (forall y, y ∈ x :: a -> y <> last_or x a -> Next sl' y L = Next sl y L) ->
  Next sl' (last_or x a) L = Some tl' ->
  chain_to sl L x a tl -> chain_to sl' L x a tl'.
Proof.
  revert x. induction a as [|z a IH]; intros x Hnd Hext Hlast; simpl.
  - intros _. exact Hlast.
  - intros [H1 H2]. simpl in Hlast, Hext.
    apply NoDup_cons in Hnd as [Hx Hnd].
    split.
    + rewrite Hext; [exact H1 | left | ].
      intros ->. apply Hx.
      destruct (last_or_elem z a) as [E|E]; [rewrite E; left | right; exact E].
    + apply IH; try assumption.
      intros y Hy Hne. apply Hext; [right; exact Hy | exact Hne].
Qed.

(** *** Reading and writing successors *)

Lemma SetNext_spec sl a i v sl' :
  SetNext sl a i v = Some sl' ->
  (forall b L, Next sl' b L = if decide (a = b /\ i = L) then Some v else Next sl b L)
  /\ (forall b, key_of sl' b = key_of sl b)
  /\ (forall b, node_height sl' b = node_height sl b)
  /\ length (arena_ sl') = length (arena_ sl)
  /\ max_height_ sl' = max_height_ sl
  /\ rng_ sl' = rng_ sl.
Proof.
  unfold SetNext. destruct (arena_ sl !! a) as [n|] eqn:Ha; [|discriminate].
  simpl. destruct (i <? length (next_ n))%nat eqn:Hi; [|discriminate].
  apply Nat.ltb_lt in Hi. intros [= <-]. simpl.
  assert (Hlt : (a < length (arena_ sl))%nat) by (eapply lookup_lt_Some; eauto).
  repeat split.
  - intros b L. unfold Next. simpl.
    destruct (decide (a = b)) as [->|Hne].
    + rewrite list_lookup_insert_eq by exact Hlt. rewrite Ha. simpl.
      destruct (decide (i = L)) as [->|HL].
      * rewrite list_lookup_insert_eq by exact Hi.
        destruct (decide (b = b /\ L = L)); [reflexivity | tauto].
      * rewrite list_lookup_insert_ne by exact HL.
        destruct (decide (b = b /\ i = L)); [tauto | reflexivity].
    + rewrite list_lookup_insert_ne by exact Hne.
      destruct (decide (a = b /\ i = L)); [tauto | reflexivity].
  - intros b. unfold key_of. simpl.
    destruct (decide (a = b)) as [->|Hne].
    + rewrite list_lookup_insert_eq by exact Hlt. rewrite Ha. reflexivity.
    + rewrite list_lookup_insert_ne by exact Hne. reflexivity.
  - intros b. unfold node_height. simpl.
    destruct (decide (a = b)) as [->|Hne].
    + rewrite list_lookup_insert_eq by exact Hlt. rewrite Ha. simpl.
      apply length_insert.
    + rewrite list_lookup_insert_ne by exact Hne. reflexivity.
  - apply length_insert.
Qed.

Lemma SetNext_is_Some sl a i v :
  (i < node_height sl a)%nat -> exists sl', SetNext sl a i v = Some sl'.
Proof.
  unfold node_height, SetNext. destruct (arena_ sl !! a) as [n|]; [|simpl; lia].
  intros Hi. apply Nat.ltb_lt in Hi. simpl. rewrite Hi. eauto.
Qed.

Lemma Next_is_Some sl a i :
  (i < node_height sl a)%nat -> exists t, Next sl a i = Some t.
Proof.
  unfold node_height, Next. destruct (arena_ sl !! a) as [n|]; [|simpl; lia].
  intros Hi. simpl. apply lookup_lt_is_Some_2 in Hi. destruct Hi as [t Ht]. eauto.
Qed.

(** *** Lists *)

Lemma last_or_filter (P : nat -> Prop) `{!forall i, Decision (P i)} d pre :
  pre = [] \/ P (last_or d pre) ->
  last_or d (filter P pre) = last_or d pre.
Proof.
  destruct pre as [|z q] using rev_ind; [reflexivity|].
  intros [Hnil|HP]; [destruct q; discriminate|].
  rewrite last_or_app in HP. simpl in HP.
  rewrite filter_app, filter_cons_True, filter_nil by exact HP.
  rewrite !last_or_app. reflexivity.
Qed.

Lemma filter_head_split (P : nat -> Prop) `{!forall i, Decision (P i)} l n r :
  filter P l = n :: r ->
  exists s1 s2, l = s1 ++ n :: s2 /\ filter P s1 = [] /\ P n /\ filter P s2 = r.
Proof.
  induction l as [|z l IH]; [discriminate|].
  rewrite filter_cons. destruct (decide (P z)) as [Hz|Hz].
  - intros [= -> <-]. exists [], l. rewrite filter_nil. auto.
  - intros Hf. destruct (IH Hf) as (s1 & s2 & -> & H1 & H2 & H3).
    exists (z :: s1), s2. rewrite filter_cons_False by exact Hz. auto.
Qed.

Lemma filter_all (P : nat -> Prop) `{!forall i, Decision (P i)} l :
  (forall i, i ∈ l -> P i) -> filter P l = l.
Proof.
  induction l as [|z l IH]; intros Hall; [reflexivity|].
  rewrite filter_cons_True by (apply Hall; left). f_equal. apply IH.
  intros i Hi. apply Hall. right. exact Hi.
Qed.

Lemma filter_none (P : nat -> Prop) `{!forall i, Decision (P i)} l :
  (forall i, i ∈ l -> ~ P i) -> filter P l = [].
Proof.
  induction l as [|z l IH]; intros Hall; [reflexivity|].
  rewrite filter_cons_False by (apply Hall; left). apply IH.
  intros i Hi. apply Hall. right. exact Hi.
Qed.

(** *** FindGreaterOrEqual *)

(** What the walk leaves in [prev]: at every level at or below the one it
    started from, the last node before the key that reaches the level (the
    head when there is none); above, what was there. *)
Definition prev_post sl (prev prev' : option (list (option nat))) (lt : list nat)
    (level : nat)
  : Prop :=
  match prev with
  | None => prev' = None
  | Some pa =>
      exists pa', prev' = Some pa'
        /\ length pa' = length pa
        /\ (forall L, (L <= level)%nat ->
              pa' !! L = Some (Some (last_or head_ (level_list sl L lt))))
        /\ (forall L, (level < L)%nat -> pa' !! L = pa !! L)
  end.

Lemma Next_in_chain sl l0 pre suf level :
  Inv sl l0 -> l0 = pre ++ suf -> (level < kMaxHeight)%nat ->
  pre = [] \/ (level < node_height sl (last_or head_ pre))%nat ->
  Next sl (last_or head_ pre) level = Some (hd_or (level_list sl level suf) None).
Proof.
  intros HI -> Hlev Hx.
  pose proof (inv_chain _ _ HI level Hlev) as Hc.
  unfold level_list in Hc. rewrite filter_app in Hc.
  apply chain_to_app in Hc as [Hc _].
  apply chain_to_last in Hc.
  rewrite last_or_filter in Hc by exact Hx. exact Hc.
Qed.

Lemma KeyIsAfterNode_spec sl l0 k n :
  Inv sl l0 -> n ∈ l0 ->
  KeyIsAfterNode compare_ sl k (Some n) = Some (compare_ (key_of sl n) k <? 0).
Proof.
  intros HI Hn. destruct (inv_valid _ _ HI n Hn) as [[_ Hlt] _].
  apply lookup_lt_is_Some_2 in Hlt as [nd Hnd].
  unfold KeyIsAfterNode, key_of. rewrite Hnd. reflexivity.
Qed.

Lemma FindGreaterOrEqual_loop_spec sl l0 k :
  Inv sl l0 ->
  forall fuel pre suf level prev,
    l0 = pre ++ suf ->
    (level < kMaxHeight)%nat ->
    pre = [] \/ (level < node_height sl (last_or head_ pre))%nat ->
    (forall i, i ∈ pre -> key_lt sl k i) ->
    (length suf + level < fuel)%nat ->
    match prev with Some pa => (level < length pa)%nat | None => True end ->
    exists s ge prev',
      FindGreaterOrEqual_loop compare_ fuel sl k (last_or head_ pre) level prev
        = Some (hd_or ge None, prev')
      /\ suf = s ++ ge
      /\ (forall i, i ∈ s -> key_lt sl k i)
      /\ (forall i, i ∈ ge -> ~ key_lt sl k i)
      /\ prev_post sl prev prev' (pre ++ s) level.
Proof.
  intros HI. induction fuel as [|fuel IH]; intros pre suf level prev Hl0 Hlev Hx Hpre Hfuel Hprev;
    [lia|].
  cbn [FindGreaterOrEqual_loop]. unfold PrevArray in *.
  rewrite (Next_in_chain sl l0 pre suf level HI Hl0 Hlev Hx). cbn [mbind option_bind].
  (* what happens once the walk stops at this level *)
  assert (Hstop :
    (forall i, i ∈ level_list sl level suf -> ~ key_lt sl k i) ->
    (forall i, i ∈ suf -> key_lt sl k i -> ~ (level < node_height sl i)%nat) ->
    exists s ge prev',
      match level with
      | O => Some (hd_or (level_list sl level suf) None,
                   (fun a : list (option nat) => <[ level := Some (last_or head_ pre) ]> a) <$> prev)
      | S level' =>
          FindGreaterOrEqual_loop compare_ fuel sl k (last_or head_ pre) level'
            ((fun a : list (option nat) => <[ level := Some (last_or head_ pre) ]> a) <$> prev)
      end = Some (hd_or ge None, prev')
      /\ suf = s ++ ge
      /\ (forall i, i ∈ s -> key_lt sl k i)
      /\ (forall i, i ∈ ge -> ~ key_lt sl k i)
      /\ prev_post sl prev prev' (pre ++ s) level).
  { intros Hge Hlow.
    assert (Hlast : forall s, (forall i, i ∈ s -> i ∈ suf) -> (forall i, i ∈ s -> key_lt sl k i) ->
              last_or head_ (level_list sl level (pre ++ s)) = last_or head_ pre).
    { intros s Hs1 Hs2. unfold level_list. rewrite filter_app.
      rewrite (filter_none _ s), app_nil_r.
      - apply last_or_filter. exact Hx.
      - intros i Hi. apply Hlow; auto. }
    destruct level as [|level'].
    - (* level 0: return *)
      assert (E0 : level_list sl 0 suf = suf).
      { apply filter_all. intros i Hi.
        destruct (inv_valid _ _ HI i) as [_ Hh]; [rewrite Hl0; apply elem_of_app; auto|]. lia. }
      rewrite E0 in *.
      exists [], suf, ((fun a : list (option nat) => <[ 0%nat := Some (last_or head_ pre) ]> a) <$> prev).
      split; [reflexivity|]. split; [reflexivity|].
      split; [intros i Hi; inversion Hi|]. split; [exact Hge|].
      unfold prev_post. destruct prev as [pa|]; [|reflexivity].
      exists (<[ 0%nat := Some (last_or head_ pre) ]> pa).
      split; [reflexivity|]. rewrite length_insert. split; [reflexivity|]. split.
      + intros L HL. assert (L = 0)%nat as -> by lia.
        rewrite list_lookup_insert_eq by exact Hprev.
        rewrite Hlast; [reflexivity | |]; intros i Hi; inversion Hi.
      + intros L HL. apply list_lookup_insert_ne. lia.
    - (* go down one level *)
      destruct (IH pre suf level'
                  ((fun a : list (option nat) => <[ S level' := Some (last_or head_ pre) ]> a) <$> prev))
        as (s & ge & prev' & Hrun & Hsuf & Hs & Hg & Hpost); try assumption; try lia.
      + destruct Hx as [Hx|Hx]; [left; exact Hx | right; lia].
      + destruct prev as [pa|]; [|exact I]. simpl. rewrite length_insert. lia.
      + exists s, ge, prev'. split; [exact Hrun|]. split; [exact Hsuf|].
        split; [exact Hs|]. split; [exact Hg|].
        unfold prev_post in *. destruct prev as [pa|]; [|exact Hpost].
        simpl in Hpost. destruct Hpost as (pa' & -> & Hlen & Hlow' & Hhigh).
        exists pa'. split; [reflexivity|]. rewrite length_insert in Hlen.
        split; [exact Hlen|]. split.
        * intros L HL. destruct (decide (L = S level')) as [->|HneL].
          -- rewrite Hhigh by lia. rewrite list_lookup_insert_eq by exact Hprev.
             rewrite Hlast; [reflexivity | | exact Hs].
             intros i Hi. rewrite Hsuf. apply elem_of_app. auto.
          -- apply Hlow'. lia.
        * intros L HL. rewrite Hhigh by lia. apply list_lookup_insert_ne. lia. }
  destruct (level_list sl level suf) as [|n rest] eqn:Elev.
  - (* no successor at this level *)
    cbn [hd_or KeyIsAfterNode mbind option_bind].
    cbn [hd_or] in Hstop.
    apply Hstop.
    + intros i Hi. inversion Hi.
    + intros i Hi _ Hh.
      assert (Hin : i ∈ level_list sl level suf) by (apply list_elem_of_filter; auto).
      rewrite Elev in Hin. inversion Hin.
  - cbn [hd_or].
    destruct (filter_head_split _ _ _ _ Elev) as (s1 & s2 & Hsplit & Hs1 & Hn & Hs2).
    assert (Hnl0 : n ∈ l0).
    { rewrite Hl0, Hsplit. apply elem_of_app. right. apply elem_of_app. right. left. }
    rewrite (KeyIsAfterNode_spec sl l0 k n HI Hnl0). cbn [mbind option_bind].
    pose proof (inv_sorted _ _ HI) as Hsorted. rewrite Hl0, Hsplit in Hsorted.
    apply StronglySorted_app_1_r in Hsorted.
    destruct (Z.ltb_spec (compare_ (key_of sl n) k) 0) as [Hlt|Hnlt].
    + (* move on to [n] *)
      fold (key_lt sl k n) in Hlt.
      assert (Hs1lt : forall i, i ∈ s1 -> key_lt sl k i).
      { intros i Hi. unfold key_lt in *.
        apply (compare_trans _ (key_of sl n)); [|exact Hlt].
        apply (StronglySorted_app_1_elem_of _ _ _ _ _ Hsorted Hi). left. }
      destruct (IH (pre ++ s1 ++ [n]) s2 level prev)
        as (s & ge & prev' & Hrun & Hsuf & Hs & Hg & Hpost); try assumption.
      * rewrite Hl0, Hsplit, <- !app_assoc. reflexivity.
      * right. rewrite !last_or_app. simpl. exact Hn.
      * intros i Hi. apply elem_of_app in Hi as [Hi|Hi]; [auto|].
        apply elem_of_app in Hi as [Hi|Hi]; [auto|].
        apply list_elem_of_singleton in Hi as ->. exact Hlt.
      * rewrite Hsplit, length_app in Hfuel. simpl in Hfuel. lia.
      * rewrite !last_or_app in Hrun. simpl in Hrun.
        exists (s1 ++ n :: s), ge, prev'. split; [exact Hrun|].
        split; [rewrite Hsplit, Hsuf, <- app_assoc; reflexivity|].
        split.
        { intros i Hi. apply elem_of_app in Hi as [Hi|Hi]; [auto|].
          apply elem_of_cons in Hi as [->|Hi]; auto. }
        split; [exact Hg|].
        replace (pre ++ s1 ++ n :: s) with ((pre ++ s1 ++ [n]) ++ s)
          by (rewrite <- !app_assoc; reflexivity).
        exact Hpost.
    + (* stop at this level *)
      apply Z.le_ngt in Hnlt. fold (key_lt sl k n) in Hnlt.
      assert (Hafter : forall i, i ∈ n :: s2 -> ~ key_lt sl k i).
      { intros i Hi Hilt. apply elem_of_cons in Hi as [->|Hi]; [auto|].
        apply Hnlt. unfold key_lt in *.
        apply (compare_trans _ (key_of sl i)); [|exact Hilt].
        apply StronglySorted_app_1_r in Hsorted.
        apply StronglySorted_cons in Hsorted as [Hall _].
        rewrite Forall_forall in Hall. apply Hall, Hi. }
      cbn [hd_or] in Hstop.
      apply Hstop.
      * intros i Hi. apply Hafter.
        apply elem_of_cons in Hi as [->|Hi]; [left|right].
        rewrite <- Hs2 in Hi. apply list_elem_of_filter in Hi as [_ Hi]. exact Hi.
      * intros i Hi Hilt Hh. rewrite Hsplit in Hi.
        apply elem_of_app in Hi as [Hi|Hi]; [|exact (Hafter i Hi Hilt)].
        assert (Hin : i ∈ filter (fun i => (level < node_height sl i)%nat) s1)
          by (apply list_elem_of_filter; auto).
        rewrite Hs1 in Hin. inversion Hin.
Qed.

Lemma Inv_head_lookup sl l0 :
  Inv sl l0 -> (0 < length (arena_ sl))%nat.
Proof.
  intros HI. pose proof (inv_head _ _ HI) as Hh. unfold node_height, head_ in Hh.
  destruct (arena_ sl !! 0%nat) eqn:E; [|unfold kMaxHeight in Hh; lia].
  eapply lookup_lt_Some; eauto.
Qed.

Lemma Inv_length sl l0 :
  Inv sl l0 -> (length l0 < length (arena_ sl))%nat.
Proof.
  intros HI. pose proof (Inv_head_lookup _ _ HI) as Hpos.
  assert (Hsub : l0 ⊆+ seq 1 (length (arena_ sl) - 1)).
  { apply NoDup_submseteq; [apply (inv_nodup _ _ HI)|].
    intros i Hi. destruct (inv_valid _ _ HI i Hi) as [Hr _].
    apply elem_of_seq. lia. }
  apply submseteq_length in Hsub. rewrite length_seq in Hsub. lia.
Qed.

(** [FindGreaterOrEqual]: it returns the first node whose key is not
    before [k] (null when there is none), and fills [prev] with the last
    node before [k] at every level in use. *)
Lemma FindGreaterOrEqual_spec sl l0 k prev :
  Inv sl l0 ->
  match prev with Some pa => length pa = kMaxHeight | None => True end ->
  exists lt ge prev',
    FindGreaterOrEqual compare_ sl k prev = Some (hd_or ge None, prev')
    /\ l0 = lt ++ ge
    /\ (forall i, i ∈ lt -> key_lt sl k i)
    /\ (forall i, i ∈ ge -> ~ key_lt sl k i)
    /\ prev_post sl prev prev' lt (max_height_ sl - 1).
Proof.
  intros HI Hprev. unfold FindGreaterOrEqual, GetMaxHeight.
  pose proof (inv_mh _ _ HI) as Hmh. pose proof (Inv_length _ _ HI) as Hlen.
  destruct (FindGreaterOrEqual_loop_spec sl l0 k HI
              (length (arena_ sl) + kMaxHeight) [] l0 (max_height_ sl - 1) prev)
    as (s & ge & prev' & Hrun & Hsuf & Hs & Hg & Hpost).
  - reflexivity.
  - lia.
  - left. reflexivity.
  - intros i Hi. inversion Hi.
  - lia.
  - destruct prev as [pa|]; [|exact I]. rewrite Hprev. lia.
  - exists s, ge, prev'. simpl in Hrun, Hpost. auto.
Qed.

(** *** Insert *)

Lemma filter_ext_in (P Q : nat -> Prop) `{!forall i, Decision (P i)}
    `{!forall i, Decision (Q i)} l :
  (forall i, i ∈ l -> P i <-> Q i) -> filter P l = filter Q l.
Proof.
  induction l as [|z l IH]; intros Hall; [reflexivity|].
  rewrite !filter_cons.
  rewrite IH by (intros i Hi; apply Hall; right; exact Hi).
  destruct (decide (P z)) as [Hp|Hp], (decide (Q z)) as [Hq|Hq]; try reflexivity.
  - exfalso. apply Hq, (Hall z); [left | exact Hp].
  - exfalso. apply Hp, (Hall z); [left | exact Hq].
Qed.

Lemma fill_head_lookup (pa : list (option nat)) (from height L : nat) :
  (height <= length pa)%nat ->
  fill_head pa from height !! L
  = if decide (from <= L < height)%nat then Some (Some head_) else pa !! L.
Proof.
  unfold fill_head. intros Hlen.
  assert (Hgen : forall m from pa, (from + m <= length pa)%nat ->
            fold_left (fun a i => <[ i := Some head_ ]> a) (seq from m) pa !! L
            = if decide (from <= L < from + m)%nat then Some (Some head_) else pa !! L).
  { clear. induction m as [|m IH]; intros from pa Hl; simpl.
    - destruct (decide _); [lia | reflexivity].
    - rewrite IH by (rewrite length_insert; lia).
      destruct (decide (S from <= L < S from + m)%nat),
               (decide (from <= L < from + S m)%nat); try lia; try reflexivity.
      + assert (L = from) as -> by lia.
        apply list_lookup_insert_eq. lia.
      + rewrite list_lookup_insert_ne by lia. reflexivity. }
  destruct (Nat.le_gt_cases from height) as [Hle|Hgt].
  - rewrite Hgen by lia.
    destruct (decide (from <= L < from + (height - from))%nat),
             (decide (from <= L < height)%nat); try lia; reflexivity.
  - replace (height - from)%nat with 0%nat by lia. simpl.
    destruct (decide _); [lia | reflexivity].
Qed.

Lemma fill_head_length (pa : list (option nat)) (from height : nat) :
  length (fill_head pa from height) = length pa.
Proof.
  unfold fill_head. generalize (height - from)%nat as m. intros m.
  revert from pa. induction m as [|m IH]; intros from pa; simpl; [reflexivity|].
  rewrite IH. apply length_insert.
Qed.

(** The state of the linking loop of [Insert] when the levels below [i]
    are done: the new node [x] is in the chains of those levels, between
    the nodes before the key and the nodes after it. *)
Record linking sl0 sl (lt ge : list nat) (x i : nat) : Prop := mkLinking {
  lk_key : forall b, key_of sl b = key_of sl0 b;
  lk_height : forall b, node_height sl b = node_height sl0 b;
  lk_length : length (arena_ sl) = length (arena_ sl0);
  lk_mh : max_height_ sl = max_height_ sl0;
  lk_chain : forall L, (L < kMaxHeight)%nat ->
    chain_to sl L head_
      (level_list sl0 L lt ++ (if decide (L < i)%nat then [x] else []) ++ level_list sl0 L ge)
      None
}.

Lemma link_level_step sl0 sl lt ge x i (prev : list (option nat)) :
  linking sl0 sl lt ge x i ->
  (i < node_height sl0 x)%nat -> (i < kMaxHeight)%nat ->
  node_height sl0 head_ = kMaxHeight ->
  NoDup (head_ :: lt ++ ge) -> x ∉ head_ :: lt ++ ge ->
  prev !! i = Some (Some (last_or head_ (level_list sl0 i lt))) ->
  exists sl', link_level prev x sl i = Some sl' /\ linking sl0 sl' lt ge x (S i).
Proof.
  intros Hlk Hix Hi12 Hhead Hnd Hx Hprev.
  set (A := level_list sl0 i lt). set (B := level_list sl0 i ge).
  set (p := last_or head_ A).
  pose proof (lk_chain _ _ _ _ _ _ Hlk i Hi12) as Hc.
  destruct (decide (i < i)%nat); [lia|]. simpl in Hc. fold A B in Hc.
  apply chain_to_app in Hc as [HcA HcB].
  pose proof (chain_to_last _ _ _ _ _ HcA) as Hnext. fold p in Hnext.
  assert (HpA : p = head_ \/ p ∈ A) by apply last_or_elem.
  assert (Hp_height : (i < node_height sl0 p)%nat).
  { destruct HpA as [->|HpA]; [rewrite Hhead; exact Hi12|].
    apply list_elem_of_filter in HpA as [HpA _]. exact HpA. }
  assert (HA_sub : forall y, y ∈ A -> y ∈ lt)
    by (intros y Hy; apply list_elem_of_filter in Hy as [_ Hy]; exact Hy).
  assert (HB_sub : forall y, y ∈ B -> y ∈ ge)
    by (intros y Hy; apply list_elem_of_filter in Hy as [_ Hy]; exact Hy).
  apply NoDup_cons in Hnd as [Hh_notin Hnd].
  apply NoDup_app in Hnd as (Hnd_lt & Hdisj & Hnd_ge).
  assert (Hx_ne_p : x <> p).
  { intros ->. apply Hx. destruct HpA as [->|HpA]; [left|].
    right. apply elem_of_app. left. auto. }
  destruct (SetNext_is_Some sl x i (hd_or B None)) as [sl1 Hs1].
  { rewrite (lk_height _ _ _ _ _ _ Hlk). exact Hix. }
  destruct (SetNext_spec _ _ _ _ _ Hs1) as (Hn1 & Hk1 & Hh1 & Hl1 & Hm1 & _).
  destruct (SetNext_is_Some sl1 p i (Some x)) as [sl2 Hs2].
  { rewrite Hh1, (lk_height _ _ _ _ _ _ Hlk). exact Hp_height. }
  destruct (SetNext_spec _ _ _ _ _ Hs2) as (Hn2 & Hk2 & Hh2 & Hl2 & Hm2 & _).
  assert (HN : forall b L, Next sl2 b L
             = if decide (p = b /\ i = L) then Some (Some x)
               else if decide (x = b /\ i = L) then Some (hd_or B None)
               else Next sl b L).
  { intros b L. rewrite Hn2. destruct (decide (p = b /\ i = L)); [reflexivity|].
    apply Hn1. }
  exists sl2. split.
  - unfold link_level, PrevArray. rewrite Hprev. cbn [mbind option_bind].
    fold A. fold p. rewrite Hnext. cbn [mbind option_bind].
    rewrite Hs1. cbn [mbind option_bind]. exact Hs2.
  - constructor.
    + intros b. rewrite Hk2, Hk1. apply (lk_key _ _ _ _ _ _ Hlk).
    + intros b. rewrite Hh2, Hh1. apply (lk_height _ _ _ _ _ _ Hlk).
    + rewrite Hl2, Hl1. apply (lk_length _ _ _ _ _ _ Hlk).
    + rewrite Hm2, Hm1. apply (lk_mh _ _ _ _ _ _ Hlk).
    + intros L HL. destruct (decide (L = i)) as [->|HneL].
      * destruct (decide (i < S i)%nat); [|lia]. fold A B.
        apply chain_to_app. split.
        -- cbn [hd_or app].
           apply (chain_to_redirect sl sl2 i head_ A (hd_or B None)); try assumption.
           ++ apply NoDup_cons. split.
              ** intros Hin. apply Hh_notin, elem_of_app. left. auto.
              ** unfold A, level_list. clear -Hnd_lt.
                 induction lt as [|z lt IH]; [constructor|].
                 apply NoDup_cons in Hnd_lt as [Hz Hnd].
                 rewrite filter_cons. destruct (decide _); [|auto].
                 apply NoDup_cons. split; [|auto].
                 intros Hin. apply Hz. apply list_elem_of_filter in Hin as [_ Hin]. exact Hin.
           ++ intros y Hy Hne. fold p in Hne. rewrite HN.
              destruct (decide (p = y /\ i = i)) as [[E _]|_]; [congruence|].
              destruct (decide (x = y /\ i = i)) as [[E _]|_]; [|reflexivity].
              exfalso. subst y. apply Hx.
              apply elem_of_cons in Hy as [->|Hy]; [left|].
              right. apply elem_of_app. left. auto.
           ++ fold p. rewrite HN.
              destruct (decide (p = p /\ i = i)); [reflexivity | tauto].
        -- cbn [app].
           assert (HBframe : forall y, y ∈ B -> Next sl2 y i = Next sl y i).
           { intros y Hy. rewrite HN.
             destruct (decide (p = y /\ i = i)) as [[E _]|_].
             - exfalso. subst y. destruct HpA as [E|HpA].
               + apply Hh_notin. rewrite <- E. apply elem_of_app. right. auto.
               + apply (Hdisj p); auto.
             - destruct (decide (x = y /\ i = i)) as [[E _]|_]; [|reflexivity].
               exfalso. subst y. apply Hx. right. apply elem_of_app. right. auto. }
           destruct B as [|y B'] eqn:EB; simpl.
           ++ rewrite HN.
              destruct (decide (p = x /\ i = i)) as [[E _]|_]; [congruence|].
              destruct (decide (x = x /\ i = i)); [reflexivity | tauto].
           ++ split.
              ** rewrite HN.
                 destruct (decide (p = x /\ i = i)) as [[E _]|_]; [congruence|].
                 destruct (decide (x = x /\ i = i)); [reflexivity | tauto].
              ** apply (chain_to_ext sl); [|exact HcB].
                 intros z Hz. apply HBframe. exact Hz.
      * pose proof (lk_chain _ _ _ _ _ _ Hlk L HL) as HcL.
        replace (if decide (L < S i)%nat then [x] else [])
          with (if decide (L < i)%nat then [x] else [])
          by (destruct (decide (L < i)%nat), (decide (L < S i)%nat); try lia; reflexivity).
        apply (chain_to_ext sl); [|exact HcL].
        intros y _. rewrite HN.
        destruct (decide (p = y /\ i = L)) as [[_ E]|_]; [congruence|].
        destruct (decide (x = y /\ i = L)) as [[_ E]|_]; [congruence|]. reflexivity.
Qed.

Lemma link_levels sl0 lt ge x (prev : list (option nat)) h :
  (h <= node_height sl0 x)%nat -> (h <= kMaxHeight)%nat ->
  node_height sl0 head_ = kMaxHeight ->
  NoDup (head_ :: lt ++ ge) -> x ∉ head_ :: lt ++ ge ->
  (forall L, (L < h)%nat ->
     prev !! L = Some (Some (last_or head_ (level_list sl0 L lt)))) ->
  forall m i sl,
    (i + m = h)%nat ->
    linking sl0 sl lt ge x i ->
    exists sl', foldM (link_level prev x) (seq i m) sl = Some sl'
                /\ linking sl0 sl' lt ge x h.
Proof.
  intros Hhx Hh12 Hhead Hnd Hx Hprev.
  induction m as [|m IH]; intros i sl Him Hlk; simpl.
  - exists sl. split; [reflexivity|]. replace h with i by lia. exact Hlk.
  - destruct (link_level_step sl0 sl lt ge x i prev Hlk) as (sl1 & Hs1 & Hlk1);
      try assumption; try lia.
    + apply Hprev. lia.
    + rewrite Hs1. cbn [mbind option_bind]. apply IH; [lia | exact Hlk1].
Qed.

Lemma StronglySorted_ext_in {A} (R R' : A -> A -> Prop) (l : list A) :
  (forall a b, a ∈ l -> b ∈ l -> R a b -> R' a b) ->
  StronglySorted R l -> StronglySorted R' l.
Proof.
  induction l as [|z l IH]; intros Hext Hs; [constructor|].
  apply StronglySorted_cons in Hs as [Hall Hs].
  apply StronglySorted_cons. split.
  - rewrite Forall_forall in *. intros b Hb. apply Hext; [left | right; exact Hb | auto].
  - apply IH; [|exact Hs]. intros a b Ha Hb. apply Hext; right; assumption.
Qed.

(** [Insert] on a well-formed list: it returns, the new node (the next
    free index of the arena) sits between the nodes whose keys are before
    [k] and the others, and the list is well-formed again. *)
Lemma Insert_spec sl l0 k :
  Inv sl l0 ->
  exists sl' lt ge,
    Insert compare_ sl k = Some sl'
    /\ l0 = lt ++ ge
    /\ (forall i, i ∈ lt -> key_lt sl k i)
    /\ (forall i, i ∈ ge -> ~ key_lt sl k i)
    /\ Inv sl' (lt ++ length (arena_ sl) :: ge)
    /\ key_of sl' (length (arena_ sl)) = k
    /\ (forall i, (i < length (arena_ sl))%nat -> key_of sl' i = key_of sl i).
Proof.
  intros HI.
  destruct (FindGreaterOrEqual_spec sl l0 k (Some (repeat None kMaxHeight)) HI)
    as (lt & ge & prev' & Hrun & Hl0 & Hlt & Hge & Hpost).
  { apply repeat_length. }
  destruct Hpost as (pa & -> & Hpalen & Hpalow & _).
  rewrite repeat_length in Hpalen.
  destruct (RandomHeight_range sl) as (Hh & Har & Hmr).
  destruct (RandomHeight sl) as [h slr] eqn:ERH. cbn [fst snd] in Hh, Har, Hmr.
  pose proof (inv_mh _ _ HI) as Hmh.
  set (n := length (arena_ sl)).
  set (mh' := if (max_height_ sl <? h)%nat then h else max_height_ sl).
  set (prev := if (max_height_ sl <? h)%nat then fill_head pa (max_height_ sl) h else pa).
  set (sl0 := {| arena_ := arena_ sl ++ [mkNode k (repeat None h)];
                 max_height_ := mh'; rng_ := rng_ slr |}).
  assert (Hgoal : Insert compare_ sl k = foldM (link_level prev n) (seq 0 h) sl0).
  { unfold Insert. rewrite Hrun. cbn [mbind option_bind]. rewrite ERH.
    unfold GetMaxHeight, NewNode, prev, sl0, mh', n. rewrite Hmr.
    destruct (max_height_ sl <? h)%nat; simpl; rewrite Har; try reflexivity.
    rewrite Hmr. reflexivity. }
  rewrite Hgoal. clear Hgoal.
  pose proof (Inv_head_lookup _ _ HI) as Hpos. fold n in Hpos.
  (* the old nodes in the new arena *)
  assert (Hold_lookup : forall b, (b < n)%nat -> arena_ sl0 !! b = arena_ sl !! b).
  { intros b Hb. unfold sl0. simpl. apply lookup_app_l. exact Hb. }
  assert (Hold_next : forall b L, (b < n)%nat -> Next sl0 b L = Next sl b L).
  { intros b L Hb. unfold Next. rewrite Hold_lookup by exact Hb. reflexivity. }
  assert (Hold_key : forall b, (b < n)%nat -> key_of sl0 b = key_of sl b).
  { intros b Hb. unfold key_of. rewrite Hold_lookup by exact Hb. reflexivity. }
  assert (Hold_height : forall b, (b < n)%nat -> node_height sl0 b = node_height sl b).
  { intros b Hb. unfold node_height. rewrite Hold_lookup by exact Hb. reflexivity. }
  assert (Hnew_lookup : arena_ sl0 !! n = Some (mkNode k (repeat None h))).
  { unfold sl0, n. simpl. apply list_lookup_middle. reflexivity. }
  assert (Hnew_height : node_height sl0 n = h).
  { unfold node_height. rewrite Hnew_lookup. simpl. apply repeat_length. }
  assert (Hnew_key : key_of sl0 n = k).
  { unfold key_of. rewrite Hnew_lookup. reflexivity. }
  assert (Hin_lt : forall b, b ∈ l0 -> (0 < b < n)%nat
                              /\ (1 <= node_height sl b <= max_height_ sl)%nat)
    by (intros b Hb; apply (inv_valid _ _ HI b Hb)).
  assert (Hsub_lt : forall b, b ∈ lt -> b ∈ l0) by (intros b Hb; rewrite Hl0; apply elem_of_app; auto).
  assert (Hsub_ge : forall b, b ∈ ge -> b ∈ l0) by (intros b Hb; rewrite Hl0; apply elem_of_app; auto).
  assert (Hlev : forall L l, (forall b, b ∈ l -> b ∈ l0) ->
                   level_list sl0 L l = level_list sl L l).
  { intros L l Hl. apply filter_ext_in. intros b Hb.
    rewrite Hold_height; [tauto|]. apply Hin_lt, Hl, Hb. }
  assert (Hhead0 : node_height sl0 head_ = kMaxHeight).
  { rewrite Hold_height by exact Hpos. apply (inv_head _ _ HI). }
  assert (Hnd : NoDup (head_ :: lt ++ ge)).
  { apply NoDup_cons. rewrite <- Hl0. split; [|apply (inv_nodup _ _ HI)].
    intros Hin. apply Hin_lt in Hin. unfold head_ in Hin. lia. }
  assert (Hx : n ∉ head_ :: lt ++ ge).
  { rewrite <- Hl0. intros Hin. apply elem_of_cons in Hin as [Hin|Hin].
    - unfold head_ in Hin. lia.
    - apply Hin_lt in Hin. lia. }
  (* the start of the linking loop *)
  assert (Hstart : linking sl0 sl0 lt ge n 0).
  { constructor; try reflexivity.
    intros L HL. destruct (decide (L < 0)%nat); [lia|]. cbn [app].
    rewrite !Hlev by assumption.
    pose proof (inv_chain _ _ HI L HL) as Hc. rewrite Hl0 in Hc.
    unfold level_list in Hc. rewrite filter_app in Hc.
    apply (chain_to_ext sl); [|exact Hc].
    intros y Hy. apply Hold_next.
    apply elem_of_cons in Hy as [->|Hy]; [exact Hpos|].
    assert (Hy0 : y ∈ l0).
    { rewrite Hl0. apply elem_of_app.
      apply elem_of_app in Hy as [Hy|Hy];
        apply list_elem_of_filter in Hy as [_ Hy]; auto. }
    apply Hin_lt in Hy0. lia. }
  assert (Hprev : forall L, (L < h)%nat ->
            prev !! L = Some (Some (last_or head_ (level_list sl0 L lt)))).
  { intros L HL. rewrite Hlev by assumption. unfold prev.
    destruct (max_height_ sl <? h)%nat eqn:E.
    - apply Nat.ltb_lt in E. rewrite fill_head_lookup by lia.
      destruct (decide (max_height_ sl <= L < h)%nat) as [Hr|Hr].
      + unfold level_list. rewrite (filter_none _ lt); [reflexivity|].
        intros b Hb. apply Hsub_lt, Hin_lt in Hb. lia.
      + apply Hpalow. lia.
    - apply Nat.ltb_ge in E. apply Hpalow. lia. }
  destruct (link_levels sl0 lt ge n prev h) with (m := h) (i := 0%nat) (sl := sl0)
    as (sl' & Hfold & Hlk); try assumption; try lia.
  exists sl', lt, ge. split; [exact Hfold|]. split; [exact Hl0|].
  split; [exact Hlt|]. split; [exact Hge|].
  destruct Hlk as [Hk Hht Hlen Hmh' Hchain].
  assert (Hkey_old : forall b, (b < n)%nat -> key_of sl' b = key_of sl b)
    by (intros b Hb; rewrite Hk; apply Hold_key, Hb).
  split; [|split; [rewrite Hk; exact Hnew_key | exact Hkey_old]].
  constructor.
  - rewrite Hht. exact Hhead0.
  - rewrite Hmh'. unfold sl0, mh'. simpl.
    destruct (max_height_ sl <? h)%nat; lia.
  - apply NoDup_cons in Hnd as [_ Hnd]. apply NoDup_app in Hnd as (H1 & H2 & H3).
    apply NoDup_app. split; [exact H1|]. split.
    + intros b Hb Hin. apply elem_of_cons in Hin as [->|Hin].
      * apply Hx. right. apply elem_of_app. auto.
      * apply (H2 b); assumption.
    + apply NoDup_cons. split; [|exact H3].
      intros Hin. apply Hx. right. apply elem_of_app. auto.
  - intros b Hb. rewrite Hlen, Hht, Hmh'.
    assert (Hlen0 : length (arena_ sl0) = S n)
      by (unfold sl0; simpl; rewrite length_app; simpl; unfold n; lia).
    assert (Hmh0 : (max_height_ sl <= max_height_ sl0 /\ h <= max_height_ sl0)%nat).
    { unfold sl0, mh'. simpl. destruct (max_height_ sl <? h)%nat eqn:E;
        [apply Nat.ltb_lt in E | apply Nat.ltb_ge in E]; lia. }
    rewrite Hlen0.
    assert (Hcase : b = n \/ b ∈ l0).
    { rewrite Hl0. apply elem_of_app in Hb as [Hb|Hb]; [right; apply elem_of_app; auto|].
      apply elem_of_cons in Hb as [->|Hb]; [left; reflexivity | right; apply elem_of_app; auto]. }
    destruct Hcase as [->|Hb0].
    + rewrite Hnew_height. lia.
    + apply Hin_lt in Hb0 as [Hr Hhb]. rewrite Hold_height by lia. lia.
  - pose proof (inv_sorted _ _ HI) as Hsorted. rewrite Hl0 in Hsorted.
    apply StronglySorted_app in Hsorted as (Hcross & Hs_lt & Hs_ge).
    assert (Hle_old : forall a b, a ∈ l0 -> b ∈ l0 -> key_le sl a b -> key_le sl' a b).
    { intros a b Ha Hb. unfold key_le.
      rewrite !Hkey_old; [auto | apply Hin_lt, Hb | apply Hin_lt, Ha]. }
    apply StronglySorted_app_2.
    + intros a b Ha Hb. apply elem_of_cons in Hb as [->|Hb].
      * unfold key_le. rewrite !Hk, Hnew_key, Hold_key by (apply Hin_lt, Hsub_lt, Ha).
        specialize (Hlt a Ha). unfold key_lt in Hlt. lia.
      * apply Hle_old; auto.
    + apply (StronglySorted_ext_in (key_le sl)); [|exact Hs_lt].
      intros a b Ha Hb. apply Hle_old; auto.
    + apply StronglySorted_cons. split.
      * rewrite Forall_forall. intros b Hb. unfold key_le.
        rewrite !Hk, Hnew_key, Hold_key by (apply Hin_lt, Hsub_ge, Hb).
        apply compare_flip. specialize (Hge b Hb). unfold key_lt in Hge. lia.
      * apply (StronglySorted_ext_in (key_le sl)); [|exact Hs_ge].
        intros a b Ha Hb. apply Hle_old; auto.
  - intros L HL. specialize (Hchain L HL).
    assert (Hll : level_list sl' L (lt ++ n :: ge)
                  = level_list sl0 L lt ++ (if decide (L < h)%nat then [n] else [])
                    ++ level_list sl0 L ge).
    { unfold level_list. rewrite filter_app, filter_cons.
      rewrite (filter_ext_in (fun i => (L < node_height sl' i)%nat)
                 (fun i => (L < node_height sl0 i)%nat) lt)
        by (intros b _; rewrite Hht; tauto).
      rewrite (filter_ext_in (fun i => (L < node_height sl' i)%nat)
                 (fun i => (L < node_height sl0 i)%nat) ge)
        by (intros b _; rewrite Hht; tauto).
      f_equal. rewrite Hht, Hnew_height.
      destruct (decide (L < h)%nat); reflexivity. }
    rewrite Hll. exact Hchain.
Qed.

(** *** The constructor, the iterator *)

Lemma new_Inv g : Inv (new Key_default g) [].
Proof.
  constructor.
  - unfold node_height, new, head_. simpl. reflexivity.
  - simpl. unfold kMaxHeight. lia.
  - constructor.
  - intros i Hi. inversion Hi.
  - constructor.
  - intros L HL. simpl. unfold Next, new, head_. simpl.
    apply (lookup_repeat None kMaxHeight L HL).
Qed.

Lemma iter_key_valid sl y :
  (y < length (arena_ sl))%nat -> iter_key sl (Some y) = Some (key_of sl y).
Proof.
  intros Hy. unfold iter_key, key_of. simpl.
  destruct (lookup_lt_is_Some_2 _ _ Hy) as (nd & ->). reflexivity.
Qed.

Lemma iterate_chain sl l :
  forall y fuel, chain_to sl 0 y l None -> (length l < fuel)%nat ->
    iterate fuel sl (Some y) = Some (map (key_of sl) (y :: l)).
Proof.
  induction l as [|z l IH]; intros y fuel Hc Hf;
    (destruct fuel as [|fuel]; [simpl in Hf; lia|]).
  - simpl in Hc. cbn [iterate]. unfold iter_key, iter_Next, key_of. simpl.
    unfold Next in *. destruct (arena_ sl !! y) as [nd|]; [|discriminate].
    simpl in *. rewrite Hc. simpl. destruct fuel; reflexivity.
  - destruct Hc as [Hn Hc]. cbn [iterate].
    specialize (IH z fuel Hc ltac:(simpl in Hf; lia)).
    unfold iter_key, iter_Next. simpl.
    assert (Hk : key_of sl y = match arena_ sl !! y with Some n => key n | None => Key_default end)
      by reflexivity.
    unfold Next in Hn |- *. destruct (arena_ sl !! y) as [nd|]; [|discriminate].
    simpl in *. rewrite Hn. simpl. rewrite IH. simpl. rewrite Hk. reflexivity.
Qed.

Lemma level0_all sl l0 : Inv sl l0 -> level_list sl 0 l0 = l0.
Proof.
  intros HI. apply filter_all. intros i Hi.
  destruct (inv_valid _ _ HI i Hi) as [_ Hh]. lia.
Qed.

(** The walk [SeekToFirst(); while (Valid()) Next()] meets the keys of the
    nodes in the order of level 0. *)
Lemma contents_spec sl l0 :
  Inv sl l0 -> contents sl = Some (map (key_of sl) l0).
Proof.
  intros HI. unfold contents, SeekToFirst.
  pose proof (inv_chain _ _ HI 0%nat ltac:(unfold kMaxHeight; lia)) as Hc.
  rewrite (level0_all _ _ HI) in Hc.
  pose proof (Inv_length _ _ HI) as Hlen.
  destruct l0 as [|y l]; simpl in Hc.
  - rewrite Hc. simpl. destruct (length (arena_ sl)); reflexivity.
  - destruct Hc as [Hn Hc]. rewrite Hn. cbn [mbind option_bind].
    apply iterate_chain; [exact Hc | simpl in Hlen; lia].
Qed.

Lemma Inv_keys_sorted sl l0 :
  Inv sl l0 -> StronglySorted (fun a b => compare_ a b <= 0) (map (key_of sl) l0).
Proof.
  intros HI. pose proof (inv_sorted _ _ HI) as Hs. clear HI.
  induction Hs as [|y l Hs IH Hall]; simpl; constructor; [exact IH|].
  rewrite Forall_forall in Hall. rewrite Forall_forall. intros b Hb.
  apply list_elem_of_fmap in Hb as (j & -> & Hj). apply (Hall j Hj).
Qed.

(** [Seek]: the iterator stands on the first node whose key is not before
    the target, and walking on from there meets all the nodes after it. *)
Lemma Seek_spec sl l0 k :
  Inv sl l0 ->
  exists lt ge,
    Seek compare_ sl k = Some (hd_or ge None)
    /\ l0 = lt ++ ge
    /\ (forall i, i ∈ lt -> key_lt sl k i)
    /\ (forall i, i ∈ ge -> ~ key_lt sl k i)
    /\ iter_key sl (hd_or ge None) = head (map (key_of sl) ge)
    /\ iterate (length (arena_ sl)) sl (hd_or ge None) = Some (map (key_of sl) ge).
Proof.
  intros HI.
  destruct (FindGreaterOrEqual_spec sl l0 k None HI I)
    as (lt & ge & prev' & Hrun & Hl0 & Hlt & Hge & _).
  exists lt, ge. unfold Seek. unfold PrevArray in *. rewrite Hrun. cbn [mbind option_bind].
  split; [reflexivity|]. split; [exact Hl0|]. split; [exact Hlt|]. split; [exact Hge|].
  pose proof (inv_chain _ _ HI 0%nat ltac:(unfold kMaxHeight; lia)) as Hc.
  rewrite (level0_all _ _ HI), Hl0 in Hc.
  pose proof (Inv_length _ _ HI) as Hlen. rewrite Hl0, length_app in Hlen.
  destruct ge as [|y ge'].
  - split; [reflexivity|]. simpl. destruct (length (arena_ sl)); reflexivity.
  - apply chain_to_app in Hc as [_ Hc]. split.
    + simpl. apply iter_key_valid.
      apply (inv_valid _ _ HI). rewrite Hl0. apply elem_of_app. right. left.
    + simpl hd_or. apply iterate_chain; [exact Hc | simpl in Hlen; lia].
Qed.

(** *** Lists built by [Insert] from the constructor *)

Lemma Insert_all_Inv ks :
  forall sl l0, Inv sl l0 ->
    exists sl' l0', foldM (Insert compare_) ks sl = Some sl'
      /\ Inv sl' l0'
      /\ map (key_of sl') l0' ≡ₚ ks ++ map (key_of sl) l0.
Proof.
  induction ks as [|k ks IH]; intros sl l0 HI.
  - exists sl, l0. simpl. auto.
  - destruct (Insert_spec sl l0 k HI)
      as (sl1 & lt & ge & Hins & Hl0 & _ & _ & HI1 & Hk & Hold).
    destruct (IH sl1 _ HI1) as (sl' & l0' & Hrun & HI' & Hperm).
    exists sl', l0'. cbn [foldM]. rewrite Hins. cbn [mbind option_bind].
    split; [exact Hrun|]. split; [exact HI'|].
    rewrite Hperm. rewrite map_app. cbn [map]. rewrite Hk.
    assert (Hm : forall l, (forall i, i ∈ l -> i ∈ l0) ->
                   map (key_of sl1) l = map (key_of sl) l).
    { intros l Hl. apply map_ext_in. intros i Hi. apply Hold.
      apply (inv_valid _ _ HI). apply Hl. apply list_elem_of_In. exact Hi. }
    rewrite !Hm by (intros i Hi; rewrite Hl0; apply elem_of_app; auto).
    rewrite Hl0, map_app.
    rewrite <- Permutation_middle. simpl. symmetry. apply Permutation_middle.
Qed.

(** *** The assertion of [Insert] *)

(** No two of the keys are equal for the comparator. *)
Definition distinct_keys (ks : list Key) : Prop :=
  forall i j a b, i <> j -> ks !! i = Some a -> ks !! j = Some b -> compare_ a b <> 0.

Lemma distinct_keys_cons k ks :
  distinct_keys (k :: ks) ->
  distinct_keys ks /\ forall k', k' ∈ ks -> compare_ k' k <> 0.
Proof.
  intros Hd. split.
  - intros i j a b Hij Ha Hb. apply (Hd (S i) (S j)); [lia | exact Ha | exact Hb].
  - intros k' Hk'. apply list_elem_of_lookup in Hk' as [i Hi].
    apply (Hd (S i) 0%nat); [lia | exact Hi | reflexivity].
Qed.

Lemma distinct_keys_perm ks ks' :
  ks ≡ₚ ks' -> distinct_keys ks' -> distinct_keys ks.
Proof.
  intros Hp Hd i j a b Hij Ha Hb.
  apply Permutation_inj in Hp as (_ & f & Hf & Hl).
  rewrite Hl in Ha, Hb. apply (Hd (f i) (f j)); [|exact Ha | exact Hb].
  intros E. apply Hij, Hf, E.
Qed.

Lemma StronglySorted_strict (l : list Key) :
  StronglySorted (fun a b => compare_ a b <= 0) l -> distinct_keys l ->
  StronglySorted (fun a b => compare_ a b < 0) l.
Proof.
  induction 1 as [|a l Hl IH Ha]; intros Hd; constructor.
  - apply IH. intros i j x y Hij Hx Hy. apply (Hd (S i) (S j)); [lia | exact Hx | exact Hy].
  - rewrite Forall_forall in *. intros b Hb. specialize (Ha b Hb).
    apply list_elem_of_lookup in Hb as [i Hi].
    assert (compare_ a b <> 0) by (apply (Hd 0%nat (S i)); [lia | reflexivity | exact Hi]).
    lia.
Qed.

(** The assertion holds when no key of the list is equal to the new one. *)
Lemma Insert_assert_spec sl l0 k :
  Inv sl l0 ->
  (forall i, i ∈ l0 -> compare_ k (key_of sl i) <> 0) ->
  Insert_assert compare_ sl k = Some true.
Proof.
  intros HI Hne.
  destruct (FindGreaterOrEqual_spec sl l0 k None HI I)
    as (lt & ge & prev' & Hrun & Hl0 & _ & _ & _).
  unfold Insert_assert. unfold PrevArray in *. rewrite Hrun. cbn [mbind option_bind].
  destruct ge as [|y ge']; [reflexivity|]. cbn [hd_or].
  assert (Hy : y ∈ l0) by (rewrite Hl0; apply elem_of_app; right; left).
  destruct (inv_valid _ _ HI y Hy) as [Hlt _].
  destruct (arena_ sl !! y) as [nd|] eqn:E.
  2:{ apply lookup_ge_None in E. lia. }
  cbn [mbind option_bind]. f_equal. unfold Equal.
  specialize (Hne y Hy). unfold key_of in Hne. rewrite E in Hne.
  destruct (Z.eqb_spec (compare_ k (key nd)) 0); [contradiction | reflexivity].
Qed.

Lemma Insert_checked_eq sl l0 k :
  Inv sl l0 ->
  (forall i, i ∈ l0 -> compare_ k (key_of sl i) <> 0) ->
  Insert_checked compare_ sl k = Insert compare_ sl k.
Proof.
  intros HI Hne. unfold Insert_checked.
  rewrite (Insert_assert_spec sl l0 k HI Hne). reflexivity.
Qed.

Lemma Insert_all_checked ks :
  distinct_keys ks ->
  forall sl l0, Inv sl l0 ->
    (forall k i, k ∈ ks -> i ∈ l0 -> compare_ k (key_of sl i) <> 0) ->
    foldM (Insert_checked compare_) ks sl = foldM (Insert compare_) ks sl.
Proof.
  induction ks as [|k ks IH]; intros Hd sl l0 HI Hne; [reflexivity|].
  apply distinct_keys_cons in Hd as [Hd Hk].
  cbn [foldM].
  rewrite (Insert_checked_eq sl l0 k HI) by (intros i Hi; apply Hne; [left | exact Hi]).
  destruct (Insert_spec sl l0 k HI)
    as (sl1 & lt & ge & Hins & Hl0 & _ & _ & HI1 & Hkey & Hold).
  rewrite Hins. cbn [mbind option_bind]. apply (IH Hd sl1 _ HI1).
  intros k' i Hk' Hi.
  apply elem_of_app in Hi as [Hi|Hi]; [|apply elem_of_cons in Hi as [->|Hi]].
  - assert (Hi0 : i ∈ l0) by (rewrite Hl0; apply elem_of_app; left; exact Hi).
    rewrite Hold by (apply (inv_valid _ _ HI), Hi0). apply Hne; [right; exact Hk' | exact Hi0].
  - rewrite Hkey. apply Hk, Hk'.
  - assert (Hi0 : i ∈ l0) by (rewrite Hl0; apply elem_of_app; right; exact Hi).
    rewrite Hold by (apply (inv_valid _ _ HI), Hi0). apply Hne; [right; exact Hk' | exact Hi0].
Qed.

(** X1.  Whatever keys are inserted into a new list, no two of them equal
    for the comparator, in whatever order, and whatever the random heights:
    every [Insert] passes its assertion and returns, and the iterator then
    meets exactly the inserted keys, in the strict order of the
    comparator. *)
Theorem Insert_all_contents g ks :
  distinct_keys ks ->
  exists sl out,
    foldM (Insert_checked compare_) ks (new Key_default g) = Some sl
    /\ contents sl = Some out
    /\ out ≡ₚ ks
    /\ StronglySorted (fun a b => compare_ a b < 0) out.
Proof.
  intros Hd.
  destruct (Insert_all_Inv ks _ _ (new_Inv g)) as (sl & l0 & Hrun & HI & Hperm).
  assert (Hp : map (key_of sl) l0 ≡ₚ ks).
  { rewrite Hperm. simpl. rewrite app_nil_r. reflexivity. }
  exists sl, (map (key_of sl) l0).
  split.
  { rewrite (Insert_all_checked ks Hd _ [] (new_Inv g)); [exact Hrun|].
    intros k i _ Hi. inversion Hi. }
  split; [apply contents_spec, HI|]. split; [exact Hp|].
  apply StronglySorted_strict; [apply Inv_keys_sorted, HI|].
  apply (distinct_keys_perm _ ks Hp Hd).
Qed.

(** X2.  In a list built by [Insert], [Seek(target)] splits the keys the
    iterator meets: those before the target, and from the node it stands
    on, in order, those that are not. *)
Theorem Seek_first_not_before g ks target :
  exists sl it before rest,
    foldM (Insert compare_) ks (new Key_default g) = Some sl
    /\ Seek compare_ sl target = Some it
    /\ contents sl = Some (before ++ rest)
    /\ (forall a, a ∈ before -> compare_ a target < 0)
    /\ (forall a, a ∈ rest -> 0 <= compare_ a target)
    /\ Valid it = negb (bool_decide (rest = []))
    /\ iter_key sl it = head rest
    /\ iterate (length (arena_ sl)) sl it = Some rest.
Proof.
  destruct (Insert_all_Inv ks _ _ (new_Inv g)) as (sl & l0 & Hrun & HI & _).
  destruct (Seek_spec sl l0 target HI) as (lt & ge & Hseek & Hl0 & Hlt & Hge & Hkey & Hit).
  exists sl, (hd_or ge None), (map (key_of sl) lt), (map (key_of sl) ge).
  split; [exact Hrun|]. split; [exact Hseek|].
  split; [rewrite (contents_spec _ _ HI), Hl0, map_app; reflexivity|].
  split; [|split; [|split; [|split; [exact Hkey | exact Hit]]]].
  - intros a Ha. apply list_elem_of_fmap in Ha as (i & -> & Hi). apply (Hlt i Hi).
  - intros a Ha. apply list_elem_of_fmap in Ha as (i & -> & Hi).
    specialize (Hge i Hi). unfold key_lt in Hge. lia.
  - destruct ge; reflexivity.
Qed.

End WithKey.

(** The order of the integers as a comparator, for the examples. *)
Definition Z_compare (a b : Z) : Z :=
  if a <? b then -1 else if b <? a then 1 else 0.

Lemma Insert_all_contents_witness :
  exists sl out,
    foldM (Insert_checked Z_compare) [3; 1; 2] (new 0 (fun n => Z.of_nat n)) = Some sl
    /\ contents sl = Some out
    /\ out ≡ₚ [3; 1; 2]
    /\ StronglySorted (fun a b => Z_compare a b < 0) out.
Proof.
  apply (Insert_all_contents Z_compare 0).
  - intros a b c. unfold Z_compare.
    destruct (Z.ltb_spec a b), (Z.ltb_spec b a), (Z.ltb_spec b c),
      (Z.ltb_spec c b), (Z.ltb_spec a c), (Z.ltb_spec c a); lia.
  - intros a b. unfold Z_compare.
    destruct (Z.ltb_spec a b), (Z.ltb_spec b a); lia.
  - intros i j a b Hij Ha Hb.
    destruct i as [|[|[|i]]]; destruct j as [|[|[|j]]]; try lia; try discriminate;
      injection Ha as <-; injection Hb as <-; vm_compute; discriminate.
Defined.

Lemma Seek_first_not_before_witness :
  exists sl it before rest,
    foldM (Insert Z_compare) [3; 1; 2] (new 0 (fun n => Z.of_nat n)) = Some sl
    /\ Seek Z_compare sl 2 = Some it
    /\ contents sl = Some (before ++ rest)
    /\ (forall a, a ∈ before -> Z_compare a 2 < 0)
    /\ (forall a, a ∈ rest -> 0 <= Z_compare a 2)
    /\ Valid it = negb (bool_decide (rest = []))
    /\ iter_key sl it = head rest
    /\ iterate (length (arena_ sl)) sl it = Some rest.
Proof.
  apply (Seek_first_not_before Z_compare 0).
  - intros a b c. unfold Z_compare.
    destruct (Z.ltb_spec a b), (Z.ltb_spec b a), (Z.ltb_spec b c),
      (Z.ltb_spec c b), (Z.ltb_spec a c), (Z.ltb_spec c a); lia.
  - intros a b. unfold Z_compare.
    destruct (Z.ltb_spec a b), (Z.ltb_spec b a); lia.
Defined.

End SkipListFacts.

(** ** The memtable (db/memtable.h) *)

Module MemTableFacts.
Import SkipList MemTable.

(** *** The order of strings and of memtable entries *)

Lemma compare_refl (a : bytes) : compare a a = 0.
Proof. induction a as [|x a IH]; simpl; [reflexivity|]. rewrite Z.ltb_irrefl. exact IH. Qed.

Lemma compare_eq (a b : bytes) : compare a b = 0 -> a = b.
Proof.
  revert b. induction a as [|x a IH]; intros [|y b]; simpl; try discriminate; [reflexivity|].
  destruct (Z.ltb_spec x y); [discriminate|].
  destruct (Z.ltb_spec y x); [discriminate|].
  intros H'. f_equal; [lia | apply IH, H'].
Qed.

Lemma compare_antisym (a b : bytes) : compare b a = - compare a b.
Proof.
  revert b. induction a as [|x a IH]; intros [|y b]; simpl; try reflexivity.
  destruct (Z.ltb_spec x y), (Z.ltb_spec y x); try lia; try reflexivity. apply IH.
Qed.

Lemma compare_trans (a b c : bytes) :
  (compare a b <= 0 -> compare b c <= 0 -> compare a c <= 0)
  /\ (compare a b <= 0 -> compare b c < 0 -> compare a c < 0)
  /\ (compare a b < 0 -> compare b c <= 0 -> compare a c < 0).
Proof.
  revert b c. induction a as [|x a IH]; intros [|y b] [|z c]; simpl; try lia.
  destruct (Z.ltb_spec x y), (Z.ltb_spec y x), (Z.ltb_spec y z), (Z.ltb_spec z y),
    (Z.ltb_spec x z), (Z.ltb_spec z x); try lia.
  apply IH.
Qed.

Lemma bytes_eqb_eq (a b : bytes) : bytes_eqb a b = true <-> a = b.
Proof.
  revert b. induction a as [|x a IH]; intros [|y b]; simpl; split; try discriminate;
    try reflexivity.
  - intros H'. apply andb_true_iff in H' as [H1 H2].
    apply Z.eqb_eq in H1. apply IH in H2. congruence.
  - intros H'. inversion H'; subst. rewrite Z.eqb_refl. simpl. apply IH. reflexivity.
Qed.

Definition uk (e : MemTableEntry) : bytes := user_key (internal_key e).
Definition seq_of (e : MemTableEntry) : Z := sequence (internal_key e).
Notation cmp := MemTableKeyComparator.

(** The comparator orders by user key, and for one user key by sequence
    number, the greatest first. *)
Lemma cmp_lt (a b : MemTableEntry) :
  cmp a b < 0 <-> compare (uk a) (uk b) < 0 \/ (uk a = uk b /\ seq_of b < seq_of a).
Proof.
  unfold MemTableKeyComparator, uk, seq_of.
  pose proof (compare_eq (user_key (internal_key a)) (user_key (internal_key b))) as Heq.
  pose proof (compare_refl (user_key (internal_key a))) as Hrefl.
  destruct (Z.eqb_spec (compare (user_key (internal_key a)) (user_key (internal_key b))) 0)
    as [E|E]; simpl.
  - rewrite E. specialize (Heq E).
    destruct (Z.gtb_spec (sequence (internal_key a)) (sequence (internal_key b))).
    + split; [intros _; right; split; [exact Heq | lia] | lia].
    + destruct (Z.ltb_spec (sequence (internal_key a)) (sequence (internal_key b)));
        (split; [lia | intros [?|[_ ?]]; lia]).
  - split; [intros H'; left; exact H' |].
    intros [H'|[H' _]]; [exact H'|]. rewrite <- H', Hrefl in E. lia.
Qed.

Lemma cmp_le (a b : MemTableEntry) :
  cmp a b <= 0 <-> compare (uk a) (uk b) < 0 \/ (uk a = uk b /\ seq_of b <= seq_of a).
Proof.
  unfold MemTableKeyComparator, uk, seq_of.
  pose proof (compare_eq (user_key (internal_key a)) (user_key (internal_key b))) as Heq.
  pose proof (compare_refl (user_key (internal_key a))) as Hrefl.
  destruct (Z.eqb_spec (compare (user_key (internal_key a)) (user_key (internal_key b))) 0)
    as [E|E]; simpl.
  - rewrite E. specialize (Heq E).
    destruct (Z.gtb_spec (sequence (internal_key a)) (sequence (internal_key b))).
    + split; [intros _; right; split; [exact Heq | lia] | lia].
    + destruct (Z.ltb_spec (sequence (internal_key a)) (sequence (internal_key b))).
      * split; [lia | intros [?|[_ ?]]; lia].
      * split; [intros _; right; split; [exact Heq | lia] | lia].
  - split; [intros H'; left; lia |].
    intros [H'|[H' _]]; [lia|]. rewrite <- H', Hrefl in E. lia.
Qed.

Lemma cmp_trans (a b c : MemTableEntry) :
  cmp a b <= 0 -> cmp b c < 0 -> cmp a c < 0.
Proof.
  rewrite cmp_le, !cmp_lt. intros [H1|[H1 H1']] [H2|[H2 H2']].
  - left. apply (compare_trans (uk a) (uk b) (uk c)); lia.
  - left. rewrite <- H2. exact H1.
  - left. rewrite H1. exact H2.
  - right. split; [congruence | lia].
Qed.

Lemma cmp_flip (a b : MemTableEntry) : 0 <= cmp a b -> cmp b a <= 0.
Proof.
  intros H'. apply cmp_le.
  destruct (Z.lt_trichotomy (compare (uk b) (uk a)) 0) as [Hc|[Hc|Hc]].
  - left. exact Hc.
  - right. split; [apply compare_eq, Hc|].
    destruct (Z.le_gt_cases (seq_of a) (seq_of b)) as [?|Hgt]; [assumption|].
    assert (cmp a b < 0); [|lia].
    apply cmp_lt. right. split; [symmetry; apply compare_eq, Hc | lia].
  - assert (cmp a b < 0); [|lia].
    apply cmp_lt. left. rewrite compare_antisym. lia.
Qed.

(** *** The entries a memtable holds *)

(** The skip list of the memtable is well formed, [l0] being its nodes in
    the order of level 0; the entries it then holds. *)
Definition MInv (mt : MemTable) (l0 : list nat) : Prop :=
  SkipListFacts.Inv cmp MemTableEntry_default (table_ mt) l0.

Definition stored (mt : MemTable) (l0 : list nat) : list MemTableEntry :=
  map (SkipListFacts.key_of MemTableEntry_default (table_ mt)) l0.

(** What [Get] answers when its iterator stands on entry [e] of the key
    asked for. *)
Definition result_of (e : MemTableEntry) : LookupResult :=
  if ValueType_eqb (type (internal_key e)) kDeletion then Deleted else Found (value e).

Definition probe (k : bytes) (snapshot_seq : Z) : MemTableEntry :=
  mkEntry (mkInternalKey k snapshot_seq kValue) [].

Lemma stored_sorted mt l0 :
  MInv mt l0 -> StronglySorted (fun a b => cmp a b <= 0) (stored mt l0).
Proof. apply SkipListFacts.Inv_keys_sorted. Qed.

Lemma new_MInv options g : MInv (new options g) [].
Proof. apply SkipListFacts.new_Inv. Qed.

Lemma Ref_MInv mt l0 : MInv mt l0 -> MInv (Ref mt) l0.
Proof. intros H'. exact H'. Qed.

Lemma Get_stored mt l0 k S :
  MInv mt l0 ->
  exists before rest,
    stored mt l0 = before ++ rest
    /\ (forall e, e ∈ before -> cmp e (probe k S) < 0)
    /\ (forall e, e ∈ rest -> 0 <= cmp e (probe k S))
    /\ Get mt k S = Some match rest with
                         | e :: _ => if bytes_eqb (uk e) k then result_of e else NotFound
                         | [] => NotFound
                         end.
Proof.
  intros HI.
  destruct (SkipListFacts.Seek_spec cmp MemTableEntry_default cmp_trans
              (table_ mt) l0 (probe k S) HI)
    as (lt & ge & Hseek & Hl0 & Hlt & Hge & Hkey & _).
  exists (stored mt lt), (stored mt ge).
  split; [unfold stored; rewrite Hl0, map_app; reflexivity|].
  split; [|split].
  - intros e He. apply list_elem_of_fmap in He as (i & -> & Hi). apply (Hlt i Hi).
  - intros e He. apply list_elem_of_fmap in He as (i & -> & Hi).
    specialize (Hge i Hi). unfold SkipListFacts.key_lt in Hge. lia.
  - unfold Get. fold (probe k S). rewrite Hseek. cbn [mbind option_bind].
    destruct ge as [|y ge']; [reflexivity|].
    rewrite Hkey. unfold stored, uk, result_of.
    cbn [SkipListFacts.hd_or Valid map head mbind option_bind].
    destruct (bytes_eqb _ k); [|reflexivity].
    destruct (ValueType_eqb _ kDeletion); reflexivity.
Qed.

(** [Get] finds the newest entry of the key that the snapshot sees. *)
Lemma Get_found mt l0 k S e :
  MInv mt l0 ->
  e ∈ stored mt l0 -> uk e = k -> seq_of e <= S ->
  (forall e', e' ∈ stored mt l0 -> uk e' = k -> seq_of e' <= S ->
              e' = e \/ seq_of e' < seq_of e) ->
  Get mt k S = Some (result_of e).
Proof.
  intros HI He Hk Hs Hmax.
  destruct (Get_stored mt l0 k S HI) as (before & rest & Hsplit & Hb & Hr & Hget).
  pose proof (stored_sorted mt l0 HI) as Hsorted.
  rewrite Hget. rewrite Hsplit in He, Hsorted.
  assert (Hnb : e ∉ before).
  { intros Hin. specialize (Hb e Hin). apply cmp_lt in Hb.
    unfold probe, uk, seq_of in Hb. simpl in Hb. fold (uk e) (seq_of e) in Hb.
    rewrite Hk, compare_refl in Hb. lia. }
  apply elem_of_app in He as [He|He]; [contradiction|].
  apply StronglySorted_app in Hsorted as (_ & _ & Hsr).
  destruct rest as [|x rest']; [inversion He|].
  assert (Hx : x = e).
  { apply elem_of_cons in He as [->|He]; [reflexivity|].
    apply StronglySorted_cons in Hsr as [Hall _]. rewrite Forall_forall in Hall.
    specialize (Hall e He). apply cmp_le in Hall.
    specialize (Hr x ltac:(left)).
    assert (Hnlt : ~ cmp x (probe k S) < 0) by lia.
    rewrite cmp_lt in Hnlt. unfold probe in Hnlt.
    unfold uk at 2 3, seq_of at 1 in Hnlt. simpl in Hnlt.
    rewrite Hk in Hall.
    assert (Hxk : uk x = k /\ seq_of e <= seq_of x <= S).
    { destruct Hall as [Hall|[Hall Hall']]; [tauto|].
      split; [exact Hall|]. split; [exact Hall'|].
      destruct (Z.le_gt_cases (seq_of x) S); [assumption|]. exfalso. apply Hnlt. right.
      split; [exact Hall | lia]. }
    destruct Hxk as [Hxk Hxs].
    destruct (Hmax x) as [->|Hlt]; [rewrite Hsplit; apply elem_of_app; right; left
                                    | exact Hxk | lia | reflexivity | lia]. }
  subst x. rewrite Hk.
  assert (Heqb : bytes_eqb k k = true) by (apply bytes_eqb_eq; reflexivity).
  rewrite Heqb. reflexivity.
Qed.

(** [Get] finds nothing when the snapshot sees no entry of the key. *)
Lemma Get_notfound mt l0 k S :
  MInv mt l0 ->
  (forall e, e ∈ stored mt l0 -> uk e = k -> S < seq_of e) ->
  Get mt k S = Some NotFound.
Proof.
  intros HI Hnone.
  destruct (Get_stored mt l0 k S HI) as (before & rest & Hsplit & Hb & Hr & Hget).
  rewrite Hget. destruct rest as [|x rest']; [reflexivity|].
  destruct (bytes_eqb (uk x) k) eqn:E; [|reflexivity].
  apply bytes_eqb_eq in E. exfalso.
  specialize (Hnone x ltac:(rewrite Hsplit; apply elem_of_app; right; left) E).
  specialize (Hr x ltac:(left)).
  assert (cmp x (probe k S) < 0); [|lia].
  apply cmp_lt. right. unfold probe, uk, seq_of. simpl. split; [exact E | exact Hnone].
Qed.

(** *** Memtables built by calls of [Put] and [Delete] *)

Inductive Call :=
| CallPut (seq : Z) (k v : bytes)
| CallDelete (seq : Z) (k : bytes).

Definition entry_of (c : Call) : MemTableEntry :=
  match c with
  | CallPut seq k v => mkEntry (mkInternalKey k seq kValue) v
  | CallDelete seq k => mkEntry (mkInternalKey k seq kDeletion) []
  end.

Section WithPlatform.
Context {P : Platform}.

Definition run_call (mt : MemTable) (c : Call) : option MemTable :=
  match c with
  | CallPut seq k v => Put mt seq k v
  | CallDelete seq k => Delete mt seq k
  end.

Lemma Add_spec mt l0 seq t k v :
  MInv mt l0 ->
  exists mt' l0',
    Add mt seq t k v = Some mt'
    /\ MInv mt' l0'
    /\ stored mt' l0' ≡ₚ mkEntry (mkInternalKey k seq t) v :: stored mt l0
    /\ options_ mt' = options_ mt
    /\ entry_count_ mt' = wrap64 (entry_count_ mt + 1)
    /\ min_sequence_ mt' = Z.min seq (min_sequence_ mt)
    /\ max_sequence_ mt' = Z.max seq (max_sequence_ mt)
    /\ approximate_memory_usage_ mt'
       = wrap64 (approximate_memory_usage_ mt
                 + wrap64 (size k + size v + 9 + sizeof_MemTableEntry)).
Proof.
  intros HI.
  destruct (SkipListFacts.Insert_spec cmp MemTableEntry_default cmp_trans cmp_flip
              (table_ mt) l0 (mkEntry (mkInternalKey k seq t) v) HI)
    as (tbl & lt & ge & Hins & Hl0 & _ & _ & HI' & Hk & Hold).
  unfold Add. rewrite Hins. cbn [mbind option_bind].
  eexists. exists (lt ++ length (arena_ (table_ mt)) :: ge).
  split; [reflexivity|]. split; [exact HI'|].
  split; [|split; [reflexivity|split; [reflexivity|split; [|split]]]].
  - unfold stored. cbn [table_]. rewrite map_app. cbn [map]. rewrite Hk.
    assert (Hm : forall l, (forall i, i ∈ l -> i ∈ l0) ->
              map (SkipListFacts.key_of MemTableEntry_default tbl) l
              = map (SkipListFacts.key_of MemTableEntry_default (table_ mt)) l).
    { intros l Hl. apply map_ext_in. intros i Hi. apply Hold.
      apply (SkipListFacts.inv_valid _ _ _ _ HI). apply Hl, list_elem_of_In, Hi. }
    rewrite !Hm by (intros i Hi; rewrite Hl0; apply elem_of_app; auto).
    rewrite Hl0, map_app. symmetry. apply Permutation_middle.
  - cbn [min_sequence_]. destruct (Z.ltb_spec seq (min_sequence_ mt)); lia.
  - cbn [max_sequence_]. destruct (Z.gtb_spec seq (max_sequence_ mt)); lia.
  - cbn [approximate_memory_usage_]. unfold sizeof_SequenceNumber, sizeof_ValueType.
    do 2 f_equal. f_equal. lia.
Qed.

Lemma memtable_call_spec mt l0 c :
  MInv mt l0 ->
  exists mt' l0',
    run_call mt c = Some mt'
    /\ MInv mt' l0'
    /\ stored mt' l0' ≡ₚ entry_of c :: stored mt l0
    /\ options_ mt' = options_ mt
    /\ entry_count_ mt' = wrap64 (entry_count_ mt + 1)
    /\ min_sequence_ mt' = Z.min (seq_of (entry_of c)) (min_sequence_ mt)
    /\ max_sequence_ mt' = Z.max (seq_of (entry_of c)) (max_sequence_ mt).
Proof.
  intros HI. destruct c as [seq k v|seq k]; simpl; unfold Put, Delete.
  - destruct (Add_spec mt l0 seq kValue k v HI)
      as (mt' & l0' & H1 & H2 & H3 & H4 & H5 & H6 & H7 & _).
    exists mt', l0'. auto 10.
  - destruct (Add_spec mt l0 seq kDeletion k [] HI)
      as (mt' & l0' & H1 & H2 & H3 & H4 & H5 & H6 & H7 & _).
    exists mt', l0'. auto 10.
Qed.

Lemma wrap64_add_l (a b : Z) : wrap64 (wrap64 a + b) = wrap64 (a + b).
Proof. unfold wrap64. apply Zplus_mod_idemp_l. Qed.

Lemma memtable_calls_spec cs :
  forall mt l0, MInv mt l0 ->
    exists mt' l0',
      foldM run_call cs mt = Some mt'
      /\ MInv mt' l0'
      /\ stored mt' l0' ≡ₚ map entry_of cs ++ stored mt l0
      /\ options_ mt' = options_ mt
      /\ wrap64 (entry_count_ mt') = wrap64 (entry_count_ mt + Z.of_nat (length cs))
      /\ min_sequence_ mt'
         = fold_left Z.min (map (fun c => seq_of (entry_of c)) cs) (min_sequence_ mt)
      /\ max_sequence_ mt'
         = fold_left Z.max (map (fun c => seq_of (entry_of c)) cs) (max_sequence_ mt).
Proof.
  induction cs as [|c cs IH]; intros mt l0 HI.
  - exists mt, l0. split; [reflexivity|]. split; [exact HI|].
    split; [reflexivity|]. split; [reflexivity|].
    split; [cbn [length]; f_equal; lia|]. split; reflexivity.
  - destruct (memtable_call_spec mt l0 c HI)
      as (mt1 & l1 & Hrun & HI1 & Hp1 & Ho1 & Hc1 & Hmin1 & Hmax1).
    destruct (IH mt1 l1 HI1) as (mt' & l0' & Hrun' & HI' & Hp & Ho & Hc & Hmin & Hmax).
    exists mt', l0'. cbn [foldM]. rewrite Hrun. cbn [mbind option_bind].
    split; [exact Hrun'|]. split; [exact HI'|].
    split; [|split; [congruence|split; [|split]]].
    + rewrite Hp, Hp1. cbn [map]. symmetry. apply Permutation_middle.
    + rewrite Hc, Hc1, wrap64_add_l. f_equal. cbn [length]. lia.
    + rewrite Hmin, Hmin1. cbn [map fold_left]. f_equal. lia.
    + rewrite Hmax, Hmax1. cbn [map fold_left]. f_equal. lia.
Qed.

Definition call_seq (c : Call) : Z :=
  match c with CallPut seq _ _ => seq | CallDelete seq _ => seq end.

Definition call_key (c : Call) : bytes :=
  match c with CallPut _ k _ => k | CallDelete _ k => k end.

Lemma entry_of_seq c : seq_of (entry_of c) = call_seq c.
Proof. destruct c; reflexivity. Qed.

Lemma entry_of_key c : uk (entry_of c) = call_key c.
Proof. destruct c; reflexivity. Qed.

Lemma entry_of_result c :
  result_of (entry_of c)
  = match c with CallPut _ _ v => Found v | CallDelete _ _ => Deleted end.
Proof. destruct c; reflexivity. Qed.

Lemma NoDup_map_eq {A B} (f : A -> B) (l : list A) (a b : A) :
  NoDup (map f l) -> a ∈ l -> b ∈ l -> f a = f b -> a = b.
Proof.
  induction l as [|x l IH]; intros Hnd Ha Hb Hf; [inversion Ha|].
  cbn [map] in Hnd. apply NoDup_cons in Hnd as [Hx Hnd].
  apply elem_of_cons in Ha as [->|Ha]; apply elem_of_cons in Hb as [->|Hb].
  - reflexivity.
  - exfalso. apply Hx. rewrite Hf. apply (list_elem_of_fmap_2 f), Hb.
  - exfalso. apply Hx. rewrite <- Hf. apply (list_elem_of_fmap_2 f), Ha.
  - apply IH; assumption.
Qed.

(** *** The assertion of [Insert], reached through [Put] and [Delete] *)

(** What makes two entries equal for the comparator: the user key and the
    sequence number. *)
Definition call_id (c : Call) : bytes * Z := (call_key c, call_seq c).

Definition call_assert (mt : MemTable) (c : Call) : option bool :=
  match c with
  | CallPut seq k v => Add_assert mt seq kValue k v
  | CallDelete seq k => Add_assert mt seq kDeletion k []
  end.

(** A call in a build with assertions: it does not return when the
    assertion fails. *)
Definition run_call_checked (mt : MemTable) (c : Call) : option MemTable :=
  holds ← call_assert mt c;
  if (holds : bool) then run_call mt c else None.

Lemma cmp_zero (a b : MemTableEntry) :
  cmp a b = 0 -> uk a = uk b /\ seq_of a = seq_of b.
Proof.
  unfold MemTableKeyComparator, uk, seq_of.
  pose proof (compare_eq (user_key (internal_key a)) (user_key (internal_key b))) as Heq.
  destruct (Z.eqb_spec (compare (user_key (internal_key a)) (user_key (internal_key b))) 0)
    as [E|E]; cbn [negb]; [|intros H0; contradiction].
  destruct (Z.gtb_spec (sequence (internal_key a)) (sequence (internal_key b)));
    [discriminate|].
  destruct (Z.ltb_spec (sequence (internal_key a)) (sequence (internal_key b)));
    [discriminate|].
  intros _. split; [apply Heq, E | lia].
Qed.

Lemma distinct_entries cs :
  NoDup (map call_id cs) -> SkipListFacts.distinct_keys cmp (map entry_of cs).
Proof.
  intros Hnd i j a b Hij Ha Hb Hcmp. apply Hij.
  rewrite list_lookup_fmap in Ha, Hb.
  destruct (cs !! i) as [ci|] eqn:Ei; [|discriminate].
  destruct (cs !! j) as [cj|] eqn:Ej; [|discriminate].
  cbn in Ha, Hb. injection Ha as <-. injection Hb as <-.
  apply cmp_zero in Hcmp as [Hk Hs]. rewrite !entry_of_key in Hk. rewrite !entry_of_seq in Hs.
  apply (NoDup_lookup (map call_id cs) i j (call_id ci)); [exact Hnd | |].
  - rewrite list_lookup_fmap, Ei. reflexivity.
  - rewrite list_lookup_fmap, Ej. unfold call_id. cbn. rewrite Hk, Hs. reflexivity.
Qed.

Lemma run_call_checked_eq mt l0 c :
  MInv mt l0 ->
  (forall e, e ∈ stored mt l0 -> call_id c <> (uk e, seq_of e)) ->
  run_call_checked mt c = run_call mt c.
Proof.
  intros HI Hne. unfold run_call_checked.
  assert (Ha : call_assert mt c = Some true).
  { replace (call_assert mt c)
      with (Insert_assert cmp (table_ mt) (entry_of c)) by (destruct c; reflexivity).
    apply (SkipListFacts.Insert_assert_spec cmp MemTableEntry_default cmp_trans
             (table_ mt) l0 (entry_of c) HI).
    intros i Hi Hcmp. apply cmp_zero in Hcmp as [Hk Hs].
    rewrite entry_of_key in Hk. rewrite entry_of_seq in Hs.
    apply (Hne (SkipListFacts.key_of MemTableEntry_default (table_ mt) i)).
    - apply list_elem_of_fmap_2, Hi.
    - unfold call_id. rewrite Hk, Hs. reflexivity. }
  rewrite Ha. reflexivity.
Qed.

Lemma checked_calls cs :
  NoDup (map call_id cs) ->
  forall mt l0, MInv mt l0 ->
    (forall c e, c ∈ cs -> e ∈ stored mt l0 -> call_id c <> (uk e, seq_of e)) ->
    foldM run_call_checked cs mt = foldM run_call cs mt.
Proof.
  induction cs as [|c cs IH]; intros Hnd mt l0 HI Hne; [reflexivity|].
  cbn [map] in Hnd. apply NoDup_cons in Hnd as [Hc Hnd].
  cbn [foldM].
  rewrite (run_call_checked_eq mt l0 c HI) by (intros e He; apply Hne; [left | exact He]).
  destruct (memtable_call_spec mt l0 c HI) as (mt1 & l1 & Hrun & HI1 & Hp1 & _).
  rewrite Hrun. cbn [mbind option_bind]. apply (IH Hnd mt1 l1 HI1).
  intros c' e Hc' He. rewrite Hp1 in He. apply elem_of_cons in He as [->|He].
  - rewrite entry_of_key, entry_of_seq. fold (call_id c). intros E. apply Hc.
    rewrite <- E. apply (list_elem_of_fmap_2 call_id), Hc'.
  - apply Hne; [right; exact Hc' | exact He].
Qed.

Lemma built_checked options g cs :
  NoDup (map call_id cs) ->
  foldM run_call_checked cs (new options g) = foldM run_call cs (new options g).
Proof.
  intros Hnd. apply (checked_calls cs Hnd _ [] (new_MInv options g)).
  intros c e _ He. inversion He.
Qed.

Lemma built_stored options g cs :
  exists mt l0,
    foldM run_call cs (new options g) = Some mt
    /\ MInv mt l0
    /\ stored mt l0 ≡ₚ map entry_of cs
    /\ wrap64 (entry_count_ mt) = wrap64 (Z.of_nat (length cs))
    /\ min_sequence_ mt = fold_left Z.min (map call_seq cs) kMaxSequenceNumber
    /\ max_sequence_ mt = fold_left Z.max (map call_seq cs) 0.
Proof.
  destruct (memtable_calls_spec cs _ _ (new_MInv options g))
    as (mt & l0 & Hrun & HI & Hp & _ & Hc & Hmin & Hmax).
  exists mt, l0. split; [exact Hrun|]. split; [exact HI|].
  split; [rewrite Hp; cbn [stored map]; rewrite app_nil_r; reflexivity|].
  split; [exact Hc|].
  assert (Hm : map (fun c => seq_of (entry_of c)) cs = map call_seq cs)
    by (apply map_ext; intros c; apply entry_of_seq).
  rewrite Hm in Hmin, Hmax. auto.
Qed.

(** X3.  In a memtable built by calls of [Put] and [Delete] with pairwise
    different sequence numbers, [Get(k, S)] answers with the call for [k]
    that has the greatest sequence number not above [S]: the value of
    a [Put], [Deleted] for a [Delete]. *)
Theorem Get_newest_visible options g cs k S c :
  NoDup (map call_seq cs) ->
  c ∈ cs -> call_key c = k -> call_seq c <= S ->
  (forall c', c' ∈ cs -> call_key c' = k -> call_seq c' <= S ->
              call_seq c' <= call_seq c) ->
  exists mt,
    foldM run_call cs (new options g) = Some mt
    /\ Get mt k S = Some match c with
                         | CallPut _ _ v => Found v
                         | CallDelete _ _ => Deleted
                         end.
Proof.
  intros Hnd Hc Hk Hs Hmax.
  destruct (built_stored options g cs) as (mt & l0 & Hrun & HI & Hp & _).
  exists mt. split; [exact Hrun|]. rewrite <- entry_of_result.
  apply (Get_found mt l0 k S (entry_of c) HI).
  - rewrite Hp. apply list_elem_of_fmap_2, Hc.
  - rewrite entry_of_key. exact Hk.
  - rewrite entry_of_seq. exact Hs.
  - intros e' He' Hk' Hs'. rewrite Hp in He'.
    apply list_elem_of_fmap in He' as (c' & -> & Hc').
    rewrite entry_of_key in Hk'. rewrite !entry_of_seq in *.
    specialize (Hmax c' Hc' Hk' Hs').
    destruct (Z.eq_dec (call_seq c') (call_seq c)) as [E|E]; [left | right; lia].
    f_equal. apply (NoDup_map_eq call_seq cs); assumption.
Qed.

(** X4.  In a memtable built by calls of [Put] and [Delete], no two of
    them with the same user key and sequence number, every call passes the
    assertion of [Insert] and returns, and [Get(k, S)] answers [NotFound]
    when every call for [k] has a sequence number above [S], and so when
    there is no call for [k] at all. *)
Theorem Get_none_visible options g cs k S :
  NoDup (map call_id cs) ->
  (forall c, c ∈ cs -> call_key c = k -> S < call_seq c) ->
  exists mt,
    foldM run_call_checked cs (new options g) = Some mt
    /\ Get mt k S = Some NotFound.
Proof.
  intros Hnd Hnone.
  destruct (built_stored options g cs) as (mt & l0 & Hrun & HI & Hp & _).
  exists mt. split; [rewrite (built_checked options g cs Hnd); exact Hrun|].
  apply (Get_notfound mt l0 k S HI).
  intros e He Hk. rewrite Hp in He.
  apply list_elem_of_fmap in He as (c & -> & Hc).
  rewrite entry_of_key in Hk. rewrite entry_of_seq. apply Hnone; assumption.
Qed.

(** X5.  In a memtable built by calls of [Put] and [Delete], no two of
    them with the same user key and sequence number, every call passes the
    assertion of [Insert] and returns, and the iterator meets one entry per
    call, ordered by user key and, for one user key, by sequence number
    with the greater first. *)
Theorem entries_sorted options g cs :
  NoDup (map call_id cs) ->
  exists mt es,
    foldM run_call_checked cs (new options g) = Some mt
    /\ entries mt = Some es
    /\ es ≡ₚ map entry_of cs
    /\ StronglySorted
         (fun a b => compare (uk a) (uk b) < 0
                     \/ (uk a = uk b /\ seq_of b < seq_of a)) es.
Proof.
  intros Hnd.
  destruct (built_stored options g cs) as (mt & l0 & Hrun & HI & Hp & _).
  exists mt, (stored mt l0).
  split; [rewrite (built_checked options g cs Hnd); exact Hrun|].
  split; [apply (SkipListFacts.contents_spec cmp), HI|]. split; [exact Hp|].
  eapply (SkipListFacts.StronglySorted_ext_in (fun a b => cmp a b < 0)).
  { intros a b _ _. apply cmp_lt. }
  apply SkipListFacts.StronglySorted_strict; [apply stored_sorted, HI|].
  apply (SkipListFacts.distinct_keys_perm cmp _ _ Hp), distinct_entries, Hnd.
Qed.

Lemma fold_left_min (l : list Z) (m : Z) :
  fold_left Z.min l m <= m
  /\ (forall x, x ∈ l -> fold_left Z.min l m <= x)
  /\ (fold_left Z.min l m = m \/ fold_left Z.min l m ∈ l).
Proof.
  revert m. induction l as [|y l IH]; intros m; cbn [fold_left].
  - split; [lia|]. split; [intros x Hx; inversion Hx | left; reflexivity].
  - destruct (IH (Z.min m y)) as (H1 & H2 & H3). split; [lia|]. split.
    + intros x Hx. apply elem_of_cons in Hx as [->|Hx]; [lia | apply H2, Hx].
    + destruct H3 as [H3|H3]; [|right; right; exact H3].
      destruct (Z.min_spec m y) as [[_ E]|[_ E]].
      * left. rewrite H3. exact E.
      * right. rewrite H3, E. left.
Qed.

Lemma fold_left_max (l : list Z) (m : Z) :
  m <= fold_left Z.max l m
  /\ (forall x, x ∈ l -> x <= fold_left Z.max l m)
  /\ (fold_left Z.max l m = m \/ fold_left Z.max l m ∈ l).
Proof.
  revert m. induction l as [|y l IH]; intros m; cbn [fold_left].
  - split; [lia|]. split; [intros x Hx; inversion Hx | left; reflexivity].
  - destruct (IH (Z.max m y)) as (H1 & H2 & H3). split; [lia|]. split.
    + intros x Hx. apply elem_of_cons in Hx as [->|Hx]; [lia | apply H2, Hx].
    + destruct H3 as [H3|H3]; [|right; right; exact H3].
      destruct (Z.max_spec m y) as [[_ E]|[_ E]].
      * right. rewrite H3, E. left.
      * left. rewrite H3. exact E.
Qed.

(** X6.  The counters of a memtable built by calls of [Put] and [Delete],
    no two of them with the same user key and sequence number: every call
    passes the assertion of [Insert] and returns, [EntryCount] is the
    number of calls (modulo 2^64); [MinSequence] and [MaxSequence] bound
    the sequence number of every call, and each is its initial value
    ([kMaxSequenceNumber], 0) or the sequence number of one of the calls. *)
Theorem counters_of_calls options g cs :
  NoDup (map call_id cs) ->
  exists mt,
    foldM run_call_checked cs (new options g) = Some mt
    /\ wrap64 (EntryCount mt) = wrap64 (Z.of_nat (length cs))
    /\ (forall c, c ∈ cs -> MinSequence mt <= call_seq c <= MaxSequence mt)
    /\ (MinSequence mt = kMaxSequenceNumber \/ MinSequence mt ∈ map call_seq cs)
    /\ (MaxSequence mt = 0 \/ MaxSequence mt ∈ map call_seq cs).
Proof.
  intros Hnd.
  destruct (built_stored options g cs) as (mt & l0 & Hrun & _ & _ & Hc & Hmin & Hmax).
  exists mt. split; [rewrite (built_checked options g cs Hnd); exact Hrun|].
  split; [exact Hc|].
  unfold MinSequence, MaxSequence. rewrite Hmin, Hmax.
  destruct (fold_left_min (map call_seq cs) kMaxSequenceNumber) as (_ & Hl & Hm).
  destruct (fold_left_max (map call_seq cs) 0) as (_ & Hu & HM).
  split; [|split; assumption].
  intros c Hc'. split; [apply Hl | apply Hu]; apply list_elem_of_fmap_2, Hc'.
Qed.

End WithPlatform.

(** An example: the sizes of libstdc++ on x86-64, and three calls. *)
Definition example_platform : Platform := {| sizeof_MemTableEntry := 80 |}.
Definition example_options : MemTableOptions := {| max_size := 4194304 |}.
Definition example_calls : list Call :=
  [CallPut 1 [107] [97]; CallDelete 3 [107]; CallPut 2 [108] [98]].

Lemma Get_newest_visible_witness :
  exists mt,
    foldM (run_call (P := example_platform)) example_calls
      (new example_options (fun n => Z.of_nat n)) = Some mt
    /\ Get mt [107] 2 = Some (Found [97]).
Proof.
  apply (Get_newest_visible (P := example_platform) example_options
           (fun n => Z.of_nat n) example_calls [107] 2 (CallPut 1 [107] [97])).
  - cbn. repeat (apply NoDup_cons; split; [rewrite ?elem_of_cons, elem_of_nil; lia|]).
    apply NoDup_nil. exact I.
  - left.
  - reflexivity.
  - cbn. lia.
  - intros c' Hc' Hk Hs. unfold example_calls in Hc'.
    rewrite !elem_of_cons, elem_of_nil in Hc'.
    destruct Hc' as [->|[->|[->|[]]]]; cbn in *; try lia; discriminate.
Defined.

Lemma Get_none_visible_witness :
  exists mt,
    foldM (run_call_checked (P := example_platform)) example_calls
      (new example_options (fun n => Z.of_nat n)) = Some mt
    /\ Get mt [107] 0 = Some NotFound.
Proof.
  apply (Get_none_visible (P := example_platform)).
  - apply (bool_decide_unpack _). vm_compute. exact I.
  - intros c Hc Hk. unfold example_calls in Hc.
    rewrite !elem_of_cons, elem_of_nil in Hc.
    destruct Hc as [->|[->|[->|[]]]]; cbn in *; try lia; discriminate.
Defined.

Lemma entries_sorted_witness :
  exists mt es,
    foldM (run_call_checked (P := example_platform)) example_calls
      (new example_options (fun n => Z.of_nat n)) = Some mt
    /\ entries mt = Some es
    /\ es ≡ₚ map entry_of example_calls
    /\ StronglySorted
         (fun a b => compare (uk a) (uk b) < 0
                     \/ (uk a = uk b /\ seq_of b < seq_of a)) es.
Proof.
  apply (entries_sorted (P := example_platform)).
  apply (bool_decide_unpack _). vm_compute. exact I.
Defined.

Lemma counters_of_calls_witness :
  exists mt,
    foldM (run_call_checked (P := example_platform)) example_calls
      (new example_options (fun n => Z.of_nat n)) = Some mt
    /\ wrap64 (EntryCount mt) = wrap64 (Z.of_nat (length example_calls))
    /\ (forall c, c ∈ example_calls -> MinSequence mt <= call_seq c <= MaxSequence mt)
    /\ (MinSequence mt = kMaxSequenceNumber \/ MinSequence mt ∈ map call_seq example_calls)
    /\ (MaxSequence mt = 0 \/ MaxSequence mt ∈ map call_seq example_calls).
Proof.
  apply (counters_of_calls (P := example_platform)).
  apply (bool_decide_unpack _). vm_compute. exact I.
Defined.

End MemTableFacts.

(** ** The memtable manager (db/memtable_manager.h) *)

Module ManagerFacts.
Import MemTable Manager MemTableFacts.

(** The memtables of a manager, the oldest first. *)
Definition tables (m : MemTableManager) : list MemTable :=
  immutables_ m ++ [active_ m].

(** Memtable [mt] is well formed and holds the entries [seg]. *)
Definition holds (mt : MemTable) (seg : list MemTableEntry) : Prop :=
  exists l0, MInv mt l0 /\ stored mt l0 ≡ₚ seg.

(** [Get(key, snapshot)] looks through the memtables from the newest. *)
Lemma Get_at_tables m k S :
  Get_at m k S = Get_immutables (rev (tables m)) k S.
Proof. unfold Get_at, tables. rewrite rev_app_distr. reflexivity. Qed.

Lemma Get_rev_notfound k S rts rsegs :
  Forall2 holds rts rsegs ->
  (forall seg e, seg ∈ rsegs -> e ∈ seg -> uk e = k -> S < seq_of e) ->
  Get_immutables rts k S = Some NotFound.
Proof.
  intros HF. induction HF as [|mt seg rts rsegs (l0 & HI & Hp) HF IH]; intros Hnone;
    [reflexivity|].
  cbn [Get_immutables].
  rewrite (Get_notfound mt l0 k S HI).
  - simpl. apply IH. intros seg' e Hs He. apply (Hnone seg' e); [right; exact Hs | exact He].
  - intros e He Hk. rewrite Hp in He. apply (Hnone seg e); [left | exact He | exact Hk].
Qed.

Lemma found_result_of e : found (result_of e) = true.
Proof. unfold result_of. destruct (ValueType_eqb _ _); reflexivity. Qed.

Lemma Get_rev_found k S e s1 s2 older newer :
  forall rts,
    Forall2 holds rts (newer ++ (s1 ++ e :: s2) :: older) ->
    (forall seg x, seg ∈ newer -> x ∈ seg -> uk x = k -> S < seq_of x) ->
    (forall x, x ∈ s2 -> uk x = k -> S < seq_of x) ->
    (forall x, x ∈ s1 -> seq_of x < seq_of e) ->
    uk e = k -> seq_of e <= S ->
    Get_immutables rts k S = Some (result_of e).
Proof.
  induction newer as [|seg newer IH]; intros rts HF Hnewer Hs2 Hs1 Hk HS.
  - cbn [app] in HF. inversion HF as [|mt seg' rts' rsegs' (l0 & HI & Hp) HF' E1 E2]; subst.
    cbn [Get_immutables].
    rewrite (Get_found mt l0 (uk e) S e HI).
    + simpl. rewrite found_result_of. reflexivity.
    + rewrite Hp. apply elem_of_app. right. left.
    + reflexivity.
    + exact HS.
    + intros e' He' Hk' HS'. rewrite Hp in He'.
      apply elem_of_app in He' as [He'|He']; [right; apply Hs1, He'|].
      apply elem_of_cons in He' as [->|He']; [left; reflexivity|].
      specialize (Hs2 e' He' Hk'). lia.
  - cbn [app] in HF. inversion HF as [|mt seg' rts' rsegs' (l0 & HI & Hp) HF' E1 E2]; subst.
    cbn [Get_immutables].
    rewrite (Get_notfound mt l0 (uk e) S HI).
    + simpl. apply IH; auto.
      intros seg' x Hseg Hx. apply (Hnewer seg' x); [right; exact Hseg | exact Hx].
    + intros x Hx Hkx. rewrite Hp in Hx.
      apply (Hnewer seg x); [left | exact Hx | exact Hkx].
Qed.

Lemma Forall2_rev {A B} (R : A -> B -> Prop) (l : list A) (k : list B) :
  Forall2 R l k -> Forall2 R (rev l) (rev k).
Proof.
  induction 1 as [|x y l k Hxy HF IH]; cbn [rev]; [constructor|].
  apply Forall2_app; [exact IH | repeat constructor; exact Hxy].
Qed.

Lemma elem_of_rev {A} (x : A) (l : list A) : x ∈ rev l -> x ∈ l.
Proof. rewrite !list_elem_of_In. apply in_rev. Qed.

Lemma elem_of_concat {A} (x : A) (seg : list A) (segs : list (list A)) :
  seg ∈ segs -> x ∈ seg -> x ∈ concat segs.
Proof.
  intros Hseg Hx. apply list_elem_of_In, in_concat.
  exists seg. split; apply list_elem_of_In; assumption.
Qed.

Lemma concat_split {A} (segs : list (list A)) :
  forall a e b, concat segs = a ++ e :: b ->
    exists pre s1 s2 post,
      segs = pre ++ (s1 ++ e :: s2) :: post
      /\ a = concat pre ++ s1 /\ b = s2 ++ concat post.
Proof.
  induction segs as [|s segs IH]; intros a e b Hc; cbn [concat] in Hc.
  - destruct a; discriminate.
  - apply app_eq_app in Hc as [l [[H1 H2]|[H1 H2]]].
    + destruct l as [|x l].
      * cbn [app] in H2. rewrite app_nil_r in H1. subst a.
        destruct (IH [] e b (eq_sym H2)) as (pre & s1 & s2 & post & E1 & E2 & E3).
        exists (s :: pre), s1, s2, post. subst segs. cbn [concat app].
        split; [reflexivity|]. split; [|exact E3].
        rewrite <- app_assoc, <- E2, app_nil_r. reflexivity.
      * cbn [app] in H2. inversion H2; subst.
        exists [], a, l, segs. cbn [concat app]. auto.
    + destruct (IH l e b H2) as (pre & s1 & s2 & post & E1 & E2 & E3).
      exists (s :: pre), s1, s2, post. subst. cbn [concat app].
      split; [reflexivity|]. split; [apply app_assoc | reflexivity].
Qed.

(** Reading through memtables that together hold [a ++ e :: b]: when the
    snapshot sees no entry of [b] for the key of [e], the entries of [a]
    have smaller sequence numbers and the snapshot sees [e], the answer is
    [e]. *)
Lemma Get_tables_found k S tbls segs a e b :
  Forall2 holds tbls segs ->
  concat segs = a ++ e :: b ->
  (forall x, x ∈ b -> uk x = k -> S < seq_of x) ->
  (forall x, x ∈ a -> seq_of x < seq_of e) ->
  uk e = k -> seq_of e <= S ->
  Get_immutables (rev tbls) k S = Some (result_of e).
Proof.
  intros HF Hc Hb Ha Hk HS.
  destruct (concat_split segs a e b Hc) as (pre & s1 & s2 & post & E1 & E2 & E3).
  apply Forall2_rev in HF.
  rewrite E1, rev_app_distr in HF. cbn [rev] in HF. rewrite <- app_assoc in HF.
  cbn [app] in HF.
  apply (Get_rev_found k S e s1 s2 (rev pre) (rev post) _ HF); auto.
  - intros seg x Hseg Hx. apply Hb. rewrite E3. apply elem_of_app. right.
    apply elem_of_rev in Hseg. apply (elem_of_concat x seg); assumption.
  - intros x Hx. apply Hb. rewrite E3. apply elem_of_app. left. exact Hx.
  - intros x Hx. apply Ha. rewrite E2. apply elem_of_app. right. exact Hx.
Qed.

Lemma Get_tables_notfound k S tbls segs :
  Forall2 holds tbls segs ->
  (forall x, x ∈ concat segs -> uk x = k -> S < seq_of x) ->
  Get_immutables (rev tbls) k S = Some NotFound.
Proof.
  intros HF Hnone. apply Forall2_rev in HF.
  apply (Get_rev_notfound k S _ _ HF).
  intros seg e Hseg He. apply Hnone.
  apply elem_of_rev in Hseg. apply (elem_of_concat e seg); assumption.
Qed.

(** *** Managers built by calls of [Put], [Delete] and [ForceRotation] *)

(** The memtables of the manager are well formed and hold, from the
    oldest memtable to the active one, the entries [es]. *)
Definition MgrInv (m : MemTableManager) (es : list MemTableEntry) : Prop :=
  exists segs, Forall2 holds (tables m) segs /\ concat segs = es.

Lemma holds_new options g : holds (Ref (MemTable.new options g)) [].
Proof. exists []. split; [apply Ref_MInv, new_MInv | reflexivity]. Qed.

Lemma new_MgrInv options rd : MgrInv (Manager.new options rd) [].
Proof.
  exists [[]]. split; [|reflexivity].
  unfold tables, Manager.new. cbn [immutables_ active_ app].
  constructor; [apply holds_new | constructor].
Qed.

Lemma RotateLocked_spec m es :
  MgrInv m es ->
  fst (RotateLocked m) = OK
  /\ MgrInv (snd (RotateLocked m)) es
  /\ holds (active_ (snd (RotateLocked m))) []
  /\ current_sequence_ (snd (RotateLocked m)) = current_sequence_ m
  /\ immutables_ (snd (RotateLocked m)) = immutables_ m ++ [active_ m].
Proof.
  intros (segs & HF & Hc). unfold RotateLocked. cbn [fst snd].
  split; [reflexivity|]. split; [|split; [apply holds_new|split; reflexivity]].
  exists (segs ++ [[]]). split.
  - unfold tables. cbn [immutables_ active_].
    apply Forall2_app; [exact HF|]. constructor; [apply holds_new | constructor].
  - rewrite concat_app. cbn [concat app]. rewrite !app_nil_r. exact Hc.
Qed.

(** The entry that [Write(type, key, value)] adds at sequence [seq]:
    [Delete] passes no value on to the memtable. *)
Definition write_entry (seq : Z) (t : ValueType) (k v : bytes) : MemTableEntry :=
  match t with
  | kValue => mkEntry (mkInternalKey k seq kValue) v
  | kDeletion => mkEntry (mkInternalKey k seq kDeletion) []
  end.

Section WithPlatform.
Context {P : Platform}.

Lemma holds_Add mt seg seq t k v :
  holds mt seg ->
  exists act,
    match t with
    | kValue => MemTable.Put mt seq k v
    | kDeletion => MemTable.Delete mt seq k
    end = Some act
    /\ holds act (seg ++ [write_entry seq t k v]).
Proof.
  intros (l0 & HI & Hp). destruct t; unfold MemTable.Put, MemTable.Delete.
  - destruct (Add_spec mt l0 seq kValue k v HI) as (act & l1 & Hadd & HI1 & Hp1 & _).
    exists act. split; [exact Hadd|]. exists l1. split; [exact HI1|].
    rewrite Hp1, Hp. cbn [write_entry]. apply Permutation_cons_append.
  - destruct (Add_spec mt l0 seq kDeletion k [] HI) as (act & l1 & Hadd & HI1 & Hp1 & _).
    exists act. split; [exact Hadd|]. exists l1. split; [exact HI1|].
    rewrite Hp1, Hp. cbn [write_entry]. apply Permutation_cons_append.
Qed.

(** [Write] on a well-formed manager: it returns OK, reports a rotation
    exactly when the active memtable had reached its size, gives the entry
    the current sequence number and moves the number on by one. *)
Lemma Write_spec m es t k v :
  MgrInv m es ->
  0 <= current_sequence_ m -> current_sequence_ m + 1 < 2 ^ 64 ->
  exists m',
    Write m t k v = Some (OK, MemTable.ShouldFlush (active_ m), m')
    /\ MgrInv m' (es ++ [write_entry (current_sequence_ m) t k v])
    /\ current_sequence_ m' = current_sequence_ m + 1
    /\ immutables_ m' = (if MemTable.ShouldFlush (active_ m)
                         then immutables_ m ++ [active_ m] else immutables_ m).
Proof.
  intros HI H0 Hlt. unfold Write.
  assert (Hw : wrap64 (current_sequence_ m + 1) = current_sequence_ m + 1)
    by (unfold wrap64; apply Z.mod_small; lia).
  destruct (MemTable.ShouldFlush (active_ m)) eqn:Eflush.
  - destruct (RotateLocked_spec m es HI) as (Hs & HI1 & Hnew & Hcur & Himm).
    destruct (RotateLocked m) as [s m1]. cbn [fst snd] in *. subst s. cbn [ok negb].
    destruct HI1 as (segs & HF & Hc).
    pose proof HF as HF'. unfold tables in HF'.
    apply Forall2_app_inv_l in HF' as (segs1 & segs2 & HF1 & HF2 & Esegs).
    inversion HF2 as [|mt seg ? ? Hh HF3]; subst. inversion HF3; subst.
    destruct (holds_Add (active_ m1) seg (current_sequence_ m1) t k v Hh)
      as (act & Hadd & Hact).
    rewrite Hadd. cbn [mbind option_bind]. rewrite Hcur, Hw.
    eexists. split; [reflexivity|]. split; [|split; [reflexivity | exact Himm]].
    exists (segs1 ++ [seg ++ [write_entry (current_sequence_ m) t k v]]). split.
    + unfold tables. cbn [immutables_ active_].
      apply Forall2_app; [exact HF1|]. rewrite <- Hcur.
      constructor; [exact Hact | constructor].
    + rewrite !concat_app. cbn [concat]. rewrite !app_nil_r. apply app_assoc.
  - cbn [ok OK negb]. destruct HI as (segs & HF & Hc).
    pose proof HF as HF'. unfold tables in HF'.
    apply Forall2_app_inv_l in HF' as (segs1 & segs2 & HF1 & HF2 & Esegs).
    inversion HF2 as [|mt seg ? ? Hh HF3]; subst. inversion HF3; subst.
    destruct (holds_Add (active_ m) seg (current_sequence_ m) t k v Hh)
      as (act & Hadd & Hact).
    rewrite Hadd. cbn [mbind option_bind]. rewrite Hw.
    eexists. split; [reflexivity|]. split; [|split; reflexivity].
    exists (segs1 ++ [seg ++ [write_entry (current_sequence_ m) t k v]]). split.
    + unfold tables. cbn [immutables_ active_].
      apply Forall2_app; [exact HF1|]. constructor; [exact Hact | constructor].
    + rewrite !concat_app. cbn [concat]. rewrite !app_nil_r. apply app_assoc.
Qed.

(** The calls on a manager, and what a run of them returns: the status
    of each call and the manager afterwards. *)
Inductive Call :=
| CallPut (k v : bytes)
| CallDelete (k : bytes)
| CallForceRotation.

Definition run_call (m : MemTableManager) (c : Call) : option (Status * MemTableManager) :=
  match c with
  | CallPut k v => '(s, _, m') ← Put m k v; Some (s, m')
  | CallDelete k => '(s, _, m') ← Delete m k; Some (s, m')
  | CallForceRotation => Some (ForceRotation m)
  end.

Fixpoint run_calls (m : MemTableManager) (cs : list Call)
  : option (list Status * MemTableManager) :=
  match cs with
  | [] => Some ([], m)
  | c :: cs' =>
      '(s, m') ← run_call m c;
      '(ss, m'') ← run_calls m' cs';
      Some (s :: ss, m'')
  end.

(** The log of the calls: one entry per [Put] and [Delete], numbered from
    [seq] on in the order of the calls. *)
Fixpoint entries_from (seq : Z) (cs : list Call) : list MemTableEntry :=
  match cs with
  | [] => []
  | CallPut k v :: cs' =>
      mkEntry (mkInternalKey k seq kValue) v :: entries_from (seq + 1) cs'
  | CallDelete k :: cs' =>
      mkEntry (mkInternalKey k seq kDeletion) [] :: entries_from (seq + 1) cs'
  | CallForceRotation :: cs' => entries_from seq cs'
  end.

(** The key a call writes. *)
Definition call_key (c : Call) : option bytes :=
  match c with
  | CallPut k _ => Some k
  | CallDelete k => Some k
  | CallForceRotation => None
  end.

Lemma entries_from_length_eq seq seq' cs :
  length (entries_from seq cs) = length (entries_from seq' cs).
Proof.
  revert seq seq'. induction cs as [|c cs IH]; intros seq seq'; [reflexivity|].
  destruct c; cbn [entries_from length]; auto.
Qed.

Lemma entries_from_length seq cs :
  (length (entries_from seq cs) <= length cs)%nat.
Proof.
  revert seq. induction cs as [|c cs IH]; intros seq; [reflexivity|].
  pose proof (IH seq). pose proof (IH (seq + 1)).
  destruct c; cbn [entries_from length]; lia.
Qed.

Lemma entries_from_app seq cs1 cs2 :
  entries_from seq (cs1 ++ cs2)
  = entries_from seq cs1
    ++ entries_from (seq + Z.of_nat (length (entries_from seq cs1))) cs2.
Proof.
  revert seq. induction cs1 as [|c cs1 IH]; intros seq; cbn [app entries_from length].
  - rewrite Z.add_0_r. reflexivity.
  - destruct c; cbn [app length]; rewrite IH; try reflexivity; do 3 f_equal; lia.
Qed.

Lemma entries_from_seq seq cs e :
  e ∈ entries_from seq cs ->
  seq <= seq_of e < seq + Z.of_nat (length (entries_from seq cs)).
Proof.
  revert seq. induction cs as [|c cs IH]; intros seq He; [inversion He|].
  destruct c; cbn [entries_from length] in *.
  - apply elem_of_cons in He as [->|He]; [unfold seq_of; simpl; lia|].
    specialize (IH _ He). lia.
  - apply elem_of_cons in He as [->|He]; [unfold seq_of; simpl; lia|].
    specialize (IH _ He). lia.
  - apply IH, He.
Qed.

Lemma entries_from_key seq cs e :
  e ∈ entries_from seq cs -> exists c, c ∈ cs /\ call_key c = Some (uk e).
Proof.
  revert seq. induction cs as [|c cs IH]; intros seq He; [inversion He|].
  destruct c; cbn [entries_from] in He.
  - apply elem_of_cons in He as [->|He]; [eexists; split; [left | reflexivity]|].
    destruct (IH _ He) as (c & Hc & Hk). exists c. split; [right; exact Hc | exact Hk].
  - apply elem_of_cons in He as [->|He]; [eexists; split; [left | reflexivity]|].
    destruct (IH _ He) as (c & Hc & Hk). exists c. split; [right; exact Hc | exact Hk].
  - destruct (IH _ He) as (c & Hc & Hk). exists c. split; [right; exact Hc | exact Hk].
Qed.

Lemma entries_from_seqs seq cs :
  map seq_of (entries_from seq cs)
  = map (fun i => seq + Z.of_nat i) (List.seq 0 (length (entries_from seq cs))).
Proof.
  revert seq. induction cs as [|c cs IH]; intros seq; [reflexivity|].
  destruct c; cbn [entries_from length map List.seq]; try apply IH.
  - rewrite IH, <- seq_shift, map_map. unfold seq_of at 1. cbn.
    f_equal; [lia|]. apply map_ext. intros i. lia.
  - rewrite IH, <- seq_shift, map_map. unfold seq_of at 1. cbn.
    f_equal; [lia|]. apply map_ext. intros i. lia.
Qed.

Lemma manager_call_spec m es c :
  MgrInv m es ->
  0 <= current_sequence_ m -> current_sequence_ m + 1 < 2 ^ 64 ->
  exists m',
    run_call m c = Some (OK, m')
    /\ MgrInv m' (es ++ entries_from (current_sequence_ m) [c])
    /\ current_sequence_ m'
       = current_sequence_ m + Z.of_nat (length (entries_from (current_sequence_ m) [c])).
Proof.
  intros HI H0 Hlt. destruct c as [k v|k|]; cbn [run_call entries_from length].
  - destruct (Write_spec m es kValue k v HI H0 Hlt) as (m' & Hw & HI' & Hcur & _).
    unfold Put. rewrite Hw. cbn [mbind option_bind]. exists m'.
    split; [reflexivity|]. split; [exact HI' | rewrite Hcur; reflexivity].
  - destruct (Write_spec m es kDeletion k [] HI H0 Hlt) as (m' & Hw & HI' & Hcur & _).
    unfold Delete. rewrite Hw. cbn [mbind option_bind]. exists m'.
    split; [reflexivity|]. split; [exact HI' | rewrite Hcur; reflexivity].
  - destruct (RotateLocked_spec m es HI) as (Hs & HI' & _ & Hcur & _).
    unfold ForceRotation. destruct (RotateLocked m) as [s m']. cbn [fst snd] in *.
    subst s. exists m'. split; [reflexivity|].
    split; [rewrite app_nil_r; exact HI' | rewrite Hcur; cbn; lia].
Qed.

Lemma manager_calls_spec cs :
  forall m es,
    MgrInv m es ->
    0 <= current_sequence_ m ->
    current_sequence_ m + Z.of_nat (length cs) < 2 ^ 64 ->
    exists m',
      run_calls m cs = Some (repeat OK (length cs), m')
      /\ MgrInv m' (es ++ entries_from (current_sequence_ m) cs)
      /\ current_sequence_ m'
         = current_sequence_ m
           + Z.of_nat (length (entries_from (current_sequence_ m) cs)).
Proof.
  induction cs as [|c cs IH]; intros m es HI H0 Hlt.
  - exists m. cbn. rewrite app_nil_r, Z.add_0_r. auto.
  - cbn [length] in Hlt.
    destruct (manager_call_spec m es c HI H0 ltac:(lia)) as (m1 & Hrun & HI1 & Hcur1).
    pose proof (entries_from_length (current_sequence_ m) [c]) as Hle.
    cbn [length] in Hle.
    destruct (IH m1 _ HI1 ltac:(lia) ltac:(lia)) as (m' & Hrun' & HI' & Hcur').
    exists m'. cbn [run_calls]. rewrite Hrun. cbn [mbind option_bind]. rewrite Hrun'.
    cbn [mbind option_bind length repeat]. split; [reflexivity|].
    change (c :: cs) with ([c] ++ cs). rewrite entries_from_app, <- Hcur1.
    split; [rewrite app_assoc; exact HI'|].
    rewrite Hcur', length_app. rewrite Hcur1 at 1. lia.
Qed.

(** What a run of calls on a new manager gives. *)
Lemma built_manager options rd cs :
  Z.of_nat (length cs) < 2 ^ 64 ->
  exists m,
    run_calls (Manager.new options rd) cs = Some (repeat OK (length cs), m)
    /\ MgrInv m (entries_from 0 cs)
    /\ current_sequence_ m = Z.of_nat (length (entries_from 0 cs)).
Proof.
  intros Hlt.
  destruct (manager_calls_spec cs (Manager.new options rd) [] (new_MgrInv options rd))
    as (m & Hrun & HI & Hcur); cbn [Manager.new current_sequence_]; try lia.
  exists m. cbn [Manager.new current_sequence_ app] in *. auto.
Qed.

(** The entries the iterators of the memtables meet, from the oldest
    memtable to the active one. *)
Definition all_entries (m : MemTableManager) : option (list MemTableEntry) :=
  ess ← mapM MemTable.entries (tables m); Some (concat ess).

Lemma holds_entries mt seg :
  holds mt seg -> exists es, MemTable.entries mt = Some es /\ es ≡ₚ seg.
Proof.
  intros (l0 & HI & Hp). exists (stored mt l0). split; [|exact Hp].
  apply (SkipListFacts.contents_spec cmp), HI.
Qed.

Lemma all_entries_spec m es :
  MgrInv m es -> exists es', all_entries m = Some es' /\ es' ≡ₚ es.
Proof.
  intros (segs & HF & Hc). unfold all_entries.
  assert (Hex : exists ess, mapM MemTable.entries (tables m) = Some ess
                            /\ concat ess ≡ₚ concat segs).
  { clear Hc. induction HF as [|mt seg tbls segs Hh HF (ess & Hm & Hp)].
    - exists []. split; reflexivity.
    - destruct (holds_entries mt seg Hh) as (es1 & He1 & Hp1).
      exists (es1 :: ess). split.
      + apply mapM_Some. constructor; [exact He1 | apply mapM_Some, Hm].
      + cbn [concat]. rewrite Hp1, Hp. reflexivity. }
  destruct Hex as (ess & Hm & Hp). rewrite Hm. cbn [mbind option_bind].
  exists (concat ess). split; [reflexivity | rewrite Hp, Hc; reflexivity].
Qed.

(** X7.  On a new manager every call of [Put], [Delete] and
    [ForceRotation] returns OK; the memtables then hold one entry per [Put]
    and [Delete], the entries carry the sequence numbers 0, 1, ... in the
    order of the calls, and [CurrentSequence] is the number of entries. *)
Theorem Write_sequence_numbers options rd cs :
  Z.of_nat (length cs) < 2 ^ 64 ->
  exists m es,
    run_calls (Manager.new options rd) cs = Some (repeat OK (length cs), m)
    /\ all_entries m = Some es
    /\ es ≡ₚ entries_from 0 cs
    /\ CurrentSequence m = Z.of_nat (length es)
    /\ map seq_of es ≡ₚ map Z.of_nat (List.seq 0 (length es)).
Proof.
  intros Hlt. destruct (built_manager options rd cs Hlt) as (m & Hrun & HI & Hcur).
  destruct (all_entries_spec m _ HI) as (es & Hall & Hp).
  exists m, es. split; [exact Hrun|]. split; [exact Hall|]. split; [exact Hp|].
  unfold CurrentSequence. rewrite Hcur, Hp. split; [reflexivity|].
  rewrite entries_from_seqs. apply Permutation_refl'.
  apply map_ext. intros i. lia.
Qed.

(** The log splits at a call that writes. *)
Lemma entries_from_split cs1 c cs2 k :
  call_key c = Some k ->
  exists e,
    entries_from 0 (cs1 ++ c :: cs2)
    = entries_from 0 cs1 ++ e :: entries_from (seq_of e + 1) cs2
    /\ uk e = k
    /\ seq_of e = Z.of_nat (length (entries_from 0 cs1))
    /\ result_of e = match c with CallPut _ v => Found v | _ => Deleted end.
Proof.
  intros Hk. rewrite entries_from_app. rewrite Z.add_0_l.
  destruct c as [k' v|k'|]; cbn [call_key] in Hk; [| |discriminate];
    inversion Hk; subst; cbn [entries_from].
  - exists (mkEntry (mkInternalKey k (Z.of_nat (length (entries_from 0 cs1))) kValue) v).
    repeat split.
  - exists (mkEntry (mkInternalKey k (Z.of_nat (length (entries_from 0 cs1))) kDeletion) []).
    repeat split.
Qed.

(** What [Get(key, snapshot)] returns on a well-formed manager whose log
    is [a ++ e :: b]. *)
Lemma Get_at_found m a e b k S :
  MgrInv m (a ++ e :: b) ->
  (forall x, x ∈ b -> uk x = k -> S < seq_of x) ->
  (forall x, x ∈ a -> seq_of x < seq_of e) ->
  uk e = k -> seq_of e <= S ->
  Get_at m k S = Some (result_of e).
Proof.
  intros (segs & HF & Hc) Hb Ha Hk HS. rewrite Get_at_tables.
  apply (Get_tables_found k S (tables m) segs a e b); assumption.
Qed.

Lemma Get_at_notfound m es k S :
  MgrInv m es ->
  (forall x, x ∈ es -> uk x = k -> S < seq_of x) ->
  Get_at m k S = Some NotFound.
Proof.
  intros (segs & HF & Hc) Hnone. rewrite Get_at_tables.
  apply (Get_tables_notfound k S (tables m) segs); [exact HF|].
  rewrite Hc. exact Hnone.
Qed.

(** X8.  Read your writes: after any calls of [Put], [Delete] and
    [ForceRotation] on a new manager, [Get(k)] answers with the last call
    that wrote [k], whichever memtable holds it: the value of a [Put],
    [Deleted] for a [Delete]. *)
Theorem Get_last_write options rd cs1 c cs2 k :
  Z.of_nat (length (cs1 ++ c :: cs2)) < 2 ^ 64 ->
  call_key c = Some k ->
  (forall c', c' ∈ cs2 -> call_key c' <> Some k) ->
  exists ss m,
    run_calls (Manager.new options rd) (cs1 ++ c :: cs2) = Some (ss, m)
    /\ Manager.Get m k = Some match c with
                              | CallPut _ v => Found v
                              | _ => Deleted
                              end.
Proof.
  intros Hlt Hk Hlater.
  destruct (built_manager options rd _ Hlt) as (m & Hrun & HI & Hcur).
  exists (repeat OK (length (cs1 ++ c :: cs2))), m. split; [exact Hrun|].
  destruct (entries_from_split cs1 c cs2 k Hk) as (e & Hsplit & Hke & Hse & Hres).
  rewrite <- Hres. unfold Manager.Get. rewrite Hsplit in HI, Hcur.
  apply (Get_at_found m _ e _ k _ HI).
  - intros x Hx Hkx. exfalso.
    destruct (entries_from_key _ _ _ Hx) as (c' & Hc' & Hkc').
    apply (Hlater c' Hc'). rewrite Hkc', Hkx. reflexivity.
  - intros x Hx. apply entries_from_seq in Hx. lia.
  - exact Hke.
  - rewrite Hcur, length_app. cbn [length]. lia.
Qed.

(** X9.  After any calls of [Put], [Delete] and [ForceRotation] on a new
    manager, [Get(k)] answers [NotFound] for a key that no call wrote. *)
Theorem Get_never_written options rd cs k :
  Z.of_nat (length cs) < 2 ^ 64 ->
  (forall c, c ∈ cs -> call_key c <> Some k) ->
  exists ss m,
    run_calls (Manager.new options rd) cs = Some (ss, m)
    /\ Manager.Get m k = Some NotFound.
Proof.
  intros Hlt Hnone.
  destruct (built_manager options rd _ Hlt) as (m & Hrun & HI & Hcur).
  exists (repeat OK (length cs)), m. split; [exact Hrun|].
  unfold Manager.Get. apply (Get_at_notfound m _ k _ HI).
  intros x Hx Hkx. exfalso.
  destruct (entries_from_key _ _ _ Hx) as (c' & Hc' & Hkc').
  apply (Hnone c' Hc'). rewrite Hkc', Hkx. reflexivity.
Qed.

Lemma entries_from_sorted seq cs :
  StronglySorted (fun a b => seq_of a < seq_of b) (entries_from seq cs).
Proof.
  revert seq. induction cs as [|c cs IH]; intros seq; [constructor|].
  destruct c; cbn [entries_from]; try apply IH;
    (constructor; [apply IH|]); rewrite Forall_forall; intros x Hx;
    apply entries_from_seq in Hx; unfold seq_of at 1; cbn; lia.
Qed.

Lemma last_filter_split {A} (Q : A -> Prop) `{!forall x, Decision (Q x)} (l : list A) e :
  last (filter Q l) = Some e ->
  exists a b, l = a ++ e :: b /\ Q e /\ forall x, x ∈ b -> ~ Q x.
Proof.
  induction l as [|x l IH] using rev_ind; [discriminate|].
  rewrite filter_app. cbn [filter]. rewrite filter_cons, filter_nil.
  destruct (decide (Q x)) as [Hq|Hq].
  - rewrite last_snoc. intros [= ->]. exists l, [].
    split; [reflexivity|]. split; [exact Hq|]. intros y Hy. inversion Hy.
  - rewrite app_nil_r. intros Hl. destruct (IH Hl) as (a & b & -> & Hqe & Hb).
    exists a, (b ++ [x]). split; [rewrite <- app_assoc; reflexivity|].
    split; [exact Hqe|]. intros y Hy. apply elem_of_app in Hy as [Hy|Hy]; [apply Hb, Hy|].
    apply list_elem_of_singleton in Hy. subst y. exact Hq.
Qed.

(** The entry of the log that the snapshot [S] shows for key [k]: the last
    one for [k] with a sequence number up to [S]. *)
Definition visible (k : bytes) (S : Z) (es : list MemTableEntry) : option MemTableEntry :=
  last (filter (fun e => uk e = k /\ seq_of e <= S) es).

Lemma Get_at_spec m es k S :
  MgrInv m es ->
  StronglySorted (fun a b => seq_of a < seq_of b) es ->
  Get_at m k S = Some (from_option result_of NotFound (visible k S es)).
Proof.
  intros HI Hs. unfold visible.
  destruct (last (filter (fun e => uk e = k /\ seq_of e <= S) es)) as [e|] eqn:El.
  - apply last_filter_split in El as (a & b & -> & [Hk HS] & Hb). cbn [from_option].
    apply (Get_at_found m a e b k S HI); auto.
    + intros x Hx Hkx. destruct (Z.le_gt_cases (seq_of x) S) as [Hle|Hgt]; [|lia].
      exfalso. apply (Hb x Hx). split; assumption.
    + apply StronglySorted_app in Hs as (Hcross & _ & _).
      intros x Hx. apply (Hcross x e Hx). left.
  - cbn [from_option]. apply last_None in El.
    apply (Get_at_notfound m es k S HI).
    intros x Hx Hkx. destruct (Z.le_gt_cases (seq_of x) S) as [Hle|Hgt]; [|lia].
    exfalso. apply (filter_nil_not_elem_of _ _ x El); [split; assumption | exact Hx].
Qed.

(** X10.  Reads at a snapshot are repeatable: calls made after the
    snapshot [S] was current do not change what [Get(k, S)] returns. *)
Theorem Get_at_later_calls options rd cs1 cs2 k S :
  Z.of_nat (length (cs1 ++ cs2)) < 2 ^ 64 ->
  exists ss1 m1 ss2 m2,
    run_calls (Manager.new options rd) cs1 = Some (ss1, m1)
    /\ run_calls m1 cs2 = Some (ss2, m2)
    /\ (S < CurrentSequence m1 -> Get_at m2 k S = Get_at m1 k S).
Proof.
  intros Hlt. rewrite length_app in Hlt.
  destruct (built_manager options rd cs1 ltac:(lia)) as (m1 & Hrun1 & HI1 & Hcur1).
  destruct (manager_calls_spec cs2 m1 _ HI1 ltac:(lia)) as (m2 & Hrun2 & HI2 & Hcur2).
  { pose proof (entries_from_length 0 cs1). lia. }
  exists (repeat OK (length cs1)), m1, (repeat OK (length cs2)), m2.
  split; [exact Hrun1|]. split; [exact Hrun2|].
  unfold CurrentSequence. intros HS.
  rewrite (Get_at_spec m1 _ k S HI1 (entries_from_sorted _ _)).
  assert (Happ : entries_from 0 cs1 ++ entries_from (current_sequence_ m1) cs2
                 = entries_from 0 (cs1 ++ cs2))
    by (rewrite entries_from_app, Hcur1; reflexivity).
  rewrite (Get_at_spec m2 _ k S HI2)
    by (rewrite Happ; apply entries_from_sorted).
  unfold visible. rewrite filter_app.
  assert (Hnil : filter (fun e => uk e = k /\ seq_of e <= S)
                   (entries_from (current_sequence_ m1) cs2) = []).
  { destruct (filter _ (entries_from (current_sequence_ m1) cs2)) as [|x l] eqn:E;
      [reflexivity|].
    assert (Hx : x ∈ filter (fun e => uk e = k /\ seq_of e <= S)
                   (entries_from (current_sequence_ m1) cs2)) by (rewrite E; left).
    apply list_elem_of_filter in Hx as [[_ Hle] Hx].
    apply entries_from_seq in Hx. lia. }
  rewrite Hnil, app_nil_r. reflexivity.
Qed.

(** X11.  The snapshot that [CurrentSequence] gives is the sequence number
    of the next write: [Get(k, S)] with [S] taken before a [Put] of [k]
    returns the value of that [Put] once it has been made. *)
Theorem CurrentSequence_is_next_write options rd cs k v :
  Z.of_nat (length cs) + 1 < 2 ^ 64 ->
  exists ss m rotated m',
    run_calls (Manager.new options rd) cs = Some (ss, m)
    /\ Put m k v = Some (OK, rotated, m')
    /\ Get_at m' k (CurrentSequence m) = Some (Found v).
Proof.
  intros Hlt.
  destruct (built_manager options rd cs ltac:(lia)) as (m & Hrun & HI & Hcur).
  pose proof (entries_from_length 0 cs) as Hle.
  destruct (Write_spec m _ kValue k v HI ltac:(lia) ltac:(lia))
    as (m' & Hw & HI' & Hcur' & _).
  exists (repeat OK (length cs)), m, (MemTable.ShouldFlush (active_ m)), m'.
  split; [exact Hrun|]. split; [exact Hw|].
  change (Found v) with (result_of (write_entry (current_sequence_ m) kValue k v)).
  apply (Get_at_found m' _ _ [] k _ HI').
  - intros x Hx. inversion Hx.
  - intros x Hx. apply entries_from_seq in Hx. unfold seq_of at 2. cbn. lia.
  - reflexivity.
  - unfold CurrentSequence, seq_of. cbn. lia.
Qed.


(** *** The counters of the manager *)

(** Calls that include [RemoveFlushedMemTable]. *)
Inductive Op :=
| OpCall (c : Call)
| OpRemoveFlushedMemTable.

Definition run_op (m : MemTableManager) (o : Op) : option MemTableManager :=
  match o with
  | OpCall c => '(_, m') ← run_call m c; Some m'
  | OpRemoveFlushedMemTable => Some (RemoveFlushedMemTable m)
  end.

(** The number of [Put] and [Delete] among the operations. *)
Fixpoint writes_of (ops : list Op) : Z :=
  match ops with
  | [] => 0
  | OpCall (CallPut _ _) :: ops' => 1 + writes_of ops'
  | OpCall (CallDelete _) :: ops' => 1 + writes_of ops'
  | _ :: ops' => writes_of ops'
  end.

Definition Zsum (l : list Z) : Z := fold_right Z.add 0 l.

(** The sum of what the memtables of the manager report as their memory
    usage. *)
Definition usage_sum (m : MemTableManager) : Z :=
  Zsum (map MemTable.ApproximateMemoryUsage (tables m)).

Lemma Zsum_app l1 l2 : Zsum (l1 ++ l2) = Zsum l1 + Zsum l2.
Proof. induction l1 as [|x l1 IH]; cbn [app Zsum fold_right]; [reflexivity|]. fold (Zsum (l1 ++ l2)) (Zsum l1). lia. Qed.

Lemma wrap64_eqm a b : wrap64 a = wrap64 b <-> exists q, a = b + q * 2 ^ 64.
Proof.
  unfold wrap64. split.
  - intros H'. exists (a / 2 ^ 64 - b / 2 ^ 64).
    pose proof (Z.div_mod a (2 ^ 64) ltac:(lia)).
    pose proof (Z.div_mod b (2 ^ 64) ltac:(lia)). lia.
  - intros [q ->]. apply Z_mod_plus_full.
Qed.

Lemma wrap64_wrap a : exists q, wrap64 a = a + q * 2 ^ 64.
Proof.
  exists (- (a / 2 ^ 64)). unfold wrap64.
  pose proof (Z.div_mod a (2 ^ 64) ltac:(lia)). lia.
Qed.

Lemma wrap64_range a : 0 <= wrap64 a < 2 ^ 64.
Proof. unfold wrap64. apply Z.mod_pos_bound. lia. Qed.

(** The counters agree with the state: [immutable_count_] counts the
    immutable memtables, and after [W] writes [total_memory_usage_] is the
    usage the memtables report less [sizeof(MemTableEntry) - 23] for each
    write (all modulo 2^64). *)
Record Books (m : MemTableManager) (W : Z) : Prop := mkBooks {
  bk_count_range : 0 <= immutable_count_ m < 2 ^ 64;
  bk_count : wrap64 (immutable_count_ m) = wrap64 (Z.of_nat (length (immutables_ m)));
  bk_total_range : 0 <= total_memory_usage_ m < 2 ^ 64;
  bk_total : wrap64 (total_memory_usage_ m + (sizeof_MemTableEntry - 23) * W)
             = wrap64 (usage_sum m)
}.

Lemma Books_new options rd : Books (Manager.new options rd) 0.
Proof.
  constructor; cbn [Manager.new immutable_count_ immutables_ total_memory_usage_ length];
    try lia; try reflexivity.
  rewrite Z.mul_0_r. reflexivity.
Qed.

Lemma Books_RotateLocked m W : Books m W -> Books (snd (RotateLocked m)) W.
Proof.
  intros [H1 H2 H3 H4]. unfold RotateLocked. cbn [snd]. constructor;
    cbn [immutable_count_ immutables_ total_memory_usage_].
  - apply wrap64_range.
  - rewrite length_app. cbn [length].
    apply wrap64_eqm in H2 as [q Hq]. destruct (wrap64_wrap (immutable_count_ m + 1)) as [q' Hq'].
    apply wrap64_eqm. exists (q + q'). lia.
  - exact H3.
  - rewrite H4. f_equal. unfold usage_sum, tables. cbn [immutables_ active_].
    rewrite !map_app, !Zsum_app. cbn. lia.
Qed.

Lemma Add_usage mt seq t k v mt' :
  MemTable.Add mt seq t k v = Some mt' ->
  approximate_memory_usage_ mt'
  = wrap64 (approximate_memory_usage_ mt
            + wrap64 (size k + size v + 9 + sizeof_MemTableEntry)).
Proof.
  unfold MemTable.Add. destruct (SkipList.Insert _ _ _); [|discriminate].
  cbn [mbind option_bind]. intros [= <-]. cbn [approximate_memory_usage_].
  unfold MemTable.sizeof_SequenceNumber, MemTable.sizeof_ValueType.
  do 2 f_equal. f_equal. lia.
Qed.

Lemma Books_Write m W t k v s rot m' :
  Books m W -> (t = kDeletion -> v = []) ->
  Write m t k v = Some (s, rot, m') -> Books m' (W + 1).
Proof.
  intros HB Hv. unfold Write.
  set (m1 := if MemTable.ShouldFlush (active_ m) then snd (RotateLocked m) else m).
  assert (HB1 : Books m1 W).
  { unfold m1. destruct (MemTable.ShouldFlush (active_ m)); [apply Books_RotateLocked|]; exact HB. }
  assert (Hshape : (if MemTable.ShouldFlush (active_ m)
                    then let '(s0, m0) := RotateLocked m in (s0, true, m0)
                    else (OK, false, m))
                   = (OK, MemTable.ShouldFlush (active_ m), m1)).
  { unfold m1. destruct (MemTable.ShouldFlush (active_ m)); reflexivity. }
  rewrite Hshape. cbn [ok OK negb]. clearbody m1.
  destruct (match t with
            | kValue => MemTable.Put (active_ m1) (current_sequence_ m1) k v
            | kDeletion => MemTable.Delete (active_ m1) (current_sequence_ m1) k
            end) as [act|] eqn:Eact; [|discriminate].
  cbn [mbind option_bind]. intros [= _ _ <-].
  destruct HB1 as [H1 H2 H3 H4].
  constructor; cbn [immutable_count_ immutables_ total_memory_usage_]; auto.
  - apply wrap64_range.
  - assert (Hu : approximate_memory_usage_ act
                 = wrap64 (approximate_memory_usage_ (active_ m1)
                           + wrap64 (size k + size v + 9 + sizeof_MemTableEntry))).
    { destruct t; unfold MemTable.Put, MemTable.Delete in Eact.
      - apply (Add_usage _ _ _ _ _ _ Eact).
      - rewrite (Hv eq_refl). apply (Add_usage _ _ _ _ _ _ Eact). }
    unfold usage_sum, tables in *. cbn [immutables_ active_].
    rewrite map_app, Zsum_app in *. cbn [map Zsum fold_right] in *.
    unfold MemTable.ApproximateMemoryUsage at 2. rewrite Hu.
    unfold MemTable.ApproximateMemoryUsage at 2 in H4.
    apply wrap64_eqm in H4 as [q4 Hq4].
    destruct (wrap64_wrap (size k + size v + 32)) as [q1 Hq1].
    destruct (wrap64_wrap (total_memory_usage_ m1 + wrap64 (size k + size v + 32)))
      as [q2 Hq2].
    destruct (wrap64_wrap (size k + size v + 9 + sizeof_MemTableEntry)) as [q3 Hq3].
    destruct (wrap64_wrap (approximate_memory_usage_ (active_ m1)
                           + wrap64 (size k + size v + 9 + sizeof_MemTableEntry)))
      as [q5 Hq5].
    apply wrap64_eqm. exists (q4 + q1 + q2 - q3 - q5). lia.
Qed.

Lemma Books_RemoveFlushedMemTable m W :
  Books m W -> Books (RemoveFlushedMemTable m) W.
Proof.
  intros HB. unfold RemoveFlushedMemTable.
  destruct (immutables_ m) as [|oldest rest] eqn:Eimm; [exact HB|].
  destruct HB as [H1 H2 H3 H4].
  constructor; cbn [immutable_count_ immutables_ total_memory_usage_].
  - apply wrap64_range.
  - rewrite Eimm in H2. cbn [length] in H2.
    apply wrap64_eqm in H2 as [q Hq].
    destruct (wrap64_wrap (immutable_count_ m - 1)) as [q' Hq'].
    apply wrap64_eqm. exists (q + q'). lia.
  - apply wrap64_range.
  - unfold usage_sum, tables in *. rewrite Eimm in H4. cbn [immutables_ active_].
    cbn [app map Zsum fold_right] in H4.
    fold (Zsum (map MemTable.ApproximateMemoryUsage (rest ++ [active_ m]))) in H4.
    apply wrap64_eqm in H4 as [q Hq].
    destruct (wrap64_wrap (total_memory_usage_ m - MemTable.ApproximateMemoryUsage oldest))
      as [q' Hq'].
    apply wrap64_eqm. exists (q + q'). lia.
Qed.

Lemma Books_run_op m W o m' :
  Books m W -> run_op m o = Some m' -> Books m' (W + writes_of [o]).
Proof.
  intros HB. destruct o as [[k v|k|]|]; cbn [run_op run_call writes_of].
  - unfold Put. destruct (Write m kValue k v) as [[[s rot] m1]|] eqn:E; [|discriminate].
    cbn [mbind option_bind]. intros [= <-]. rewrite Z.add_0_r.
    apply (Books_Write m W kValue k v s rot m1 HB); [discriminate | exact E].
  - unfold Delete. destruct (Write m kDeletion k []) as [[[s rot] m1]|] eqn:E; [|discriminate].
    cbn [mbind option_bind]. intros [= <-]. rewrite Z.add_0_r.
    apply (Books_Write m W kDeletion k [] s rot m1 HB); [reflexivity | exact E].
  - unfold ForceRotation. intros [= <-]. rewrite Z.add_0_r.
    exact (Books_RotateLocked m W HB).
  - intros [= <-]. rewrite Z.add_0_r. apply Books_RemoveFlushedMemTable, HB.
Qed.

Lemma writes_of_app ops1 ops2 : writes_of (ops1 ++ ops2) = writes_of ops1 + writes_of ops2.
Proof.
  induction ops1 as [|o ops1 IH]; [reflexivity|].
  destruct o as [[k v|k|]|]; cbn [app writes_of]; lia.
Qed.

Lemma Books_run_ops ops :
  forall m W m', Books m W -> foldM run_op ops m = Some m' -> Books m' (W + writes_of ops).
Proof.
  induction ops as [|o ops IH]; intros m W m' HB; cbn [foldM].
  - intros [= <-]. rewrite Z.add_0_r. exact HB.
  - destruct (run_op m o) as [m1|] eqn:E; [|discriminate]. cbn [mbind option_bind].
    intros Hrun. change (o :: ops) with ([o] ++ ops). rewrite writes_of_app, Z.add_assoc.
    apply (IH m1 _ m' (Books_run_op m W o m1 HB E) Hrun).
Qed.

(** Every operation returns on a well-formed manager. *)
Lemma MgrInv_RemoveFlushedMemTable m es :
  MgrInv m es -> exists es', MgrInv (RemoveFlushedMemTable m) es'.
Proof.
  intros (segs & HF & Hc). unfold RemoveFlushedMemTable.
  destruct (immutables_ m) as [|oldest rest] eqn:Eimm; [exists es, segs; auto|].
  unfold tables in HF. rewrite Eimm in HF. cbn [app] in HF.
  inversion HF as [|? seg ? segs' _ HF']; subst.
  exists (concat segs'), segs'. split; [exact HF' | reflexivity].
Qed.

Lemma run_ops_returns ops :
  forall m es,
    MgrInv m es ->
    0 <= current_sequence_ m ->
    current_sequence_ m + Z.of_nat (length ops) < 2 ^ 64 ->
    exists m', foldM run_op ops m = Some m'.
Proof.
  induction ops as [|o ops IH]; intros m es HI H0 Hlt; cbn [foldM length] in *.
  - exists m. reflexivity.
  - destruct o as [c|]; cbn [run_op].
    + destruct (manager_call_spec m es c HI H0 ltac:(lia)) as (m1 & Hrun & HI1 & Hcur).
      rewrite Hrun. cbn [mbind option_bind].
      pose proof (entries_from_length (current_sequence_ m) [c]) as Hle. cbn [length] in Hle.
      apply (IH m1 _ HI1); lia.
    + cbn [mbind option_bind].
      destruct (MgrInv_RemoveFlushedMemTable m es HI) as (es' & HI').
      assert (Hcur : current_sequence_ (RemoveFlushedMemTable m) = current_sequence_ m)
        by (unfold RemoveFlushedMemTable; destruct (immutables_ m); reflexivity).
      apply (IH _ es' HI'); rewrite Hcur; lia.
Qed.

(** X12.  Whatever calls of [Put], [Delete], [ForceRotation] and
    [RemoveFlushedMemTable] are made on a new manager: all return,
    [ImmutableCount] is the number of immutable memtables, and
    [TotalMemoryUsage] is the sum of what the memtables report as their
    usage, less [sizeof(MemTableEntry) - 23] for every [Put] and [Delete]
    made so far (modulo 2^64): the manager counts 32 bytes an entry, the
    memtable [9 + sizeof(MemTableEntry)]. *)
Theorem manager_counters options rd ops :
  Z.of_nat (length ops) < 2 ^ 64 ->
  exists m,
    foldM run_op ops (Manager.new options rd) = Some m
    /\ ImmutableCount m = wrap64 (Z.of_nat (length (immutables_ m)))
    /\ TotalMemoryUsage m
       = wrap64 (usage_sum m - (sizeof_MemTableEntry - 23) * writes_of ops).
Proof.
  intros Hlt.
  destruct (run_ops_returns ops _ _ (new_MgrInv options rd)) as (m & Hrun);
    cbn [Manager.new current_sequence_]; try lia.
  exists m. split; [exact Hrun|].
  destruct (Books_run_ops ops _ 0 m (Books_new options rd) Hrun) as [H1 H2 H3 H4].
  unfold ImmutableCount, TotalMemoryUsage. rewrite Z.add_0_l in H4. split.
  - rewrite <- H2. unfold wrap64. symmetry. apply Z.mod_small. exact H1.
  - apply wrap64_eqm in H4 as [q Hq].
    transitivity (wrap64 (total_memory_usage_ m)).
    + unfold wrap64. symmetry. apply Z.mod_small. exact H3.
    + apply wrap64_eqm. exists q. lia.
Qed.

(** *** Retired memtables and the flush callback *)

(** What [Write] does to the lists of memtables. *)
Lemma Write_lists m t k v s rot m' :
  Write m t k v = Some (s, rot, m') ->
  flush_callback_ m' = flush_callback_ m
  /\ if MemTable.ShouldFlush (active_ m)
     then immutables_ m' = immutables_ m ++ [active_ m]
          /\ flush_calls m' = (if flush_callback_ m then flush_calls m ++ [active_ m]
                               else flush_calls m)
     else immutables_ m' = immutables_ m /\ flush_calls m' = flush_calls m.
Proof.
  unfold Write. destruct (MemTable.ShouldFlush (active_ m)) eqn:Eflush.
  - unfold RotateLocked. cbn [ok OK negb active_ current_sequence_].
    destruct (match t with kValue => _ | kDeletion => _ end) as [act|]; [|discriminate].
    cbn [mbind option_bind]. intros [= _ _ <-]. cbn. auto.
  - cbn [ok OK negb].
    destruct (match t with kValue => _ | kDeletion => _ end) as [act|]; [|discriminate].
    cbn [mbind option_bind]. intros [= _ _ <-]. cbn. auto.
Qed.

(** The memtable that an operation retires, that is, moves from
    [active_] to the back of [immutables_]: a write does so when the
    active memtable has reached its size, [ForceRotation] always. *)
Definition retires (m : MemTableManager) (o : Op) : list MemTable :=
  match o with
  | OpCall CallForceRotation => [active_ m]
  | OpCall _ => if MemTable.ShouldFlush (active_ m) then [active_ m] else []
  | OpRemoveFlushedMemTable => []
  end.

(** The memtable that an operation removes: the front of [immutables_],
    if there is one, for [RemoveFlushedMemTable]. *)
Definition removes (m : MemTableManager) (o : Op) : list MemTable :=
  match o with
  | OpRemoveFlushedMemTable => take 1 (immutables_ m)
  | OpCall _ => []
  end.

(** The operations in turn, with the memtables retired and the memtables
    removed on the way, each in the order of the operations. *)
Fixpoint run_log (ops : list Op) (m : MemTableManager)
  : option (list MemTable * list MemTable * MemTableManager) :=
  match ops with
  | [] => Some ([], [], m)
  | o :: ops' =>
      m' ← run_op m o;
      '(retired, removed, m'') ← run_log ops' m';
      Some (retires m o ++ retired, removes m o ++ removed, m'')
  end.

(** One operation, the callback being installed: the callback is called
    with what the operation retires, and the queue of the immutable
    memtables loses what it removes at the front and takes what it retires
    at the back. *)
Lemma run_op_retires m o m' :
  flush_callback_ m = true ->
  run_op m o = Some m' ->
  flush_callback_ m' = true
  /\ flush_calls m' = flush_calls m ++ retires m o
  /\ removes m o ++ immutables_ m' = immutables_ m ++ retires m o
  /\ (o <> OpCall CallForceRotation ->
      Forall (fun mt => MemTable.ShouldFlush mt = true) (retires m o)).
Proof.
  intros Hcb.
  assert (HW : forall t k v s rot,
            Write m t k v = Some (s, rot, m') ->
            flush_callback_ m' = true
            /\ flush_calls m'
               = flush_calls m
                 ++ (if MemTable.ShouldFlush (active_ m) then [active_ m] else [])
            /\ immutables_ m'
               = immutables_ m
                 ++ (if MemTable.ShouldFlush (active_ m) then [active_ m] else [])
            /\ Forall (fun mt => MemTable.ShouldFlush mt = true)
                 (if MemTable.ShouldFlush (active_ m) then [active_ m] else [])).
  { intros t k v s rot Hw. destruct (Write_lists _ _ _ _ _ _ _ Hw) as [Hcb' Hl].
    rewrite Hcb in Hl. split; [congruence|].
    destruct (MemTable.ShouldFlush (active_ m)) eqn:Eflush; destruct Hl as [Hi Hc].
    - split; [exact Hc|]. split; [exact Hi|]. constructor; [exact Eflush | constructor].
    - rewrite !app_nil_r. split; [exact Hc|]. split; [exact Hi | constructor]. }
  destruct o as [[k v|k|]|]; cbn [run_op run_call retires removes app].
  - unfold Put. destruct (Write m kValue k v) as [[[s rot] m1]|] eqn:E; [|discriminate].
    cbn [mbind option_bind]. intros [= <-].
    destruct (HW _ _ _ _ _ E) as (H1 & H2 & H3 & H4). auto.
  - unfold Delete. destruct (Write m kDeletion k []) as [[[s rot] m1]|] eqn:E; [|discriminate].
    cbn [mbind option_bind]. intros [= <-].
    destruct (HW _ _ _ _ _ E) as (H1 & H2 & H3 & H4). auto.
  - unfold ForceRotation, RotateLocked. cbn [mbind option_bind]. intros [= <-].
    cbn [flush_callback_ flush_calls immutables_]. rewrite Hcb.
    split; [reflexivity|]. split; [reflexivity|]. split; [reflexivity|].
    intros Hno. contradiction.
  - intros [= <-]. unfold RemoveFlushedMemTable.
    destruct (immutables_ m) as [|oldest rest] eqn:Eimm;
      cbn [flush_callback_ flush_calls immutables_ take app]; rewrite ?Eimm, !app_nil_r;
      auto using Forall_nil.
Qed.

Lemma run_log_spec ops :
  forall m mf,
    flush_callback_ m = true ->
    foldM run_op ops m = Some mf ->
    exists retired removed,
      run_log ops m = Some (retired, removed, mf)
      /\ flush_calls mf = flush_calls m ++ retired
      /\ removed ++ immutables_ mf = immutables_ m ++ retired
      /\ ((forall o, o ∈ ops -> o <> OpCall CallForceRotation) ->
          Forall (fun mt => MemTable.ShouldFlush mt = true) retired).
Proof.
  induction ops as [|o ops IH]; intros m mf Hcb; cbn [foldM run_log].
  - intros [= <-]. exists [], []. rewrite !app_nil_r. auto using Forall_nil.
  - destruct (run_op m o) as [m1|] eqn:E; [|discriminate]. cbn [mbind option_bind].
    intros Hrun.
    destruct (run_op_retires m o m1 Hcb E) as (Hcb1 & Hc1 & Hq1 & Hf1).
    destruct (IH m1 mf Hcb1 Hrun) as (retired & removed & Hlog & Hc & Hq & Hf).
    rewrite Hlog. cbn [mbind option_bind]. eexists _, _. split; [reflexivity|].
    split; [rewrite Hc, Hc1, app_assoc; reflexivity|]. split.
    + rewrite <- app_assoc, Hq, !app_assoc, Hq1. reflexivity.
    + intros Hno. apply Forall_app. split.
      * apply Hf1, Hno. left.
      * apply Hf. intros o' Ho'. apply Hno. right. exact Ho'.
Qed.

(** X13.  With the flush callback installed on a new manager and no
    [ForceRotation]: whatever calls of [Put], [Delete] and
    [RemoveFlushedMemTable] follow, the callback has been called with the
    memtables retired, once for each retirement and in the order of
    retiring; these are the memtables removed, in the order of their
    removal, followed by the ones still immutable; and [ShouldFlush] was
    true of every one of them. *)
Theorem retired_when_full options rd ops :
  Z.of_nat (length ops) < 2 ^ 64 ->
  (forall o, o ∈ ops -> o <> OpCall CallForceRotation) ->
  exists m retired removed,
    run_log ops (SetFlushCallback (Manager.new options rd)) = Some (retired, removed, m)
    /\ foldM run_op ops (SetFlushCallback (Manager.new options rd)) = Some m
    /\ flush_calls m = retired
    /\ retired = removed ++ immutables_ m
    /\ Forall (fun mt => MemTable.ShouldFlush mt = true) retired.
Proof.
  intros Hlt Hno.
  destruct (run_ops_returns ops (SetFlushCallback (Manager.new options rd)) []) as (m & Hrun).
  { exact (new_MgrInv options rd). }
  { cbn. lia. }
  { cbn [SetFlushCallback Manager.new current_sequence_]. lia. }
  destruct (run_log_spec ops (SetFlushCallback (Manager.new options rd)) m
              ltac:(reflexivity) Hrun)
    as (retired & removed & Hlog & Hc & Hq & Hf).
  cbn [SetFlushCallback Manager.new flush_calls immutables_ app] in Hc, Hq.
  exists m, retired, removed. split; [exact Hlog|]. split; [exact Hrun|].
  split; [exact Hc|]. split; [symmetry; exact Hq | exact (Hf Hno)].
Qed.

(** *** After everything is flushed *)

Lemma foldM_split {A B} (f : B -> A -> option B) (l1 l2 : list A) (b b' : B) :
  foldM f (l1 ++ l2) b = Some b' ->
  exists b1, foldM f l1 b = Some b1 /\ foldM f l2 b1 = Some b'.
Proof.
  revert b. induction l1 as [|a l1 IH]; intros b; cbn [app foldM].
  - intros H'. exists b. auto.
  - destruct (f b a) as [b0|]; [|discriminate]. cbn [mbind option_bind]. apply IH.
Qed.

Lemma immutables_run_op m o m' :
  run_op m o = Some m' -> (length (immutables_ m') <= S (length (immutables_ m)))%nat.
Proof.
  destruct o as [[k v|k|]|]; cbn [run_op run_call].
  - unfold Put. destruct (Write m kValue k v) as [[[s rot] m1]|] eqn:E; [|discriminate].
    cbn [mbind option_bind]. intros [= <-].
    destruct (Write_lists _ _ _ _ _ _ _ E) as [_ Hl].
    destruct (MemTable.ShouldFlush (active_ m)); destruct Hl as [-> _];
      rewrite ?length_app; cbn [length]; lia.
  - unfold Delete. destruct (Write m kDeletion k []) as [[[s rot] m1]|] eqn:E; [|discriminate].
    cbn [mbind option_bind]. intros [= <-].
    destruct (Write_lists _ _ _ _ _ _ _ E) as [_ Hl].
    destruct (MemTable.ShouldFlush (active_ m)); destruct Hl as [-> _];
      rewrite ?length_app; cbn [length]; lia.
  - intros [= <-]. cbn [immutables_]. rewrite length_app. cbn [length]. lia.
  - intros [= <-]. unfold RemoveFlushedMemTable.
    destruct (immutables_ m) as [|oldest rest] eqn:E; [rewrite E|];
      cbn [immutables_ length]; lia.
Qed.

Lemma immutables_run_ops ops :
  forall m m', foldM run_op ops m = Some m' ->
    (length (immutables_ m') <= length (immutables_ m) + length ops)%nat.
Proof.
  induction ops as [|o ops IH]; intros m m'; cbn [foldM length].
  - intros [= <-]. lia.
  - destruct (run_op m o) as [m1|] eqn:E; [|discriminate]. cbn [mbind option_bind].
    intros Hrun. specialize (IH _ _ Hrun). apply immutables_run_op in E. lia.
Qed.

Lemma run_removes n :
  forall m m', foldM run_op (repeat OpRemoveFlushedMemTable n) m = Some m' ->
    immutables_ m' = drop n (immutables_ m) /\ active_ m' = active_ m.
Proof.
  induction n as [|n IH]; intros m m'; cbn [repeat foldM run_op].
  - intros [= <-]. rewrite drop_0. auto.
  - cbn [mbind option_bind]. intros Hrun. destruct (IH _ _ Hrun) as [Hi Ha].
    rewrite Hi, Ha. unfold RemoveFlushedMemTable.
    destruct (immutables_ m) as [|oldest rest] eqn:E; cbn [immutables_ active_ drop].
    + rewrite E, drop_nil. auto.
    + auto.
Qed.

Lemma writes_of_calls cs :
  writes_of (map OpCall cs) = Z.of_nat (length (entries_from 0 cs)).
Proof.
  induction cs as [|c cs IH]; [reflexivity|].
  destruct c; cbn [map writes_of entries_from length]; rewrite ?IH;
    rewrite ?(entries_from_length_eq (0 + 1) 0); lia.
Qed.

Lemma writes_of_removes n : writes_of (repeat OpRemoveFlushedMemTable n) = 0.
Proof. induction n as [|n IH]; [reflexivity | exact IH]. Qed.

(** X14.  [TotalMemoryUsage] does not return to 0.  After any calls of
    [Put], [Delete] and [ForceRotation] on a new manager, a
    [ForceRotation] and enough calls of [RemoveFlushedMemTable] to remove
    every immutable memtable, the manager holds one empty memtable and
    [TotalMemoryUsage] is [23 - sizeof(MemTableEntry)] times the number of
    entries written, modulo 2^64. *)
Theorem TotalMemoryUsage_after_flush options rd cs n :
  Z.of_nat (length cs + 1 + n) < 2 ^ 64 ->
  (length cs < n)%nat ->
  exists m,
    foldM run_op
      (map OpCall cs ++ OpCall CallForceRotation :: repeat OpRemoveFlushedMemTable n)
      (Manager.new options rd) = Some m
    /\ immutables_ m = []
    /\ ImmutableCount m = 0
    /\ ActiveMemoryUsage m = 0
    /\ TotalMemoryUsage m
       = wrap64 ((23 - sizeof_MemTableEntry) * Z.of_nat (length (entries_from 0 cs))).
Proof.
  intros Hlt Hn.
  set (ops := map OpCall cs ++ OpCall CallForceRotation :: repeat OpRemoveFlushedMemTable n).
  assert (Hlen : length ops = (length cs + 1 + n)%nat).
  { unfold ops. rewrite length_app, length_map. cbn [length]. rewrite repeat_length. lia. }
  destruct (run_ops_returns ops _ _ (new_MgrInv options rd)) as (m & Hrun);
    cbn [Manager.new current_sequence_]; try lia.
  exists m. split; [exact Hrun|].
  destruct (Books_run_ops ops _ 0 m (Books_new options rd) Hrun) as [H1 H2 H3 H4].
  assert (HW : writes_of ops = Z.of_nat (length (entries_from 0 cs))).
  { unfold ops. change (OpCall CallForceRotation :: repeat OpRemoveFlushedMemTable n)
      with ([OpCall CallForceRotation] ++ repeat OpRemoveFlushedMemTable n).
    rewrite !writes_of_app, writes_of_calls, writes_of_removes. cbn [writes_of]. lia. }
  rewrite Z.add_0_l, HW in H4.
  unfold ops in Hrun. apply foldM_split in Hrun as (m1 & Hrun1 & Hrun2).
  cbn [foldM run_op run_call] in Hrun2. cbn [mbind option_bind] in Hrun2.
  apply immutables_run_ops in Hrun1. rewrite length_map in Hrun1.
  cbn [Manager.new immutables_ length] in Hrun1.
  destruct (run_removes n _ _ Hrun2) as [Hi Ha].
  unfold ForceRotation, RotateLocked in Hi, Ha. cbn [snd immutables_ active_] in Hi, Ha.
  assert (Himm : immutables_ m = []).
  { rewrite Hi. apply drop_ge. rewrite length_app. cbn [length]. lia. }
  assert (Hact : MemTable.ApproximateMemoryUsage (active_ m) = 0) by (rewrite Ha; reflexivity).
  split; [exact Himm|].
  unfold ImmutableCount, ActiveMemoryUsage, TotalMemoryUsage.
  rewrite Himm in H2. cbn [length] in H2.
  assert (Hsum : usage_sum m = 0).
  { unfold usage_sum, tables. rewrite Himm. cbn [app map Zsum fold_right]. lia. }
  rewrite Hsum in H4.
  split; [|split; [exact Hact|]].
  - unfold wrap64 in H2. rewrite Z.mod_small in H2 by exact H1. exact H2.
  - apply wrap64_eqm in H4 as [q Hq].
    transitivity (wrap64 (total_memory_usage_ m)).
    + unfold wrap64. symmetry. apply Z.mod_small. exact H3.
    + apply wrap64_eqm. exists q. lia.
Qed.

End WithPlatform.

(** An example: four calls on a manager. *)
Definition example_rd : nat -> SkipList.Rng := fun _ n => Z.of_nat n.
Definition example_calls1 : list Call := [CallPut [107] [97]; CallForceRotation].
Definition example_calls2 : list Call := [CallPut [108] [98]].
Definition example_calls : list Call :=
  example_calls1 ++ CallDelete [107] :: example_calls2.

Lemma Write_sequence_numbers_witness :
  exists m es,
    run_calls (P := example_platform) (Manager.new example_options example_rd)
      example_calls = Some (repeat OK (length example_calls), m)
    /\ all_entries m = Some es
    /\ es ≡ₚ entries_from 0 example_calls
    /\ CurrentSequence m = Z.of_nat (length es)
    /\ map seq_of es ≡ₚ map Z.of_nat (List.seq 0 (length es)).
Proof.
  apply (Write_sequence_numbers (P := example_platform)). vm_compute. reflexivity.
Defined.

Lemma Get_last_write_witness :
  exists ss m,
    run_calls (P := example_platform) (Manager.new example_options example_rd)
      example_calls = Some (ss, m)
    /\ Manager.Get m [107] = Some Deleted.
Proof.
  apply (Get_last_write (P := example_platform) example_options example_rd
           example_calls1 (CallDelete [107]) example_calls2 [107]).
  - vm_compute. reflexivity.
  - reflexivity.
  - intros c' Hc'. apply list_elem_of_singleton in Hc'. subst c'. discriminate.
Defined.

Lemma Get_never_written_witness :
  exists ss m,
    run_calls (P := example_platform) (Manager.new example_options example_rd)
      example_calls = Some (ss, m)
    /\ Manager.Get m [109] = Some NotFound.
Proof.
  apply (Get_never_written (P := example_platform)).
  - vm_compute. reflexivity.
  - intros c Hc. unfold example_calls, example_calls1, example_calls2 in Hc.
    cbn [app] in Hc. rewrite !elem_of_cons, elem_of_nil in Hc.
    destruct Hc as [->|[->|[->|[->|[]]]]]; discriminate.
Defined.

Lemma Get_at_later_calls_witness :
  exists ss1 m1 ss2 m2,
    run_calls (P := example_platform) (Manager.new example_options example_rd)
      example_calls1 = Some (ss1, m1)
    /\ run_calls (P := example_platform) m1 example_calls2 = Some (ss2, m2)
    /\ (0 < CurrentSequence m1 -> Get_at m2 [108] 0 = Get_at m1 [108] 0).
Proof.
  apply (Get_at_later_calls (P := example_platform)). vm_compute. reflexivity.
Defined.

Lemma CurrentSequence_is_next_write_witness :
  exists ss m rotated m',
    run_calls (P := example_platform) (Manager.new example_options example_rd)
      example_calls = Some (ss, m)
    /\ Put (P := example_platform) m [107] [99] = Some (OK, rotated, m')
    /\ Get_at m' [107] (CurrentSequence m) = Some (Found [99]).
Proof.
  apply (CurrentSequence_is_next_write (P := example_platform)). vm_compute. reflexivity.
Defined.

Lemma manager_counters_witness :
  exists m,
    foldM (run_op (P := example_platform))
      (map OpCall example_calls ++ [OpRemoveFlushedMemTable])
      (Manager.new example_options example_rd) = Some m
    /\ ImmutableCount m = wrap64 (Z.of_nat (length (immutables_ m)))
    /\ TotalMemoryUsage m
       = wrap64 (usage_sum m
                 - (@sizeof_MemTableEntry example_platform - 23)
                   * writes_of (map OpCall example_calls ++ [OpRemoveFlushedMemTable])).
Proof.
  apply (manager_counters (P := example_platform)). vm_compute. reflexivity.
Defined.

Definition example_ops : list Op :=
  [OpCall (CallPut [107] [97]); OpRemoveFlushedMemTable; OpCall (CallDelete [107]);
   OpRemoveFlushedMemTable; OpCall (CallPut [108] [98])].

Lemma retired_when_full_witness :
  exists m retired removed,
    run_log (P := example_platform) example_ops
      (SetFlushCallback (Manager.new {| max_size := 50 |} example_rd))
    = Some (retired, removed, m)
    /\ foldM (run_op (P := example_platform)) example_ops
         (SetFlushCallback (Manager.new {| max_size := 50 |} example_rd)) = Some m
    /\ flush_calls m = retired
    /\ retired = removed ++ immutables_ m
    /\ Forall (fun mt => MemTable.ShouldFlush mt = true) retired.
Proof.
  apply (retired_when_full (P := example_platform)).
  - vm_compute. reflexivity.
  - intros o Ho. unfold example_ops in Ho. rewrite !elem_of_cons, elem_of_nil in Ho.
    destruct Ho as [->|[->|[->|[->|[->|[]]]]]]; discriminate.
Defined.

Lemma TotalMemoryUsage_after_flush_witness :
  exists m,
    foldM (run_op (P := example_platform))
      (map OpCall example_calls ++ OpCall CallForceRotation
         :: repeat OpRemoveFlushedMemTable 5)
      (Manager.new example_options example_rd) = Some m
    /\ immutables_ m = []
    /\ ImmutableCount m = 0
    /\ ActiveMemoryUsage m = 0
    /\ TotalMemoryUsage m
       = wrap64 ((23 - @sizeof_MemTableEntry example_platform)
                 * Z.of_nat (length (entries_from 0 example_calls))).
Proof.
  apply (TotalMemoryUsage_after_flush (P := example_platform)).
  - vm_compute. reflexivity.
  - cbn. lia.
Defined.

End ManagerFacts.

(** ** Recovery from the log (wal/wal_reader.h, wal/wal_manager.h) *)

Module RecoverFacts.
Import WalFormat WalReader WalManager.
Import MemTableFacts.

(** *** The reader moves forward and stays inside the file *)

(** [ReadRecord] leaves the mapping alone; it reports the end of the
    file or Corruption without moving, or returns a payload and moves on by
    at least the header, not past the end. *)
Lemma ReadRecord_cases rd res rd' :
  ReadRecord rd = (res, rd') ->
  data_ rd' = data_ rd /\ size_ rd' = size_ rd
  /\ ((eof res = true /\ status res = OK /\ rd' = rd)
      \/ (eof res = false /\ status res = Corruption /\ rd' = rd)
      \/ (eof res = false /\ status res = OK
          /\ pos_ rd + kHeaderSize <= pos_ rd' <= size_ rd)).
Proof.
  unfold ReadRecord. destruct (data_ rd) as [data|] eqn:Edata.
  2:{ intros [= <- <-]. rewrite Edata. cbn. auto 10. }
  destruct (Z.leb_spec (size_ rd) (pos_ rd)).
  { intros [= <- <-]. rewrite Edata. cbn. auto 10. }
  destruct (Z.ltb_spec (size_ rd) (pos_ rd + kHeaderSize)).
  { intros [= <- <-]. rewrite Edata. cbn. auto 10. }
  cbv zeta.
  match goal with |- context[wrap16 ?x] => set (len := wrap16 x); pose proof (WalFacts.wrap16_range x) as Hlen end.
  fold len in Hlen.
  destruct (Z.ltb_spec (size_ rd) (pos_ rd + kHeaderSize + len)).
  { intros [= <- <-]. rewrite Edata. cbn. auto 10. }
  destruct (negb _).
  { intros [= <- <-]. rewrite Edata. cbn. auto 10. }
  destruct (negb _).
  { intros [= <- <-]. rewrite Edata. cbn. auto 10. }
  intros [= <- <-]. cbn [data_ size_ pos_ eof status payload ReadResult_OK].
  split; [reflexivity|]. split; [reflexivity|]. right. right.
  split; [reflexivity|]. split; [reflexivity|]. lia.
Qed.

(** [ReadEntry] hands out an entry with status OK and moves forward, or
    stops with status OK (the end of the file) or Corruption: no other
    status comes out of it. *)
Lemma ReadEntry_cases rd b oe s rd' :
  ReadEntry rd = (b, oe, s, rd') ->
  size_ rd' = size_ rd
  /\ ((b = true /\ (exists e, oe = Some e) /\ s = OK
       /\ pos_ rd + kHeaderSize <= pos_ rd' <= size_ rd)
      \/ (b = false /\ oe = None /\ (s = OK \/ s = Corruption))).
Proof.
  unfold ReadEntry. destruct (ReadRecord rd) as [res rd1] eqn:E.
  apply ReadRecord_cases in E as (_ & Hsize & Hcases).
  destruct Hcases as [(He & Hs & ->)|[(He & Hs & ->)|(He & Hs & Hpos)]];
    rewrite He; [| rewrite Hs; cbn [ok negb Corruption] | rewrite Hs; cbn [ok negb OK]].
  - intros [= <- <- <- <-]. auto 10.
  - intros [= <- <- <- <-]. auto 10.
  - destruct (DecodeWALEntry (payload res)) as [e|]; intros [= <- <- <- <-].
    + split; [exact Hsize|]. left. eauto 10.
    + split; [exact Hsize|]. right. auto.
Qed.

(** *** Replay *)

(** The call of the memtable that the replay makes for a log entry, and
    the memtable entry it adds. *)
Definition call_of (e : WALEntry) : Call :=
  match type e with
  | kPut => CallPut (sequence e) (key e) (value e)
  | kDelete => CallDelete (sequence e) (key e)
  end.

Definition mem_entry (e : WALEntry) : MemTable.MemTableEntry := entry_of (call_of e).

(** What a log holds: records as [WALWriter::AppendRecord] builds them,
    whose payloads decode to the entries [es], and after them bytes from
    which [ReadEntry] gets no entry (the end of the file, or a record that
    does not read or decode). *)
Definition log_holds (content : list Z) (es : list WALEntry) : Prop :=
  exists payloads tail,
    content = concat (map WalWriter.build_record payloads) ++ tail
    /\ Forall2 (fun p e => size p <= 65535 /\ DecodeWALEntry p = Some e) payloads es
    /\ fst (fst (fst (ReadEntry {| data_ := Some content; size_ := size content;
                                   pos_ := size content - size tail |}))) = false.

Definition file_holds (f : File) (es : list WALEntry) : Prop :=
  match f with
  | Unreadable => es = []
  | Content content => log_holds content es
  end.

(** The log files in the order in which [Recover] takes them up. *)
Definition logs (d : Dir) : list File := map (open_log d) (snd (ListLogFiles d)).

Definition file_size (f : File) : Z :=
  match f with Unreadable => 0 | Content content => size content end.

Definition log_bytes (fs : list File) : Z :=
  fold_right (fun f acc => file_size f + acc) 0 fs.

Definition is_put (e : WALEntry) : bool :=
  match type e with kPut => true | kDelete => false end.

Definition puts (es : list WALEntry) : Z := size (List.filter is_put es).
Definition deletes (es : list WALEntry) : Z :=
  size (List.filter (fun e => negb (is_put e)) es).

(** The statistics after the entries [es] have been replayed from logs of
    [b] bytes together. *)
Definition counted (st : RecoveryStats) (es : list WALEntry) (b : Z) : Prop :=
  records_read st = wrap64 (size es)
  /\ puts_recovered st = wrap64 (puts es)
  /\ deletes_recovered st = wrap64 (deletes es)
  /\ max_sequence st = fold_left Z.max (map sequence es) 0
  /\ bytes_read st = wrap64 b.

Lemma wrap64_succ a : wrap64 (wrap64 a + 1) = wrap64 (a + 1).
Proof. unfold wrap64. apply Zplus_mod_idemp_l. Qed.

Lemma foldM_app {A B} (f : B -> A -> option B) (l1 l2 : list A) (b b1 : B) :
  foldM f l1 b = Some b1 -> foldM f (l1 ++ l2) b = foldM f l2 b1.
Proof.
  revert b. induction l1 as [|a l1 IH]; intros b; cbn [app foldM].
  - intros [= <-]. reflexivity.
  - destruct (f b a) as [b0|]; [|discriminate]. cbn [mbind option_bind]. apply IH.
Qed.

Section WithPlatform.
Context {P : Platform}.

Lemma replay_unfold fuel rd mt st :
  replay (S fuel) rd mt st
  = match ReadEntry rd with
    | (true, Some entry, _, rd) =>
        '(mt, st) ← apply_entry entry mt st; replay fuel rd mt st
    | (true, None, _, _) => None
    | (false, _, read_status, rd) => Some (read_status, rd, mt, st)
    end.
Proof. reflexivity. Qed.

Lemma apply_entry_call e mt mt1 st done b :
  run_call mt (call_of e) = Some mt1 -> counted st done b ->
  exists st1, apply_entry e mt st = Some (mt1, st1) /\ counted st1 (done ++ [e]) b.
Proof.
  intros Hrun (Hr & Hp & Hd & Hm & Hb). unfold apply_entry.
  assert (Hmax : (if sequence e >? max_sequence st then sequence e else max_sequence st)
                 = fold_left Z.max (map sequence (done ++ [e])) 0).
  { rewrite map_app, fold_left_app. cbn [map fold_left]. rewrite <- Hm.
    destruct (Z.gtb_spec (sequence e) (max_sequence st)); lia. }
  assert (Hsz : forall l x, @size WALEntry (l ++ [x]) = size l + 1).
  { intros l x. unfold size. rewrite length_app. cbn [length]. lia. }
  unfold call_of in Hrun. destruct (type e) eqn:Et; cbn [run_call] in Hrun;
    rewrite Hrun; cbn [mbind option_bind]; eexists; (split; [reflexivity|]);
    unfold counted, puts, deletes;
    cbn [records_read puts_recovered deletes_recovered max_sequence bytes_read];
    rewrite !List.filter_app; cbn [List.filter]; unfold is_put at 2 4; rewrite Et;
    cbn [negb]; rewrite ?app_nil_r, ?Hsz, Hr, Hp, Hd, ?wrap64_succ;
    repeat split; try reflexivity; try assumption.
Qed.

(** The replay of the records that a log holds: every entry is applied,
    in the order of the records, and the loop ends at the bytes that
    follow them, with status OK or Corruption. *)
Lemma replay_holds payloads es :
  Forall2 (fun p e => size p <= 65535 /\ DecodeWALEntry p = Some e) payloads es ->
  forall prior tail fuel mt st l0 done b,
    let data := prior ++ concat (map WalWriter.build_record payloads) ++ tail in
    fst (fst (fst (ReadEntry {| data_ := Some data; size_ := size data;
                                pos_ := size data - size tail |}))) = false ->
    size data - size prior <= Z.of_nat fuel ->
    MInv mt l0 -> counted st done b ->
    exists s rd' mt' st' l0',
      replay (S fuel) {| data_ := Some data; size_ := size data; pos_ := size prior |} mt st
      = Some (s, rd', mt', st')
      /\ (s = OK \/ s = Corruption)
      /\ Size rd' = size data
      /\ foldM run_call (map call_of es) mt = Some mt'
      /\ MInv mt' l0'
      /\ stored mt' l0' ≡ₚ map mem_entry es ++ stored mt l0
      /\ counted st' (done ++ es) b.
Proof.
  induction 1 as [|p e ps es' [Hp He] Hrest IH];
    intros prior tail fuel mt st l0 done b data Htail Hfuel HI Hst.
  - unfold data in *. cbn [map concat app] in *.
    assert (Hpos : size (prior ++ tail) - size tail = size prior)
      by (rewrite WalFacts.size_app; lia).
    rewrite Hpos in Htail. rewrite replay_unfold.
    destruct (ReadEntry {| data_ := Some (prior ++ tail); size_ := size (prior ++ tail);
                           pos_ := size prior |}) as [[[fl oe] s] rd'] eqn:E.
    cbn [fst] in Htail. subst fl.
    destruct (ReadEntry_cases _ _ _ _ _ E) as (Hsz & [(Hf & _)|(_ & _ & Hs)]);
      [discriminate|].
    exists s, rd', mt, st, l0. split; [reflexivity|]. split; [exact Hs|].
    split; [exact Hsz|]. split; [reflexivity|]. split; [exact HI|].
    split; [reflexivity|]. rewrite app_nil_r. exact Hst.
  - unfold data in *. cbn [map concat] in *. rewrite <- app_assoc in *.
    set (rest := concat (map WalWriter.build_record ps) ++ tail) in *.
    pose proof (WalFacts.size_nonneg p) as Hp0.
    assert (Hn : wrap16 (size p) = size p) by (unfold wrap16; apply Z.mod_small; lia).
    pose proof (WalFacts.ReadRecord_build_record prior p rest) as Hrd.
    cbv zeta in Hrd. unfold WalFacts.reader_at in Hrd.
    rewrite Hn, WalFacts.take_size, Z.eqb_refl in Hrd.
    assert (Hsize : size (prior ++ WalWriter.build_record p ++ rest)
                    = size prior + kHeaderSize + size p + size rest).
    { rewrite !WalFacts.size_app, WalFacts.build_record_size. lia. }
    pose proof (WalFacts.size_nonneg rest) as Hr0.
    destruct fuel as [|fuel]; [unfold kHeaderSize in Hsize; lia|].
    rewrite replay_unfold. unfold ReadEntry at 1. rewrite Hrd.
    cbn [eof status payload ReadResult_OK ok OK negb]. rewrite He.
    destruct (memtable_call_spec mt l0 (call_of e) HI)
      as (mt1 & l1 & Hrun & HI1 & Hp1 & _).
    destruct (apply_entry_call e mt mt1 st done b Hrun Hst) as (st1 & Happ & Hst1).
    rewrite Happ. cbn [mbind option_bind].
    specialize (IH (prior ++ WalWriter.build_record p) tail fuel mt1 st1 l1
                  (done ++ [e]) b).
    cbv zeta in IH. fold rest in IH. rewrite <- app_assoc in IH.
    replace (size (prior ++ WalWriter.build_record p))
      with (size prior + kHeaderSize + size p) in IH
      by (rewrite WalFacts.size_app, WalFacts.build_record_size; lia).
    destruct (IH Htail ltac:(unfold kHeaderSize in *; lia) HI1 Hst1)
      as (s & rd' & mt' & st' & l0' & Hrep & Hs & Hsz & Hfold & HI' & Hperm & Hst').
    exists s, rd', mt', st', l0'. split; [exact Hrep|]. split; [exact Hs|].
    split; [exact Hsz|]. split.
    { cbn [map foldM]. rewrite Hrun. exact Hfold. }
    split; [exact HI'|]. split.
    { rewrite Hperm, Hp1. cbn [map app]. symmetry. apply Permutation_middle. }
    rewrite <- app_assoc in Hst'. exact Hst'.
Qed.

(** One log file: nothing is replayed from a file that does not open, and
    from one that does, what it holds. *)
Lemma replay_file f es :
  file_holds f es ->
  forall mt st l0 done b,
    MInv mt l0 -> counted st done b ->
    (fst (Open f) <> OK /\ es = [])
    \/ (fst (Open f) = OK
        /\ exists s rd' mt' st' l0',
             replay (S (Z.to_nat (Size (snd (Open f))))) (snd (Open f)) mt st
             = Some (s, rd', mt', st')
             /\ (s = OK \/ s = Corruption)
             /\ Size rd' = file_size f
             /\ foldM run_call (map call_of es) mt = Some mt'
             /\ MInv mt' l0'
             /\ stored mt' l0' ≡ₚ map mem_entry es ++ stored mt l0
             /\ counted st' (done ++ es) b).
Proof.
  intros Hf mt st l0 done b HI Hst. destruct f as [|content]; cbn [file_holds] in Hf.
  - left. split; [discriminate | exact Hf].
  - right. destruct Hf as (payloads & tail & Hc & Hall & Htail).
    unfold Open. destruct (Z.eqb_spec (size content) 0) as [E0|E0]; cbn [fst snd].
    + split; [reflexivity|].
      assert (es = []) as ->.
      { destruct Hall as [|p e ps es' _ _]; [reflexivity|]. exfalso.
        rewrite Hc in E0. cbn [map concat] in E0.
        rewrite !WalFacts.size_app, WalFacts.build_record_size in E0.
        pose proof (WalFacts.size_nonneg p).
        pose proof (WalFacts.size_nonneg (concat (map WalWriter.build_record ps))).
        pose proof (WalFacts.size_nonneg tail). unfold kHeaderSize in E0. lia. }
      exists OK, {| data_ := None; size_ := 0; pos_ := 0 |}, mt, st, l0.
      split; [reflexivity|]. split; [left; reflexivity|].
      split; [cbn [file_size Size size_]; lia|]. split; [reflexivity|].
      split; [exact HI|]. split; [reflexivity|]. rewrite app_nil_r. exact Hst.
    + split; [reflexivity|]. cbn [Size size_ file_size].
      pose proof (replay_holds payloads es Hall [] tail (Z.to_nat (size content))
                    mt st l0 done b) as Hrep.
      cbv zeta in Hrep. cbn [app] in Hrep. rewrite <- Hc in Hrep.
      change (size (@nil Z)) with 0 in Hrep.
      apply Hrep; [exact Htail | | exact HI | exact Hst].
      pose proof (WalFacts.size_nonneg content). lia.
Qed.

Lemma counted_bytes st es b n :
  counted st es b ->
  counted {| records_read := records_read st;
             bytes_read := wrap64 (bytes_read st + n);
             puts_recovered := puts_recovered st;
             deletes_recovered := deletes_recovered st;
             max_sequence := max_sequence st |} es (b + n).
Proof.
  intros (Hr & Hp & Hd & Hm & Hb). unfold counted.
  cbn [records_read puts_recovered deletes_recovered max_sequence bytes_read].
  repeat split; try assumption. rewrite Hb. unfold wrap64. apply Zplus_mod_idemp_l.
Qed.

(** The loop over the logs never takes the early return: it replays what
    every log holds and goes on to the next one. *)
Lemma replay_logs_holds d log_numbers :
  forall ess,
    Forall2 file_holds (map (open_log d) log_numbers) ess ->
    forall mt st l0 done b,
      MInv mt l0 -> counted st done b ->
      exists mt' st' l0',
        replay_logs d log_numbers mt st = Some (inr (mt', st'))
        /\ foldM run_call (map call_of (concat ess)) mt = Some mt'
        /\ MInv mt' l0'
        /\ stored mt' l0' ≡ₚ map mem_entry (concat ess) ++ stored mt l0
        /\ counted st' (done ++ concat ess)
             (b + log_bytes (map (open_log d) log_numbers)).
Proof.
  induction log_numbers as [|log_num rest IH]; intros ess Hall mt st l0 done b HI Hst;
    cbn [map] in Hall.
  - apply Forall2_nil_inv_l in Hall as ->.
    exists mt, st, l0. cbn [replay_logs concat map foldM log_bytes fold_right app].
    rewrite app_nil_r, Z.add_0_r. auto.
  - apply Forall2_cons_inv_l in Hall as (es & ess' & Hf & Hall & ->).
    cbn [replay_logs concat map].
    change (log_bytes (open_log d log_num :: map (open_log d) rest))
      with (file_size (open_log d log_num) + log_bytes (map (open_log d) rest)).
    destruct (replay_file _ es Hf mt st l0 done b HI Hst)
      as [(Hopen & ->)|(Hopen & s & rd' & mt1 & st1 & l1 & Hrep & Hs & Hsz & Hfold & HI1
                        & Hp1 & Hst1)];
      destruct (Open (open_log d log_num)) as [so reader] eqn:Eopen; cbn [fst snd] in *.
    + assert (Hok : ok so = false) by (destruct so; try reflexivity; contradiction).
      rewrite Hok. cbn [negb].
      assert (Hfs : file_size (open_log d log_num) = 0).
      { destruct (open_log d log_num) as [|content]; [reflexivity|].
        unfold Open in Eopen. destruct (size content =? 0); inversion Eopen; subst;
          contradiction. }
      destruct (IH ess' Hall mt st l0 done b HI Hst)
        as (mt' & st' & l0' & Hrun & Hfold & HI' & Hp & Hst').
      exists mt', st', l0'. cbn [app]. rewrite Hfs, Z.add_0_l.
      auto.
    + subst so. cbn [ok OK negb]. rewrite Hrep. cbn [mbind option_bind].
      assert (Hcont : negb (ok s) && negb (IsCorruption s) = false)
        by (destruct Hs as [->| ->]; reflexivity).
      rewrite Hcont.
      rewrite Hsz.
      destruct (IH ess' Hall mt1 _ l1 (done ++ es)
                  (b + file_size (open_log d log_num)) HI1
                  (counted_bytes st1 _ b (file_size (open_log d log_num)) Hst1))
        as (mt' & st' & l0' & Hrun & Hfold' & HI' & Hp & Hst').
      exists mt', st', l0'. split; [exact Hrun|]. split.
      { rewrite map_app, (foldM_app _ _ _ _ _ Hfold). exact Hfold'. }
      split; [exact HI'|]. split.
      { rewrite Hp, Hp1, !map_app, <- !app_assoc. apply Permutation_app_swap_app. }
      rewrite <- app_assoc, <- Z.add_assoc in Hst'. exact Hst'.
Qed.

(** X15.  [Recover] into a new memtable returns an error only when the
    log directory cannot be listed.  Otherwise, when every log that opens
    holds records of some entries followed by bytes from which no entry
    is read, and no two of all these entries have the same key and sequence
    number: [Recover] returns OK; it has skipped the logs that do not open
    and has applied, log after log in the order of their numbers, exactly
    these entries, not what follows the first record that does not read or
    decode; every [Put] and [Delete] has passed the assertion of [Insert];
    and the statistics give the number of entries, of puts and of deletes,
    the greatest sequence number and the bytes of the logs opened, modulo
    2^64. *)
Theorem Recover_status d options g ess :
  Forall2 file_holds (logs d) ess ->
  NoDup (map call_id (map call_of (concat ess))) ->
  exists s mt stats,
    Recover d (MemTable.new options g) = Some (s, mt, stats)
    /\ match d with
       | DirFails => s = IOError /\ mt = MemTable.new options g /\ stats = None
       | _ =>
           s = OK
           /\ foldM run_call_checked (map call_of (concat ess)) (MemTable.new options g)
              = Some mt
           /\ exists st after,
                stats = Some st
                /\ MemTable.entries mt = Some after
                /\ after ≡ₚ map mem_entry (concat ess)
                /\ records_read st = wrap64 (size (concat ess))
                /\ puts_recovered st = wrap64 (puts (concat ess))
                /\ deletes_recovered st = wrap64 (deletes (concat ess))
                /\ max_sequence st = fold_left Z.max (map sequence (concat ess)) 0
                /\ bytes_read st = wrap64 (log_bytes (logs d))
       end.
Proof.
  intros Hall Hnd.
  assert (Hst0 : counted RecoveryStats_default [] 0) by (repeat split).
  assert (Hrun : forall log_numbers,
            Forall2 file_holds (map (open_log d) log_numbers) ess ->
            exists mt st after,
              replay_logs d log_numbers (MemTable.new options g) RecoveryStats_default
              = Some (inr (mt, st))
              /\ foldM run_call_checked (map call_of (concat ess)) (MemTable.new options g)
                 = Some mt
              /\ MemTable.entries mt = Some after
              /\ after ≡ₚ map mem_entry (concat ess)
              /\ counted st (concat ess) (log_bytes (map (open_log d) log_numbers))).
  { intros log_numbers Hall'.
    destruct (replay_logs_holds d log_numbers ess Hall' _ _ [] [] 0
                (new_MInv options g) Hst0)
      as (mt & st & l0 & Hrep & Hfold & HI & Hp & Hst).
    exists mt, st, (stored mt l0). split; [exact Hrep|].
    split; [rewrite (built_checked options g _ Hnd); exact Hfold|].
    split; [apply (SkipListFacts.contents_spec MemTable.MemTableKeyComparator), HI|].
    split; [rewrite Hp; cbn [stored map]; rewrite app_nil_r; reflexivity|].
    cbn [app] in Hst. rewrite Z.add_0_l in Hst. exact Hst. }
  unfold Recover, logs in *.
  destruct d as [| |files]; cbn [ListLogFiles ok negb OK IOError fst snd] in *.
  - eexists _, _, _. split; [reflexivity|]. auto.
  - destruct (Hrun [] Hall) as (mt & st & after & Hrep & Hfold & He & Hp & Hc).
    rewrite Hrep. cbn [mbind option_bind]. eexists _, _, _. split; [reflexivity|].
    split; [reflexivity|]. split; [exact Hfold|].
    destruct Hc as (H1 & H2 & H3 & H4 & H5). exists st, after. auto 10.
  - destruct (Hrun _ Hall) as (mt & st & after & Hrep & Hfold & He & Hp & Hc).
    rewrite Hrep. cbn [mbind option_bind]. eexists _, _, _. split; [reflexivity|].
    split; [reflexivity|]. split; [exact Hfold|].
    destruct Hc as (H1 & H2 & H3 & H4 & H5). exists st, after. auto 10.
Qed.

End WithPlatform.

(** An example: log 1 does not open, log 2 holds a put, a delete and three
    stray bytes, log 3 is empty. *)
Definition example_put : WALEntry :=
  {| type := kPut; sequence := 5; key := [107]; value := [97] |}.
Definition example_delete : WALEntry :=
  {| type := kDelete; sequence := 6; key := [107]; value := [] |}.
Definition example_log : list Z :=
  concat (map WalWriter.build_record
            [EncodeWALEntry example_put; EncodeWALEntry example_delete]) ++ [9; 9; 9].
Definition example_dir : Dir :=
  DirEntries [(2, Content example_log); (1, Unreadable); (3, Content [])].
Definition example_entries : list (list WALEntry) :=
  [[]; [example_put; example_delete]; []].

Lemma Recover_status_witness :
  exists s mt stats,
    Recover (P := example_platform) example_dir
      (MemTable.new example_options (fun n => Z.of_nat n)) = Some (s, mt, stats)
    /\ s = OK
    /\ foldM (run_call_checked (P := example_platform))
         (map call_of (concat example_entries))
         (MemTable.new example_options (fun n => Z.of_nat n)) = Some mt
    /\ exists st after,
         stats = Some st
         /\ MemTable.entries mt = Some after
         /\ after ≡ₚ map mem_entry (concat example_entries)
         /\ records_read st = wrap64 (size (concat example_entries))
         /\ puts_recovered st = wrap64 (puts (concat example_entries))
         /\ deletes_recovered st = wrap64 (deletes (concat example_entries))
         /\ max_sequence st = fold_left Z.max (map sequence (concat example_entries)) 0
         /\ bytes_read st = wrap64 (log_bytes (logs example_dir)).
Proof.
  apply (Recover_status (P := example_platform) example_dir example_options
           (fun n => Z.of_nat n) example_entries).
  - change (logs example_dir) with [Unreadable; Content example_log; Content []].
    constructor; [reflexivity|]. constructor; [|constructor; [|constructor]].
    + exists [EncodeWALEntry example_put; EncodeWALEntry example_delete], [9; 9; 9].
      split; [reflexivity|]. split.
      * constructor; [split; [vm_compute; discriminate | vm_compute; reflexivity]|].
        constructor; [split; [vm_compute; discriminate | vm_compute; reflexivity]|].
        constructor.
      * vm_compute. reflexivity.
    + exists [], []. split; [reflexivity|]. split; [constructor|]. reflexivity.
  - apply (bool_decide_unpack _). vm_compute. exact I.
Defined.

End RecoverFacts.

(** ** A log written and read back (wal/wal_writer.h, wal/wal_reader.h) *)

Module WalLogFacts.
Import WalFormat WalWriter WalReader WalFacts.

(** [AppendRecord] for each payload in turn, as long as the status is OK. *)
Fixpoint append_all (wr : WALWriter) (w : OS.World) (payloads : list (list Z))
  : option (Status * WALWriter * OS.World) :=
  match payloads with
  | [] => Some (OK, wr, w)
  | p :: rest =>
      '(s, wr, w) ← AppendRecord wr w p;
      if ok s then append_all wr w rest else Some (s, wr, w)
  end.

(** [ReadRecord] [n] times, as long as a payload comes back, and once
    more: the payloads, the last result, the reader. *)
Fixpoint read_all (n : nat) (rd : WALReader) : list (list Z) * ReadResult * WALReader :=
  match n with
  | O => let '(res, rd) := ReadRecord rd in ([], res, rd)
  | S n' =>
      let '(res, rd) := ReadRecord rd in
      if eof res || negb (ok (status res)) then ([], res, rd)
      else let '(ps, last, rd) := read_all n' rd in (payload res :: ps, last, rd)
  end.

Lemma append_all_file payloads :
  forall wr w wr' w',
    append_all wr w payloads = Some (OK, wr', w') ->
    OS.file w' = OS.file w ++ concat (map build_record payloads).
Proof.
  induction payloads as [|p rest IH]; intros wr w wr' w'; cbn [append_all map concat].
  - intros [= _ <-]. rewrite app_nil_r. reflexivity.
  - destruct (AppendRecord wr w p) as [[[s wr1] w1]|] eqn:E; [|discriminate].
    cbn [mbind option_bind]. destruct s; cbn [ok]; try (intros [= ]; fail).
    intros Hrest. apply IH in Hrest. apply AppendRecord_OK_file in E.
    rewrite Hrest, E, <- app_assoc. reflexivity.
Qed.

Lemma ReadRecord_at_end data :
  ReadRecord {| data_ := Some data; size_ := size data; pos_ := size data |}
  = (ReadResult_Eof, {| data_ := Some data; size_ := size data; pos_ := size data |}).
Proof. unfold ReadRecord. cbn [data_ size_ pos_]. rewrite Z.leb_refl. reflexivity. Qed.

Lemma read_all_records payloads :
  forall prior,
    Forall (fun p => size p <= 65535) payloads ->
    let data := prior ++ concat (map build_record payloads) in
    read_all (length payloads)
      {| data_ := Some data; size_ := size data; pos_ := size prior |}
    = (payloads, ReadResult_Eof,
       {| data_ := Some data; size_ := size data; pos_ := size data |}).
Proof.
  induction payloads as [|p rest IH]; intros prior Hall; cbn [map concat length read_all].
  - rewrite app_nil_r. rewrite ReadRecord_at_end. reflexivity.
  - apply Forall_cons in Hall as [Hp Hall].
    pose proof (ReadRecord_build_record prior p (concat (map build_record rest))) as Hrd.
    cbv zeta in Hrd. unfold reader_at in Hrd.
    assert (Hn : wrap16 (size p) = size p).
    { unfold wrap16. apply Z.mod_small. pose proof (size_nonneg p). lia. }
    rewrite Hn, take_size, Z.eqb_refl in Hrd. rewrite Hrd.
    cbn [eof status ReadResult_OK ok OK negb orb payload].
    specialize (IH (prior ++ build_record p) Hall). cbv zeta in IH.
    rewrite <- app_assoc in IH.
    replace (size prior + kHeaderSize + size p) with (size (prior ++ build_record p))
      by (rewrite size_app, build_record_size; lia).
    rewrite IH. reflexivity.
Qed.

(** X16.  A log read back.  When [AppendRecord] has returned OK for each
    of the payloads, none longer than 65535 bytes, written to a new file,
    a reader opened on the file gets the payloads back from [ReadRecord],
    in the order of writing, and then the end of the file. *)
Theorem appended_records_read_back wr w payloads wr' w' :
  OS.file w = [] ->
  Forall (fun p => size p <= 65535) payloads ->
  append_all wr w payloads = Some (OK, wr', w') ->
  exists rd,
    fst (Open (Content (OS.file w'))) = OK
    /\ read_all (length payloads) (snd (Open (Content (OS.file w'))))
       = (payloads, ReadResult_Eof, rd).
Proof.
  intros Hnew Hall Happ. apply append_all_file in Happ. rewrite Hnew in Happ.
  cbn [app] in Happ. rewrite Happ. unfold Open.
  destruct (size (concat (map build_record payloads)) =? 0) eqn:Esz.
  - cbn [fst snd]. destruct payloads as [|p rest].
    + eexists. split; [reflexivity|]. reflexivity.
    + exfalso. apply Z.eqb_eq in Esz. cbn [map concat] in Esz.
      rewrite size_app, build_record_size in Esz.
      pose proof (size_nonneg p). pose proof (size_nonneg (concat (map build_record rest))).
      unfold kHeaderSize in Esz. lia.
  - cbn [fst snd]. eexists. split; [reflexivity|].
    apply (read_all_records payloads [] Hall).
Qed.

(** An example: two payloads written with a sync after each write. *)
Definition example_writer : WALWriter :=
  {| options_ := default_WALOptions; fd_ := 3; file_size_ := 0;
     bytes_since_sync_ := 0; closed_ := false; sync_requested_ := false |}.
Definition example_world : OS.World :=
  {| OS.file := []; OS.script := [OS.Done; OS.Done; OS.Done; OS.Done] |}.
Definition example_payloads : list (list Z) := [[1; 2]; [3]].
Definition example_after : Status * WALWriter * OS.World :=
  match append_all example_writer example_world example_payloads with
  | Some r => r
  | None => (IOError, example_writer, example_world)
  end.

Lemma appended_records_read_back_witness :
  exists rd,
    fst (Open (Content (OS.file (snd example_after)))) = OK
    /\ read_all (length example_payloads)
         (snd (Open (Content (OS.file (snd example_after)))))
       = (example_payloads, ReadResult_Eof, rd).
Proof.
  apply (appended_records_read_back example_writer example_world example_payloads
           (snd (fst example_after)) (snd example_after)).
  - reflexivity.
  - constructor; [vm_compute; discriminate|].
    constructor; [vm_compute; discriminate|]. constructor.
  - vm_compute. reflexivity.
Defined.

End WalLogFacts.

(** ** The encodings of the table format (sstable/sstable_format.h) *)

Module FormatFacts.
Import Format.

(** *** Fixed-width integers *)

Lemma EncodeFixed64_eq (v : Z) :
  EncodeFixed64 v
  = [ Z.land v 255; Z.land (Z.shiftr v 8) 255; Z.land (Z.shiftr v 16) 255;
      Z.land (Z.shiftr v 24) 255; Z.land (Z.shiftr v 32) 255;
      Z.land (Z.shiftr v 40) 255; Z.land (Z.shiftr v 48) 255;
      Z.land (Z.shiftr v 56) 255 ].
Proof. unfold EncodeFixed64. cbn [map seq]. rewrite Z.shiftr_0_r. reflexivity. Qed.

Lemma DecodeFixed32_Encode (v : Z) (rest : list Z) :
  0 <= v < 2 ^ 32 -> DecodeFixed32 (EncodeFixed32 v ++ rest) = Some v.
Proof.
  intros Hv. unfold EncodeFixed32. cbn [app DecodeFixed32]. f_equal.
  apply Z.bits_inj'; intros i Hi.
  assert (Hcases : i < 8 \/ 8 <= i < 16 \/ 16 <= i < 24 \/ 24 <= i < 32 \/ 32 <= i) by lia.
  destruct Hcases as [H|[H|[H|[H|H]]]]; bitwise.
  all: try (symmetry; apply (testbit_small 32); lia).
Qed.

Lemma DecodeFixed64_Encode (v : Z) (rest : list Z) :
  0 <= v < 2 ^ 64 -> DecodeFixed64 (EncodeFixed64 v ++ rest) = Some v.
Proof.
  intros Hv. rewrite EncodeFixed64_eq. unfold DecodeFixed64.
  cbn [app length Nat.ltb Nat.leb seq fold_left nth Z.of_nat Z.mul Pos.of_succ_nat
       Pos.succ Pos.mul Pos.add].
  f_equal. rewrite Z.shiftl_0_r.
  apply Z.bits_inj'; intros i Hi.
  assert (Hcases : i < 8 \/ 8 <= i < 16 \/ 16 <= i < 24 \/ 24 <= i < 32
                   \/ 32 <= i < 40 \/ 40 <= i < 48 \/ 48 <= i < 56 \/ 56 <= i < 64
                   \/ 64 <= i) by lia.
  destruct Hcases as [H|[H|[H|[H|[H|[H|[H|[H|H]]]]]]]]; bitwise.
  all: rewrite ?Z.bits_0; cbn [orb].
  all: try (f_equal; lia).
  all: try (symmetry; apply (testbit_small 64); lia).
Qed.

(** X17.  Fixed-width integers come back from their little-endian
    encoding, whatever follows it in the buffer: a 32-bit value from the
    four bytes of [PutFixed32], a 64-bit value from the eight bytes of
    [PutFixed64]. *)
Theorem Fixed_roundtrip (v32 v64 : Z) (rest : list Z) :
  0 <= v32 < 2 ^ 32 -> 0 <= v64 < 2 ^ 64 ->
  DecodeFixed32 (PutFixed32 [] v32 ++ rest) = Some v32
  /\ DecodeFixed64 (PutFixed64 [] v64 ++ rest) = Some v64
  /\ size (PutFixed32 [] v32) = 4 /\ size (PutFixed64 [] v64) = 8.
Proof.
  intros H32 H64. unfold PutFixed32, PutFixed64. cbn [app].
  split; [apply DecodeFixed32_Encode, H32|]. split; [apply DecodeFixed64_Encode, H64|].
  split; reflexivity.
Qed.

Lemma Fixed_roundtrip_witness :
  DecodeFixed32 (PutFixed32 [] 305419896 ++ [7]) = Some 305419896
  /\ DecodeFixed64 (PutFixed64 [] 81985529216486895 ++ [7]) = Some 81985529216486895
  /\ size (PutFixed32 [] 305419896) = 4 /\ size (PutFixed64 [] 81985529216486895) = 8.
Proof. apply Fixed_roundtrip; lia. Defined.

(** *** Varints *)

Lemma PutVarint_loop_app (fuel : nat) :
  forall dst v, PutVarint_loop fuel dst v = dst ++ PutVarint_loop fuel [] v.
Proof.
  induction fuel as [|fuel IH]; intros dst v; cbn [PutVarint_loop]; [reflexivity|].
  destruct (128 <=? v); [|reflexivity].
  rewrite (IH (dst ++ _)), (IH ([] ++ _)). cbn [app]. rewrite <- app_assoc. reflexivity.
Qed.

Lemma testbit_128 (i : Z) : Z.testbit 128 i = (i =? 7).
Proof.
  change 128 with (2 ^ 7). rewrite Z.pow2_bits_eqb by lia. apply Z.eqb_sym.
Qed.

Lemma testbit_127 (i : Z) : Z.testbit 127 i = (0 <=? i) && (i <? 7).
Proof.
  change 127 with (Z.ones 7).
  destruct (Z.leb_spec 0 i); [|rewrite Z.testbit_neg_r by lia; reflexivity].
  destruct (Z.ltb_spec i 7).
  - rewrite Z.ones_spec_low by lia. reflexivity.
  - rewrite Z.ones_spec_high by lia. reflexivity.
Qed.

Lemma small_byte (v : Z) : 0 <= v < 128 -> wrap8 v = v /\ Z.land v 128 = 0.
Proof.
  intros Hv. split; [unfold wrap8; apply Z.mod_small; lia|].
  apply Z.bits_inj'; intros i Hi. rewrite Z.land_spec, testbit_128, Z.bits_0.
  destruct (Z.eqb_spec i 7) as [->|]; [|apply andb_false_r].
  rewrite (testbit_small 7 v 7) by lia. reflexivity.
Qed.

Lemma continuation_byte (v : Z) : Z.land (wrap8 (Z.lor v 128)) 128 <> 0.
Proof.
  intros H'. assert (Hb : Z.testbit (Z.land (wrap8 (Z.lor v 128)) 128) 7 = false)
    by (rewrite H'; apply Z.bits_0).
  unfold wrap8 in Hb. rewrite Z.land_spec, testbit_wrap, Z.lor_spec, testbit_128 in Hb by lia.
  cbn in Hb. rewrite orb_true_r in Hb. discriminate.
Qed.

Lemma varint_bits (acc v shift : Z) :
  0 <= shift -> shift + 7 <= 63 ->
  Z.lor (Z.lor acc (wrap64 (Z.shiftl (Z.land (wrap8 (Z.lor v 128)) 127) shift)))
        (Z.shiftl (Z.shiftr v 7) (shift + 7))
  = Z.lor acc (Z.shiftl v shift).
Proof.
  intros H0 H63. rewrite <- Z.lor_assoc. f_equal.
  apply Z.bits_inj'; intros i Hi. unfold wrap64, wrap8.
  rewrite Z.lor_spec, testbit_wrap by lia.
  rewrite !Z.shiftl_spec by lia. rewrite Z.land_spec, testbit_127, testbit_wrap by lia.
  rewrite Z.lor_spec, testbit_128.
  destruct (Z.lt_ge_cases (i - shift) 0) as [Hneg|Hpos].
  - rewrite !(Z.testbit_neg_r v) by lia.
    rewrite (Z.testbit_neg_r _ (i - (shift + 7))) by lia.
    destruct (Z.leb_spec 0 (i - shift)); [lia|]. cbn. rewrite !andb_false_r. reflexivity.
  - destruct (Z.lt_ge_cases (i - shift) 7) as [Hlow|Hhigh].
    + rewrite (Z.testbit_neg_r _ (i - (shift + 7))) by lia.
      destruct (Z.ltb_spec i 64); [|lia]. destruct (Z.ltb_spec (i - shift) 8); [|lia].
      destruct (Z.eqb_spec (i - shift) 7); [lia|].
      destruct (Z.leb_spec 0 (i - shift)); [|lia].
      destruct (Z.ltb_spec (i - shift) 7); [|lia].
      cbn. rewrite !orb_false_r, ?andb_true_r. reflexivity.
    + destruct (Z.ltb_spec (i - shift) 7); [lia|].
      rewrite Z.shiftr_spec by lia.
      rewrite !andb_false_r. cbn. f_equal. lia.
Qed.

Lemma varint_roundtrip_loop (fuel : nat) :
  forall shift v acc rest,
    0 <= shift <= 63 -> 0 <= v < 2 ^ (64 - shift) ->
    64 - shift <= 7 * Z.of_nat fuel ->
    GetVarint64_loop fuel shift (PutVarint_loop fuel [] v ++ rest) acc
    = (true, Z.lor acc (Z.shiftl v shift), rest).
Proof.
  induction fuel as [|fuel IH]; intros shift v acc rest Hs Hv Hf; [lia|].
  cbn [PutVarint_loop GetVarint64_loop].
  destruct (Z.leb_spec shift 63); [|lia]. cbn [negb].
  destruct (Z.leb_spec 128 v) as [Hbig|Hsmall].
  - rewrite PutVarint_loop_app. cbn [app].
    destruct (Z.eqb_spec (Z.land (wrap8 (Z.lor v 128)) 128) 0) as [E|_];
      [exfalso; apply (continuation_byte v E)|]. cbn [negb].
    assert (Hshift : shift + 7 <= 63).
    { destruct (Z.le_gt_cases (64 - shift) 7) as [Hle|]; [|lia].
      assert (2 ^ (64 - shift) <= 2 ^ 7) by (apply Z.pow_le_mono_r; lia). lia. }
    rewrite IH; [| lia | | lia].
    + rewrite varint_bits by lia. reflexivity.
    + rewrite Z.shiftr_div_pow2 by lia. split; [apply Z.div_pos; lia|].
      apply Z.div_lt_upper_bound; [lia|].
      rewrite <- Z.pow_add_r by lia. replace (7 + (64 - (shift + 7))) with (64 - shift) by lia.
      lia.
  - cbn [app]. destruct (small_byte v ltac:(lia)) as [-> ->]. cbn [Z.eqb negb].
    f_equal. f_equal. f_equal. unfold wrap64. apply Z.mod_small.
    rewrite Z.shiftl_mul_pow2 by lia. split; [apply Z.mul_nonneg_nonneg; lia|].
    replace (2 ^ 64) with (2 ^ (64 - shift) * 2 ^ shift)
      by (rewrite <- Z.pow_add_r by lia; f_equal; lia).
    apply Z.mul_lt_mono_pos_r; lia.
Qed.

Lemma PutVarint_loop_size (fuel : nat) :
  forall dst v, size (PutVarint_loop fuel dst v) = VarintLength_loop fuel v (size dst + 1).
Proof.
  induction fuel as [|fuel IH]; intros dst v; cbn [PutVarint_loop VarintLength_loop].
  - unfold size. rewrite length_app. cbn [length]. lia.
  - destruct (128 <=? v).
    + rewrite IH. f_equal. unfold size. rewrite length_app. cbn [length]. lia.
    + unfold size. rewrite length_app. cbn [length]. lia.
Qed.

Lemma VarintLength_loop_range (fuel : nat) :
  forall v len, len <= VarintLength_loop fuel v len <= len + Z.of_nat fuel.
Proof.
  induction fuel as [|fuel IH]; intros v len; cbn [VarintLength_loop]; [lia|].
  destruct (128 <=? v); [|lia]. specialize (IH (Z.shiftr v 7) (len + 1)). lia.
Qed.

Lemma GetVarint64_Put (v : Z) (rest : list Z) :
  0 <= v < 2 ^ 64 -> GetVarint64 (PutVarint64 [] v ++ rest) = (true, v, rest).
Proof.
  intros Hv. unfold GetVarint64, PutVarint64.
  rewrite (varint_roundtrip_loop 10 0 v 0 rest) by (cbn; lia).
  rewrite Z.shiftl_0_r, Z.lor_0_l. reflexivity.
Qed.

Lemma VarintLength_loop_bound (k : nat) :
  forall fuel v len,
    0 <= v < 2 ^ (7 * (Z.of_nat k + 1)) ->
    VarintLength_loop fuel v len <= len + Z.of_nat k.
Proof.
  induction k as [|k IH]; intros fuel v len Hv;
    (destruct fuel as [|fuel]; cbn [VarintLength_loop]; [lia|]);
    destruct (Z.leb_spec 128 v) as [Hbig|Hsmall]; try lia.
  specialize (IH fuel (Z.shiftr v 7) (len + 1)).
  assert (0 <= Z.shiftr v 7 < 2 ^ (7 * (Z.of_nat k + 1))); [|lia].
  rewrite Z.shiftr_div_pow2 by lia. split; [apply Z.div_pos; lia|].
  apply Z.div_lt_upper_bound; [lia|]. rewrite <- Z.pow_add_r by lia.
  replace (7 + 7 * (Z.of_nat k + 1)) with (7 * (Z.of_nat (S k) + 1)) by lia.
  lia.
Qed.

(** X18.  A 64-bit value comes back from its varint encoding, whatever
    follows it in the buffer; the encoding has [VarintLength] bytes, ten
    at most, and is appended to the destination. *)
Theorem Varint64_roundtrip (v : Z) (dst rest : list Z) :
  0 <= v < 2 ^ 64 ->
  GetVarint64 (PutVarint64 [] v ++ rest) = (true, v, rest)
  /\ PutVarint64 dst v = dst ++ PutVarint64 [] v
  /\ size (PutVarint64 [] v) = VarintLength v
  /\ 1 <= VarintLength v <= 10.
Proof.
  intros Hv. split; [apply GetVarint64_Put, Hv|].
  split; [apply PutVarint_loop_app|].
  split; [unfold PutVarint64, VarintLength; rewrite PutVarint_loop_size; reflexivity|].
  unfold VarintLength. split; [apply VarintLength_loop_range|].
  apply (VarintLength_loop_bound 9 10 v 1). cbn. lia.
Qed.

(** *** Block handles *)

Definition handle_ok (h : BlockHandle) : Prop :=
  0 <= offset h < 2 ^ 64 /\ 0 <= size_ h < 2 ^ 64.

Lemma PutVarint64_size (v : Z) : 0 <= v < 2 ^ 64 -> 1 <= size (PutVarint64 [] v) <= 10.
Proof.
  intros Hv. unfold PutVarint64. rewrite PutVarint_loop_size. cbn [size length Z.of_nat Z.add].
  split; [apply (VarintLength_loop_range 10 v 1)|].
  apply (VarintLength_loop_bound 9 10 v 1). cbn. lia.
Qed.

Lemma BlockHandle_Encode_eq (h : BlockHandle) :
  BlockHandle_Encode h = PutVarint64 [] (offset h) ++ PutVarint64 [] (size_ h).
Proof. unfold BlockHandle_Encode, PutVarint64. apply PutVarint_loop_app. Qed.

Lemma BlockHandle_Encode_size (h : BlockHandle) :
  handle_ok h -> 2 <= size (BlockHandle_Encode h) <= 20.
Proof.
  intros [Ho Hs]. rewrite BlockHandle_Encode_eq, WalFacts.size_app.
  pose proof (PutVarint64_size _ Ho). pose proof (PutVarint64_size _ Hs). lia.
Qed.

Lemma BlockHandle_Decode_Encode (self h : BlockHandle) (rest : list Z) :
  handle_ok h ->
  BlockHandle_Decode self (BlockHandle_Encode h ++ rest) = (true, h, rest).
Proof.
  intros [Ho Hs]. rewrite BlockHandle_Encode_eq, <- app_assoc.
  unfold BlockHandle_Decode. rewrite (GetVarint64_Put _ _ Ho), (GetVarint64_Put _ _ Hs).
  destruct h; reflexivity.
Qed.

(** X19.  A block handle comes back from its encoding, whatever follows
    it in the buffer and whatever the handle decoded into held before; the
    encoding has between 2 and 20 bytes. *)
Theorem BlockHandle_roundtrip (self h : BlockHandle) (rest : list Z) :
  0 <= offset h < 2 ^ 64 -> 0 <= size_ h < 2 ^ 64 ->
  BlockHandle_Decode self (BlockHandle_Encode h ++ rest) = (true, h, rest)
  /\ 2 <= size (BlockHandle_Encode h) <= 20.
Proof.
  intros Ho Hs. split.
  - apply BlockHandle_Decode_Encode. split; assumption.
  - apply BlockHandle_Encode_size. split; assumption.
Qed.

(** *** The footer *)

Lemma advance_app (x rest : list Z) : advance (x ++ rest) (size x) = rest.
Proof. unfold advance, size. rewrite Nat2Z.id. apply drop_app_length. Qed.

Lemma slice_app (x rest : list Z) : slice (x ++ rest) (size x) = Some x.
Proof.
  unfold slice. rewrite WalFacts.size_app.
  pose proof (WalFacts.size_nonneg rest).
  destruct (Z.leb_spec (size x) (size x + size rest)); [|lia].
  unfold size. rewrite Nat2Z.id, take_app_length. reflexivity.
Qed.

Lemma advance_Fixed32 (v : Z) (rest : list Z) : advance (EncodeFixed32 v ++ rest) 4 = rest.
Proof. reflexivity. Qed.

Lemma advance_Fixed64 (v : Z) (rest : list Z) : advance (EncodeFixed64 v ++ rest) 8 = rest.
Proof. rewrite EncodeFixed64_eq. reflexivity. Qed.

(** The fields of a footer fit their types: 64-bit numbers, and keys
    whose length fits the 32-bit length field. *)
Definition footer_ok (f : Footer) : Prop :=
  handle_ok (index_handle f) /\ handle_ok (bloom_handle f)
  /\ 0 <= num_entries f < 2 ^ 64
  /\ 0 <= min_sequence f < 2 ^ 64
  /\ 0 <= max_sequence f < 2 ^ 64
  /\ size (min_key f) < 2 ^ 32
  /\ size (max_key f) < 2 ^ 32.

(** What [Encode] writes before the padding. *)
Definition footer_body (f : Footer) : list Z :=
  EncodeFixed32 (wrap32 (size (BlockHandle_Encode (index_handle f))))
  ++ BlockHandle_Encode (index_handle f)
  ++ EncodeFixed32 (wrap32 (size (BlockHandle_Encode (bloom_handle f))))
  ++ BlockHandle_Encode (bloom_handle f)
  ++ EncodeFixed64 (num_entries f)
  ++ EncodeFixed64 (min_sequence f)
  ++ EncodeFixed64 (max_sequence f)
  ++ EncodeFixed32 (wrap32 (size (min_key f)))
  ++ min_key f
  ++ EncodeFixed32 (wrap32 (size (max_key f)))
  ++ max_key f.

Lemma Footer_Encode_eq (f : Footer) :
  Footer_Encode f
  = (footer_body f ++ repeat 0 (Z.to_nat (kFooterSize - 8 - size (footer_body f))))
    ++ EncodeFixed64 kSSTableMagic.
Proof.
  unfold Footer_Encode, PutFixed32, PutFixed64, pad_to, footer_body. cbv zeta.
  cbn [app]. rewrite <- !app_assoc. reflexivity.
Qed.

Lemma size_Fixed32 (v : Z) : size (EncodeFixed32 v) = 4.
Proof. reflexivity. Qed.

Lemma size_Fixed64 (v : Z) : size (EncodeFixed64 v) = 8.
Proof. unfold size, EncodeFixed64. rewrite length_map. reflexivity. Qed.

Lemma footer_body_size (f : Footer) :
  size (footer_body f)
  = 40 + size (BlockHandle_Encode (index_handle f))
    + size (BlockHandle_Encode (bloom_handle f))
    + size (min_key f) + size (max_key f).
Proof.
  unfold footer_body. rewrite !WalFacts.size_app, !size_Fixed32, !size_Fixed64. lia.
Qed.

Lemma size_repeat {A} (x : A) (n : nat) : size (repeat x n) = Z.of_nat n.
Proof. unfold size. rewrite repeat_length. reflexivity. Qed.

(** X20.  The length of an encoded footer: [Encode] pads what it has
    written to 56 bytes when that is shorter and never cuts it, so the
    footer has [kFooterSize] bytes only when the two handles and the two
    keys together take at most 16 bytes, and more otherwise. *)
Theorem Footer_Encode_size (f : Footer) :
  size (Footer_Encode f)
  = Z.max kFooterSize
      (48 + size (BlockHandle_Encode (index_handle f))
       + size (BlockHandle_Encode (bloom_handle f))
       + size (min_key f) + size (max_key f)).
Proof.
  rewrite Footer_Encode_eq, !WalFacts.size_app, size_repeat, size_Fixed64.
  pose proof (footer_body_size f) as Hb.
  pose proof (WalFacts.size_nonneg (footer_body f)).
  unfold kFooterSize in *. lia.
Qed.

(** X21.  A footer comes back from its encoding: [Decode] of all that
    [Encode] has written returns true and restores every field, whatever
    the footer decoded into held before, also when the encoding is longer
    than [kFooterSize]. *)
Theorem Footer_roundtrip (self f : Footer) :
  footer_ok f -> Footer_Decode self (Footer_Encode f) = Some (true, f).
Proof.
  intros (Hih & Hbh & Hne & Hmin & Hmax & Hk1 & Hk2).
  pose proof (BlockHandle_Encode_size _ Hih) as Hsih.
  pose proof (BlockHandle_Encode_size _ Hbh) as Hsbh.
  pose proof (WalFacts.size_nonneg (min_key f)) as Hn1.
  pose proof (WalFacts.size_nonneg (max_key f)) as Hn2.
  assert (Hw1 : wrap32 (size (BlockHandle_Encode (index_handle f)))
                = size (BlockHandle_Encode (index_handle f)))
    by (unfold wrap32; apply Z.mod_small; lia).
  assert (Hw2 : wrap32 (size (BlockHandle_Encode (bloom_handle f)))
                = size (BlockHandle_Encode (bloom_handle f)))
    by (unfold wrap32; apply Z.mod_small; lia).
  assert (Hw3 : wrap32 (size (min_key f)) = size (min_key f))
    by (unfold wrap32; apply Z.mod_small; lia).
  assert (Hw4 : wrap32 (size (max_key f)) = size (max_key f))
    by (unfold wrap32; apply Z.mod_small; lia).
  pose proof (Footer_Encode_size f) as Hsize.
  unfold Footer_Decode.
  destruct (Z.ltb_spec (size (Footer_Encode f)) kFooterSize) as [Hshort|_]; [lia|].
  assert (Hmagic : DecodeFixed64 (advance (Footer_Encode f) (size (Footer_Encode f) - 8))
                   = Some kSSTableMagic).
  { rewrite Footer_Encode_eq.
    set (pre := footer_body f ++ repeat 0 _).
    replace (size (pre ++ EncodeFixed64 kSSTableMagic) - 8) with (size pre)
      by (rewrite WalFacts.size_app, size_Fixed64; lia).
    rewrite advance_app, <- (app_nil_r (EncodeFixed64 _)).
    apply DecodeFixed64_Encode. unfold kSSTableMagic. lia. }
  rewrite Hmagic. cbn [mbind option_bind]. rewrite Z.eqb_refl. cbn [negb].
  rewrite Footer_Encode_eq. unfold footer_body. rewrite <- !app_assoc.
  rewrite Hw1, Hw2, Hw3, Hw4.
  rewrite DecodeFixed32_Encode by lia. cbn [mbind option_bind].
  rewrite advance_Fixed32, slice_app. cbn [mbind option_bind].
  rewrite <- (app_nil_r (BlockHandle_Encode (index_handle f))) at 1.
  rewrite (BlockHandle_Decode_Encode _ _ _ Hih). cbn [negb].
  rewrite advance_app.
  rewrite DecodeFixed32_Encode by lia. cbn [mbind option_bind].
  rewrite advance_Fixed32, slice_app. cbn [mbind option_bind].
  rewrite <- (app_nil_r (BlockHandle_Encode (bloom_handle f))) at 1.
  rewrite (BlockHandle_Decode_Encode _ _ _ Hbh). cbn [negb].
  rewrite advance_app.
  rewrite DecodeFixed64_Encode by lia. cbn [mbind option_bind]. rewrite advance_Fixed64.
  rewrite DecodeFixed64_Encode by lia. cbn [mbind option_bind]. rewrite advance_Fixed64.
  rewrite DecodeFixed64_Encode by lia. cbn [mbind option_bind]. rewrite advance_Fixed64.
  rewrite DecodeFixed32_Encode by lia. cbn [mbind option_bind].
  rewrite advance_Fixed32, slice_app. cbn [mbind option_bind]. rewrite advance_app.
  rewrite DecodeFixed32_Encode by lia. cbn [mbind option_bind].
  rewrite advance_Fixed32, slice_app. cbn [mbind option_bind].
  destruct f; reflexivity.
Qed.

Lemma Varint64_roundtrip_witness :
  GetVarint64 (PutVarint64 [] 300 ++ [7]) = (true, 300, [7])
  /\ PutVarint64 [1] 300 = [1] ++ PutVarint64 [] 300
  /\ size (PutVarint64 [] 300) = VarintLength 300
  /\ 1 <= VarintLength 300 <= 10.
Proof. apply Varint64_roundtrip. lia. Defined.

Lemma BlockHandle_roundtrip_witness :
  BlockHandle_Decode BlockHandle_default
    (BlockHandle_Encode {| offset := 4096; size_ := 300 |} ++ [7])
  = (true, {| offset := 4096; size_ := 300 |}, [7])
  /\ 2 <= size (BlockHandle_Encode {| offset := 4096; size_ := 300 |}) <= 20.
Proof. apply BlockHandle_roundtrip; cbn; lia. Defined.

Definition example_footer : Footer :=
  {| index_handle := {| offset := 4096; size_ := 300 |};
     bloom_handle := {| offset := 4401; size_ := 33 |};
     num_entries := 1000; min_sequence := 1; max_sequence := 1000;
     min_key := [97; 112; 112; 108; 101]; max_key := [122; 101; 98; 114; 97] |}.

Lemma Footer_roundtrip_witness :
  Footer_Decode Footer_default (Footer_Encode example_footer) = Some (true, example_footer).
Proof.
  apply Footer_roundtrip. unfold footer_ok, handle_ok.
  repeat split; vm_compute; (reflexivity || discriminate).
Defined.

End FormatFacts.

(** ** The table writer (sstable/sstable_writer.h) *)

Module TableWriterFacts.
Import Format Block SSTableWriter.

(** *** WriteRaw *)

Lemma size_take_le {A} (l : list A) (n : Z) :
  0 <= n <= size l -> size (take (Z.to_nat n) l) = n.
Proof. intros Hn. unfold size in *. rewrite length_take. lia. Qed.

Lemma size_drop {A} (l : list A) (n : Z) :
  0 <= n <= size l -> size (drop (Z.to_nat n) l) = size l - n.
Proof. intros Hn. unfold size in *. rewrite length_drop. lia. Qed.

(** Whatever the operating system does, [WriteRaw] leaves in the file a
    prefix of the data, [n] bytes of it, and has moved [offset_] on by
    [n]; when it returns OK the prefix is all of the data. *)
Lemma WriteRaw_loop_spec (fuel : nat) :
  forall wr w ptr s wr' w',
    WriteRaw_loop fuel wr w ptr = Some (s, wr', w') ->
    exists n,
      0 <= n <= size ptr
      /\ OS.file w' = OS.file w ++ take (Z.to_nat n) ptr
      /\ wr' = set_offset wr (offset_ wr')
      /\ wrap64 (offset_ wr') = wrap64 (offset_ wr + n)
      /\ (offset_ wr' = offset_ wr \/ 0 <= offset_ wr' < 2 ^ 64)
      /\ (s = OK \/ s = IOError)
      /\ (s = OK -> n = size ptr).
Proof.
  induction fuel as [|fuel IH]; intros wr w ptr s wr' w';
    pose proof (WalFacts.size_nonneg ptr) as Hp; cbn [WriteRaw_loop];
    destruct (Z.leb_spec (size ptr) 0) as [Hz|Hnz].
  1,3: intros [= <- <- <-]; exists 0; cbn [Z.to_nat take]; rewrite app_nil_r, Z.add_0_r;
       (split; [lia|]); (split; [reflexivity|]); (split; [destruct wr; reflexivity|]);
       (split; [reflexivity|]); (split; [left; reflexivity|]);
       (split; [left; reflexivity | intros _; lia]).
  - discriminate.
  - unfold OS.write. destruct (OS.script w) as [|[|m|e] sc]; cbn [mbind option_bind];
      [discriminate | | |].
    + destruct (Z.ltb_spec (size ptr) 0); [lia|].
      intros Hrun. apply IH in Hrun as (n & Hn & Hf & Hwr & Ho & Hr & Hs & Hok).
      cbn [OS.file offset_ set_offset] in *.
      rewrite (size_drop ptr (size ptr)) in Hn, Hok by lia.
      assert (n = 0) by lia. subst n. cbn [Z.to_nat take] in Hf.
      rewrite app_nil_r in Hf. exists (size ptr).
      split; [lia|]. split; [rewrite Hf; unfold size; rewrite Nat2Z.id, firstn_all; reflexivity|].
      split; [rewrite Hwr; destruct wr; reflexivity|].
      split; [rewrite Ho, Z.add_0_r; unfold wrap64; apply Z.mod_mod; lia|].
      split; [right; destruct Hr as [->|Hr]; [apply Z.mod_pos_bound; lia | exact Hr]|].
      split; [exact Hs | reflexivity].
    + set (k := Z.max 0 (Z.min m (size ptr))).
      assert (Hk : 0 <= k <= size ptr) by (unfold k; lia).
      destruct (Z.ltb_spec k 0); [lia|].
      intros Hrun. apply IH in Hrun as (n & Hn & Hf & Hwr & Ho & Hr & Hs & Hok).
      cbn [OS.file offset_ set_offset] in *.
      rewrite (size_drop ptr k Hk) in Hn, Hok.
      exists (k + n). split; [lia|].
      split.
      { rewrite Hf, <- app_assoc. f_equal.
        rewrite Z2Nat.inj_add by lia. apply take_take_drop. }
      split; [rewrite Hwr; destruct wr; reflexivity|].
      split.
      { rewrite Ho. unfold wrap64. rewrite Zplus_mod_idemp_l. f_equal. lia. }
      split; [right; destruct Hr as [->|Hr]; [apply Z.mod_pos_bound; lia | exact Hr]|].
      split; [exact Hs | intros Hs'; specialize (Hok Hs'); lia].
    + cbn [Z.ltb Z.compare].
      destruct (e =? OS.EINTR).
      * intros Hrun. apply IH in Hrun. exact Hrun.
      * intros [= <- <- <-]. exists 0. cbn [Z.to_nat take OS.file].
        rewrite app_nil_r, Z.add_0_r.
        split; [lia|]. split; [reflexivity|]. split; [destruct wr; reflexivity|].
        split; [reflexivity|]. split; [left; reflexivity|].
        split; [right; reflexivity | discriminate].
Qed.

(** X22.  Whatever the operating system does to the calls of [write]
    (short writes, [EINTR], errors), [WriteRaw] leaves in the file a
    prefix of the data and has moved [offset_] on by the length of that
    prefix (modulo 2^64); it returns OK or IOError, and when it returns OK
    all of the data is in the file. *)
Theorem WriteRaw_writes_prefix wr w data s wr' w' :
  WriteRaw wr w data = Some (s, wr', w') ->
  exists n,
    0 <= n <= size data
    /\ OS.file w' = OS.file w ++ take (Z.to_nat n) data
    /\ wrap64 (offset_ wr') = wrap64 (offset_ wr + n)
    /\ (s = OK \/ s = IOError)
    /\ (s = OK -> OS.file w' = OS.file w ++ data).
Proof.
  unfold WriteRaw. intros Hrun.
  apply WriteRaw_loop_spec in Hrun as (n & Hn & Hf & _ & Ho & _ & Hs & Hok).
  exists n. split; [exact Hn|]. split; [exact Hf|]. split; [exact Ho|].
  split; [exact Hs|]. intros Hs'. rewrite Hf, (Hok Hs').
  unfold size. rewrite Nat2Z.id, firstn_all. reflexivity.
Qed.

Lemma WriteRaw_writes_prefix_witness :
  exists n,
    0 <= n <= size [1; 2; 3]
    /\ OS.file {| OS.file := [9; 1; 2; 3]; OS.script := [] |}
       = OS.file {| OS.file := [9]; OS.script := [] |} ++ take (Z.to_nat n) [1; 2; 3]
    /\ wrap64 (offset_ (set_offset SSTableKeyFacts.open_writer 3))
       = wrap64 (offset_ SSTableKeyFacts.open_writer + n)
    /\ (OK = OK \/ OK = IOError)
    /\ (OK = OK -> OS.file {| OS.file := [9; 1; 2; 3]; OS.script := [] |}
                   = OS.file {| OS.file := [9]; OS.script := [] |} ++ [1; 2; 3]).
Proof.
  apply (WriteRaw_writes_prefix SSTableKeyFacts.open_writer
           {| OS.file := [9];
              OS.script := [OS.Short 1; OS.Fail OS.EINTR; OS.Short 0; OS.Done] |}
           [1; 2; 3] OK).
  vm_compute. reflexivity.
Defined.

(** *** Internal keys *)

Lemma packed_fields (seq : Z) (t : ValueType) :
  0 <= seq < 2 ^ 56 ->
  let packed := Z.lor (wrap64 (Z.shiftl seq 8)) (ValueType_tag t) in
  0 <= packed < 2 ^ 64 /\ Z.shiftr packed 8 = seq /\ Z.land packed 255 = ValueType_tag t.
Proof.
  intros Hs packed.
  assert (Htag : 0 <= ValueType_tag t < 2 ^ 8) by (destruct t; cbn; lia).
  assert (Hw : wrap64 (Z.shiftl seq 8) = Z.shiftl seq 8).
  { unfold wrap64. apply Z.mod_small. rewrite Z.shiftl_mul_pow2 by lia. lia. }
  assert (Hbits : forall i, 0 <= i ->
            Z.testbit packed i
            = if i <? 8 then Z.testbit (ValueType_tag t) i else Z.testbit seq (i - 8)).
  { intros i Hi. unfold packed. rewrite Hw, Z.lor_spec, Z.shiftl_spec by lia.
    destruct (Z.ltb_spec i 8).
    - rewrite Z.testbit_neg_r by lia. reflexivity.
    - rewrite (testbit_small 8 (ValueType_tag t) i) by lia. apply orb_false_r. }
  split; [|split].
  - unfold packed. rewrite Hw. split.
    + apply Z.lor_nonneg. split; [apply Z.shiftl_nonneg; lia | lia].
    + assert (Hmod : Z.lor (Z.shiftl seq 8) (ValueType_tag t)
                     = Z.lor (Z.shiftl seq 8) (ValueType_tag t) mod 2 ^ 64).
      { apply Z.bits_inj'; intros i Hi. rewrite testbit_wrap by lia.
        destruct (Z.ltb_spec i 64); [reflexivity|].
        rewrite Z.lor_spec, (testbit_small 64 (Z.shiftl seq 8) i),
          (testbit_small 8 (ValueType_tag t) i); [reflexivity | lia | lia | | lia].
        rewrite Z.shiftl_mul_pow2 by lia. lia. }
      rewrite Hmod. apply Z.mod_pos_bound. lia.
  - apply Z.bits_inj'; intros i Hi. rewrite Z.shiftr_spec, Hbits by lia.
    destruct (Z.ltb_spec (i + 8) 8); [lia|]. f_equal. lia.
  - apply Z.bits_inj'; intros i Hi. rewrite land_255, testbit_wrap, Hbits by lia.
    destruct (Z.ltb_spec i 8); [reflexivity|].
    symmetry. apply (testbit_small 8); lia.
Qed.

Lemma ValueType_tag_inj (t1 t2 : ValueType) : ValueType_tag t1 = ValueType_tag t2 -> t1 = t2.
Proof. destruct t1, t2; cbn; congruence. Qed.

(** X23.  An encoded internal key determines its parts: [ExtractUserKey]
    gives the user key back, and two keys with sequence numbers below 2^56
    have the same encoding only when user key, sequence number and type
    are the same. *)
Theorem EncodeInternalKey_unique k1 s1 t1 k2 s2 t2 :
  0 <= s1 < 2 ^ 56 -> 0 <= s2 < 2 ^ 56 ->
  ExtractUserKey (EncodeInternalKey k1 s1 t1) = k1
  /\ size (EncodeInternalKey k1 s1 t1) = size k1 + 8
  /\ (EncodeInternalKey k1 s1 t1 = EncodeInternalKey k2 s2 t2 ->
      k1 = k2 /\ s1 = s2 /\ t1 = t2).
Proof.
  intros H1 H2.
  assert (Hsize : size (EncodeInternalKey k1 s1 t1) = size k1 + 8).
  { unfold EncodeInternalKey. rewrite WalFacts.size_app, FormatFacts.size_Fixed64. reflexivity. }
  split; [|split; [exact Hsize|]].
  - unfold ExtractUserKey. rewrite Hsize.
    pose proof (WalFacts.size_nonneg k1).
    destruct (Z.ltb_spec (size k1 + 8) 8); [lia|].
    replace (size k1 + 8 - 8) with (size k1) by lia.
    unfold EncodeInternalKey, size. rewrite Nat2Z.id. apply take_app_length.
  - unfold EncodeInternalKey. intros Heq.
    apply app_inj_2 in Heq as [Hk He];
      [|unfold EncodeFixed64; rewrite !length_map; reflexivity].
    split; [exact Hk|].
    destruct (packed_fields s1 t1 H1) as (Hr1 & Hs1 & Ht1).
    destruct (packed_fields s2 t2 H2) as (Hr2 & Hs2 & Ht2).
    assert (Hp : Z.lor (wrap64 (Z.shiftl s1 8)) (ValueType_tag t1)
                 = Z.lor (wrap64 (Z.shiftl s2 8)) (ValueType_tag t2)).
    { pose proof (FormatFacts.DecodeFixed64_Encode _ [] Hr1) as D1.
      pose proof (FormatFacts.DecodeFixed64_Encode _ [] Hr2) as D2.
      rewrite He, D2 in D1. congruence. }
    split.
    + rewrite <- Hs1, <- Hs2, Hp. reflexivity.
    + apply ValueType_tag_inj. rewrite <- Ht1, <- Ht2, Hp. reflexivity.
Qed.

Lemma EncodeInternalKey_unique_witness :
  ExtractUserKey (EncodeInternalKey [107] 7 kValue) = [107]
  /\ size (EncodeInternalKey [107] 7 kValue) = size [107] + 8
  /\ (EncodeInternalKey [107] 7 kValue = EncodeInternalKey [107] 7 kValue ->
      [107] = [107] /\ 7 = 7 /\ kValue = kValue).
Proof. apply EncodeInternalKey_unique; lia. Defined.

(** The first byte behind the user key is the type. *)
Lemma EncodeInternalKey_tag (k : list Z) (seq : Z) (t : ValueType) :
  exists tl, EncodeInternalKey k seq t = k ++ ValueType_tag t :: tl.
Proof.
  unfold EncodeInternalKey. rewrite FormatFacts.EncodeFixed64_eq.
  eexists. f_equal. f_equal.
  assert (Htag : 0 <= ValueType_tag t < 2 ^ 8) by (destruct t; cbn; lia).
  apply Z.bits_inj'; intros i Hi. unfold wrap64.
  rewrite land_255, testbit_wrap, Z.lor_spec, testbit_wrap by lia.
  destruct (Z.ltb_spec i 8).
  - rewrite Z.shiftl_spec, Z.testbit_neg_r by lia. rewrite andb_false_r. reflexivity.
  - symmetry. apply (testbit_small 8); lia.
Qed.

(** X24.  The encoded internal keys do not keep the order of the user
    keys.  A user key [k] comes before [k] followed by a zero byte, and the
    memtable iterates in that order; the encoded key of [k] is the greater
    of the two, whatever the sequence numbers and types, so after an entry
    for [k] the strictly-increasing-key assertion of [BlockBuilder::Add]
    is false for an entry of the longer key. *)
Theorem EncodeInternalKey_prefix_order (k v : list Z) (s1 s2 : Z) (t1 t2 : ValueType)
    (b : BlockBuilder) :
  compare k (k ++ [0]) = -1
  /\ compare (EncodeInternalKey k s1 t1) (EncodeInternalKey (k ++ [0]) s2 t2) = 1
  /\ Block.Add_asserts (Block.Add b (EncodeInternalKey k s1 t1) v)
       (EncodeInternalKey (k ++ [0]) s2 t2) = false.
Proof.
  assert (Hcmp : compare (EncodeInternalKey k s1 t1) (EncodeInternalKey (k ++ [0]) s2 t2) = 1).
  { destruct (EncodeInternalKey_tag k s1 t1) as (tl & ->).
    unfold EncodeInternalKey at 1. rewrite <- app_assoc, compare_app_same.
    cbn [app compare]. destruct t1; reflexivity. }
  split; [|split; [exact Hcmp|]].
  - rewrite <- (app_nil_r k) at 1. rewrite compare_app_same. reflexivity.
  - unfold Block.Add_asserts.
    change (Block.last_key_ (Block.Add b (EncodeInternalKey k s1 t1) v))
      with (EncodeInternalKey k s1 t1).
    rewrite MemTableFacts.compare_antisym, Hcmp. cbn [Z.opp Z.ltb Z.compare].
    assert (Hne : Empty (Block.Add b (EncodeInternalKey k s1 t1) v) = false).
    { unfold Empty, Block.Add. cbn [Block.buffer_].
      match goal with |- match ?l with [] => _ | _ => _ end = _ =>
        assert (Hl : (0 < length l)%nat) end.
      { rewrite !length_app.
        unfold PutVarint32. rewrite (FormatFacts.PutVarint_loop_app 10 (PutVarint_loop _ _ _)).
        rewrite (FormatFacts.PutVarint_loop_app 10 (PutVarint_loop _ _ _)).
        rewrite (FormatFacts.PutVarint_loop_app 10 (Block.buffer_ b)).
        rewrite !length_app.
        pose proof (FormatFacts.PutVarint_loop_size 10 [] (wrap32 (size v))) as Hsz.
        pose proof (FormatFacts.VarintLength_loop_range 10 (wrap32 (size v)) (size (@nil Z) + 1)).
        unfold size in *. cbn [length] in *. lia. }
      match goal with |- match ?l with [] => _ | _ => _ end = _ =>
        destruct l; [cbn in Hl; lia | reflexivity] end. }
    rewrite Hne. cbn [orb]. apply andb_false_r.
Qed.

(** *** The layout of the file *)

(** [offset_] is the size of the file written so far (modulo 2^64). *)
Definition Track (wr : SSTableWriter) (w : OS.World) : Prop :=
  offset_ wr = wrap64 (size (OS.file w)).

Lemma WriteRaw_OK wr w data wr' w' :
  Track wr w ->
  WriteRaw wr w data = Some (OK, wr', w') ->
  OS.file w' = OS.file w ++ data /\ Track wr' w' /\ wr' = set_offset wr (offset_ wr').
Proof.
  unfold Track, WriteRaw. intros HT Hrun.
  apply WriteRaw_loop_spec in Hrun as (n & Hn & Hf & Hwr & Ho & Hr & _ & Hok).
  specialize (Hok eq_refl). subst n.
  assert (Hfile : OS.file w' = OS.file w ++ data)
    by (rewrite Hf; unfold size; rewrite Nat2Z.id, firstn_all; reflexivity).
  split; [exact Hfile|]. split; [|exact Hwr].
  assert (Hrange : 0 <= offset_ wr' < 2 ^ 64).
  { destruct Hr as [->|Hr]; [|exact Hr]. rewrite HT. apply Z.mod_pos_bound. lia. }
  rewrite <- (Z.mod_small (offset_ wr') (2 ^ 64)) by exact Hrange.
  fold (wrap64 (offset_ wr')). rewrite Ho, HT, Hfile, WalFacts.size_app.
  unfold wrap64. apply Zplus_mod_idemp_l.
Qed.

(** The parts of the writer that the footer is made of. *)
Definition footer_fields (wr : SSTableWriter) :=
  (num_entries_ wr, first_key_ wr, last_key_ wr, min_sequence_ wr, max_sequence_ wr).

Lemma FlushDataBlock_OK wr w wr' w' :
  Track wr w ->
  FlushDataBlock wr w = Some (OK, wr', w') ->
  exists blk,
    OS.file w' = OS.file w ++ blk /\ Track wr' w'
    /\ fd_ wr' = fd_ wr /\ options_ wr' = options_ wr
    /\ bloom_builder_ wr' = bloom_builder_ wr
    /\ footer_fields wr' = footer_fields wr.
Proof.
  intros HT. unfold FlushDataBlock.
  destruct (Empty (data_block_ wr)).
  { intros [= <- <-]. exists []. rewrite app_nil_r. auto 10. }
  destruct (Block.Finish (data_block_ wr)) as [db contents] eqn:Efin.
  destruct (WriteRaw _ w _) as [[[s wr1] w1]|] eqn:Ew; [|discriminate].
  cbn [mbind option_bind]. destruct s; cbn [ok negb]; try discriminate.
  apply WriteRaw_OK in Ew as (Hf & HT1 & Hwr1); [|exact HT].
  intros [= <- <-]. eexists. split; [exact Hf|].
  rewrite Hwr1. unfold Track in *. cbn. rewrite Hwr1 in HT1. cbn in HT1. auto 10.
Qed.

Lemma Add_OK wr w k v seq t wr' w' :
  Track wr w ->
  SSTableWriter.Add wr w k v seq t = Some (OK, wr', w') ->
  exists blk,
    OS.file w' = OS.file w ++ blk /\ Track wr' w'
    /\ fd_ wr' = fd_ wr /\ options_ wr' = options_ wr.
Proof.
  intros HT. unfold SSTableWriter.Add.
  destruct (fd_ wr <? 0); [discriminate|]. cbv zeta.
  cbn [options_ data_block_].
  destruct (block_size (options_ wr) <=? _).
  - destruct (FlushDataBlock _ w) as [[[s wr1] w1]|] eqn:Ef; [|discriminate].
    cbn [mbind option_bind]. intros [= -> <- <-].
    apply FlushDataBlock_OK in Ef as (blk & Hf & HT1 & Hfd & Hopt & _); [|exact HT].
    exists blk. auto.
  - intros [= <- <-]. exists []. rewrite app_nil_r. auto.
Qed.

Lemma add_all_OK es :
  forall wr w wr' w',
    Track wr w ->
    add_all wr w es = Some (OK, wr', w') ->
    exists blocks,
      OS.file w' = OS.file w ++ blocks /\ Track wr' w'
      /\ fd_ wr' = fd_ wr /\ options_ wr' = options_ wr.
Proof.
  induction es as [|e es IH]; intros wr w wr' w' HT; cbn [add_all].
  - intros [= <- <-]. exists []. rewrite app_nil_r. auto.
  - destruct (SSTableWriter.Add wr w _ _ _ _) as [[[s wr1] w1]|] eqn:Ea; [|discriminate].
    cbn [mbind option_bind]. destruct (ok s) eqn:Eok; cbn [negb].
    + destruct s; try discriminate.
      apply Add_OK in Ea as (blk & Hf & HT1 & Hfd & Hopt); [|exact HT].
      intros Hrest. apply IH in Hrest as (blocks & Hf' & HT' & Hfd' & Hopt'); [|exact HT1].
      exists (blk ++ blocks). rewrite Hf', Hf, app_assoc. split; [reflexivity|].
      split; [exact HT'|]. split; congruence.
    + destruct (Abandon wr1 w1) as [[wr2 w2]|]; [|discriminate].
      cbn [mbind option_bind]. intros [= -> _ _]. discriminate.
Qed.

Lemma WriteIndexBlock_OK wr w ih wr' w' :
  Track wr w ->
  WriteIndexBlock wr w = Some (OK, ih, wr', w') ->
  exists index,
    OS.file w' = OS.file w ++ index /\ Track wr' w'
    /\ ih = {| offset := offset_ wr; size_ := size index |}
    /\ options_ wr' = options_ wr
    /\ bloom_builder_ wr' = bloom_builder_ wr.
Proof.
  intros HT. unfold WriteIndexBlock.
  destruct (IndexBlockBuilder_Finish (index_builder_ wr)) as [ib contents].
  destruct (WriteRaw _ w _) as [[[s wr1] w1]|] eqn:Ew; [|discriminate].
  cbn [mbind option_bind]. intros [= -> <- <- <-].
  apply WriteRaw_OK in Ew as (Hf & HT1 & Hwr1); [|exact HT].
  eexists. split; [exact Hf|]. split; [exact HT1|].
  split; [reflexivity|]. rewrite Hwr1. split; reflexivity.
Qed.

Lemma WriteBloomFilter_OK wr w bh wr' w' :
  Track wr w ->
  WriteBloomFilter wr w = Some (OK, bh, wr', w') ->
  exists bloom,
    OS.file w' = OS.file w ++ bloom /\ Track wr' w'
    /\ ((bh = {| offset := 0; size_ := 0 |} /\ bloom = [])
        \/ bh = {| offset := offset_ wr; size_ := size bloom |}).
Proof.
  intros HT. unfold WriteBloomFilter.
  destruct (negb _ || _).
  { intros [= <- <- <-]. exists []. rewrite app_nil_r. auto. }
  destruct (Bloom.Finish (bloom_builder_ wr)) as [bloom_data|]; [|discriminate].
  cbn [mbind option_bind].
  destruct (WriteRaw _ w _) as [[[s wr1] w1]|] eqn:Ew; [|discriminate].
  cbn [mbind option_bind]. intros [= -> <- <- <-].
  apply WriteRaw_OK in Ew as (Hf & HT1 & Hwr1); [|exact HT].
  exists bloom_data. split; [exact Hf|]. split; [exact HT1|]. right. reflexivity.
Qed.

Lemma fsync_file w r w' : OS.fsync w = Some (r, w') -> OS.file w' = OS.file w.
Proof.
  unfold OS.fsync. destruct (OS.script w) as [|[|n|e] sc]; [discriminate| | |];
    intros [= <- <-]; reflexivity.
Qed.

(** What [Finish] has written when it returns OK. *)
Lemma Finish_OK wr w st wr' w' :
  Track wr w ->
  SSTableWriter.Finish wr w = Some (OK, st, wr', w') ->
  exists blk index bloom f,
    OS.file w' = OS.file w ++ blk ++ index ++ bloom ++ Footer_Encode f
    /\ index_handle f
       = {| offset := wrap64 (size (OS.file w ++ blk)); size_ := size index |}
    /\ ((bloom_handle f = {| offset := 0; size_ := 0 |} /\ bloom = [])
        \/ bloom_handle f
           = {| offset := wrap64 (size (OS.file w ++ blk ++ index));
                size_ := size bloom |}).
Proof.
  intros HT. unfold SSTableWriter.Finish.
  destruct (fd_ wr <? 0); [discriminate|].
  assert (Hflush : exists blk, forall wr1 w1,
            (if negb (Empty (data_block_ wr)) then FlushDataBlock wr w
             else Some (OK, wr, w)) = Some (OK, wr1, w1) ->
            OS.file w1 = OS.file w ++ blk /\ Track wr1 w1).
  { destruct (negb (Empty (data_block_ wr))).
    - destruct (FlushDataBlock wr w) as [[[s wr1] w1]|] eqn:Ef.
      + destruct s; try (exists []; intros ? ? [= ]; fail).
        apply FlushDataBlock_OK in Ef as (blk & Hf & HT1 & _); [|exact HT].
        exists blk. intros ? ? [= <- <-]. auto.
      + exists []. discriminate.
    - exists []. intros ? ? [= <- <-]. rewrite app_nil_r. auto. }
  destruct Hflush as (blk & Hflush).
  destruct (if negb (Empty (data_block_ wr)) then FlushDataBlock wr w else Some (OK, wr, w))
    as [[[s1 wr1] w1]|]; [|discriminate].
  cbn [mbind option_bind]. destruct s1; cbn [ok negb]; try discriminate.
  destruct (Hflush wr1 w1 eq_refl) as (Hf1 & HT1).
  destruct (WriteIndexBlock wr1 w1) as [[[[s2 ih] wr2] w2]|] eqn:Ei; [|discriminate].
  cbn [mbind option_bind]. destruct s2; cbn [ok negb]; try discriminate.
  apply WriteIndexBlock_OK in Ei as (index & Hf2 & HT2 & Hih & _); [|exact HT1].
  destruct (WriteBloomFilter wr2 w2) as [[[[s3 bh] wr3] w3]|] eqn:Eb; [|discriminate].
  cbn [mbind option_bind]. destruct s3; cbn [ok negb]; try discriminate.
  apply WriteBloomFilter_OK in Eb as (bloom & Hf3 & HT3 & Hbh); [|exact HT2].
  unfold WriteFooter.
  destruct (WriteRaw wr3 w3 _) as [[[s4 wr4] w4]|] eqn:Ew; [|discriminate].
  cbn [mbind option_bind]. destruct s4; cbn [ok negb]; try discriminate.
  apply WriteRaw_OK in Ew as (Hf4 & _ & _); [|exact HT3].
  destruct (OS.fsync w4) as [[r5 w5]|] eqn:E5; [|discriminate].
  cbn [mbind option_bind]. destruct (negb (r5 =? 0)); [discriminate|].
  unfold OS.close. destruct (OS.fsync w5) as [[r6 w6]|] eqn:E6; [|discriminate].
  cbn [mbind option_bind]. destruct (negb (r6 =? 0)); [discriminate|].
  intros [= _ _ <-].
  apply fsync_file in E5, E6.
  exists blk, index, bloom, (make_footer wr3 ih bh).
  split; [rewrite E6, E5, Hf4, Hf3, Hf2, Hf1, <- !app_assoc; reflexivity|].
  cbn [make_footer index_handle bloom_handle].
  split.
  - rewrite Hih. f_equal. rewrite HT1, Hf1. reflexivity.
  - destruct Hbh as [Hbh|Hbh]; [left; exact Hbh|]. right.
    rewrite Hbh. f_equal. rewrite HT2, Hf2, Hf1, <- app_assoc. reflexivity.
Qed.

(** X25.  The layout of a table.  When [FlushMemTable] returns OK, the
    file consists of the data blocks, the index block, the Bloom filter
    (if one was written) and the footer, in this order, and the handles
    in the footer give the position and the length of the index block and
    of the Bloom filter in the file. *)
Theorem FlushMemTable_layout mt options w st w' :
  FlushMemTable mt options w = Some (OK, st, w') ->
  size (OS.file w') < 2 ^ 64 ->
  exists blocks index bloom f,
    OS.file w' = blocks ++ index ++ bloom ++ Footer_Encode f
    /\ index_handle f = {| offset := size blocks; size_ := size index |}
    /\ ((bloom_handle f = {| offset := 0; size_ := 0 |} /\ bloom = [])
        \/ bloom_handle f
           = {| offset := size blocks + size index; size_ := size bloom |}).
Proof.
  unfold FlushMemTable. intros Hrun Hsize.
  destruct (Open (new options) w) as [[[s0 wr0] w0]|] eqn:Eopen; [|discriminate].
  cbn [mbind option_bind] in Hrun.
  destruct (ok s0) eqn:Eok0; cbn [negb] in Hrun; [|inversion Hrun; subst; discriminate].
  assert (HT0 : Track wr0 w0 /\ OS.file w0 = []).
  { unfold Open, OS.open in Eopen.
    destruct (OS.script w) as [|[|n|e] sc]; cbn [mbind option_bind] in Eopen;
      try discriminate; cbn in Eopen; inversion Eopen; subst; try discriminate;
      split; reflexivity. }
  destruct HT0 as [HT0 Hempty].
  destruct (MemTable.entries mt) as [es|]; [|discriminate].
  cbn [mbind option_bind] in Hrun.
  destruct (add_all wr0 w0 es) as [[[s1 wr1] w1]|] eqn:Eadd; [|discriminate].
  cbn [mbind option_bind] in Hrun.
  destruct (ok s1) eqn:Eok1; cbn [negb] in Hrun; [|inversion Hrun; subst; discriminate].
  destruct s1; try discriminate.
  apply add_all_OK in Eadd as (blocks & Hf1 & HT1 & _); [|exact HT0].
  destruct (SSTableWriter.Finish wr1 w1) as [[[[s2 st2] wr2] w2]|] eqn:Efin; [|discriminate].
  cbn [mbind option_bind] in Hrun.
  destruct (ok s2) eqn:Eok2.
  2:{ destruct (Abandon wr2 w2) as [[wr3 w3]|]; [|discriminate].
      cbn [mbind option_bind] in Hrun. inversion Hrun; subst. discriminate. }
  destruct s2; try discriminate. inversion Hrun; subst. clear Hrun.
  apply Finish_OK in Efin as (blk & index & bloom & f & Hf & Hih & Hbh); [|exact HT1].
  rewrite Hf1, Hempty in Hf, Hih, Hbh. cbn [app] in Hf, Hih, Hbh.
  exists (blocks ++ blk), index, bloom, f.
  split; [rewrite Hf, <- app_assoc; reflexivity|].
  rewrite Hf in Hsize. rewrite !WalFacts.size_app in Hsize.
  pose proof (WalFacts.size_nonneg blocks). pose proof (WalFacts.size_nonneg blk).
  pose proof (WalFacts.size_nonneg index). pose proof (WalFacts.size_nonneg bloom).
  pose proof (WalFacts.size_nonneg (Footer_Encode f)).
  split.
  - rewrite Hih. f_equal. unfold wrap64. apply Z.mod_small.
    rewrite WalFacts.size_app. lia.
  - destruct Hbh as [Hbh|Hbh]; [left; exact Hbh|]. right. rewrite Hbh. f_equal.
    unfold wrap64. rewrite app_assoc, !WalFacts.size_app. apply Z.mod_small. lia.
Qed.

(** An example: a memtable with one entry, flushed with the default
    options when every system call succeeds. *)
Definition example_memtable : MemTable.MemTable :=
  let mt := MemTable.new MemTableFacts.example_options (fun n => Z.of_nat n) in
  match MemTable.Put (P := MemTableFacts.example_platform) mt 1 [107] [97] with
  | Some mt' => mt'
  | None => mt
  end.
Definition example_world : OS.World :=
  {| OS.file := [1; 2; 3]; OS.script := repeat OS.Done 7 |}.
Definition example_flush : Status * option SSTableWriteStats * OS.World :=
  match FlushMemTable example_memtable default_SSTableOptions example_world with
  | Some r => r
  | None => (IOError, None, example_world)
  end.

Lemma FlushMemTable_layout_witness :
  exists blocks index bloom f,
    OS.file (snd example_flush) = blocks ++ index ++ bloom ++ Footer_Encode f
    /\ index_handle f = {| offset := size blocks; size_ := size index |}
    /\ ((bloom_handle f = {| offset := 0; size_ := 0 |} /\ bloom = [])
        \/ bloom_handle f
           = {| offset := size blocks + size index; size_ := size bloom |}).
Proof.
  apply (FlushMemTable_layout example_memtable default_SSTableOptions example_world
           (snd (fst example_flush)) (snd example_flush)).
  - vm_compute. reflexivity.
  - vm_compute. reflexivity.
Defined.

End TableWriterFacts.

(** ** Blocks (sstable/block_builder.h) *)

Module BlockFacts.
Import Format Block.

Lemma fold_PutFixed32_size (restarts : list Z) :
  forall buffer,
    size (fold_left PutFixed32 restarts buffer) = size buffer + size restarts * 4.
Proof.
  induction restarts as [|r restarts IH]; intros buffer; cbn [fold_left].
  - unfold size. cbn [length]. lia.
  - rewrite IH. unfold PutFixed32. rewrite WalFacts.size_app, FormatFacts.size_Fixed32.
    unfold size. cbn [length]. lia.
Qed.

(** [Add] for each pair in turn. *)
Definition add_pairs (b : BlockBuilder) (kvs : list (list Z * list Z)) : BlockBuilder :=
  fold_left (fun b kv => Block.Add b (fst kv) (snd kv)) kvs b.

Lemma add_pairs_restarts (interval : Z) (kvs : list (list Z * list Z)) :
  1 <= interval ->
  forall b,
    restart_interval_ b = interval ->
    1 <= counter_ b <= interval ->
    let b' := add_pairs b kvs in
    let n := Z.of_nat (length kvs) in
    restart_interval_ b' = interval
    /\ counter_ b' = (counter_ b - 1 + n) mod interval + 1
    /\ size (restarts_ b') = size (restarts_ b) + (counter_ b - 1 + n) / interval.
Proof.
  intros Hi. induction kvs as [|[k v] kvs IH]; intros b Hint Hc; cbv zeta.
  - cbn [add_pairs fold_left length Z.of_nat]. rewrite Z.add_0_r.
    rewrite Z.mod_small, Z.div_small by lia. split; [exact Hint|]. split; lia.
  - cbn [add_pairs fold_left fst snd]. fold (add_pairs (Block.Add b k v) kvs).
    assert (Hstep : restart_interval_ (Block.Add b k v) = interval
              /\ ((counter_ b < interval /\ counter_ (Block.Add b k v) = counter_ b + 1
                   /\ restarts_ (Block.Add b k v) = restarts_ b)
                  \/ (counter_ b = interval /\ counter_ (Block.Add b k v) = 1
                      /\ size (restarts_ (Block.Add b k v)) = size (restarts_ b) + 1))).
    { unfold Block.Add. cbn [restart_interval_ counter_ restarts_]. rewrite Hint.
      split; [reflexivity|].
      destruct (Z.ltb_spec (counter_ b) interval); cbn [negb].
      - left. auto.
      - right. split; [lia|]. split; [reflexivity|].
        rewrite WalFacts.size_app. reflexivity. }
    destruct Hstep as [Hint' Hstep].
    destruct (IH (Block.Add b k v) Hint') as (H1 & H2 & H3).
    { destruct Hstep as [(? & -> & _)|(? & -> & _)]; lia. }
    cbv zeta in H1, H2, H3. split; [exact H1|].
    cbn [length]. rewrite Nat2Z.inj_succ.
    destruct Hstep as [(Hlt & Hc' & Hr')|(Heq & Hc' & Hr')].
    + rewrite H2, H3, Hc', Hr'.
      replace (counter_ b + 1 - 1 + Z.of_nat (length kvs))
        with (counter_ b - 1 + Z.succ (Z.of_nat (length kvs))) by lia. auto.
    + rewrite H2, H3, Hc', Hr'.
      replace (counter_ b - 1 + Z.succ (Z.of_nat (length kvs)))
        with (1 - 1 + Z.of_nat (length kvs) + 1 * interval) by lia.
      rewrite Z.mod_add, Z.div_add by lia. split; [reflexivity | lia].
Qed.

(** X26.  Restart points.  In a block built from a new builder with a
    restart interval of at least 1, after [n >= 1] calls of [Add]: the
    counter is between 1 and the interval (the assertion on it never
    fails), there is one restart point for every [interval] entries, and
    [Finish] returns exactly [CurrentSizeEstimate] bytes. *)
Theorem BlockBuilder_restarts (interval : Z) (k v : list Z) (kvs : list (list Z * list Z)) :
  1 <= interval ->
  let b := add_pairs (Block.new interval) ((k, v) :: kvs) in
  let n := Z.of_nat (length kvs) + 1 in
  counter_ b = (n - 1) mod interval + 1
  /\ 1 <= counter_ b <= restart_interval_ b
  /\ size (restarts_ b) = 1 + (n - 1) / interval
  /\ size (snd (Block.Finish b)) = CurrentSizeEstimate b.
Proof.
  intros Hi b n.
  assert (Hfirst : restart_interval_ (Block.Add (Block.new interval) k v) = interval
                   /\ counter_ (Block.Add (Block.new interval) k v) = 1
                   /\ restarts_ (Block.Add (Block.new interval) k v) = [0]).
  { unfold Block.Add, Block.new. cbn [restart_interval_ counter_ restarts_].
    destruct (Z.ltb_spec 0 interval); [|lia]. cbn [negb]. auto. }
  destruct Hfirst as (Hint & Hc & Hr).
  destruct (add_pairs_restarts interval kvs Hi _ Hint ltac:(lia)) as (H1 & H2 & H3).
  cbv zeta in H1, H2, H3. fold (add_pairs (Block.Add (Block.new interval) k v) kvs) in *.
  change (add_pairs (Block.Add (Block.new interval) k v) kvs) with b in H1, H2, H3.
  rewrite Hc in H2, H3. rewrite Hr in H3.
  replace (1 - 1 + Z.of_nat (length kvs)) with (n - 1) in H2, H3 by (unfold n; lia).
  split; [exact H2|]. split.
  - rewrite H1, H2. pose proof (Z.mod_pos_bound (n - 1) interval ltac:(lia)). lia.
  - split; [rewrite H3; reflexivity|].
    unfold Block.Finish, CurrentSizeEstimate. cbn [snd]. unfold PutFixed32 at 1.
    rewrite WalFacts.size_app, fold_PutFixed32_size, FormatFacts.size_Fixed32. reflexivity.
Qed.

Lemma BlockBuilder_restarts_witness :
  let b := add_pairs (Block.new 2) (([1], [7]) :: [([2], [8]); ([3], [9])]) in
  let n := Z.of_nat (length [([2], [8]); ([3], [9])]) + 1 in
  counter_ b = (n - 1) mod 2 + 1
  /\ 1 <= counter_ b <= restart_interval_ b
  /\ size (restarts_ b) = 1 + (n - 1) / 2
  /\ size (snd (Block.Finish b)) = CurrentSizeEstimate b.
Proof. apply BlockBuilder_restarts. lia. Defined.

Lemma AddTrailer_eq (c : list Z) (t : BlockType) :
  AddTrailer c t
  = c ++ [BlockType_tag t] ++ EncodeFixed32 (WalFormat.Compute (c ++ [BlockType_tag t])).
Proof. unfold AddTrailer, PutFixed32. rewrite <- app_assoc. reflexivity. Qed.

(** X27.  Block trailers.  [AddTrailer] adds [kBlockTrailerSize] bytes to
    the block, and [VerifyTrailer] accepts the result for the block type it
    was made with and for no other. *)
Theorem Trailer_roundtrip (c : list Z) (t t' : BlockType) :
  size (AddTrailer c t) = size c + kBlockTrailerSize
  /\ (VerifyTrailer (AddTrailer c t) t' = true <-> t = t').
Proof.
  assert (Hsize : size (AddTrailer c t) = size c + kBlockTrailerSize).
  { rewrite AddTrailer_eq. rewrite !WalFacts.size_app, FormatFacts.size_Fixed32.
    unfold size, kBlockTrailerSize. cbn [length]. lia. }
  split; [exact Hsize|].
  unfold VerifyTrailer. rewrite Hsize.
  destruct (Z.ltb_spec (size c + kBlockTrailerSize) kBlockTrailerSize) as [Hlt|_].
  { unfold size in Hlt. lia. }
  replace (size c + kBlockTrailerSize - kBlockTrailerSize) with (size c) by lia.
  unfold advance, size. rewrite !Nat2Z.id, AddTrailer_eq.
  rewrite drop_app_length.
  replace (Z.to_nat (Z.of_nat (length c) + 1)) with (length c + 1)%nat by lia.
  rewrite app_assoc.
  replace (length c + 1)%nat with (length (c ++ [BlockType_tag t]))
    by (rewrite length_app; reflexivity).
  rewrite take_app_length.
  cbn [app nth].
  change (drop (Z.to_nat 1) (?x :: ?l)) with l.
  rewrite <- (app_nil_r (EncodeFixed32 _)).
  rewrite FormatFacts.DecodeFixed32_Encode by apply WalFacts.Compute_range.
  rewrite Z.eqb_refl.
  destruct t, t'; cbn; split; (reflexivity || discriminate || congruence).
Qed.

End BlockFacts.

(** ** The arena (util/arena.h) *)

Module ArenaFacts.
Import Arena.

(** A region of memory: its first byte and its length. *)
Definition within (r b : Z * Z) : Prop :=
  fst b <= fst r /\ fst r + snd r <= fst b + snd b.

Definition disjoint (r1 r2 : Z * Z) : Prop :=
  fst r1 + snd r1 <= fst r2 \/ fst r2 + snd r2 <= fst r1.

Definition pairwise {A} (R : A -> A -> Prop) (l : list A) : Prop :=
  forall i j x y, (i < j)%nat -> l !! i = Some x -> l !! j = Some y -> R x y.

Lemma pairwise_nil {A} (R : A -> A -> Prop) : pairwise R [].
Proof. intros i j x y _ Hx. rewrite lookup_nil in Hx. discriminate. Qed.

Lemma pairwise_app_l {A} (R : A -> A -> Prop) (l1 l2 : list A) :
  pairwise R (l1 ++ l2) -> pairwise R l1.
Proof.
  intros H i j x y Hij Hx Hy. apply (H i j); [exact Hij| |];
    apply lookup_app_l_Some; assumption.
Qed.

Lemma pairwise_snoc {A} (R : A -> A -> Prop) (l : list A) (y : A) :
  pairwise R l -> Forall (fun x => R x y) l -> pairwise R (l ++ [y]).
Proof.
  intros Hl Hy i j a b Hij Ha Hb.
  assert (Hj : (j < length (l ++ [y]))%nat) by (eapply lookup_lt_Some; eauto).
  rewrite length_app in Hj. cbn [length] in Hj.
  rewrite lookup_app_l in Ha by lia.
  destruct (decide (j < length l)%nat) as [Hlt|Hge].
  - rewrite lookup_app_l in Hb by lia. exact (Hl i j a b Hij Ha Hb).
  - rewrite lookup_app_r in Hb by lia.
    replace (j - length l)%nat with 0%nat in Hb by lia.
    cbn in Hb. injection Hb as <-.
    rewrite Forall_forall in Hy. apply Hy.
    eapply list_elem_of_lookup_2; eauto.
Qed.

Lemma pairwise_snoc_inv {A} (R : A -> A -> Prop) (l : list A) (y x : A) :
  pairwise R (l ++ [y]) -> x ∈ l -> R x y.
Proof.
  intros H Hx. apply list_elem_of_lookup in Hx as [i Hi].
  assert (Hlt : (i < length l)%nat) by (eapply lookup_lt_Some; eauto).
  apply (H i (length l)); [exact Hlt| |].
  - apply lookup_app_l_Some. exact Hi.
  - rewrite lookup_app_r by lia. rewrite Nat.sub_diag. reflexivity.
Qed.

(** What [MemoryUsage] charges for the arrays. *)
Definition arrays_usage (l : list (Z * Z)) : Z :=
  fold_right (fun b acc => snd b + sizeof_ptr + acc) 0 l.

Lemma arrays_usage_snoc (l : list (Z * Z)) (b : Z * Z) :
  arrays_usage (l ++ [b]) = arrays_usage l + (snd b + sizeof_ptr).
Proof.
  unfold arrays_usage. induction l as [|x l IH]; cbn [fold_right app]; [lia|].
  rewrite IH. lia.
Qed.

Lemma wrap64_add (a b : Z) : wrap64 (wrap64 a + wrap64 b) = wrap64 (a + b).
Proof. unfold wrap64. rewrite <- Zplus_mod. reflexivity. Qed.

Lemma wrap64_small (a : Z) : 0 <= a < 2 ^ 64 -> wrap64 a = a.
Proof. intros H. unfold wrap64. apply Z.mod_small. exact H. Qed.

(** The padding of [AllocateAligned] when the alignment is a power of two. *)
Definition padding_of (current alignment : Z) : Z :=
  let mask := wrap64 (alignment - 1) in
  Z.land (wrap64 (alignment - Z.land current mask)) mask.

Lemma padding_spec (current k : Z) :
  0 <= k < 64 ->
  wrap64 (2 ^ k - 1) = Z.ones k
  /\ 0 <= padding_of current (2 ^ k) < 2 ^ k
  /\ (current + padding_of current (2 ^ k)) mod 2 ^ k = 0.
Proof.
  intros Hk.
  assert (Hp : 0 < 2 ^ k) by (apply Z.pow_pos_nonneg; lia).
  assert (Hle : 2 ^ k <= 2 ^ 63) by (apply Z.pow_le_mono_r; lia).
  assert (Hmask : wrap64 (2 ^ k - 1) = Z.ones k).
  { rewrite Z.ones_equiv. apply wrap64_small. lia. }
  split; [exact Hmask|].
  unfold padding_of. rewrite Hmask, !Z.land_ones by lia.
  pose proof (Z.mod_pos_bound current (2 ^ k) Hp) as Hr.
  rewrite wrap64_small by lia.
  split; [apply Z.mod_pos_bound; exact Hp|].
  rewrite Z.add_mod_idemp_r by lia.
  replace (current + (2 ^ k - current mod 2 ^ k))
    with (current - current mod 2 ^ k + 1 * 2 ^ k) by lia.
  rewrite Z.mod_add by lia.
  rewrite (Z.div_mod current (2 ^ k)) at 1 by lia.
  replace (2 ^ k * (current / 2 ^ k) + current mod 2 ^ k - current mod 2 ^ k)
    with ((current / 2 ^ k) * 2 ^ k) by lia.
  apply Z.mod_mul. lia.
Qed.

Inductive Call :=
| CallAllocate (n : Z)
| CallAllocateAligned (n alignment : Z).

Definition call_size (c : Call) : Z :=
  match c with CallAllocate n | CallAllocateAligned n _ => n end.

Definition power_of_two (alignment : Z) : Prop :=
  exists k, 0 <= k < 64 /\ alignment = 2 ^ k.

(** The sizes asked for are positive, and small enough for the sum with
    the padding to be a [size_t]. *)
Definition call_ok (c : Call) : Prop :=
  match c with
  | CallAllocate n => 0 < n
  | CallAllocateAligned n alignment => 0 < n < 2 ^ 63 /\ power_of_two alignment
  end.

Section WithAllocator.

Variable operator_new : nat -> Z.

Definition run_call (st : Arena * Heap) (c : Call) : Z * (Arena * Heap) :=
  match c with
  | CallAllocate n => Allocate operator_new st n
  | CallAllocateAligned n alignment => AllocateAligned operator_new st n alignment
  end.

Fixpoint run_calls (st : Arena * Heap) (cs : list Call) : list Z * (Arena * Heap) :=
  match cs with
  | [] => ([], st)
  | c :: cs' =>
      let '(p, st') := run_call st c in
      let '(ps, st'') := run_calls st' cs' in
      (p :: ps, st'')
  end.

(** What one call does: it moves the pointer inside the current window,
    or it takes a new array from the heap. *)
Inductive Step (st : Arena * Heap) (n : Z) : Z -> Arena * Heap -> Prop :=
| StepBump padding :
    0 <= padding -> padding + n <= alloc_remaining_ (fst st) ->
    Step st n (alloc_ptr_ (fst st) + padding)
      ({| alloc_ptr_ := alloc_ptr_ (fst st) + (padding + n);
          alloc_remaining_ := alloc_remaining_ (fst st) - (padding + n);
          blocks_ := blocks_ (fst st); memory_usage_ := memory_usage_ (fst st) |},
       snd st)
| StepOwn :
    kBlockSize / 4 < n ->
    let q := operator_new (news (snd st)) in
    Step st n q
      ({| alloc_ptr_ := alloc_ptr_ (fst st);
          alloc_remaining_ := alloc_remaining_ (fst st);
          blocks_ := blocks_ (fst st) ++ [q];
          memory_usage_ := wrap64 (memory_usage_ (fst st) + wrap64 (n + sizeof_ptr)) |},
       {| live := live (snd st) ++ [(q, n)]; news := S (news (snd st)) |})
| StepBlock :
    n <= kBlockSize / 4 ->
    let q := operator_new (news (snd st)) in
    Step st n q
      ({| alloc_ptr_ := q + n;
          alloc_remaining_ := kBlockSize - n;
          blocks_ := blocks_ (fst st) ++ [q];
          memory_usage_ :=
            wrap64 (memory_usage_ (fst st) + wrap64 (kBlockSize + sizeof_ptr)) |},
       {| live := live (snd st) ++ [(q, kBlockSize)]; news := S (news (snd st)) |}).

Lemma AllocateFallback_Step (st : Arena * Heap) (n : Z) :
  0 < n ->
  Step st n (fst (AllocateFallback operator_new st n))
            (snd (AllocateFallback operator_new st n)).
Proof.
  intros Hn. destruct st as [a h]. unfold AllocateFallback, AllocateNewBlock, new_array.
  destruct (Z.ltb_spec (kBlockSize / 4) n) as [Hbig|Hsmall]; cbn [fst snd].
  - apply (StepOwn (a, h) n Hbig).
  - rewrite (wrap64_small (kBlockSize - n))
      by (unfold kBlockSize in *; change (4096 / 4) with 1024 in Hsmall; lia).
    apply (StepBlock (a, h) n Hsmall).
Qed.

Lemma run_call_Step (st : Arena * Heap) (c : Call) :
  call_ok c -> 0 <= alloc_remaining_ (fst st) < 2 ^ 64 ->
  Step st (call_size c) (fst (run_call st c)) (snd (run_call st c)).
Proof.
  intros Hok Hrem. destruct st as [a h]. cbn [fst] in Hrem.
  destruct c as [n|n alignment]; cbn [call_ok call_size run_call] in *.
  - unfold Allocate.
    destruct (Z.leb_spec n (alloc_remaining_ a)) as [Hfit|Hnot].
    + cbn [fst snd]. rewrite (wrap64_small (alloc_remaining_ a - n)) by lia.
      replace (alloc_ptr_ a) with (alloc_ptr_ a + 0) at 1 by lia.
      replace (alloc_ptr_ a + n) with (alloc_ptr_ a + (0 + n)) by lia.
      replace (alloc_remaining_ a - n) with (alloc_remaining_ a - (0 + n)) by lia.
      apply (StepBump (a, h) n 0); cbn [fst]; lia.
    + apply AllocateFallback_Step. exact Hok.
  - destruct Hok as (Hn & k & Hk & ->).
    destruct (padding_spec (alloc_ptr_ a) k Hk) as (_ & Hpad & _).
    assert (Hle : 2 ^ k <= 2 ^ 63) by (apply Z.pow_le_mono_r; lia).
    unfold AllocateAligned. fold (padding_of (alloc_ptr_ a) (2 ^ k)).
    set (padding := padding_of (alloc_ptr_ a) (2 ^ k)) in *.
    rewrite (wrap64_small (n + padding)) by lia.
    destruct (Z.leb_spec (n + padding) (alloc_remaining_ a)) as [Hfit|Hnot].
    + cbn [fst snd]. rewrite (wrap64_small (alloc_remaining_ a - _)) by lia.
      replace (n + padding) with (padding + n) by lia.
      apply (StepBump (a, h) n padding); cbn [fst]; lia.
    + apply AllocateFallback_Step. lia.
Qed.

(** The invariant of an arena that was not reset, with the regions [rs]
    handed out so far. *)
Record ArenaInv (st : Arena * Heap) (rs : list (Z * Z)) : Prop := {
  inv_blocks : blocks_ (fst st) = map fst (live (snd st));
  inv_usage : memory_usage_ (fst st) = wrap64 (arrays_usage (live (snd st)));
  inv_remaining : 0 <= alloc_remaining_ (fst st) <= kBlockSize;
  inv_window :
    alloc_remaining_ (fst st) = 0
    \/ exists b, b ∈ live (snd st)
                 /\ within (alloc_ptr_ (fst st), alloc_remaining_ (fst st)) b;
  inv_regions : Forall (fun r => exists b, b ∈ live (snd st) /\ within r b) rs;
  inv_free :
    alloc_remaining_ (fst st) = 0
    \/ Forall (fun r => disjoint r (alloc_ptr_ (fst st), alloc_remaining_ (fst st))) rs;
  inv_pairwise : pairwise disjoint rs
}.

Lemma new_ArenaInv : ArenaInv (new, empty_heap) [].
Proof.
  split; cbn; try reflexivity; try (left; reflexivity).
  - unfold kBlockSize. lia.
  - apply pairwise_nil.
Qed.

Lemma Step_live (st st' : Arena * Heap) (n p : Z) :
  Step st n p st' -> exists ext, live (snd st') = live (snd st) ++ ext.
Proof.
  intros H. destruct H; cbn [snd live].
  - exists []. rewrite app_nil_r. reflexivity.
  - eexists. reflexivity.
  - eexists. reflexivity.
Qed.

Lemma Step_ArenaInv (st st' : Arena * Heap) (rs : list (Z * Z)) (n p : Z) :
  0 < n ->
  ArenaInv st rs -> Step st n p st' ->
  pairwise disjoint (live (snd st')) ->
  ArenaInv st' (rs ++ [(p, n)]).
Proof.
  intros Hn [Hb Hu Hr Hw Hreg Hfree Hpw] HS Hheap.
  destruct st as [a h]. cbn [fst snd] in *.
  destruct HS as [padding Hp0 Hfit|Hbig q|Hsmall q]; cbn [fst snd] in *.
  - (* inside the window *)
    destruct Hw as [Hw|(b & Hbin & Hwb)]; [lia|].
    destruct Hfree as [Hfree|Hfree]; [lia|].
    unfold within in Hwb. cbn [fst snd] in Hwb.
    split; cbn [fst snd alloc_ptr_ alloc_remaining_ blocks_ memory_usage_].
    + exact Hb.
    + exact Hu.
    + lia.
    + right. exists b. split; [exact Hbin|]. unfold within. cbn [fst snd]. lia.
    + apply Forall_app. split; [exact Hreg|]. constructor; [|constructor].
      exists b. split; [exact Hbin|]. unfold within. cbn [fst snd]. lia.
    + right. apply Forall_app. split.
      * eapply Forall_impl; [exact Hfree|]. intros r Hd. unfold disjoint in *.
        cbn [fst snd] in *. lia.
      * constructor; [|constructor]. unfold disjoint. cbn [fst snd]. lia.
    + apply pairwise_snoc; [exact Hpw|].
      eapply Forall_impl; [exact Hfree|]. intros r Hd. unfold disjoint in *.
      cbn [fst snd] in *. lia.
  - (* an array of its own *)
    assert (Hold : forall r b, b ∈ live h -> within r b -> disjoint r (q, n)).
    { intros r b Hbin Hrb. pose proof (pairwise_snoc_inv _ _ _ _ Hheap Hbin) as Hd.
      unfold disjoint, within in *. cbn [fst snd] in *. lia. }
    split; cbn [fst snd alloc_ptr_ alloc_remaining_ blocks_ memory_usage_ live].
    + rewrite map_app, Hb. reflexivity.
    + rewrite Hu, arrays_usage_snoc, wrap64_add. reflexivity.
    + exact Hr.
    + destruct Hw as [Hw|(b & Hbin & Hwb)]; [left; exact Hw|].
      right. exists b. split; [apply elem_of_app; left; exact Hbin | exact Hwb].
    + apply Forall_app. split.
      * eapply Forall_impl; [exact Hreg|]. intros r (b & Hbin & Hrb).
        exists b. split; [apply elem_of_app; left; exact Hbin | exact Hrb].
      * constructor; [|constructor]. exists (q, n).
        split; [apply elem_of_app; right; apply list_elem_of_singleton; reflexivity|].
        unfold within. cbn [fst snd]. lia.
    + destruct Hfree as [Hfree|Hfree]; [left; exact Hfree|].
      destruct Hw as [Hw|(b & Hbin & Hwb)]; [left; exact Hw|].
      right. apply Forall_app. split; [exact Hfree|]. constructor; [|constructor].
      pose proof (Hold _ _ Hbin Hwb) as Hd. unfold disjoint in *. cbn [fst snd] in *. lia.
    + apply pairwise_snoc; [exact Hpw|].
      eapply Forall_impl; [exact Hreg|]. intros r (b & Hbin & Hrb). eapply Hold; eauto.
  - (* a new block *)
    assert (Hold : forall r b, b ∈ live h -> within r b -> disjoint r (q, kBlockSize)).
    { intros r b Hbin Hrb. pose proof (pairwise_snoc_inv _ _ _ _ Hheap Hbin) as Hd.
      unfold disjoint, within in *. cbn [fst snd] in *. lia. }
    assert (Hq : n <= 1024)
      by (unfold kBlockSize in Hsmall; change (4096 / 4) with 1024 in Hsmall; lia).
    split; cbn [fst snd alloc_ptr_ alloc_remaining_ blocks_ memory_usage_ live].
    + rewrite map_app, Hb. reflexivity.
    + rewrite Hu, arrays_usage_snoc, wrap64_add. reflexivity.
    + unfold kBlockSize. lia.
    + right. exists (q, kBlockSize).
      split; [apply elem_of_app; right; apply list_elem_of_singleton; reflexivity|].
      unfold within, kBlockSize. cbn [fst snd]. lia.
    + apply Forall_app. split.
      * eapply Forall_impl; [exact Hreg|]. intros r (b & Hbin & Hrb).
        exists b. split; [apply elem_of_app; left; exact Hbin | exact Hrb].
      * constructor; [|constructor]. exists (q, kBlockSize).
        split; [apply elem_of_app; right; apply list_elem_of_singleton; reflexivity|].
        unfold within, kBlockSize. cbn [fst snd]. lia.
    + right. apply Forall_app. split.
      * eapply Forall_impl; [exact Hreg|]. intros r (b & Hbin & Hrb).
        pose proof (Hold _ _ Hbin Hrb) as Hd. unfold disjoint, kBlockSize in *.
        cbn [fst snd] in *. lia.
      * constructor; [|constructor]. unfold disjoint. cbn [fst snd]. lia.
    + apply pairwise_snoc; [exact Hpw|].
      eapply Forall_impl; [exact Hreg|]. intros r (b & Hbin & Hrb).
      pose proof (Hold _ _ Hbin Hrb) as Hd. unfold disjoint, kBlockSize in *.
      cbn [fst snd] in *. lia.
Qed.

Lemma run_calls_cons (st : Arena * Heap) (c : Call) (cs : list Call) :
  run_calls st (c :: cs)
  = (fst (run_call st c) :: fst (run_calls (snd (run_call st c)) cs),
     snd (run_calls (snd (run_call st c)) cs)).
Proof.
  cbn [run_calls]. destruct (run_call st c) as [p st']. cbn [fst snd].
  destruct (run_calls st' cs) as [ps st'']. reflexivity.
Qed.

Lemma run_call_live (st : Arena * Heap) (c : Call) :
  exists ext, live (snd (snd (run_call st c))) = live (snd st) ++ ext.
Proof.
  destruct st as [a h].
  assert (HF : forall n, exists ext,
             live (snd (snd (AllocateFallback operator_new (a, h) n))) = live h ++ ext).
  { intros n. unfold AllocateFallback, AllocateNewBlock, new_array.
    destruct (_ <? _); cbn [fst snd live]; eexists; reflexivity. }
  destruct c as [n|n alignment]; cbn [run_call snd].
  - unfold Allocate. destruct (_ <=? _); [|apply HF].
    exists []. cbn [snd]. rewrite app_nil_r. reflexivity.
  - unfold AllocateAligned. destruct (_ <=? _); [|apply HF].
    exists []. cbn [snd]. rewrite app_nil_r. reflexivity.
Qed.

Lemma run_calls_live (cs : list Call) :
  forall st, exists ext, live (snd (snd (run_calls st cs))) = live (snd st) ++ ext.
Proof.
  induction cs as [|c cs IH]; intros st.
  - exists []. cbn. rewrite app_nil_r. reflexivity.
  - rewrite run_calls_cons. cbn [snd].
    destruct (IH (snd (run_call st c))) as [ext2 H2].
    destruct (run_call_live st c) as [ext1 H1].
    exists (ext1 ++ ext2). rewrite H2, H1, app_assoc. reflexivity.
Qed.

Lemma run_calls_spec (cs : list Call) :
  Forall call_ok cs ->
  forall st rs,
    ArenaInv st rs ->
    pairwise disjoint (live (snd (snd (run_calls st cs)))) ->
    ArenaInv (snd (run_calls st cs))
             (rs ++ zip (fst (run_calls st cs)) (map call_size cs)).
Proof.
  induction 1 as [|c cs Hc Hcs IH]; intros st rs Hinv Hheap.
  - cbn [run_calls fst snd map zip zip_with]. rewrite app_nil_r. exact Hinv.
  - rewrite run_calls_cons in *. cbn [fst snd map zip zip_with] in *.
    assert (HS : Step st (call_size c) (fst (run_call st c)) (snd (run_call st c))).
    { apply run_call_Step; [exact Hc|]. destruct Hinv. unfold kBlockSize in *. lia. }
    assert (Hpos : 0 < call_size c).
    { destruct c; cbn [call_ok call_size] in *; lia. }
    destruct (run_calls_live cs (snd (run_call st c))) as [ext Hext].
    assert (Hheap' : pairwise disjoint (live (snd (snd (run_call st c))))).
    { rewrite Hext in Hheap. eapply pairwise_app_l. exact Hheap. }
    pose proof (Step_ArenaInv _ _ _ _ _ Hpos Hinv HS Hheap') as Hinv'.
    specialize (IH _ _ Hinv' Hheap).
    rewrite <- app_assoc in IH. exact IH.
Qed.

(** X28.  The arena hands out memory it owns, once.  After any calls of
    [Allocate] and [AllocateAligned] on a new arena (positive sizes,
    alignments that are powers of two), if the arrays that [new] returned
    do not overlap, then the regions returned do not overlap either, each
    lies inside one of these arrays, [blocks_] lists exactly these arrays,
    and [MemoryUsage] is their total length plus one pointer for each,
    modulo 2^64. *)
Theorem allocations_disjoint (cs : list Call) :
  Forall call_ok cs ->
  let ps := fst (run_calls (new, empty_heap) cs) in
  let a := fst (snd (run_calls (new, empty_heap) cs)) in
  let h := snd (snd (run_calls (new, empty_heap) cs)) in
  pairwise disjoint (live h) ->
  let rs := zip ps (map call_size cs) in
  length ps = length cs
  /\ pairwise disjoint rs
  /\ Forall (fun r => exists b, b ∈ live h /\ within r b) rs
  /\ blocks_ a = map fst (live h)
  /\ MemoryUsage a = wrap64 (arrays_usage (live h)).
Proof.
  intros Hok ps a h Hheap rs.
  pose proof (run_calls_spec cs Hok _ _ new_ArenaInv Hheap) as Hinv.
  cbn [app] in Hinv. destruct Hinv as [Hb Hu _ _ Hreg _ Hpw].
  split; [|split; [exact Hpw|split; [exact Hreg|split; [exact Hb|exact Hu]]]].
  unfold ps. clear. generalize (new, empty_heap).
  induction cs as [|c cs IH]; intros st; [reflexivity|].
  rewrite run_calls_cons. cbn [fst length]. rewrite IH. reflexivity.
Qed.

Lemma AllocateAligned_result (st : Arena * Heap) (n k : Z) :
  0 <= k < 64 ->
  fst (AllocateAligned operator_new st n (2 ^ k)) mod 2 ^ k = 0
  \/ exists s, (fst (AllocateAligned operator_new st n (2 ^ k)), s)
                 ∈ live (snd (snd (AllocateAligned operator_new st n (2 ^ k)))).
Proof.
  intros Hk. destruct st as [a h].
  destruct (padding_spec (alloc_ptr_ a) k Hk) as (_ & _ & Hmod).
  unfold AllocateAligned. fold (padding_of (alloc_ptr_ a) (2 ^ k)).
  destruct (_ <=? _); cbn [fst]; [left; exact Hmod|]. right.
  unfold AllocateFallback, AllocateNewBlock, new_array.
  destruct (_ <? _); cbn [fst snd live]; eexists; apply elem_of_app; right;
    apply list_elem_of_singleton; reflexivity.
Qed.

(** X29.  Aligned results.  In any such run, if every array that [new]
    returned starts at a multiple of the alignments asked for, then the
    assertion on the result at the end of [AllocateAligned] holds for every
    call of it. *)
Theorem aligned_results (cs : list Call) :
  Forall (fun c => match c with
                   | CallAllocate _ => True
                   | CallAllocateAligned _ alignment => power_of_two alignment
                   end) cs ->
  let ps := fst (run_calls (new, empty_heap) cs) in
  let h := snd (snd (run_calls (new, empty_heap) cs)) in
  (forall b n alignment,
     b ∈ live h -> CallAllocateAligned n alignment ∈ cs -> fst b mod alignment = 0) ->
  Forall2 (fun c p => match c with
                      | CallAllocate _ => True
                      | CallAllocateAligned _ alignment =>
                          AllocateAligned_result_assert p alignment = true
                      end) cs ps.
Proof.
  intros Hok ps h. unfold ps, h. clear ps h. generalize (new, empty_heap).
  induction Hok as [|c cs Hc Hcs IH]; intros st Hal.
  - constructor.
  - rewrite run_calls_cons in *. cbn [fst snd] in *.
    destruct (run_calls_live cs (snd (run_call st c))) as [ext Hext].
    constructor.
    + destruct c as [n|n alignment]; [exact I|].
      destruct Hc as (k & Hk & ->).
      destruct (padding_spec (alloc_ptr_ (fst st)) k Hk) as (Hmask & _ & _).
      unfold AllocateAligned_result_assert. rewrite Hmask, Z.land_ones by lia.
      apply Z.eqb_eq. cbn [run_call] in *.
      destruct (AllocateAligned_result st n k Hk) as [Hmod|[s Hin]]; [exact Hmod|].
      apply (Hal (_, s) n).
      * cbn [fst snd]. rewrite Hext. apply elem_of_app. left. exact Hin.
      * apply list_elem_of_here.
    + apply IH. intros b n alignment Hb Hin. apply (Hal b n). exact Hb.
      apply list_elem_of_further. exact Hin.
Qed.

(** X30.  [Reset] trusts the first block to have [kBlockSize] bytes.  When
    the first allocation of a new arena asks for more than a quarter of
    [kBlockSize] and less than [kBlockSize] bytes, the first block is an
    array of just that length; after [Reset] the next allocation of up to
    [kBlockSize] bytes is served from it, though it is longer than the
    array. *)
Theorem Reset_window (n m : Z) :
  kBlockSize / 4 < n < kBlockSize -> n < m <= kBlockSize ->
  let r1 := Allocate operator_new (new, empty_heap) n in
  let st2 := Reset (snd r1) in
  let r2 := Allocate operator_new st2 m in
  live (snd (snd r2)) = [(fst r1, n)]
  /\ blocks_ (fst (snd r2)) = [fst r1]
  /\ fst r2 = fst r1
  /\ fst r1 + n < fst r2 + m
  /\ MemoryUsage (fst st2) = kBlockSize.
Proof.
  intros Hn Hm.
  assert (H1 : Allocate operator_new (new, empty_heap) n
               = (operator_new 0%nat,
                  ({| alloc_ptr_ := 0; alloc_remaining_ := 0;
                      blocks_ := [operator_new 0%nat];
                      memory_usage_ := wrap64 (0 + wrap64 (n + sizeof_ptr)) |},
                   {| live := [(operator_new 0%nat, n)]; news := 1 |}))).
  { unfold Allocate, AllocateFallback. cbn [new alloc_remaining_].
    destruct (Z.leb_spec n 0) as [H0|_].
    { unfold kBlockSize in Hn. change (4096 / 4) with 1024 in Hn. lia. }
    destruct (Z.ltb_spec (kBlockSize / 4) n) as [_|H0]; [reflexivity | lia]. }
  cbv zeta. rewrite H1. cbn [fst snd Reset blocks_ fold_left].
  unfold Allocate. cbn [alloc_remaining_ alloc_ptr_].
  destruct (Z.leb_spec m kBlockSize) as [_|H0]; [|lia].
  cbn [fst snd live blocks_ memory_usage_ MemoryUsage].
  repeat split; try reflexivity. lia.
Qed.

End WithAllocator.

Definition example_new (n : nat) : Z := 65536 * (Z.of_nat n + 1).

Definition example_calls : list Call :=
  [CallAllocate 100; CallAllocateAligned 17 8; CallAllocate 8192;
   CallAllocateAligned 100 64; CallAllocate 1000; CallAllocate 4000].

Lemma allocations_disjoint_witness :
  let ps := fst (run_calls example_new (new, empty_heap) example_calls) in
  let a := fst (snd (run_calls example_new (new, empty_heap) example_calls)) in
  let h := snd (snd (run_calls example_new (new, empty_heap) example_calls)) in
  let rs := zip ps (map call_size example_calls) in
  length ps = length example_calls
  /\ pairwise disjoint rs
  /\ Forall (fun r => exists b, b ∈ live h /\ within r b) rs
  /\ blocks_ a = map fst (live h)
  /\ MemoryUsage a = wrap64 (arrays_usage (live h)).
Proof.
  apply (allocations_disjoint example_new example_calls).
  - repeat constructor; cbn; try lia.
    + exists 3. split; [lia | reflexivity].
    + exists 6. split; [lia | reflexivity].
  - intros i j x y Hij Hx Hy. vm_compute in Hx, Hy.
    destruct i as [|[|[|[|i]]]]; destruct j as [|[|[|[|j]]]];
      try lia; try discriminate;
      injection Hx as <-; injection Hy as <-; unfold disjoint; cbn; lia.
Defined.

Lemma aligned_results_witness :
  Forall2 (fun c p => match c with
                      | CallAllocate _ => True
                      | CallAllocateAligned _ alignment =>
                          AllocateAligned_result_assert p alignment = true
                      end)
          example_calls
          (fst (run_calls example_new (new, empty_heap) example_calls)).
Proof.
  apply (aligned_results example_new example_calls).
  - repeat constructor.
    + exists 3. split; [lia | reflexivity].
    + exists 6. split; [lia | reflexivity].
  - intros b n alignment Hb Hc.
    assert (Hal : alignment = 8 \/ alignment = 64).
    { unfold example_calls in Hc.
      repeat (apply elem_of_cons in Hc as [Hc|Hc]; [try discriminate; injection Hc; auto|]).
      apply elem_of_nil in Hc. contradiction. }
    vm_compute in Hb.
    repeat (apply elem_of_cons in Hb as [->|Hb]; [destruct Hal as [-> | ->]; reflexivity|]).
    apply elem_of_nil in Hb. contradiction.
Defined.

Lemma Reset_window_witness :
  let r1 := Allocate example_new (new, empty_heap) 2000 in
  let st2 := Reset (snd r1) in
  let r2 := Allocate example_new st2 3000 in
  live (snd (snd r2)) = [(fst r1, 2000)]
  /\ blocks_ (fst (snd r2)) = [fst r1]
  /\ fst r2 = fst r1
  /\ fst r1 + 2000 < fst r2 + 3000
  /\ MemoryUsage (fst st2) = kBlockSize.
Proof.
  apply (Reset_window example_new 2000 3000); vm_compute; split; (reflexivity || discriminate).
Defined.

End ArenaFacts.
